(** * Boundary-tag storage allocators: a shallow embedding and its properties

    Two allocators over one growable region are modelled here, each from its
    own translation unit:

    - [Implicit]: [mm-implicit.c], blocks found by walking the heap;
    - [Explicit]: [mm-explicit.c], free blocks kept on a doubly linked list
      whose nodes live in the payload of the free blocks.

    Memory is byte addressed.  A [size_t] and a pointer are 64-bit values,
    kept in [Z] with the wrap-around of unsigned arithmetic written out.
    An access outside the region handed out by the provider is a [Fault]. *)

From Stdlib Require Import ZArith Lia List Bool.
From stdpp Require Import base option gmap list.

#[local] Open Scope Z_scope.

(** ** Part I: definitions *)

(** *** The region provider and raw memory *)

Module Mem.

(** Unsigned 64-bit wrap-around. *)
Definition wrap (z : Z) : Z := z mod 2 ^ 64.

(** [(void * ) -1], the failure marker of [mem_sbrk]. *)
Definition SBRK_FAILED : Z := 2 ^ 64 - 1.

Definition NULL : Z := 0.

(** The provider: the bytes, the first address, the current break and the
    first address past the largest region it can hand out. *)
Record heap := mkHeap {
  bytes : gmap Z Z;
  mem_start_brk : Z;
  mem_brk : Z;
  mem_max_addr : Z
}.

Definition mem_init (lo hi : Z) : heap :=
  {| bytes := ∅; mem_start_brk := lo; mem_brk := lo; mem_max_addr := hi |}.

Definition load8 (m : gmap Z Z) (a : Z) : Z := default 0 (m !! a) mod 256.

Definition store8 (m : gmap Z Z) (a v : Z) : gmap Z Z := <[a := v mod 256]> m.

(** Little-endian multi-byte access. *)
Fixpoint load_le (n : nat) (m : gmap Z Z) (a : Z) : Z :=
  match n with
  | O => 0
  | S n' => load8 m a + 256 * load_le n' m (a + 1)
  end.

Fixpoint store_le (n : nat) (m : gmap Z Z) (a v : Z) : gmap Z Z :=
  match n with
  | O => m
  | S n' => store_le n' (store8 m a v) (a + 1) (v / 256)
  end.

Definition load64 := load_le 8.
Definition store64 := store_le 8.

Fixpoint read_bytes (n : nat) (m : gmap Z Z) (a : Z) : list Z :=
  match n with
  | O => []
  | S n' => load8 m a :: read_bytes n' m (a + 1)
  end.

Fixpoint write_bytes (m : gmap Z Z) (a : Z) (l : list Z) : gmap Z Z :=
  match l with
  | [] => m
  | b :: l' => write_bytes (store8 m a b) (a + 1) l'
  end.

(** The [n] bytes from [a] lie in the region handed out so far. *)
Definition in_heap (h : heap) (a n : Z) : bool :=
  (mem_start_brk h <=? a) && (a + n <=? mem_brk h).

Definition set_bytes (h : heap) (m : gmap Z Z) : heap :=
  {| bytes := m; mem_start_brk := mem_start_brk h; mem_brk := mem_brk h;
     mem_max_addr := mem_max_addr h |}.

Definition read64 (h : heap) (a : Z) : option Z :=
  if in_heap h a 8 then Some (load64 (bytes h) a) else None.

Definition write64 (h : heap) (a v : Z) : option heap :=
  if in_heap h a 8 then Some (set_bytes h (store64 (bytes h) a v)) else None.

(** [memcpy(dst, src, n)]; no byte is touched when [n] is 0. *)
Definition memcpy (h : heap) (dst src n : Z) : option heap :=
  if n =? 0 then Some h
  else if in_heap h dst n && in_heap h src n then
    Some (set_bytes h (write_bytes (bytes h) dst (read_bytes (Z.to_nat n) (bytes h) src)))
  else None.

(** [memset(p, c, n)]. *)
Definition memset (h : heap) (p c n : Z) : option heap :=
  if n =? 0 then Some h
  else if in_heap h p n then
    Some (set_bytes h (write_bytes (bytes h) p (replicate (Z.to_nat n) c)))
  else None.

(** Modelled from the spec: [mem_sbrk] of [memlib.h], whose source is not part
    of the repository.  "Grow by N bytes, return start address of new space
    or a failure marker"; the region is append-only and never shrinks.  The
    new bytes keep whatever the memory held. *)
Definition mem_sbrk (incr : Z) (h : heap) : Z * heap :=
  if mem_brk h + incr <=? mem_max_addr h then
    (mem_brk h,
     {| bytes := bytes h; mem_start_brk := mem_start_brk h;
        mem_brk := mem_brk h + incr; mem_max_addr := mem_max_addr h |})
  else (SBRK_FAILED, h).

End Mem.

(** *** Outcomes of allocator code *)

Module Exec.

(** Allocator state: the provider plus the translation unit's statics. *)
Record state (G : Type) := mkState { hp : Mem.heap; gl : G }.
Arguments mkState {G} _ _.
Arguments hp {G} _.
Arguments gl {G} _.

(** [Fault]: an access outside the region.  [OutOfFuel]: the loop budget of the
    model ran out (the C loop would still be running). *)
Inductive result (G A : Type) : Type :=
| Ok (a : A) (s : state G)
| Fault
| OutOfFuel.
Arguments Ok {G A} _ _.
Arguments Fault {G A}.
Arguments OutOfFuel {G A}.

Definition M (G A : Type) : Type := state G -> result G A.

Definition ret {G A} (a : A) : M G A := fun s => Ok a s.

Definition bind {G A B} (c : M G A) (k : A -> M G B) : M G B :=
  fun s => match c s with
           | Ok a s' => k a s'
           | Fault => Fault
           | OutOfFuel => OutOfFuel
           end.

Definition fault {G A} : M G A := fun _ => Fault.
Definition out_of_fuel {G A} : M G A := fun _ => OutOfFuel.

Definition get_gl {G} : M G G := fun s => Ok (gl s) s.
Definition put_gl {G} (g : G) : M G unit := fun s => Ok tt (mkState (hp s) g).

(** A [size_t] or pointer read through a pointer. *)
Definition load {G} (a : Z) : M G Z :=
  fun s => match Mem.read64 (hp s) a with
           | Some v => Ok v s
           | None => Fault
           end.

Definition store {G} (a v : Z) : M G unit :=
  fun s => match Mem.write64 (hp s) a v with
           | Some h => Ok tt (mkState h (gl s))
           | None => Fault
           end.

Definition sbrk {G} (incr : Z) : M G Z :=
  fun s => let '(p, h) := Mem.mem_sbrk incr (hp s) in Ok p (mkState h (gl s)).

Definition memcpy {G} (dst src n : Z) : M G unit :=
  fun s => match Mem.memcpy (hp s) dst src n with
           | Some h => Ok tt (mkState h (gl s))
           | None => Fault
           end.

Definition memset {G} (p c n : Z) : M G unit :=
  fun s => match Mem.memset (hp s) p c n with
           | Some h => Ok tt (mkState h (gl s))
           | None => Fault
           end.

(** [wpx E c Q s]: run from [s], [c] ends in a state and with an answer that
    satisfy [Q], or it faults or exhausts its budget and [E] holds.  With
    [E := False] this is total correctness, with [E := True] partial. *)
Definition wpx {G A} (E : Prop) (c : M G A) (Q : A -> state G -> Prop)
    (s : state G) : Prop :=
  match c s with
  | Ok a s' => Q a s'
  | Fault => E
  | OutOfFuel => E
  end.

(** The state and the answer a run ends with; [d] when it does not end. *)
Definition state_of {G A} (d : state G) (r : result G A) : state G :=
  match r with
  | Ok _ s => s
  | _ => d
  end.

Definition answer_of {G A} (d : A) (r : result G A) : A :=
  match r with
  | Ok a _ => a
  | _ => d
  end.

End Exec.

Notation "'do' x <- c ; k" := (Exec.bind c (fun x => k))
  (at level 10, x name, c at level 100, k at level 200,
   format "'[v' 'do'  x  <-  c ; '/' k ']'").
Notation "c ;; k" := (Exec.bind c (fun _ => k))
  (at level 100, k at level 200, right associativity).

(** *** The scanning allocator, [mm-implicit.c] *)

Module Implicit.
Import Mem Exec.

(** [const size_t ALIGNMENT = 2 * sizeof(size_t)]. *)
Definition ALIGNMENT : Z := 16.

(** [sizeof(block_t)] and [offsetof(block_t, payload)]: the header word. *)
Definition sizeof_block_t : Z := 8.

(** [static block_t *mm_heap_first, *mm_heap_last]. *)
Record globals := mkGlobals { mm_heap_first : Z; mm_heap_last : Z }.

Definition st : Type := state globals.

Definition round_up (size n : Z) : Z := wrap (wrap (size + (n - 1)) / n * n).

(** [size | is_allocated], the header word. *)
Definition encode (size : Z) (is_alloc : bool) : Z := Z.lor size (Z.b2z is_alloc).

Definition set_header (block size : Z) (is_alloc : bool) : M globals unit :=
  store block (encode size is_alloc).

(** [block->header & ~1]. *)
Definition get_size (block : Z) : M globals Z :=
  do h <- load block; ret (Z.land h (Z.lnot 1)).

(** [block->header & 1]. *)
Definition is_allocated (block : Z) : M globals bool :=
  do h <- load block; ret (negb (Z.land h 1 =? 0)).

Definition payload (block : Z) : Z := wrap (block + sizeof_block_t).

Definition block_from_payload (ptr : Z) : Z := wrap (ptr - sizeof_block_t).

Definition mm_init : M globals bool :=
  do padding <- sbrk (ALIGNMENT - sizeof_block_t);
  if padding =? SBRK_FAILED then ret false
  else
    put_gl {| mm_heap_first := NULL; mm_heap_last := NULL |};;
    ret true.

(** The body of [if (!is_allocated(curr) && curr_size >= required_size)]:
    split when the rest can hold a header and [ALIGNMENT] bytes, take the
    whole block otherwise; answer the payload. *)
Definition place (curr curr_size required_size : Z) : M globals Z :=
  (if sizeof_block_t + ALIGNMENT <=? wrap (curr_size - required_size) then
     set_header curr required_size true;;
     let next_block := wrap (curr + required_size) in
     set_header next_block (wrap (curr_size - required_size)) false;;
     do g <- get_gl;
     if curr =? mm_heap_last g then
       put_gl {| mm_heap_first := mm_heap_first g; mm_heap_last := next_block |}
     else ret tt
   else set_header curr curr_size true);;
  ret (payload curr).

(** The [while (curr <= mm_heap_last)] loop of [mm_malloc]; [None] when the
    loop falls through without a fit. *)
Fixpoint scan (fuel : nat) (required_size curr prev_free : Z) : M globals (option Z) :=
  match fuel with
  | O => out_of_fuel
  | S fuel' =>
    do g <- get_gl;
    if curr <=? mm_heap_last g then
      do curr_size <- get_size curr;
      do a <- is_allocated curr;
      do cc <- (if negb a && negb (prev_free =? NULL) then
                  do prev_size <- get_size prev_free;
                  let curr_size := wrap (curr_size + prev_size) in
                  set_header prev_free curr_size false;;
                  ret (prev_free, curr_size)
                else ret (curr, curr_size));
      let curr := fst cc in
      let curr_size := snd cc in
      do a <- is_allocated curr;
      if negb a && (required_size <=? curr_size) then
        do p <- place curr curr_size required_size;
        ret (Some p)
      else
        do a <- is_allocated curr;
        let prev_free := if negb a then curr else NULL in
        scan fuel' required_size (wrap (curr + curr_size)) prev_free
    else ret None
  end.

Definition mm_malloc (fuel : nat) (size : Z) : M globals Z :=
  let size := round_up (wrap (sizeof_block_t + size)) ALIGNMENT in
  let required_size := size in
  do g <- get_gl;
  if mm_heap_first g =? NULL then
    do block <- sbrk required_size;
    if block =? SBRK_FAILED then ret NULL
    else
      set_header block required_size true;;
      put_gl {| mm_heap_first := block; mm_heap_last := block |};;
      ret (payload block)
  else
    do r <- scan fuel required_size (mm_heap_first g) NULL;
    match r with
    | Some p => ret p
    | None =>
      do new_block <- sbrk required_size;
      if new_block =? SBRK_FAILED then ret NULL
      else
        set_header new_block required_size true;;
        do g <- get_gl;
        put_gl {| mm_heap_first := mm_heap_first g; mm_heap_last := new_block |};;
        ret (payload new_block)
    end.

Definition mm_free (ptr : Z) : M globals unit :=
  if ptr =? NULL then ret tt
  else
    let block := block_from_payload ptr in
    do size <- get_size block;
    set_header block size false.

Definition mm_realloc (fuel : nat) (old_ptr size : Z) : M globals Z :=
  if old_ptr =? NULL then mm_malloc fuel size
  else if size =? 0 then mm_free old_ptr;; ret NULL
  else
    let old_block := block_from_payload old_ptr in
    do bsize <- get_size old_block;
    let old_size := wrap (bsize - sizeof_block_t) in
    if size =? old_size then ret old_ptr
    else
      do new_ptr <- mm_malloc fuel size;
      if new_ptr =? NULL then ret NULL
      else
        let copy_size := if old_size <? size then old_size else size in
        memcpy new_ptr old_ptr copy_size;;
        mm_free old_ptr;;
        ret new_ptr.

Definition mm_calloc (fuel : nat) (nmemb size : Z) : M globals Z :=
  let total_size := wrap (nmemb * size) in
  do allocated <- mm_malloc fuel total_size;
  (if negb (allocated =? NULL) then memset allocated 0 total_size else ret tt);;
  ret allocated.

(** The state before [mm_init]: an empty region at [lo], growable up to [hi]. *)
Definition fresh (lo hi : Z) : st :=
  mkState (mem_init lo hi) {| mm_heap_first := NULL; mm_heap_last := NULL |}.

(** **** The heap as a list of blocks

    A block is its size, header word included, and its flag; the list is in
    address order. *)

Definition total (bs : list (Z * bool)) : Z :=
  fold_right (fun b acc => fst b + acc) 0 bs.

(** The headers of [bs] are laid out in [m] from address [a] on. *)
Fixpoint chain (m : gmap Z Z) (a : Z) (bs : list (Z * bool)) : Prop :=
  match bs with
  | [] => True
  | (sz, al) :: bs' =>
    load64 m a = encode sz al /\ 16 <= sz /\ sz mod 16 = 0 /\ chain m (a + sz) bs'
  end.

(** Address and size of the allocated blocks of [bs], laid out from [a]. *)
Fixpoint allocs (a : Z) (bs : list (Z * bool)) : list (Z * Z) :=
  match bs with
  | [] => []
  | (sz, true) :: bs' => (a, sz) :: allocs (a + sz) bs'
  | (sz, false) :: bs' => allocs (a + sz) bs'
  end.

(** Every byte of the blocks [A] reads in [m'] as it does in [m]. *)
Definition frame (A : list (Z * Z)) (m m' : gmap Z Z) : Prop :=
  forall b sz a, In (b, sz) A -> b <= a < b + sz -> load8 m' a = load8 m a.

Definition heap_base (s : st) : Z := mem_start_brk (hp s) + sizeof_block_t.

(** The state is a well-formed heap whose blocks are [bs]. *)
Record heap_ok (s : st) (bs : list (Z * bool)) : Prop := mkHeapOk {
  ok_lo_aligned : mem_start_brk (hp s) mod 16 = 0;
  ok_lo : 0 <= mem_start_brk (hp s);
  ok_hi : mem_max_addr (hp s) < 2 ^ 64 - 1;
  ok_brk_hi : mem_brk (hp s) <= mem_max_addr (hp s);
  ok_brk : mem_brk (hp s) = heap_base s + total bs;
  ok_chain : chain (bytes (hp s)) (heap_base s) bs;
  ok_first : match bs with
             | [] => mm_heap_first (gl s) = NULL
             | _ :: _ =>
               mm_heap_first (gl s) = heap_base s /\
               heap_base s <= mm_heap_last (gl s) < mem_brk (hp s)
             end
}.

(** The provider is the same in both states, break included or not. *)
Definition same_bounds (s s' : st) : Prop :=
  mem_start_brk (hp s') = mem_start_brk (hp s) /\
  mem_max_addr (hp s') = mem_max_addr (hp s).

(** The search answered the payload [p] of a block now allocated; the blocks
    allocated before are those of [A0]. *)
Definition took (A0 : list (Z * Z)) (req p : Z) (s' : st) : Prop :=
  exists P R sz,
    heap_ok s' (P ++ (sz, true) :: R) /\
    p = heap_base s' + total P + 8 /\
    A0 = allocs (heap_base s') P ++ allocs (heap_base s' + total P + sz) R /\
    req <= sz.

(** Bounds, break and first block are those of [s]. *)
Definition kept (s s' : st) : Prop :=
  same_bounds s s' /\ mem_brk (hp s') = mem_brk (hp s) /\
  mm_heap_first (gl s') = mm_heap_first (gl s).

(** What [place] makes of the free block after [P], of size [csz], for a
    block of [req] bytes: a block of [req] bytes and a free remainder when
    the remainder has room for a header and the alignment unit, or else the
    whole block. *)
Definition placed (P : list (Z * bool)) (csz : Z) (R : list (Z * bool)) (req : Z)
    (s' : st) : Prop :=
  (sizeof_block_t + ALIGNMENT <= csz - req /\
   heap_ok s' (P ++ (req, true) :: (csz - req, false) :: R)) \/
  (csz - req < sizeof_block_t + ALIGNMENT /\ heap_ok s' (P ++ (csz, true) :: R)).

(** What a run of [scan] leaves: only free blocks were written, and either a
    block was taken or the allocated blocks are exactly those of [A0]. *)
Definition scan_post (s : st) (A0 : list (Z * Z)) (m0 : gmap Z Z) (req : Z)
    (r : option Z) (s' : st) : Prop :=
  kept s s' /\ frame A0 m0 (bytes (hp s')) /\
  match r with
  | Some p => took A0 req p s'
  | None => (exists bs', heap_ok s' bs' /\ allocs (heap_base s') bs' = A0) /\ gl s' = gl s
  end.

(** The block size [mm_malloc] computes for a request. *)
Definition required (size : Z) : Z := round_up (wrap (sizeof_block_t + size)) ALIGNMENT.

(** What [mm_malloc] leaves, from a heap with blocks [bs]: no new block and
    the break where it was, when the provider has no room for the block; or
    a block taken, by a fit or at the old break. *)
Definition malloc_post (s : st) (bs : list (Z * bool)) (size r : Z) (s' : st) : Prop :=
  same_bounds s s' /\
  frame (allocs (heap_base s) bs) (bytes (hp s)) (bytes (hp s')) /\
  ((r = NULL /\ mem_brk (hp s') = mem_brk (hp s) /\ gl s' = gl s /\
    mem_max_addr (hp s) < mem_brk (hp s) + required size /\
    exists bs', heap_ok s' bs' /\ allocs (heap_base s') bs' = allocs (heap_base s) bs) \/
   (took (allocs (heap_base s) bs) (size + 8) r s' /\
    (mem_brk (hp s') = mem_brk (hp s) \/
     (mem_brk (hp s') = mem_brk (hp s) + required size /\
      r = mem_brk (hp s) + 8 /\
      load64 (bytes (hp s')) (mem_brk (hp s)) = encode (required size) true)))).

(** What [mm_free] leaves when it is given the block after [L1]. *)
Definition free_post (s : st) (L1 : list (Z * bool)) (sz : Z) (L2 : list (Z * bool))
    (s' : st) : Prop :=
  heap_ok s' (L1 ++ (sz, false) :: L2) /\
  gl s' = gl s /\
  hp s' = set_bytes (hp s)
            (store64 (bytes (hp s)) (heap_base s + total L1) (encode sz false)).

(** What [mm_realloc] leaves when it is given the block after [L1], of size
    [osz], and a size other than 0: the same pointer, or no new block, or a
    new block with the old payload copied and the old block free. *)
Definition realloc_post (s : st) (L1 : list (Z * bool)) (osz : Z) (L2 : list (Z * bool))
    (size r : Z) (s' : st) : Prop :=
  let bs := L1 ++ (osz, true) :: L2 in
  let old := heap_base s + total L1 + 8 in
  same_bounds s s' /\
  ((size = osz - 8 /\ r = old /\ s' = s) \/
   (size <> osz - 8 /\ r = NULL /\ mem_brk (hp s') = mem_brk (hp s) /\ gl s' = gl s /\
    mem_max_addr (hp s) < mem_brk (hp s) + required size /\
    frame (allocs (heap_base s) bs) (bytes (hp s)) (bytes (hp s')) /\
    exists bs', heap_ok s' bs' /\ allocs (heap_base s') bs' = allocs (heap_base s) bs) \/
   (size <> osz - 8 /\ r <> NULL /\ r <> old /\
    exists X Y nsz,
      heap_ok s' (X ++ (osz, false) :: Y) /\ old - 8 = heap_base s' + total X /\
      In (r - 8, nsz) (allocs (heap_base s') (X ++ (osz, false) :: Y)) /\
      size + 8 <= nsz /\
      (forall b z, In (b, z) (allocs (heap_base s) bs) -> b <> old - 8 ->
                   In (b, z) (allocs (heap_base s') (X ++ (osz, false) :: Y))) /\
      (forall i, 0 <= i < Z.min (osz - 8) size ->
                 load8 (bytes (hp s')) (r + i) = load8 (bytes (hp s)) (old + i)))).

(** What [mm_calloc] leaves for a request of [n] bytes in all. *)
Definition calloc_post (s : st) (bs : list (Z * bool)) (n r : Z) (s' : st) : Prop :=
  same_bounds s s' /\
  frame (allocs (heap_base s) bs) (bytes (hp s)) (bytes (hp s')) /\
  ((r = NULL /\ mem_brk (hp s') = mem_brk (hp s) /\ gl s' = gl s /\
    mem_max_addr (hp s) < mem_brk (hp s) + required n /\
    exists bs', heap_ok s' bs' /\ allocs (heap_base s') bs' = allocs (heap_base s) bs) \/
   (took (allocs (heap_base s) bs) (n + 8) r s' /\
    forall i, 0 <= i < n -> load8 (bytes (hp s')) (r + i) = 0)).



(** **** Runs of the allocator

    The calls of [mm.h], and the pointers a run has received and not given
    back; a caller frees and reallocates only those. *)

Inductive call : Type :=
| Malloc (size : Z)
| Free (ptr : Z)
| Realloc (ptr size : Z)
| Calloc (nmemb size : Z).

Definition run_call (fuel : nat) (c : call) : M globals Z :=
  match c with
  | Malloc size => mm_malloc fuel size
  | Free ptr => mm_free ptr;; ret NULL
  | Realloc ptr size => mm_realloc fuel ptr size
  | Calloc nmemb size => mm_calloc fuel nmemb size
  end.

(** A request whose rounding up does not wrap around. *)
Definition fits (size : Z) : Prop := 0 <= size /\ size + 23 < 2 ^ 64.

Definition valid (L : gset Z) (c : call) : Prop :=
  match c with
  | Malloc size => fits size
  | Free ptr => ptr = NULL \/ ptr ∈ L
  | Realloc ptr size => (ptr = NULL \/ ptr ∈ L) /\ fits size
  | Calloc nmemb size => fits (wrap (nmemb * size))
  end.

Definition gained (L : gset Z) (r : Z) : gset Z :=
  if r =? NULL then L else L ∪ {[r]}.

Definition live_after (L : gset Z) (c : call) (r : Z) : gset Z :=
  match c with
  | Malloc _ | Calloc _ _ => gained L r
  | Free ptr => L ∖ {[ptr]}
  | Realloc ptr size =>
    if ptr =? NULL then gained L r
    else if size =? 0 then L ∖ {[ptr]}
    else if r =? NULL then L
    else gained (L ∖ {[ptr]}) r
  end.

(** The states a caller can reach, with the pointers it holds. *)
Inductive reach : st -> gset Z -> Prop :=
| reach_init lo hi s :
    lo mod 16 = 0 -> 0 <= lo -> hi < 2 ^ 64 - 1 ->
    mm_init (fresh lo hi) = Ok true s -> reach s ∅
| reach_step s L fuel c r s' :
    reach s L -> valid L c -> run_call fuel c s = Ok r s' ->
    reach s' (live_after L c r).

(** Every pointer held is the payload of an allocated block. *)
Definition holds (s : st) (L : gset Z) : Prop :=
  exists bs, heap_ok s bs /\
    forall p, p ∈ L -> exists sz, In (p - 8, sz) (allocs (heap_base s) bs).

(** **** Sample runs *)

(** A new heap. *)
Definition after_init : st :=
  state_of (fresh 0 0) (mm_init (fresh 1024 4096)).

(** Two blocks of 16 bytes, both freed. *)
Definition two_freed : M globals (Z * Z) :=
  do ok <- mm_init;
  do a <- mm_malloc 10 8;
  do b <- mm_malloc 10 8;
  mm_free a;; mm_free b;; ret (a, b).

Definition after_two_freed : st :=
  state_of (fresh 0 0) (two_freed (fresh 1024 1100)).

(** Three blocks of 16 bytes, all freed. *)
Definition three_freed : M globals (Z * Z * Z) :=
  do ok <- mm_init;
  do a <- mm_malloc 10 8;
  do b <- mm_malloc 10 8;
  do c <- mm_malloc 10 8;
  mm_free a;; mm_free b;; mm_free c;; ret (a, b, c).

Definition after_three_freed : st :=
  state_of (fresh 0 0) (three_freed (fresh 1024 4096)).

(** One block of 16 bytes, allocated. *)
Definition one_block : M globals Z :=
  do ok <- mm_init;
  mm_malloc 10 8.

Definition after_one_block : st :=
  state_of (fresh 0 0) (one_block (fresh 1024 4096)).

(** Two blocks freed, then a request served from the two merged and split. *)
Definition lost_block : M globals (Z * Z * Z) :=
  do ok <- mm_init;
  do a <- mm_malloc 10 8;
  do b <- mm_malloc 10 40;
  mm_free a;; mm_free b;;
  do c <- mm_malloc 10 24;
  ret (a, b, c).

Definition after_lost_block : st :=
  state_of (fresh 0 0) (lost_block (fresh 1024 4096)).

(** Two blocks of 16 bytes, allocated. *)
Definition two_blocks : M globals (Z * Z) :=
  do ok <- mm_init;
  do a <- mm_malloc 10 8;
  do b <- mm_malloc 10 8;
  ret (a, b).

Definition after_two_blocks : st :=
  state_of (fresh 0 0) (two_blocks (fresh 1024 4096)).

(** Two blocks of 16 bytes, the second freed. *)
Definition free_second : M globals (Z * Z) :=
  do ok <- mm_init;
  do a <- mm_malloc 10 8;
  do b <- mm_malloc 10 8;
  mm_free b;; ret (a, b).

Definition after_free_second : st :=
  state_of (fresh 0 0) (free_second (fresh 1024 4096)).

End Implicit.

(** *** The free-list allocator, [mm-explicit.c] *)

Module Explicit.
Import Mem Exec.

(** [const size_t ALIGNMENT = 2 * sizeof(size_t)]. *)
Definition ALIGNMENT : Z := 16.

(** [sizeof(size_t)], also [sizeof(header_t)] and [sizeof(footer_t)]. *)
Definition sizeof_size_t : Z := 8.

(** Field offsets of [block_t]: the footer of the block before, the header,
    the payload. *)
Definition off_footer : Z := 0.
Definition off_header : Z := 8.
Definition off_payload : Z := 16.

(** Field offsets of [linked_node_t]. *)
Definition off_prev : Z := 0.
Definition off_next : Z := 8.

(** [linked_node_t *head, *tail]. *)
Record globals := mkGlobals { head : Z; tail : Z }.

Definition st : Type := state globals.

Definition round_up (size n : Z) : Z := wrap (wrap (size + (n - 1)) / n * n).

(** [size | is_allocated], the word of a header or a footer. *)
Definition encode (size : Z) (is_alloc : bool) : Z := Z.lor size (Z.b2z is_alloc).

(** [x < y + 0.01] for [size_t] values [x] and [y].  C compares in double
    precision; for values below [2 ^ 47], which bounds every size in a
    region a provider can hand out, both conversions are exact and the sum
    lies strictly between [y] and [y + 1], so the test is decided on
    hundredths. *)
Definition lt_tolerance (x y : Z) : bool := 100 * x <? 100 * y + 1.

Definition set_boundaries (block size : Z) (is_alloc : bool) : M globals unit :=
  store (wrap (block + off_header)) (encode size is_alloc);;
  let footer := wrap (wrap (block + ALIGNMENT) + size) in
  store footer (encode size is_alloc).

(** [block->header & ~1]. *)
Definition get_size (block : Z) : M globals Z :=
  do h <- load (wrap (block + off_header)); ret (Z.land h (Z.lnot 1)).

(** [block->footer & -1]: the mask keeps every bit. *)
Definition get_prev_size (block : Z) : M globals Z :=
  do f <- load (wrap (block + off_footer)); ret (Z.land f (-1)).

(** [block->footer & 1]. *)
Definition is_prev_allocated (block : Z) : M globals bool :=
  do f <- load (wrap (block + off_footer)); ret (negb (Z.land f 1 =? 0)).

Definition is_next_allocated (block : Z) : M globals bool :=
  do size <- get_size block;
  let next_header := wrap (wrap (wrap (block + ALIGNMENT) + size) + sizeof_size_t) in
  do h <- load next_header;
  if negb (Z.land h (Z.lnot 1) =? 0) then ret (negb (Z.land h 1 =? 0))
  else ret true.

Definition payload (block : Z) : Z := wrap (block + off_payload).

Definition block_from_payload (ptr : Z) : Z := wrap (ptr - off_payload).

Definition add_linked_node_to_block (block : Z) : M globals unit :=
  let new_node := wrap (block + ALIGNMENT) in
  do g <- get_gl;
  do tp <- load (wrap (tail g + off_prev));
  store (wrap (new_node + off_prev)) tp;;
  store (wrap (new_node + off_next)) (tail g);;
  do tp <- load (wrap (tail g + off_prev));
  store (wrap (tp + off_next)) new_node;;
  store (wrap (tail g + off_prev)) new_node.

Definition remove_linked_node_from_block (block : Z) : M globals unit :=
  let temp := wrap (block + ALIGNMENT) in
  do p <- load (wrap (temp + off_prev));
  do n <- load (wrap (temp + off_next));
  store (wrap (p + off_next)) n;;
  do n <- load (wrap (temp + off_next));
  do p <- load (wrap (temp + off_prev));
  store (wrap (n + off_prev)) p.

Definition split (block size allocated_size : Z) : M globals unit :=
  set_boundaries block allocated_size true;;
  do bsize <- get_size block;
  let da_next_block := wrap (wrap (block + bsize) + ALIGNMENT) in
  set_boundaries da_next_block (wrap (wrap (size - allocated_size) - ALIGNMENT)) false;;
  add_linked_node_to_block da_next_block;;
  remove_linked_node_from_block block.

Definition coalesce (block : Z) : M globals unit :=
  do size <- get_size block;
  do pa <- is_prev_allocated block;
  if negb pa then
    do ps <- get_prev_size block;
    let size := wrap (wrap (size + ps) + ALIGNMENT) in
    do ps <- get_prev_size block;
    set_boundaries (wrap (wrap (block - ps) - ALIGNMENT)) size false;;
    remove_linked_node_from_block block;;
    do na <- is_next_allocated block;
    if negb na then
      do bsize <- get_size block;
      let da_next_block := wrap (wrap (block + bsize) + ALIGNMENT) in
      do ns <- get_size da_next_block;
      let size := wrap (wrap (size + ns) + ALIGNMENT) in
      do ps <- get_prev_size block;
      set_boundaries (wrap (wrap (block - ps) - ALIGNMENT)) size false;;
      remove_linked_node_from_block da_next_block
    else ret tt
  else
    do na <- is_next_allocated block;
    if negb na then
      do bsize <- get_size block;
      let da_next_block := wrap (wrap (block + bsize) + ALIGNMENT) in
      do ns <- get_size da_next_block;
      let size := wrap (wrap (size + ns) + ALIGNMENT) in
      set_boundaries block size false;;
      remove_linked_node_from_block da_next_block
    else ret tt.

(** The body of [if (block_size >= size)] in [find_fit]: mark the block
    allocated, then unlink it whole or split it. *)
Definition take (free_block block_size size : Z) : M globals Z :=
  set_boundaries free_block block_size true;;
  if lt_tolerance block_size (wrap (size + ALIGNMENT)) then
    remove_linked_node_from_block free_block;;
    ret free_block
  else
    split free_block block_size size;;
    ret free_block.

(** The [for] loop of [find_fit], entered at [curr]. *)
Fixpoint find_fit_from (fuel : nat) (size curr : Z) : M globals Z :=
  match fuel with
  | O => out_of_fuel
  | S fuel' =>
    do g <- get_gl;
    if negb (curr =? head g) then
      let free_block := wrap (curr - ALIGNMENT) in
      do block_size <- get_size free_block;
      if size <=? block_size then take free_block block_size size
      else
        do prev <- load (wrap (curr + off_prev));
        find_fit_from fuel' size prev
    else ret NULL
  end.

Definition find_fit (fuel : nat) (size : Z) : M globals Z :=
  do g <- get_gl;
  do curr <- load (wrap (tail g + off_prev));
  find_fit_from fuel size curr.

Definition mm_init : M globals bool :=
  do h <- sbrk ALIGNMENT;
  do g <- get_gl;
  put_gl {| head := h; tail := tail g |};;
  do t <- sbrk ALIGNMENT;
  do g <- get_gl;
  put_gl {| head := head g; tail := t |};;
  if (h =? SBRK_FAILED) || (t =? SBRK_FAILED) then ret false
  else
    store (wrap (h + off_prev)) NULL;;
    store (wrap (h + off_next)) t;;
    store (wrap (t + off_prev)) h;;
    store (wrap (t + off_next)) NULL;;
    do prologue <- sbrk sizeof_size_t;
    do epilogue <- sbrk sizeof_size_t;
    if (prologue =? SBRK_FAILED) || (epilogue =? SBRK_FAILED) then ret false
    else
      store prologue (Z.lor 0 1);;
      store epilogue (Z.lor 0 1);;
      ret true.

Definition mm_malloc (fuel : nat) (size : Z) : M globals Z :=
  let size := round_up size ALIGNMENT in
  do block <- find_fit fuel size;
  if negb (block =? NULL) then ret (payload block)
  else
    do p <- sbrk size;
    let set_location := wrap (p - ALIGNMENT) in
    do footer <- sbrk sizeof_size_t;
    if footer =? SBRK_FAILED then ret NULL
    else
      let block := set_location in
      set_boundaries block size true;;
      do epilogue <- sbrk sizeof_size_t;
      store epilogue (Z.lor 0 1);;
      ret (payload block).

Definition mm_free (ptr : Z) : M globals unit :=
  if ptr =? NULL then ret tt
  else
    let block := block_from_payload ptr in
    do size <- get_size block;
    set_boundaries block size false;;
    add_linked_node_to_block block;;
    do pa <- is_prev_allocated block;
    do go <- (if negb pa then ret true
              else do na <- is_next_allocated block; ret (negb na));
    if go then coalesce block else ret tt.

Definition mm_realloc (fuel : nat) (old_ptr size : Z) : M globals Z :=
  if old_ptr =? NULL then mm_malloc fuel size
  else if size =? 0 then mm_free old_ptr;; ret NULL
  else
    do new_ptr <- mm_malloc fuel size;
    do old_size <- get_size (block_from_payload old_ptr);
    let copy_size := if old_size <? size then old_size else size in
    memcpy new_ptr old_ptr copy_size;;
    mm_free old_ptr;;
    ret new_ptr.

Definition mm_calloc (fuel : nat) (nmemb size : Z) : M globals Z :=
  let total_size := wrap (nmemb * size) in
  do allocated <- mm_malloc fuel total_size;
  (if negb (allocated =? NULL) then memset allocated 0 total_size else ret tt);;
  ret allocated.

(** The state before [mm_init]: an empty region at [lo], growable up to [hi]. *)
Definition fresh (lo hi : Z) : st :=
  mkState (mem_init lo hi) {| head := NULL; tail := NULL |}.

(** **** The heap as a list of blocks and a list of free nodes

    A block is its payload size and its flag; the list is in address order.
    A block pointer is the address of the footer of the block before. *)

(** Bytes the blocks [bs] take, tags included. *)
Definition span (bs : list (Z * bool)) : Z :=
  fold_right (fun b acc => fst b + 16 + acc) 0 bs.

(** The tags of [bs] are laid out in [m] from the block pointer [B] on. *)
Fixpoint tags (m : gmap Z Z) (B : Z) (bs : list (Z * bool)) : Prop :=
  match bs with
  | [] => True
  | (sz, al) :: bs' =>
    load64 m (B + 8) = encode sz al /\ load64 m (B + 16 + sz) = encode sz al /\
    0 <= sz /\ sz mod 16 = 0 /\ (al = false -> 16 <= sz) /\
    tags m (B + sz + 16) bs'
  end.

(** Payload addresses of the free blocks of [bs], laid out from [B]. *)
Fixpoint frees (B : Z) (bs : list (Z * bool)) : list Z :=
  match bs with
  | [] => []
  | (sz, false) :: bs' => (B + 16) :: frees (B + sz + 16) bs'
  | (sz, true) :: bs' => frees (B + sz + 16) bs'
  end.

(** Payload address and size of the allocated blocks of [bs]. *)
Fixpoint allocs (B : Z) (bs : list (Z * bool)) : list (Z * Z) :=
  match bs with
  | [] => []
  | (sz, true) :: bs' => (B + 16, sz) :: allocs (B + sz + 16) bs'
  | (sz, false) :: bs' => allocs (B + sz + 16) bs'
  end.

(** The nodes [l] are linked in both directions between the nodes [p] and
    [q]: a node's [prev] is its first word and its [next] the second. *)
Fixpoint dseg (m : gmap Z Z) (p : Z) (l : list Z) (q : Z) : Prop :=
  match l with
  | [] => load64 m (p + 8) = q /\ load64 m q = p
  | n :: l' => load64 m (p + 8) = n /\ load64 m n = p /\ dseg m n l' q
  end.

(** The first block pointer: past the two list sentinels. *)
Definition heap_base (s : st) : Z := mem_start_brk (hp s) + 32.

(** The node [n], two words, lies in the payload of a block of [bs]. *)
Fixpoint in_payload (B : Z) (bs : list (Z * bool)) (n : Z) : Prop :=
  match bs with
  | [] => False
  | (sz, _) :: bs' =>
    (B + 16 <= n /\ n + 16 <= B + 16 + sz) \/ in_payload (B + sz + 16) bs' n
  end.

(** [a] is the address of a header or of a footer of [bs]. *)
Fixpoint is_tag (B : Z) (bs : list (Z * bool)) (a : Z) : Prop :=
  match bs with
  | [] => False
  | (sz, _) :: bs' => a = B + 8 \/ a = B + 16 + sz \/ is_tag (B + sz + 16) bs' a
  end.

(** The layout: sentinels, prologue, tags and epilogue in place, and a list
    [fl] linked between the sentinels whose nodes are aligned, distinct and
    inside payloads. *)
Record shape (s : st) (bs : list (Z * bool)) (fl : list Z) : Prop := mkShape {
  sh_lo_aligned : mem_start_brk (hp s) mod 16 = 0;
  sh_lo : 16 <= mem_start_brk (hp s);
  sh_hi : mem_max_addr (hp s) < 2 ^ 64 - 1;
  sh_brk_hi : mem_brk (hp s) <= mem_max_addr (hp s);
  sh_head : head (gl s) = mem_start_brk (hp s);
  sh_tail : tail (gl s) = mem_start_brk (hp s) + 16;
  sh_prologue : load64 (bytes (hp s)) (heap_base s) = 1;
  sh_tags : tags (bytes (hp s)) (heap_base s) bs;
  sh_epilogue : load64 (bytes (hp s)) (heap_base s + span bs + 8) = 1;
  sh_brk : heap_base s + span bs + 16 <= mem_brk (hp s) /\
           (mem_brk (hp s) = heap_base s + span bs + 16 \/
            mem_max_addr (hp s) < mem_brk (hp s) + 8);
  sh_list : dseg (bytes (hp s)) (mem_start_brk (hp s)) fl (mem_start_brk (hp s) + 16);
  sh_nodes : Forall (fun n => n mod 16 = 0 /\ in_payload (heap_base s) bs n) fl;
  sh_nodup : NoDup fl
}.

(** The state is a well-formed heap whose blocks are [bs] and whose free
    list, from the head sentinel to the tail sentinel, is [fl]: the nodes of
    the list are the payloads of the free blocks. *)
Record heap_ok (s : st) (bs : list (Z * bool)) (fl : list Z) : Prop := mkHeapOk {
  ok_shape : shape s bs fl;
  ok_free : fl ≡ₚ frees (heap_base s) bs
}.

(** The memory [remove_linked_node_from_block] leaves for a node between
    [pl] and [nx]. *)
Definition unlinked (m : gmap Z Z) (pl nx : Z) : gmap Z Z :=
  store64 (store64 m (pl + 8) nx) nx pl.

(** The memory [add_linked_node_to_block] leaves for the node [n], with [tp]
    the last node before the tail [t]. *)
Definition linked (m : gmap Z Z) (tp n t : Z) : gmap Z Z :=
  store64 (store64 (store64 (store64 m n tp) (n + 8) t) (tp + 8) n) t n.

Definition node_ok (x : Z) : Prop := 0 <= x < 2 ^ 64 /\ x mod 16 = 0.

(** The region lies in the 64-bit address space, above address 0. *)
Definition bounded (s : st) : Prop :=
  0 < mem_start_brk (hp s) /\ mem_brk (hp s) < 2 ^ 64.

Definition with_bytes (s : st) (m : gmap Z Z) : st :=
  mkState (set_bytes (hp s) m) (gl s).

(** Every byte of the payloads [A] reads in [m'] as it does in [m]. *)
Definition frame (A : list (Z * Z)) (m m' : gmap Z Z) : Prop :=
  forall p sz a, In (p, sz) A -> p <= a < p + sz -> load8 m' a = load8 m a.

(** The memory [set_boundaries] leaves. *)
Definition tagged (m : gmap Z Z) (block size : Z) (al : bool) : gmap Z Z :=
  store64 (store64 m (block + 8) (encode size al)) (block + 16 + size) (encode size al).

(** Prologue, tags and epilogue are in place. *)
Definition meta (m : gmap Z Z) (B : Z) (bs : list (Z * bool)) : Prop :=
  tags m B bs /\ load64 m B = 1 /\ load64 m (B + span bs + 8) = 1.

(** A place for a node: a sentinel below the blocks or inside a payload. *)
Definition node_place (B : Z) (bs : list (Z * bool)) (x : Z) : Prop :=
  x + 16 <= B \/ in_payload B bs x.

(** No payload of [A] overlaps the word at [a]. *)
Definition clear_of (A : list (Z * Z)) (a : Z) : Prop :=
  forall p z, In (p, z) A -> a + 8 <= p \/ p + z <= a.

(** Bounds, break and statics are those of [s]. *)
Definition kept (s s' : st) : Prop :=
  mem_start_brk (hp s') = mem_start_brk (hp s) /\
  mem_max_addr (hp s') = mem_max_addr (hp s) /\
  mem_brk (hp s') = mem_brk (hp s) /\ gl s' = gl s.

(** The payload [p] is that of a block now allocated, of size at least
    [req]; the blocks allocated before are those of [A0]. *)
Definition took (A0 : list (Z * Z)) (req p : Z) (s' : st) : Prop :=
  exists P R sz fl',
    heap_ok s' (P ++ (sz, true) :: R) fl' /\
    p = heap_base s' + span P + 16 /\
    A0 = allocs (heap_base s') P ++ allocs (heap_base s' + span P + sz + 16) R /\
    req <= sz.

(** What [take] makes of the free block after [P], of payload size [bsz],
    for a request of [size] bytes: the whole block, unlinked, when what
    would remain has no room for its tags and a node, or else a block of
    [size] bytes and a free remainder, linked before the tail. *)
Definition carved (s : st) (fl : list Z) (P : list (Z * bool)) (bsz : Z)
    (R : list (Z * bool)) (size : Z) (s' : st) : Prop :=
  let block := heap_base s + span P in
  exists l1 l2, fl = l1 ++ (block + 16) :: l2 /\
    ((bsz <= size + 16 /\ heap_ok s' (P ++ (bsz, true) :: R) (l1 ++ l2)) \/
     (size + 32 <= bsz /\
      heap_ok s' (P ++ (size, true) :: (bsz - size - 16, false) :: R)
        (l1 ++ l2 ++ [block + size + 32]))).

(** The size in the header of the block whose payload is at [n]. *)
Definition block_size (m : gmap Z Z) (n : Z) : Z :=
  Z.land (load64 m (n - 8)) (Z.lnot 1).

(** What [find_fit] leaves, from a heap with free list [fl]: nothing fits and
    nothing changed, or the block taken is the last one on the list that
    fits. *)
Definition fit_post (s : st) (fl : list Z) (A0 : list (Z * Z)) (size r : Z)
    (s' : st) : Prop :=
  (r = NULL /\ s' = s /\ forall x, In x fl -> block_size (bytes (hp s)) x < size) \/
  (r <> NULL /\ kept s s' /\ frame A0 (bytes (hp s)) (bytes (hp s')) /\
   took A0 size (r + 16) s' /\
   exists l1 l2, fl = l1 ++ (r + 16) :: l2 /\
     size <= block_size (bytes (hp s)) (r + 16) /\
     forall x, In x l2 -> block_size (bytes (hp s)) x < size).

(** The payload size [mm_malloc] computes for a request. *)
Definition required (size : Z) : Z := round_up size ALIGNMENT.

(** What [mm_malloc] leaves, from a heap with blocks [bs] and free list [fl]:
    no new block, when no block of the list fits and the provider has no
    room for the payload and a footer; or the block of the list nearest to
    the tail that fits; or a block placed at the old break when no block of
    the list fits. *)
Definition malloc_post (s : st) (bs : list (Z * bool)) (fl : list Z) (size r : Z)
    (s' : st) : Prop :=
  mem_start_brk (hp s') = mem_start_brk (hp s) /\
  mem_max_addr (hp s') = mem_max_addr (hp s) /\
  gl s' = gl s /\
  mem_brk (hp s) <= mem_brk (hp s') /\
  frame (allocs (heap_base s) bs) (bytes (hp s)) (bytes (hp s')) /\
  ((r = NULL /\ heap_ok s' bs fl /\ bytes (hp s') = bytes (hp s) /\
    mem_max_addr (hp s) < mem_brk (hp s) + required size + 8 /\
    forall x, In x fl -> block_size (bytes (hp s)) x < required size) \/
   (took (allocs (heap_base s) bs) (required size) r s' /\
    ((mem_brk (hp s') = mem_brk (hp s) /\
      exists l1 l2, fl = l1 ++ r :: l2 /\
        required size <= block_size (bytes (hp s)) r /\
        forall x, In x l2 -> block_size (bytes (hp s)) x < required size) \/
     (mem_brk (hp s') = mem_brk (hp s) + required size + 16 /\ r = mem_brk (hp s) /\
      load64 (bytes (hp s')) (r - 8) = encode (required size) true /\
      forall x, In x fl -> block_size (bytes (hp s)) x < required size)))).

(** The last block of [P] is free; the first block of [R] is free. *)
Definition ends_free (P : list (Z * bool)) : Prop :=
  exists P' z, P = P' ++ [(z, false)].

Definition starts_free (R : list (Z * bool)) : Prop :=
  exists z R', R = (z, false) :: R'.

(** What [mm_free] makes of the blocks [P ++ (sz, true) :: R] and of the
    list [fl]: the block becomes free and absorbs a free block before it and
    a free block after it.  The node of an absorbed successor leaves the
    list; when there is a free predecessor its node stands for the merged
    block, otherwise the block's own node is appended at the tail. *)
Definition merged_into (B : Z) (P : list (Z * bool)) (sz : Z) (R : list (Z * bool))
    (fl : list Z) (bs' : list (Z * bool)) (fl' : list Z) : Prop :=
  exists P1 R1 msz fl1,
    bs' = P1 ++ (msz, false) :: R1 /\
    span P1 + msz + span R1 = span P + sz + span R /\
    ((R1 = R /\ ~ starts_free R /\ fl1 = fl) \/
     (exists nsz l1 l2, R = (nsz, false) :: R1 /\
        fl = l1 ++ (B + span P + sz + 32) :: l2 /\ fl1 = l1 ++ l2)) /\
    ((P1 = P /\ ~ ends_free P /\ fl' = fl1 ++ [B + span P + 16]) \/
     (exists psz, P = P1 ++ [(psz, false)] /\ fl' = fl1)).

Definition free_post (s : st) (P : list (Z * bool)) (sz : Z) (R : list (Z * bool))
    (fl : list Z) (s' : st) : Prop :=
  let B := heap_base s in
  let A := allocs B P ++ allocs (B + span P + sz + 16) R in
  kept s s' /\ frame A (bytes (hp s)) (bytes (hp s')) /\
  exists bs' fl', heap_ok s' bs' fl' /\ allocs B bs' = A /\
                  merged_into B P sz R fl bs' fl'.

(** What [mm_realloc] leaves when it is given the block after [P], of payload
    size [osz], and a size other than 0, and returns: a new block that holds
    the start of the old payload, and the old block free. *)
Definition realloc_post (s : st) (P : list (Z * bool)) (osz : Z) (R : list (Z * bool))
    (size r : Z) (s' : st) : Prop :=
  let B := heap_base s in
  let bs := P ++ (osz, true) :: R in
  let old := B + span P + 16 in
  mem_start_brk (hp s') = mem_start_brk (hp s) /\
  mem_max_addr (hp s') = mem_max_addr (hp s) /\
  gl s' = gl s /\
  r <> NULL /\ r <> old /\
  exists bs' fl' nsz,
    heap_ok s' bs' fl' /\
    In (r, nsz) (allocs B bs') /\ size <= nsz /\
    (forall z, ~ In (old, z) (allocs B bs')) /\
    (forall b z, In (b, z) (allocs B bs) -> b <> old -> In (b, z) (allocs B bs')) /\
    (forall i, 0 <= i < Z.min osz size ->
               load8 (bytes (hp s')) (r + i) = load8 (bytes (hp s)) (old + i)).

(** What [mm_calloc] leaves for a request of [n] bytes in all. *)
Definition calloc_post (s : st) (bs : list (Z * bool)) (fl : list Z) (n r : Z)
    (s' : st) : Prop :=
  mem_start_brk (hp s') = mem_start_brk (hp s) /\
  mem_max_addr (hp s') = mem_max_addr (hp s) /\
  gl s' = gl s /\
  ((r = NULL /\ heap_ok s' bs fl /\ bytes (hp s') = bytes (hp s)) \/
   (took (allocs (heap_base s) bs) (required n) r s' /\
    forall i, 0 <= i < n -> load8 (bytes (hp s')) (r + i) = 0)).

(** **** Runs of the allocator

    The calls of [mm.h], and the pointers a run has received for a request
    of at least one byte and not given back; a caller frees and reallocates
    only those.  A request of no bytes is a call like any other, but the
    block it is answered with has no room for a list node, and its pointer
    is not among those a run may give back. *)

Inductive call : Type :=
| Malloc (size : Z)
| Free (ptr : Z)
| Realloc (ptr size : Z)
| Calloc (nmemb size : Z).

Definition run_call (fuel : nat) (c : call) : M globals Z :=
  match c with
  | Malloc size => mm_malloc fuel size
  | Free ptr => mm_free ptr;; ret NULL
  | Realloc ptr size => mm_realloc fuel ptr size
  | Calloc nmemb size => mm_calloc fuel nmemb size
  end.

(** A request whose rounding up does not wrap around. *)
Definition fits (size : Z) : Prop := 0 <= size /\ size + 15 < 2 ^ 64.

Definition valid (L : gset Z) (c : call) : Prop :=
  match c with
  | Malloc size => fits size
  | Free ptr => ptr = NULL \/ ptr ∈ L
  | Realloc ptr size => (ptr = NULL \/ ptr ∈ L) /\ fits size
  | Calloc nmemb size => fits (wrap (nmemb * size))
  end.

Definition gained (L : gset Z) (size r : Z) : gset Z :=
  if (r =? NULL) || (size =? 0) then L else L ∪ {[r]}.

Definition live_after (L : gset Z) (c : call) (r : Z) : gset Z :=
  match c with
  | Malloc size => gained L size r
  | Calloc nmemb size => gained L (wrap (nmemb * size)) r
  | Free ptr => L ∖ {[ptr]}
  | Realloc ptr size =>
    if ptr =? NULL then gained L size r
    else if size =? 0 then L ∖ {[ptr]}
    else gained (L ∖ {[ptr]}) size r
  end.

(** The states a caller can reach, with the pointers it may give back. *)
Inductive reach : st -> gset Z -> Prop :=
| reach_init lo hi s :
    lo mod 16 = 0 -> 16 <= lo -> hi < 2 ^ 64 - 1 ->
    mm_init (fresh lo hi) = Ok true s -> reach s ∅
| reach_step s L fuel c r s' :
    reach s L -> valid L c -> run_call fuel c s = Ok r s' ->
    reach s' (live_after L c r).

(** Every pointer held is the payload of an allocated block with room for a
    list node. *)
Definition holds (s : st) (L : gset Z) : Prop :=
  exists bs fl, heap_ok s bs fl /\
    forall p, p ∈ L -> exists sz, In (p, sz) (allocs (heap_base s) bs) /\ 16 <= sz.

(** **** Sample runs *)

(** [p1 = mm_malloc(16); p2 = mm_malloc(32); mm_free(p1); mm_free(p2)] on a
    new heap. *)
Definition two_frees : M globals (Z * Z) :=
  do ok <- mm_init;
  do p1 <- mm_malloc 10 16;
  do p2 <- mm_malloc 10 32;
  mm_free p1;; mm_free p2;; ret (p1, p2).

Definition after_two_frees : st :=
  state_of (fresh 0 0) (two_frees (fresh 1024 4096)).

(** One block with a payload of 16 bytes, allocated. *)
Definition one_block : M globals Z :=
  do ok <- mm_init;
  mm_malloc 10 16.

(** ... in a region with no room left after it. *)
Definition after_one_block : st :=
  state_of (fresh 0 0) (one_block (fresh 1024 1104)).

(** ... in a region with room. *)
Definition after_one_block_roomy : st :=
  state_of (fresh 0 0) (one_block (fresh 1024 4096)).

(** A new heap. *)
Definition after_init : st :=
  state_of (fresh 0 0) (mm_init (fresh 1024 4096)).

(** Three blocks with payloads of 16 bytes, the middle one still allocated. *)
Definition sandwich : M globals (Z * Z * Z) :=
  do ok <- mm_init;
  do p1 <- mm_malloc 10 16;
  do p2 <- mm_malloc 10 16;
  do p3 <- mm_malloc 10 16;
  mm_free p1;; mm_free p3;; ret (p1, p2, p3).

Definition after_sandwich : st :=
  state_of (fresh 0 0) (sandwich (fresh 1024 4096)).

(** A new heap in a region with 16 bytes left, and in one with 8. *)
Definition after_init_16 : st :=
  state_of (fresh 0 0) (mm_init (fresh 1024 1088)).

Definition after_init_8 : st :=
  state_of (fresh 0 0) (mm_init (fresh 1024 1080)).

(** Two blocks with payloads of 16 bytes, the first freed. *)
Definition free_first : M globals (Z * Z) :=
  do ok <- mm_init;
  do p1 <- mm_malloc 10 16;
  do p2 <- mm_malloc 10 16;
  mm_free p1;; ret (p1, p2).

Definition after_free_first : st :=
  state_of (fresh 0 0) (free_first (fresh 1024 4096)).

(** Two blocks with payloads of 16 bytes, the second freed. *)
Definition free_second : M globals (Z * Z) :=
  do ok <- mm_init;
  do p1 <- mm_malloc 10 16;
  do p2 <- mm_malloc 10 16;
  mm_free p2;; ret (p1, p2).

Definition after_free_second : st :=
  state_of (fresh 0 0) (free_second (fresh 1024 4096)).



(** Three blocks with payloads of 16 bytes, the first freed. *)
Definition free_first_of_three : M globals (Z * Z * Z) :=
  do ok <- mm_init;
  do p1 <- mm_malloc 10 16;
  do p2 <- mm_malloc 10 16;
  do p3 <- mm_malloc 10 16;
  mm_free p1;; ret (p1, p2, p3).

Definition after_free_first_of_three : st :=
  state_of (fresh 0 0) (free_first_of_three (fresh 1024 4096)).





End Explicit.

(** ** Part II: properties *)

(** *** Raw memory *)

Module MemFacts.
Import Mem.

Lemma wrap_small z : 0 <= z < 2 ^ 64 -> wrap z = z.
Proof. intros H. unfold wrap. apply Z.mod_small. exact H. Qed.

Lemma wrap_range z : 0 <= wrap z < 2 ^ 64.
Proof. unfold wrap. apply Z.mod_pos_bound. lia. Qed.

Lemma load8_range m a : 0 <= load8 m a < 256.
Proof. unfold load8. apply Z.mod_pos_bound. lia. Qed.

Lemma load_le_range n m a : 0 <= load_le n m a < 256 ^ Z.of_nat n.
Proof.
  revert a. induction n as [|n IH]; intros a.
  - simpl. lia.
  - rewrite Nat2Z.inj_succ, Z.pow_succ_r by lia. simpl.
    pose proof (load8_range m a). pose proof (IH (a + 1)). nia.
Qed.

Lemma load64_range m a : 0 <= load64 m a < 2 ^ 64.
Proof. exact (load_le_range 8 m a). Qed.

Lemma load8_store8_eq m a v : load8 (store8 m a v) a = v mod 256.
Proof.
  unfold load8, store8. rewrite lookup_insert_eq. simpl.
  apply Z.mod_mod. lia.
Qed.

Lemma load8_store8_ne m a b v : a <> b -> load8 (store8 m a v) b = load8 m b.
Proof. intros H. unfold load8, store8. now rewrite lookup_insert_ne. Qed.

Lemma load8_store_le_out n m a v b :
  b < a \/ a + Z.of_nat n <= b -> load8 (store_le n m a v) b = load8 m b.
Proof.
  revert m a v. induction n as [|n IH]; intros m a v H; simpl; [reflexivity|].
  rewrite IH by lia. apply load8_store8_ne. lia.
Qed.

Lemma load_le_store_le_out k n m a v b :
  b + Z.of_nat k <= a \/ a + Z.of_nat n <= b ->
  load_le k (store_le n m a v) b = load_le k m b.
Proof.
  revert b. induction k as [|k IH]; intros b H; simpl; [reflexivity|].
  rewrite IH by lia. rewrite load8_store_le_out by lia. reflexivity.
Qed.

Lemma load_le_store_le_eq n m a v :
  load_le n (store_le n m a v) a = v mod 256 ^ Z.of_nat n.
Proof.
  revert m a v. induction n as [|n IH]; intros m a v.
  - simpl. now rewrite Z.mod_1_r.
  - rewrite Nat2Z.inj_succ, Z.pow_succ_r by lia. simpl.
    rewrite IH. rewrite load8_store_le_out by lia. rewrite load8_store8_eq.
    rewrite Z.rem_mul_r by lia. reflexivity.
Qed.

Lemma load64_store64_eq m a v : 0 <= v < 2 ^ 64 -> load64 (store64 m a v) a = v.
Proof.
  intros H. unfold load64, store64. rewrite load_le_store_le_eq.
  apply Z.mod_small. exact H.
Qed.

Lemma load64_store64_ne m a v b :
  b + 8 <= a \/ a + 8 <= b -> load64 (store64 m a v) b = load64 m b.
Proof. intros H. apply load_le_store_le_out. lia. Qed.

Lemma load8_store64_ne m a v b :
  b < a \/ a + 8 <= b -> load8 (store64 m a v) b = load8 m b.
Proof. intros H. apply load8_store_le_out. lia. Qed.

Lemma load8_write_bytes_out l m a b :
  b < a \/ a + Z.of_nat (length l) <= b -> load8 (write_bytes m a l) b = load8 m b.
Proof.
  revert m a. induction l as [|x l IH]; intros m a H; simpl in *; [reflexivity|].
  rewrite IH by lia. apply load8_store8_ne. lia.
Qed.

Lemma load64_write_bytes_out l m a b :
  b + 8 <= a \/ a + Z.of_nat (length l) <= b ->
  load64 (write_bytes m a l) b = load64 m b.
Proof.
  intros H. unfold load64.
  assert (G : forall k c, b <= c -> c + Z.of_nat k <= b + 8 ->
            load_le k (write_bytes m a l) c = load_le k m c).
  { induction k as [|k IHk]; intros c H1 H2; simpl; [reflexivity|].
    rewrite IHk by lia. rewrite load8_write_bytes_out by lia. reflexivity. }
  apply G; lia.
Qed.

Lemma load8_write_bytes_in l m a i x :
  l !! i = Some x -> load8 (write_bytes m a l) (a + Z.of_nat i) = x mod 256.
Proof.
  revert m a i. induction l as [|y l IH]; intros m a i H; [discriminate|].
  destruct i as [|i]; simpl in H.
  - injection H as ->. change (Z.of_nat 0) with 0. rewrite Z.add_0_r.
    simpl. rewrite load8_write_bytes_out by lia. apply load8_store8_eq.
  - rewrite Nat2Z.inj_succ.
    replace (a + Z.succ (Z.of_nat i)) with (a + 1 + Z.of_nat i) by lia.
    simpl. now apply IH.
Qed.

Lemma read_bytes_lookup n m a i :
  (i < n)%nat -> read_bytes n m a !! i = Some (load8 m (a + Z.of_nat i)).
Proof.
  revert a i. induction n as [|n IH]; intros a i H; [lia|].
  destruct i as [|i].
  - simpl. now rewrite Z.add_0_r.
  - rewrite Nat2Z.inj_succ. simpl. rewrite IH by lia. f_equal. f_equal. lia.
Qed.

Lemma length_read_bytes n m a : length (read_bytes n m a) = n.
Proof. revert a. induction n; intros; simpl; auto. Qed.

(** The tag word: for an even size the flag is the low bit and the size the
    rest. *)
Lemma lor_flag size b : size mod 2 = 0 -> Z.lor size (Z.b2z b) = size + Z.b2z b.
Proof.
  intros H. symmetry. apply Z.add_nocarry_lor.
  destruct b; simpl; [|apply Z.land_0_r].
  change 1 with (Z.ones 1). rewrite Z.land_ones by lia. exact H.
Qed.

Lemma land_flag size b : size mod 2 = 0 -> Z.land (size + Z.b2z b) 1 = Z.b2z b.
Proof.
  intros H. change 1 with (Z.ones 1) at 1. rewrite Z.land_ones by lia.
  change (2 ^ 1) with 2. destruct b; simpl Z.b2z.
  - rewrite Z.add_mod, H by lia. reflexivity.
  - now rewrite Z.add_0_r.
Qed.

Lemma land_size size b : size mod 2 = 0 -> Z.land (size + Z.b2z b) (Z.lnot 1) = size.
Proof.
  intros H. rewrite <- Z.sub_land_same_l, land_flag by exact H. lia.
Qed.

Lemma mod16_mod2 x : x mod 16 = 0 -> x mod 2 = 0.
Proof.
  intros H. apply Z.mod_divide in H; [|lia]. destruct H as [k ->].
  replace (k * 16) with (k * 8 * 2) by lia. apply Z.mod_mul. lia.
Qed.

End MemFacts.

(** *** Reasoning rules for allocator code *)

Module ExecFacts.
Import Mem Exec MemFacts.

Section Rules.
Context {G : Type}.
Implicit Types (s : state G) (E : Prop).

Lemma wpx_ret {A} E (a : A) (Q : A -> state G -> Prop) s :
  Q a s -> wpx E (ret a) Q s.
Proof. intros H. exact H. Qed.

Lemma wpx_bind {A B} E (c : M G A) (k : A -> M G B) (Q : B -> state G -> Prop) s :
  wpx E c (fun a s' => wpx E (k a) Q s') s -> wpx E (bind c k) Q s.
Proof. unfold wpx, bind. destruct (c s); auto. Qed.

Lemma wpx_mono {A} E (c : M G A) (Q Q' : A -> state G -> Prop) s :
  wpx E c Q s -> (forall a s', Q a s' -> Q' a s') -> wpx E c Q' s.
Proof. unfold wpx. destruct (c s); auto. Qed.

Lemma wpx_weaken {A} (E E' : Prop) (c : M G A) (Q : A -> state G -> Prop) s :
  (E -> E') -> wpx E c Q s -> wpx E' c Q s.
Proof. unfold wpx. destruct (c s); auto. Qed.

Lemma wpx_elim {A} E (c : M G A) (Q : A -> state G -> Prop) s a s' :
  wpx E c Q s -> c s = Ok a s' -> Q a s'.
Proof. unfold wpx. intros H Hc. now rewrite Hc in H. Qed.

Lemma wpx_total {A} (c : M G A) (Q : A -> state G -> Prop) s :
  wpx False c Q s -> exists a s', c s = Ok a s' /\ Q a s'.
Proof. unfold wpx. destruct (c s); try tauto. eauto. Qed.

Lemma wpx_ok {A} (c : M G A) s a s' :
  wpx False c (fun a0 s0 => a0 = a /\ s0 = s') s -> c s = Ok a s'.
Proof. unfold wpx. destruct (c s); [intros [-> ->]; reflexivity|tauto|tauto]. Qed.


Lemma wpx_out_of_fuel {A} (E : Prop) (Q : A -> state G -> Prop) s :
  E -> wpx E out_of_fuel Q s.
Proof. auto. Qed.

Lemma wpx_get_gl E (Q : G -> state G -> Prop) s :
  Q (gl s) s -> wpx E get_gl Q s.
Proof. auto. Qed.

Lemma wpx_put_gl E g (Q : unit -> state G -> Prop) s :
  Q tt (mkState (hp s) g) -> wpx E (put_gl g) Q s.
Proof. auto. Qed.

Lemma wpx_load E a (Q : Z -> state G -> Prop) s :
  in_heap (hp s) a 8 = true ->
  Q (load64 (bytes (hp s)) a) s -> wpx E (load a) Q s.
Proof. intros Hin HQ. unfold wpx, load, read64. now rewrite Hin. Qed.

Lemma wpx_store E a v (Q : unit -> state G -> Prop) s :
  in_heap (hp s) a 8 = true ->
  Q tt (mkState (set_bytes (hp s) (store64 (bytes (hp s)) a v)) (gl s)) ->
  wpx E (store a v) Q s.
Proof. intros Hin HQ. unfold wpx, store, write64. now rewrite Hin. Qed.

(** A faulting access is fine when faults are. *)
Lemma wpx_load_partial (E : Prop) a (Q : Z -> state G -> Prop) s :
  E -> (in_heap (hp s) a 8 = true -> Q (load64 (bytes (hp s)) a) s) ->
  wpx E (load a) Q s.
Proof. intros HE HQ. unfold wpx, load, read64. destruct (in_heap _ _ _); auto. Qed.

Lemma wpx_store_partial (E : Prop) a v (Q : unit -> state G -> Prop) s :
  E ->
  (in_heap (hp s) a 8 = true ->
   Q tt (mkState (set_bytes (hp s) (store64 (bytes (hp s)) a v)) (gl s))) ->
  wpx E (store a v) Q s.
Proof. intros HE HQ. unfold wpx, store, write64. destruct (in_heap _ _ _); auto. Qed.

Lemma wpx_store_fault (E : Prop) a v (Q : unit -> state G -> Prop) s :
  E -> in_heap (hp s) a 8 = false -> wpx E (store a v) Q s.
Proof. intros HE Hin. unfold wpx, store, write64. now rewrite Hin. Qed.

Lemma wpx_sbrk E incr (Q : Z -> state G -> Prop) s :
  (mem_brk (hp s) + incr <= mem_max_addr (hp s) ->
   Q (mem_brk (hp s))
     (mkState {| bytes := bytes (hp s); mem_start_brk := mem_start_brk (hp s);
                 mem_brk := mem_brk (hp s) + incr;
                 mem_max_addr := mem_max_addr (hp s) |} (gl s))) ->
  (mem_max_addr (hp s) < mem_brk (hp s) + incr -> Q SBRK_FAILED (mkState (hp s) (gl s))) ->
  wpx E (sbrk incr) Q s.
Proof.
  intros H1 H2. unfold wpx, sbrk, mem_sbrk.
  destruct (Z.leb_spec (mem_brk (hp s) + incr) (mem_max_addr (hp s))); auto.
Qed.

Lemma wpx_memcpy E dst src n (Q : unit -> state G -> Prop) s :
  n <> 0 -> in_heap (hp s) dst n = true -> in_heap (hp s) src n = true ->
  Q tt (mkState (set_bytes (hp s)
         (write_bytes (bytes (hp s)) dst (read_bytes (Z.to_nat n) (bytes (hp s)) src)))
         (gl s)) ->
  wpx E (memcpy dst src n) Q s.
Proof.
  intros Hn H1 H2 HQ. unfold wpx, memcpy, Mem.memcpy.
  destruct (Z.eqb_spec n 0); [contradiction|]. now rewrite H1, H2.
Qed.

Lemma wpx_memset E p c n (Q : unit -> state G -> Prop) s :
  n <> 0 -> in_heap (hp s) p n = true ->
  Q tt (mkState (set_bytes (hp s)
         (write_bytes (bytes (hp s)) p (replicate (Z.to_nat n) c))) (gl s)) ->
  wpx E (memset p c n) Q s.
Proof.
  intros Hn H1 HQ. unfold wpx, memset, Mem.memset.
  destruct (Z.eqb_spec n 0); [contradiction|]. now rewrite H1.
Qed.

Lemma state_eta s : mkState (hp s) (gl s) = s.
Proof. now destruct s. Qed.

End Rules.

Lemma wpx_memset_0 {G} E p c (Q : unit -> state G -> Prop) s :
  Q tt s -> wpx E (memset p c 0) Q s.
Proof. intros HQ. unfold wpx, memset, Mem.memset. simpl. now rewrite state_eta. Qed.

Lemma wpx_memcpy_fault {G} (E : Prop) dst src n (Q : unit -> state G -> Prop) s :
  E -> n <> 0 -> in_heap (hp s) dst n = false -> wpx E (memcpy dst src n) Q s.
Proof.
  intros HE Hn Hin. unfold wpx, memcpy, Mem.memcpy.
  destruct (Z.eqb_spec n 0); [contradiction|]. now rewrite Hin.
Qed.

Lemma in_heap_true h a n :
  mem_start_brk h <= a -> a + n <= mem_brk h -> in_heap h a n = true.
Proof. intros. unfold in_heap. apply andb_true_intro. split; apply Z.leb_le; lia. Qed.

Lemma in_heap_inv h a n :
  in_heap h a n = true -> mem_start_brk h <= a /\ a + n <= mem_brk h.
Proof. unfold in_heap. intros [H1 H2]%andb_prop. apply Z.leb_le in H1, H2. lia. Qed.

(** Facts of a state given in full are settled by running the code. *)
Ltac run_eq := vm_compute; reflexivity.

Ltac run_fact := vm_compute; first [reflexivity | discriminate | exact I].

Ltac run_facts :=
  repeat match goal with
         | |- _ /\ _ => split
         | |- Forall _ _ => constructor
         | |- NoDup _ => constructor
         | |- ~ _ ∈ [] => apply not_elem_of_nil
         | |- True => exact I
         | |- _ \/ _ => first [left; solve [run_facts] | right; solve [run_facts]]
         | |- _ => run_fact
         end.

End ExecFacts.

(** *** The scanning allocator *)

Module ImplicitFacts.
Import Mem Exec MemFacts ExecFacts Implicit.

Lemma round_up_16 x :
  0 <= x -> x + 15 < 2 ^ 64 ->
  round_up x ALIGNMENT mod 16 = 0 /\ x <= round_up x ALIGNMENT < x + 16.
Proof.
  intros H0 H1. unfold round_up, ALIGNMENT.
  replace (16 - 1) with 15 by lia.
  rewrite (wrap_small (x + 15)) by lia.
  pose proof (Z.div_mod (x + 15) 16 ltac:(lia)) as Hd.
  pose proof (Z.mod_pos_bound (x + 15) 16 ltac:(lia)) as Hm.
  rewrite wrap_small by lia.
  split; [apply Z.mod_mul; lia | lia].
Qed.

Lemma encode_even sz al : sz mod 16 = 0 -> encode sz al = sz + Z.b2z al.
Proof. intros H. unfold encode. apply lor_flag. now apply mod16_mod2. Qed.

Lemma encode_range sz al :
  sz mod 16 = 0 -> 0 <= sz < 2 ^ 64 -> 0 <= encode sz al < 2 ^ 64.
Proof.
  intros H Hr. rewrite encode_even by exact H.
  apply Z.mod_divide in H; [|lia]. destruct H as [k ->].
  destruct al; simpl; lia.
Qed.

Lemma decode_size sz al : sz mod 16 = 0 -> Z.land (encode sz al) (Z.lnot 1) = sz.
Proof. intros H. rewrite encode_even by exact H. apply land_size. now apply mod16_mod2. Qed.

Lemma decode_flag sz al :
  sz mod 16 = 0 -> negb (Z.land (encode sz al) 1 =? 0) = al.
Proof.
  intros H. rewrite encode_even by exact H. rewrite land_flag by now apply mod16_mod2.
  now destruct al.
Qed.

Lemma total_app l1 l2 : total (l1 ++ l2) = total l1 + total l2.
Proof. induction l1 as [|[sz al] l1 IH]; simpl in *; lia. Qed.

Lemma chain_total m a bs : chain m a bs -> 0 <= total bs /\ total bs mod 16 = 0.
Proof.
  revert a. induction bs as [|[sz al] bs IH]; intros a H; simpl in *.
  - split; [lia|reflexivity].
  - destruct H as (_ & H1 & H2 & H3). destruct (IH _ H3) as [I1 I2].
    split; [lia|]. rewrite Z.add_mod, H2, I2 by lia. reflexivity.
Qed.

Lemma chain_app m a l1 l2 :
  chain m a (l1 ++ l2) <-> chain m a l1 /\ chain m (a + total l1) l2.
Proof.
  revert a. induction l1 as [|[sz al] l1 IH]; intros a; simpl.
  - rewrite Z.add_0_r. tauto.
  - rewrite IH. replace (a + sz + total l1) with (a + (sz + total l1)) by lia. tauto.
Qed.

(** A chain reads only the header words of its blocks. *)
Lemma chain_ext m m' a bs :
  (forall b, a <= b -> b + 8 <= a + total bs -> load64 m' b = load64 m b) ->
  chain m a bs -> chain m' a bs.
Proof.
  revert a. induction bs as [|[sz al] bs IH]; intros a Hext H; simpl in *; [exact I|].
  destruct H as (H0 & H1 & H2 & H3).
  pose proof (chain_total _ _ _ H3) as [Ht _].
  split; [|split; [exact H1|split; [exact H2|]]].
  - rewrite Hext by lia. exact H0.
  - apply IH; [|exact H3]. intros b Hb1 Hb2. apply Hext; lia.
Qed.

Lemma chain_store_out m a bs x v :
  x + 8 <= a \/ a + total bs <= x -> chain m a bs -> chain (store64 m x v) a bs.
Proof.
  intros Hx. apply chain_ext. intros b H1 H2. apply load64_store64_ne. lia.
Qed.

Lemma chain_write_bytes_out m a bs x l :
  x + Z.of_nat (length l) <= a \/ a + total bs <= x ->
  chain m a bs -> chain (write_bytes m x l) a bs.
Proof.
  intros Hx. apply chain_ext. intros b H1 H2. apply load64_write_bytes_out. lia.
Qed.

Lemma allocs_app a l1 l2 :
  allocs a (l1 ++ l2) = allocs a l1 ++ allocs (a + total l1) l2.
Proof.
  revert a. induction l1 as [|[sz al] l1 IH]; intros a; simpl.
  - now rewrite Z.add_0_r.
  - replace (a + (sz + total l1)) with (a + sz + total l1) by lia.
    destruct al; simpl; now rewrite IH.
Qed.

(** Allocated blocks lie inside the chain, on 16-byte steps from its start. *)
Lemma allocs_inside m a bs b sz :
  chain m a bs -> In (b, sz) (allocs a bs) ->
  a <= b /\ b + sz <= a + total bs /\ 16 <= sz /\ sz mod 16 = 0 /\ (b - a) mod 16 = 0.
Proof.
  revert a. induction bs as [|[sz' al] bs IH]; intros a Hc Hin; simpl in *; [tauto|].
  destruct Hc as (H0 & H1 & H2 & H3).
  pose proof (chain_total _ _ _ H3) as [Ht _].
  assert (Hrec : In (b, sz) (allocs (a + sz') bs) ->
            a <= b /\ b + sz <= a + (sz' + total bs) /\ 16 <= sz /\ sz mod 16 = 0 /\
            (b - a) mod 16 = 0).
  { intros Hi. destruct (IH _ H3 Hi) as (I1 & I2 & I3 & I4 & I5).
    repeat split; try lia.
    replace (b - a) with ((b - (a + sz')) + sz') by lia.
    rewrite Z.add_mod, I5, H2 by lia. reflexivity. }
  destruct al; [|now apply Hrec].
  destruct Hin as [Heq|Hi]; [|now apply Hrec].
  injection Heq as <- <-. repeat split; try lia. now rewrite Z.sub_diag.
Qed.

(** An allocated block splits the list of blocks at its address. *)
Lemma allocs_split a bs b sz :
  In (b, sz) (allocs a bs) ->
  exists l1 l2, bs = l1 ++ (sz, true) :: l2 /\ b = a + total l1.
Proof.
  revert a. induction bs as [|[sz' al] bs IH]; intros a Hin; simpl in *; [tauto|].
  assert (Hrec : In (b, sz) (allocs (a + sz') bs) ->
            exists l1 l2, (sz', al) :: bs = l1 ++ (sz, true) :: l2 /\ b = a + total l1).
  { intros Hi. destruct (IH _ Hi) as (l1 & l2 & -> & ->).
    exists ((sz', al) :: l1), l2. split; [reflexivity|simpl; lia]. }
  destruct al; [|now apply Hrec].
  destruct Hin as [Heq|Hi]; [|now apply Hrec].
  injection Heq as <- <-. exists [], bs. split; [reflexivity|simpl; lia].
Qed.

Section Accessors.
Context (E : Prop) (s : st).

Lemma wpx_get_size block sz al (Q : Z -> st -> Prop) :
  in_heap (hp s) block 8 = true ->
  load64 (bytes (hp s)) block = encode sz al -> sz mod 16 = 0 ->
  Q sz s -> wpx E (get_size block) Q s.
Proof.
  intros Hin Hl Hsz HQ. unfold get_size. apply wpx_bind, wpx_load; [exact Hin|].
  apply wpx_ret. rewrite Hl, decode_size by exact Hsz. exact HQ.
Qed.

Lemma wpx_is_allocated block sz al (Q : bool -> st -> Prop) :
  in_heap (hp s) block 8 = true ->
  load64 (bytes (hp s)) block = encode sz al -> sz mod 16 = 0 ->
  Q al s -> wpx E (is_allocated block) Q s.
Proof.
  intros Hin Hl Hsz HQ. unfold is_allocated. apply wpx_bind, wpx_load; [exact Hin|].
  apply wpx_ret. rewrite Hl, decode_flag by exact Hsz. exact HQ.
Qed.

Lemma wpx_set_header block sz al (Q : unit -> st -> Prop) :
  in_heap (hp s) block 8 = true ->
  Q tt (mkState (set_bytes (hp s) (store64 (bytes (hp s)) block (encode sz al))) (gl s)) ->
  wpx E (set_header block sz al) Q s.
Proof. intros Hin HQ. unfold set_header. now apply wpx_store. Qed.

End Accessors.

Lemma frame_store A m0 m x v :
  frame A m0 m -> (forall b sz, In (b, sz) A -> x + 8 <= b \/ b + sz <= x) ->
  frame A m0 (store64 m x v).
Proof.
  intros Hf Hd b sz a Hin Ha. destruct (Hd _ _ Hin).
  - rewrite load8_store64_ne by lia. eapply Hf; eauto.
  - rewrite load8_store64_ne by lia. eapply Hf; eauto.
Qed.

Lemma allocs_around m a P csz R b sz :
  chain m a (P ++ (csz, false) :: R) ->
  In (b, sz) (allocs a (P ++ (csz, false) :: R)) ->
  b + sz <= a + total P \/ a + total P + csz <= b.
Proof.
  intros Hc Hin. apply chain_app in Hc as [HP HR]. simpl in HR.
  destruct HR as (_ & _ & _ & HR).
  rewrite allocs_app in Hin. simpl in Hin. apply in_app_or in Hin as [Hin|Hin].
  - left. eapply allocs_inside in Hin; [|exact HP]. lia.
  - right. eapply allocs_inside in Hin; [|exact HR]. lia.
Qed.

Lemma heap_ok_nonempty s bs :
  heap_ok s bs -> bs <> [] ->
  mm_heap_first (gl s) = heap_base s /\
  heap_base s <= mm_heap_last (gl s) < mem_brk (hp s).
Proof. intros [] Hne. destruct bs; [congruence|assumption]. Qed.

Lemma heap_ok_rebuild s bs m' g' bs' :
  heap_ok s bs -> bs <> [] -> bs' <> [] -> total bs' = total bs ->
  chain m' (heap_base s) bs' ->
  mm_heap_first g' = mm_heap_first (gl s) ->
  heap_base s <= mm_heap_last g' < mem_brk (hp s) ->
  heap_ok (mkState (set_bytes (hp s) m') g') bs'.
Proof.
  intros Hok Hne Hne' Ht Hc Hg Hl.
  destruct (heap_ok_nonempty _ _ Hok Hne) as [Hf _].
  destruct Hok as [Hla Hlo Hhi Hbh Hbrk Hch Hfirst].
  constructor; simpl; try assumption.
  - unfold heap_base in *. simpl. lia.
  - destruct bs'; [congruence|]. unfold heap_base in *. simpl. split; [congruence|lia].
Qed.

Lemma mod16_sub a b : a mod 16 = 0 -> b mod 16 = 0 -> (a - b) mod 16 = 0.
Proof. intros Ha Hb. rewrite Zminus_mod, Ha, Hb. reflexivity. Qed.

Lemma mod16_add a b : a mod 16 = 0 -> b mod 16 = 0 -> (a + b) mod 16 = 0.
Proof. intros Ha Hb. rewrite Z.add_mod, Ha, Hb by lia. reflexivity. Qed.

Lemma place_spec E s P csz R req m0 A0 :
  heap_ok s (P ++ (csz, false) :: R) ->
  16 <= req <= csz -> req mod 16 = 0 ->
  A0 = allocs (heap_base s) (P ++ (csz, false) :: R) ->
  frame A0 m0 (bytes (hp s)) ->
  wpx E (place (heap_base s + total P) csz req)
    (fun p s' => kept s s' /\ frame A0 m0 (bytes (hp s')) /\ took A0 req p s' /\
                 placed P csz R req s' /\ p = heap_base s + total P + 8) s.
Proof.
  intros Hok Hreq Hreqm HA Hfr. pose proof Hok as Hok0.
  destruct Hok as [Hla Hlo Hhi Hbh Hbrk Hch Hfirst].
  pose proof Hch as Hch0.
  apply chain_app in Hch as [HP HR]. simpl in HR. destruct HR as (Hhd & Hc16 & Hcm & HR).
  pose proof (chain_total _ _ _ HP) as [HtP HtPm].
  pose proof (chain_total _ _ _ HR) as [HtR HtRm].
  rewrite total_app in Hbrk. simpl in Hbrk.
  assert (Hb : heap_base s = mem_start_brk (hp s) + 8) by reflexivity.
  set (curr := heap_base s + total P) in *.
  assert (Hdisj : forall b sz, In (b, sz) A0 -> b + sz <= curr \/ curr + csz <= b).
  { intros b sz Hin. subst A0. eapply allocs_around; eauto. }
  assert (Hfl : mm_heap_first (gl s) = heap_base s /\
                heap_base s <= mm_heap_last (gl s) < mem_brk (hp s)).
  { destruct P; exact Hfirst. }
  clear Hfirst.
  assert (Hcurr : in_heap (hp s) curr 8 = true) by (apply in_heap_true; lia).
  unfold place. apply wpx_bind.
  rewrite (wrap_small (csz - req)) by lia.
  change (sizeof_block_t + ALIGNMENT) with 24.
  destruct (Z.leb_spec 24 (csz - req)) as [Hsplit|Hwhole].
  - apply wpx_bind, wpx_set_header; [exact Hcurr|].
    rewrite (wrap_small (curr + req)) by lia.
    apply wpx_bind, wpx_set_header; [apply in_heap_true; simpl; lia|].
    apply wpx_bind, wpx_get_gl. simpl.
    set (m2 := store64 (store64 (bytes (hp s)) curr (encode req true))
                 (curr + req) (encode (csz - req) false)).
    assert (Hrm : (csz - req) mod 16 = 0) by now apply mod16_sub.
    assert (Hfin : forall g', mm_heap_first g' = mm_heap_first (gl s) ->
              heap_base s <= mm_heap_last g' < mem_brk (hp s) ->
              let s' := mkState (set_bytes (hp s) m2) g' in
              kept s s' /\ frame A0 m0 (bytes (hp s')) /\ took A0 req (payload curr) s' /\
              placed P csz R req s' /\ payload curr = curr + 8).
    { intros g' Hg' Hl s'.
      assert (Hok' : heap_ok s' (P ++ (req, true) :: (csz - req, false) :: R)).
      { eapply heap_ok_rebuild with (bs := P ++ (csz, false) :: R).
        * exact Hok0.
        * now destruct P.
        * now destruct P.
        * rewrite !total_app. simpl. lia.
        * apply chain_app. split.
          -- subst m2. apply chain_store_out; [fold curr; lia|].
             apply chain_store_out; [fold curr; lia|]. exact HP.
          -- fold curr. simpl. split; [|split; [lia|split; [exact Hreqm|]]].
             { subst m2. rewrite load64_store64_ne by lia.
               apply load64_store64_eq. apply encode_range; [exact Hreqm|lia]. }
             split; [|split; [lia|split; [exact Hrm|]]].
             { subst m2. apply load64_store64_eq. apply encode_range; [exact Hrm|lia]. }
             replace (curr + req + (csz - req)) with (curr + csz) by lia.
             subst m2. apply chain_store_out; [lia|].
             apply chain_store_out; [lia|]. exact HR.
        * exact Hg'.
        * exact Hl. }
      assert (Hpay : payload curr = curr + 8).
      { unfold payload, sizeof_block_t. rewrite wrap_small by lia. reflexivity. }
      split; [|split; [|split; [|split; [left; split;
        [unfold sizeof_block_t, ALIGNMENT; lia|exact Hok']|exact Hpay]]]].
      - unfold kept, same_bounds. subst s'. simpl. auto.
      - subst s' m2. simpl. apply frame_store; [apply frame_store; [exact Hfr|]|].
        + intros b sz Hin. destruct (Hdisj _ _ Hin); lia.
        + intros b sz Hin. destruct (Hdisj _ _ Hin); lia.
      - exists P, ((csz - req, false) :: R), req. split; [|split; [|split]].
        + exact Hok'.
        + unfold payload, sizeof_block_t. rewrite wrap_small by lia. reflexivity.
        + subst A0. rewrite allocs_app. simpl. f_equal. f_equal.
          change (heap_base s') with (heap_base s). fold curr. lia.
        + lia. }
    destruct (Z.eqb_spec curr (mm_heap_last (gl s))) as [Heq|Hne].
    + apply wpx_put_gl. simpl. apply wpx_ret. apply Hfin; simpl; [reflexivity|lia].
    + apply wpx_ret, wpx_ret. apply Hfin; [reflexivity|lia].
  - apply wpx_set_header; [exact Hcurr|]. apply wpx_ret.
    set (m1 := store64 (bytes (hp s)) curr (encode csz true)).
    assert (Hok' : heap_ok (mkState (set_bytes (hp s) m1) (gl s)) (P ++ (csz, true) :: R)).
    { eapply heap_ok_rebuild with (bs := P ++ (csz, false) :: R).
      -- exact Hok0.
      -- now destruct P.
      -- now destruct P.
      -- rewrite !total_app. reflexivity.
      -- apply chain_app. split.
         ++ apply chain_store_out; [fold curr; lia|]. exact HP.
         ++ fold curr. simpl. split; [|split; [lia|split; [exact Hcm|]]].
            { apply load64_store64_eq. apply encode_range; [exact Hcm|lia]. }
            apply chain_store_out; [lia|]. exact HR.
      -- reflexivity.
      -- lia. }
    assert (Hpay : payload curr = curr + 8).
    { unfold payload, sizeof_block_t. rewrite wrap_small by lia. reflexivity. }
    split; [|split; [|split; [|split; [right; split;
      [unfold sizeof_block_t, ALIGNMENT; lia|exact Hok']|exact Hpay]]]].
    + unfold kept, same_bounds. simpl. auto.
    + simpl. apply frame_store; [exact Hfr|].
      intros b sz Hin. destruct (Hdisj _ _ Hin); lia.
    + exists P, R, csz. split; [|split; [|split]].
      * exact Hok'.
      * unfold payload, sizeof_block_t. rewrite wrap_small by lia. reflexivity.
      * subst A0. rewrite allocs_app. simpl. reflexivity.
      * lia.
Qed.

Lemma kept_trans s1 s2 s3 : kept s1 s2 -> kept s2 s3 -> kept s1 s3.
Proof.
  unfold kept, same_bounds. intros ((A & B) & C & D) ((A' & B') & C' & D').
  repeat split; congruence.
Qed.

Lemma scan_post_trans s1 s2 A0 m0 req r s' :
  kept s1 s2 -> gl s2 = gl s1 -> scan_post s2 A0 m0 req r s' -> scan_post s1 A0 m0 req r s'.
Proof.
  intros Hk Hg (K & F & H). split; [eapply kept_trans; eauto|]. split; [exact F|].
  destruct r; [exact H|]. destruct H as [H1 H2]. split; [exact H1|congruence].
Qed.

Lemma scan_spec E req m0 A0 fuel :
  16 <= req -> req mod 16 = 0 ->
  forall s P R prev_free,
  (E \/ (length R < fuel)%nat) ->
  heap_ok s (P ++ R) -> P ++ R <> [] ->
  (prev_free = NULL \/
   exists P' psz, P = P' ++ [(psz, false)] /\ prev_free = heap_base s + total P') ->
  A0 = allocs (heap_base s) (P ++ R) ->
  frame A0 m0 (bytes (hp s)) ->
  wpx E (scan fuel req (heap_base s + total P) prev_free) (scan_post s A0 m0 req) s.
Proof.
  intros Hreq Hreqm. induction fuel as [|fuel IH]; intros s P R prev_free HE Hok Hne Hpf HA Hfr.
  { apply wpx_out_of_fuel. destruct HE; [assumption|lia]. }
  simpl scan. apply wpx_bind, wpx_get_gl.
  pose proof Hok as Hok0.
  destruct Hok as [Hla Hlo Hhi Hbh Hbrk Hch Hfirst].
  destruct (heap_ok_nonempty _ _ Hok0 Hne) as [Hf Hl]. clear Hfirst.
  pose proof Hch as Hch0.
  apply chain_app in Hch as [HP HR].
  pose proof (chain_total _ _ _ HP) as [HtP HtPm].
  rewrite total_app in Hbrk.
  assert (Hb : heap_base s = mem_start_brk (hp s) + 8) by reflexivity.
  remember (heap_base s + total P) as curr eqn:Hc.
  destruct (Z.leb_spec curr (mm_heap_last (gl s))) as [Hin|Hout].
  2:{ apply wpx_ret. split; [unfold kept, same_bounds; auto|]. split; [exact Hfr|].
      split; [|reflexivity]. exists (P ++ R). split; [exact Hok0|]. now subst A0. }
  destruct R as [|[sz al] R'].
  { simpl in Hbrk. lia. }
  simpl in HR. destruct HR as (Hhd & Hs16 & Hsm & HR').
  pose proof (chain_total _ _ _ HR') as [HtR HtRm].
  simpl in Hbrk.
  assert (Hcurr : in_heap (hp s) curr 8 = true) by (apply in_heap_true; lia).
  apply wpx_bind. eapply wpx_get_size; [exact Hcurr|exact Hhd|exact Hsm|].
  apply wpx_bind. eapply wpx_is_allocated; [exact Hcurr|exact Hhd|exact Hsm|].
  apply wpx_bind.
  apply wpx_mono with (Q := fun cc s1 =>
    exists P1 csz, heap_ok s1 (P1 ++ (csz, al) :: R') /\
      cc = (heap_base s1 + total P1, csz) /\ kept s s1 /\ gl s1 = gl s /\
      allocs (heap_base s1) (P1 ++ (csz, al) :: R') = A0 /\
      frame A0 m0 (bytes (hp s1))).
  - destruct al; simpl negb; simpl andb.
    { apply wpx_ret. exists P, sz. split; [exact Hok0|]. split; [now rewrite Hc|].
      split; [unfold kept, same_bounds; auto|]. split; [reflexivity|].
      split; [now subst A0|exact Hfr]. }
    destruct (Z.eqb_spec prev_free NULL) as [Hnull|Hnn]; simpl negb.
    { apply wpx_ret. exists P, sz. split; [exact Hok0|]. split; [now rewrite Hc|].
      split; [unfold kept, same_bounds; auto|]. split; [reflexivity|].
      split; [now subst A0|exact Hfr]. }
    destruct Hpf as [Hpf|(P' & psz & HPeq & Hpfeq)]; [contradiction|].
    subst P. apply chain_app in HP as [HP' Hpb]. simpl in Hpb.
    destruct Hpb as (Hphd & Hp16 & Hpm & _).
    pose proof (chain_total _ _ _ HP') as [HtP' HtPm'].
    rewrite total_app in *. simpl in Hc, Hbrk, HtP.
    rewrite <- Hpfeq in Hphd.
    assert (Hpin : in_heap (hp s) prev_free 8 = true) by (apply in_heap_true; lia).
    apply wpx_bind. eapply wpx_get_size; [exact Hpin|exact Hphd|exact Hpm|].
    rewrite (wrap_small (sz + psz)) by lia.
    apply wpx_bind, wpx_set_header; [exact Hpin|]. apply wpx_ret.
    assert (Hsum : (sz + psz) mod 16 = 0) by now apply mod16_add.
    assert (HAeq : allocs (heap_base s) (P' ++ (sz + psz, false) :: R') = A0).
    { subst A0. rewrite <- app_assoc. rewrite !allocs_app. simpl.
      f_equal. f_equal. lia. }
    exists P', (sz + psz). split; [|split; [|split; [|split; [|split]]]].
    + eapply heap_ok_rebuild with (bs := (P' ++ [(psz, false)]) ++ (sz, false) :: R').
      * exact Hok0.
      * exact Hne.
      * now destruct P'.
      * rewrite !total_app. simpl. lia.
      * apply chain_app. split.
        -- apply chain_store_out; [lia|]. exact HP'.
        -- rewrite <- Hpfeq. simpl. split; [|split; [lia|split; [exact Hsum|]]].
           { apply load64_store64_eq. apply encode_range; [exact Hsum|lia]. }
           replace (prev_free + (sz + psz)) with (curr + sz) by lia.
           apply chain_store_out; [lia|]. exact HR'.
      * reflexivity.
      * lia.
    + simpl. unfold heap_base at 1. simpl. fold (heap_base s). now rewrite Hpfeq.
    + unfold kept, same_bounds. simpl. auto.
    + reflexivity.
    + exact HAeq.
    + simpl. apply frame_store; [exact Hfr|]. intros b bsz Hi.
      rewrite HA, <- app_assoc in Hi. rewrite <- app_assoc in Hch0.
      eapply allocs_around in Hi; [|exact Hch0]. lia.
  - clear Hla Hlo Hhi Hbh Hbrk HP Hhd HR' Hpf HA Hfr Hok0 Hf Hl Hch0 HtP HtPm Hb Hin
      HtR HtRm Hcurr Hc Hne. clear curr P prev_free.
    intros cc s1 (P & csz & Hok & -> & Hk & Hg & HA & Hfr). simpl fst. simpl snd.
    pose proof Hok as Hok0.
    destruct Hok as [Hla Hlo Hhi Hbh Hbrk Hch Hfirst]. clear Hfirst.
    apply chain_app in Hch as [HP HR]. simpl in HR.
    destruct HR as (Hhd & Hc16 & Hcm & HR').
    pose proof (chain_total _ _ _ HP) as [HtP HtPm].
    pose proof (chain_total _ _ _ HR') as [HtR HtRm].
    rewrite total_app in Hbrk. simpl in Hbrk.
    assert (Hb : heap_base s1 = mem_start_brk (hp s1) + 8) by reflexivity.
    assert (Hcurr : in_heap (hp s1) (heap_base s1 + total P) 8 = true)
      by (apply in_heap_true; lia).
    apply wpx_bind. eapply wpx_is_allocated; [exact Hcurr|exact Hhd|exact Hcm|].
    assert (Hnext : wpx E
              (do a1 <- is_allocated (heap_base s1 + total P);
               scan fuel req (wrap (heap_base s1 + total P + csz))
                 (if negb a1 then heap_base s1 + total P else NULL))
              (scan_post s A0 m0 req) s1).
    { apply wpx_bind. eapply wpx_is_allocated; [exact Hcurr|exact Hhd|exact Hcm|].
      rewrite wrap_small by lia.
      replace (heap_base s1 + total P + csz)
        with (heap_base s1 + total (P ++ [(csz, al)])) by (rewrite total_app; simpl; lia).
      eapply wpx_mono.
      - apply IH with (R := R').
        + destruct HE as [HE|HE]; [now left|right; simpl in HE; lia].
        + now rewrite <- app_assoc.
        + now destruct P.
        + destruct al; simpl; [now left|]. right. exists P, csz. auto.
        + now rewrite <- app_assoc.
        + exact Hfr.
      - intros r s'. now apply scan_post_trans. }
    destruct al; simpl negb; simpl andb; [exact Hnext|].
    destruct (Z.leb_spec req csz) as [Hfit|Hnofit]; [|exact Hnext].
    apply wpx_bind. eapply wpx_mono.
    + eapply place_spec with (m0 := m0) (A0 := A0); eauto.
    + intros p s' (Hk' & Hfr' & Ht & _). apply wpx_ret.
      split; [eapply kept_trans; eauto|]. split; [exact Hfr'|exact Ht].
Qed.

Lemma required_spec size :
  0 <= size -> size + 23 < 2 ^ 64 ->
  required size mod 16 = 0 /\ size + 8 <= required size < size + 24 /\
  16 <= required size.
Proof.
  intros H0 H1. unfold required, sizeof_block_t. rewrite wrap_small by lia.
  destruct (round_up_16 (8 + size)) as [A B]; [lia..|].
  split; [exact A|]. split; [lia|].
  apply Z.mod_divide in A; [|lia]. destruct A as [k Hk]. lia.
Qed.

Lemma heap_base_eq s : heap_base s = mem_start_brk (hp s) + 8.
Proof. reflexivity. Qed.

Lemma frame_refl A m : frame A m m.
Proof. intros b sz a _ _. reflexivity. Qed.

Lemma mm_malloc_spec E fuel size s bs :
  0 <= size -> size + 23 < 2 ^ 64 ->
  (E \/ (length bs < fuel)%nat) ->
  heap_ok s bs ->
  wpx E (mm_malloc fuel size) (malloc_post s bs size) s.
Proof.
  intros Hs0 Hs1 HE Hok.
  destruct (required_spec size Hs0 Hs1) as (Hrm & Hrb & Hr16).
  unfold mm_malloc. fold (required size). set (req := required size) in *.
  apply wpx_bind, wpx_get_gl.
  pose proof Hok as Hok0.
  destruct Hok as [Hla Hlo Hhi Hbh Hbrk Hch Hfirst].
  pose proof (heap_base_eq s) as Hb.
  destruct bs as [|b0 bs0].
  - rewrite Hfirst. simpl. simpl in Hbrk.
    apply wpx_bind, wpx_sbrk.
    + intros Hroom. destruct (Z.eqb_spec (mem_brk (hp s)) SBRK_FAILED) as [Hx|_].
      { unfold SBRK_FAILED in Hx. lia. }
      apply wpx_bind, wpx_set_header; [apply in_heap_true; simpl; lia|].
      apply wpx_bind, wpx_put_gl. apply wpx_ret. simpl.
      split; [unfold same_bounds; simpl; auto|]. split; [intros ? ? ? []|].
      right. split.
      * exists [], [], req. split; [|split; [|split]].
        -- clear Hb. constructor; rewrite ?heap_base_eq in *; simpl; try assumption; try lia.
           replace (mem_start_brk (hp s) + 8) with (mem_brk (hp s)) by lia.
           split; [|split; [lia|split; [exact Hrm|exact I]]].
           apply load64_store64_eq. apply encode_range; [exact Hrm|lia].
        -- unfold payload, sizeof_block_t. rewrite wrap_small by lia.
           rewrite !heap_base_eq in *. simpl. lia.
        -- reflexivity.
        -- lia.
      * right. split; [reflexivity|]. split.
        -- unfold payload, sizeof_block_t. rewrite wrap_small by lia. reflexivity.
        -- apply load64_store64_eq. apply encode_range; [exact Hrm|lia].
    + intros Hfull. rewrite Z.eqb_refl. apply wpx_ret. rewrite state_eta.
      split; [unfold same_bounds; auto|]. split; [apply frame_refl|].
      left. split; [reflexivity|]. split; [reflexivity|]. split; [reflexivity|].
      split; [exact Hfull|]. exists []. split; [exact Hok0|reflexivity].
  - destruct Hfirst as [Hf Hl]. rewrite Hf.
    destruct (Z.eqb_spec (heap_base s) NULL) as [Hx|_]; [unfold NULL in Hx; lia|].
    set (bs := b0 :: bs0) in *.
    set (A0 := allocs (heap_base s) bs).
    apply wpx_bind. eapply wpx_mono.
    { replace (heap_base s) with (heap_base s + total []) at 1 by (simpl; lia).
      apply scan_spec with (m0 := bytes (hp s)) (A0 := A0) (R := bs); auto.
      apply frame_refl. }
    intros [p|] s1 (Hk & Hfr & Hpost).
    + apply wpx_ret. destruct Hk as (Hsb & Hbrk1 & Hf1).
      split; [exact Hsb|]. split; [exact Hfr|]. right. split; [|now left].
      destruct Hpost as (P & R & sz & H1 & H2 & H3 & H4).
      exists P, R, sz. split; [exact H1|]. split; [exact H2|]. split; [exact H3|lia].
    + destruct Hpost as [(bs' & Hok' & HA') Hg]. destruct Hk as (Hsb & Hbrk1 & Hf1).
      destruct Hsb as [Hsb1 Hsb2].
      pose proof Hok' as Hok1.
      destruct Hok' as [Hla' Hlo' Hhi' Hbh' Hbrk' Hch' Hfirst'].
      pose proof (heap_base_eq s1) as Hb1.
      assert (Hbb : heap_base s1 = heap_base s) by (rewrite Hb, Hb1; lia).
      pose proof (chain_total _ _ _ Hch') as [Ht' Htm'].
      assert (Hne' : bs' <> []).
      { intros ->. rewrite Hf1, Hf in Hfirst'. unfold NULL in Hfirst'. lia. }
      apply wpx_bind, wpx_sbrk.
      * intros Hroom. destruct (Z.eqb_spec (mem_brk (hp s1)) SBRK_FAILED) as [Hx|_].
        { unfold SBRK_FAILED in Hx. lia. }
        apply wpx_bind, wpx_set_header; [apply in_heap_true; simpl; lia|].
        apply wpx_bind, wpx_get_gl. apply wpx_bind, wpx_put_gl. apply wpx_ret. simpl.
        split; [unfold same_bounds; simpl; auto|]. split.
        { apply frame_store; [exact Hfr|]. intros b sz Hin. right.
          change (In (b, sz) A0) in Hin. rewrite <- HA' in Hin.
          eapply allocs_inside in Hin; [|exact Hch']. lia. }
        right. split.
        -- exists bs', [], req. split; [|split; [|split]].
           ++ constructor; rewrite ?heap_base_eq in *; simpl; try assumption; try lia.
              ** rewrite total_app. simpl. lia.
              ** apply chain_app. split.
                 --- apply chain_store_out; [lia|]. exact Hch'.
                 --- simpl. replace (mem_start_brk (hp s1) + 8 + total bs')
                       with (mem_brk (hp s1)) by lia.
                     split; [|split; [lia|split; [exact Hrm|exact I]]].
                     apply load64_store64_eq. apply encode_range; [exact Hrm|lia].
              ** destruct bs'; [congruence|]. simpl. split; [congruence|]. lia.
           ++ unfold payload, sizeof_block_t. rewrite wrap_small by lia.
              rewrite !heap_base_eq in *. simpl. lia.
           ++ transitivity (allocs (heap_base s1) bs' ++ []); [|reflexivity].
              rewrite app_nil_r. symmetry. exact HA'.
           ++ lia.
        -- right. rewrite Hbrk1. split; [reflexivity|]. split.
           ++ unfold payload, sizeof_block_t. rewrite wrap_small by lia. lia.
           ++ rewrite <- Hbrk1. apply load64_store64_eq.
              apply encode_range; [exact Hrm|lia].
      * intros Hfull. rewrite Z.eqb_refl. apply wpx_ret. rewrite state_eta.
        split; [split; auto|]. split; [exact Hfr|].
        left. split; [reflexivity|]. split; [exact Hbrk1|]. split; [exact Hg|].
        split; [lia|]. exists bs'. split; [exact Hok1|].
        rewrite HA'. reflexivity.
Qed.

Lemma mm_free_spec E s L1 sz L2 :
  heap_ok s (L1 ++ (sz, true) :: L2) ->
  wpx E (mm_free (heap_base s + total L1 + 8))
    (fun _ s' => free_post s L1 sz L2 s') s.
Proof.
  intros Hok. pose proof Hok as Hok0.
  destruct Hok as [Hla Hlo Hhi Hbh Hbrk Hch Hfirst].
  assert (Hne : L1 ++ (sz, true) :: L2 <> []) by now destruct L1.
  destruct (heap_ok_nonempty _ _ Hok0 Hne) as [Hf Hl]. clear Hfirst.
  apply chain_app in Hch as [H1 H2]. simpl in H2. destruct H2 as (Hhd & H16 & Hm & H2).
  pose proof (chain_total _ _ _ H1) as [Ht1 _].
  pose proof (chain_total _ _ _ H2) as [Ht2 _].
  rewrite total_app in Hbrk. simpl in Hbrk.
  pose proof (heap_base_eq s) as Hb.
  unfold mm_free.
  destruct (Z.eqb_spec (heap_base s + total L1 + 8) NULL) as [Hx|_];
    [unfold NULL in Hx; lia|].
  unfold block_from_payload, sizeof_block_t.
  replace (heap_base s + total L1 + 8 - 8) with (heap_base s + total L1) by lia.
  rewrite wrap_small by lia.
  assert (Hin : in_heap (hp s) (heap_base s + total L1) 8 = true)
    by (apply in_heap_true; lia).
  apply wpx_bind. eapply wpx_get_size; [exact Hin|exact Hhd|exact Hm|].
  apply wpx_set_header; [exact Hin|].
  split; [|split; reflexivity].
  replace (gl s) with {| mm_heap_first := mm_heap_first (gl s);
                         mm_heap_last := mm_heap_last (gl s) |} by now destruct (gl s).
  eapply heap_ok_rebuild with (bs := L1 ++ (sz, true) :: L2); auto.
  - now destruct L1.
  - rewrite !total_app. reflexivity.
  - apply chain_app. split.
    + apply chain_store_out; [lia|]. exact H1.
    + simpl. split; [|split; [lia|split; [exact Hm|]]].
      * apply load64_store64_eq. apply encode_range; [exact Hm|lia].
      * apply chain_store_out; [lia|]. exact H2.
Qed.

Lemma chain_write_payload m a P nsz R x l :
  chain m a (P ++ (nsz, true) :: R) ->
  a + total P + 8 <= x -> x + Z.of_nat (length l) <= a + total P + nsz ->
  chain (write_bytes m x l) a (P ++ (nsz, true) :: R).
Proof.
  intros Hc H1 H2. apply chain_app in Hc as [HP HR]. simpl in HR.
  destruct HR as (Hhd & H16 & Hm & HR). apply chain_app. split.
  - apply chain_write_bytes_out; [lia|exact HP].
  - simpl. split; [|split; [lia|split; [exact Hm|]]].
    + rewrite load64_write_bytes_out by lia. exact Hhd.
    + apply chain_write_bytes_out; [lia|exact HR].
Qed.

Lemma allocs_free a X osz Y b z :
  In (b, z) (allocs a (X ++ (osz, true) :: Y)) -> b <> a + total X ->
  In (b, z) (allocs a (X ++ (osz, false) :: Y)).
Proof.
  rewrite !allocs_app. simpl. intros Hin Hne.
  apply in_app_or in Hin as [Hin|[Hin|Hin]]; apply in_or_app; auto.
  injection Hin as <- <-. contradiction.
Qed.

Lemma heap_ok_write_payload s P nsz R x l :
  heap_ok s (P ++ (nsz, true) :: R) ->
  heap_base s + total P + 8 <= x ->
  x + Z.of_nat (length l) <= heap_base s + total P + nsz ->
  heap_ok (mkState (set_bytes (hp s) (write_bytes (bytes (hp s)) x l)) (gl s))
    (P ++ (nsz, true) :: R).
Proof.
  intros Hok H1 H2. pose proof Hok as Hok0.
  destruct Hok as [Hla Hlo Hhi Hbh Hbrk Hch Hfirst].
  constructor; simpl; try assumption.
  now apply chain_write_payload.
Qed.

Lemma mm_realloc_spec E fuel size s L1 osz L2 :
  0 < size -> size + 23 < 2 ^ 64 ->
  (E \/ (length (L1 ++ (osz, true) :: L2) < fuel)%nat) ->
  heap_ok s (L1 ++ (osz, true) :: L2) ->
  wpx E (mm_realloc fuel (heap_base s + total L1 + 8) size)
    (realloc_post s L1 osz L2 size) s.
Proof.
  intros Hs0 Hs1 HE Hok. pose proof Hok as Hok0.
  destruct Hok as [Hla Hlo Hhi Hbh Hbrk Hch Hfirst]. clear Hfirst.
  pose proof Hch as Hch0.
  apply chain_app in Hch as [H1 H2]. simpl in H2. destruct H2 as (Hhd & H16 & Hm & H2).
  pose proof (chain_total _ _ _ H1) as [Ht1 _].
  pose proof (chain_total _ _ _ H2) as [Ht2 _].
  rewrite total_app in Hbrk. simpl in Hbrk.
  pose proof (heap_base_eq s) as Hb.
  set (old := heap_base s + total L1 + 8) in *.
  unfold mm_realloc.
  destruct (Z.eqb_spec old NULL) as [Hx|_]; [unfold NULL in Hx; lia|].
  destruct (Z.eqb_spec size 0) as [Hx|_]; [lia|].
  unfold block_from_payload, sizeof_block_t.
  replace (old - 8) with (heap_base s + total L1) by lia.
  rewrite (wrap_small (heap_base s + total L1)) by lia.
  assert (Hin : in_heap (hp s) (heap_base s + total L1) 8 = true)
    by (apply in_heap_true; lia).
  apply wpx_bind. eapply wpx_get_size; [exact Hin|exact Hhd|exact Hm|].
  rewrite (wrap_small (osz - 8)) by lia.
  destruct (Z.eqb_spec size (osz - 8)) as [Hsame|Hdiff].
  { apply wpx_ret. split; [split; reflexivity|]. left. auto. }
  apply wpx_bind. eapply wpx_mono.
  { apply mm_malloc_spec with (bs := L1 ++ (osz, true) :: L2); auto. lia. }
  intros r s1 (Hsb & Hfr & Hcase).
  set (A0 := allocs (heap_base s) (L1 ++ (osz, true) :: L2)) in *.
  assert (Hold : In (old - 8, osz) A0).
  { unfold A0. rewrite allocs_app. apply in_or_app. right. simpl. left.
    f_equal. lia. }
  destruct Hcase as [(-> & Hbrk1 & Hg1 & Hfull & bs' & Hok1 & HA1)|[Htook Hbrk1]].
  { simpl. apply wpx_ret. split; [exact Hsb|]. right. left.
    split; [exact Hdiff|]. split; [reflexivity|]. split; [exact Hbrk1|].
    split; [exact Hg1|]. split; [exact Hfull|]. split; [exact Hfr|]. exists bs'. auto. }
  destruct Htook as (P & R & nsz & Hok1 & Hr & HA & Hnsz).
  pose proof Hok1 as Hok1'.
  destruct Hok1' as [Hla1 Hlo1 Hhi1 Hbh1 Hbrk1' Hch1 Hfirst1]. clear Hfirst1.
  pose proof (heap_base_eq s1) as Hb1. destruct Hsb as [Hsb1 Hsb2].
  assert (Hbb : heap_base s1 = heap_base s) by lia.
  pose proof Hch1 as Hch1'.
  apply chain_app in Hch1' as [HP HR]. simpl in HR. destruct HR as (Hnhd & Hn16 & Hnm & HR).
  pose proof (chain_total _ _ _ HP) as [HtP _].
  pose proof (chain_total _ _ _ HR) as [HtR _].
  rewrite total_app in Hbrk1'. simpl in Hbrk1'.
  assert (Hbrkle : mem_brk (hp s) <= mem_brk (hp s1)).
  { destruct Hbrk1 as [->|[-> _]]; [lia|].
    destruct (required_spec size) as (_ & _ & ?); lia. }
  (* the old block lies on one side of the new one *)
  assert (Hside : old - 8 + osz <= r - 8 \/ r - 8 + nsz <= old - 8).
  { rewrite HA in Hold. apply in_app_or in Hold as [Hi|Hi].
    - left. eapply allocs_inside in Hi; [|exact HP]. lia.
    - right. eapply allocs_inside in Hi; [|exact HR]. lia. }
  destruct (Z.eqb_spec r NULL) as [Hx|Hrnn]; [unfold NULL in Hx; lia|].
  set (copy := if osz - 8 <? size then osz - 8 else size).
  assert (Hcopy : copy = Z.min (osz - 8) size).
  { unfold copy. destruct (Z.ltb_spec (osz - 8) size); lia. }
  apply wpx_bind, wpx_memcpy; [lia|apply in_heap_true; lia|apply in_heap_true; lia|].
  set (rd := read_bytes (Z.to_nat copy) (bytes (hp s1)) old).
  assert (Hlen : Z.of_nat (length rd) = copy).
  { unfold rd. rewrite length_read_bytes. lia. }
  set (s2 := mkState (set_bytes (hp s1) (write_bytes (bytes (hp s1)) r rd)) (gl s1)).
  assert (Hok2 : heap_ok s2 (P ++ (nsz, true) :: R)).
  { apply heap_ok_write_payload; [exact Hok1|lia|lia]. }
  (* the old block in the new list *)
  assert (Hold1 : In (old - 8, osz) (allocs (heap_base s1) (P ++ (nsz, true) :: R))).
  { rewrite allocs_app. simpl. rewrite HA in Hold.
    apply in_app_or in Hold as [Hi|Hi]; apply in_or_app; [left|right; right];
      congruence. }
  destruct (allocs_split _ _ _ _ Hold1) as (X & Y & HXY & HoldX).
  rewrite HXY in Hok2.
  apply wpx_bind. eapply wpx_mono.
  { replace old with (heap_base s2 + total X + 8)
      by (change (heap_base s2) with (heap_base s1); lia).
    apply mm_free_spec. exact Hok2. }
  intros [] s3 (Hok3 & Hg3 & Hhp3). apply wpx_ret.
  assert (Hb3 : heap_base s3 = heap_base s).
  { rewrite heap_base_eq, Hhp3. simpl. lia. }
  split; [split; rewrite Hhp3; simpl; lia|].
  right. right. split; [exact Hdiff|]. split; [exact Hrnn|]. split; [lia|].
  exists X, Y, nsz. split; [exact Hok3|]. split; [lia|].
  split; [|split; [lia|split]].
  - rewrite Hb3, <- Hbb. apply allocs_free; [|lia].
    rewrite <- HXY, allocs_app. apply in_or_app. right. simpl. left. f_equal. lia.
  - intros b z Hi Hne. rewrite Hb3, <- Hbb. apply allocs_free; [|lia].
    rewrite <- HXY, allocs_app. simpl. fold A0 in Hi. rewrite HA in Hi.
    apply in_app_or in Hi as [Hi|Hi]; apply in_or_app; [left|right; right]; congruence.
  - intros i Hi. rewrite Hhp3. simpl.
    rewrite load8_store64_ne by (change (heap_base s2) with (heap_base s1); lia).
    replace i with (Z.of_nat (Z.to_nat i)) at 1 by lia.
    erewrite load8_write_bytes_in.
    2:{ unfold rd. apply read_bytes_lookup. lia. }
    rewrite Z2Nat.id by lia.
    rewrite Z.mod_small by apply load8_range.
    apply (Hfr (old - 8) osz); [exact Hold|lia].
Qed.

Lemma frame_write_bytes A m0 m x l :
  frame A m0 m ->
  (forall b sz, In (b, sz) A -> x + Z.of_nat (length l) <= b \/ b + sz <= x) ->
  frame A m0 (write_bytes m x l).
Proof.
  intros Hf Hd b sz a Hin Ha. destruct (Hd _ _ Hin).
  - rewrite load8_write_bytes_out by lia. eapply Hf; eauto.
  - rewrite load8_write_bytes_out by lia. eapply Hf; eauto.
Qed.

Lemma took_disjoint A0 req r s' b z :
  took A0 req r s' -> In (b, z) A0 ->
  exists nsz, req <= nsz /\ heap_base s' + 8 <= r /\ r - 8 + nsz <= mem_brk (hp s') /\
              (b + z <= r - 8 \/ r - 8 + nsz <= b).
Proof.
  intros (P & R & nsz & Hok & Hr & HA & Hn) Hin. exists nsz.
  destruct Hok as [Hla Hlo Hhi Hbh Hbrk Hch Hfirst].
  apply chain_app in Hch as [HP HR]. simpl in HR. destruct HR as (_ & _ & _ & HR).
  pose proof (chain_total _ _ _ HP) as [HtP _].
  pose proof (chain_total _ _ _ HR) as [HtR _].
  rewrite total_app in Hbrk. simpl in Hbrk.
  split; [exact Hn|]. split; [lia|]. split; [lia|].
  rewrite HA in Hin. apply in_app_or in Hin as [Hi|Hi].
  - left. eapply allocs_inside in Hi; [|exact HP]. lia.
  - right. eapply allocs_inside in Hi; [|exact HR]. lia.
Qed.

Lemma mm_calloc_spec E fuel nmemb size s bs :
  wrap (nmemb * size) + 23 < 2 ^ 64 ->
  (E \/ (length bs < fuel)%nat) ->
  heap_ok s bs ->
  wpx E (mm_calloc fuel nmemb size) (calloc_post s bs (wrap (nmemb * size))) s.
Proof.
  intros Hs1 HE Hok. unfold mm_calloc.
  pose proof (wrap_range (nmemb * size)) as Hw.
  set (n := wrap (nmemb * size)) in *.
  apply wpx_bind. eapply wpx_mono.
  { apply mm_malloc_spec with (bs := bs); auto. lia. }
  intros r s1 (Hsb & Hfr & Hcase).
  destruct Hcase as [(-> & Hbrk1 & Hg1 & Hfull & bs' & Hok1 & HA1)|[Htook Hbrk1]].
  { simpl. apply wpx_bind, wpx_ret, wpx_ret. split; [exact Hsb|]. split; [exact Hfr|].
    left. split; [reflexivity|]. split; [exact Hbrk1|]. split; [exact Hg1|].
    split; [exact Hfull|]. exists bs'. auto. }
  pose proof Htook as (P & R & nsz & Hok1 & Hr & HA & Hnsz).
  pose proof Hok1 as Hok1'.
  destruct Hok1' as [Hla1 Hlo1 Hhi1 Hbh1 Hbrk1' Hch1 Hfirst1]. clear Hfirst1.
  pose proof (heap_base_eq s1) as Hb1.
  pose proof Hch1 as Hch1'.
  apply chain_app in Hch1' as [HP HR]. simpl in HR. destruct HR as (Hnhd & Hn16 & Hnm & HR).
  pose proof (chain_total _ _ _ HP) as [HtP _].
  pose proof (chain_total _ _ _ HR) as [HtR _].
  rewrite total_app in Hbrk1'. simpl in Hbrk1'.
  destruct (Z.eqb_spec r NULL) as [Hx|Hrnn]; [unfold NULL in Hx; lia|].
  simpl negb. apply wpx_bind.
  destruct (Z.eq_dec n 0) as [Hn0|Hn0].
  { rewrite Hn0. apply wpx_memset_0, wpx_ret. split; [exact Hsb|]. split; [exact Hfr|].
    right. split; [now rewrite Hn0 in Htook|]. intros i Hi. lia. }
  apply wpx_memset; [exact Hn0|apply in_heap_true; lia|]. apply wpx_ret.
  set (zs := replicate (Z.to_nat n) 0).
  assert (Hlen : Z.of_nat (length zs) = n).
  { unfold zs. rewrite length_replicate. lia. }
  split; [exact Hsb|]. split.
  { simpl. apply frame_write_bytes; [exact Hfr|]. intros b z Hin.
    destruct (took_disjoint _ _ _ _ _ _ Htook Hin) as (nsz' & ? & ? & ? & ?).
    rewrite HA in Hin. apply in_app_or in Hin as [Hi|Hi].
    - right. eapply allocs_inside in Hi; [|exact HP]. lia.
    - left. eapply allocs_inside in Hi; [|exact HR]. lia. }
  right. split.
  - exists P, R, nsz. split; [|split; [exact Hr|split; [exact HA|exact Hnsz]]].
    apply heap_ok_write_payload; [exact Hok1|lia|lia].
  - intros i Hi. simpl.
    replace i with (Z.of_nat (Z.to_nat i)) by lia.
    erewrite load8_write_bytes_in.
    2:{ unfold zs. apply lookup_replicate_2. lia. }
    reflexivity.
Qed.

Lemma mm_init_spec lo hi s :
  lo mod 16 = 0 -> 0 <= lo -> hi < 2 ^ 64 - 1 ->
  mm_init (fresh lo hi) = Ok true s ->
  heap_ok s [] /\ mem_start_brk (hp s) = lo /\ mem_max_addr (hp s) = hi /\
  bytes (hp s) = ∅.
Proof.
  intros Hla Hlo Hhi. unfold mm_init, bind, sbrk, mem_sbrk, fresh. simpl.
  change (ALIGNMENT - sizeof_block_t) with 8.
  destruct (Z.leb_spec (lo + 8) hi) as [Hroom|Hfull]; simpl.
  - destruct (Z.eqb_spec lo SBRK_FAILED) as [Hx|_]; [unfold SBRK_FAILED in Hx; lia|].
    unfold put_gl, ret. simpl. intros [= <-]. simpl.
    split; [|auto]. constructor; rewrite ?heap_base_eq; simpl; try assumption; try lia; auto.
  - unfold ret. intros [= ?].
Qed.

Lemma aligned_of_alloc s bs b z :
  heap_ok s bs -> In (b, z) (allocs (heap_base s) bs) -> (b + 8) mod 16 = 0.
Proof.
  intros [Hla Hlo Hhi Hbh Hbrk Hch Hfirst] Hin.
  eapply allocs_inside in Hin; [|exact Hch]. destruct Hin as (_ & _ & _ & _ & Hm).
  replace (b + 8) with ((b - heap_base s) + (mem_start_brk (hp s) + 16))
    by (rewrite heap_base_eq; lia).
  apply mod16_add; [exact Hm|]. apply mod16_add; [exact Hla|reflexivity].
Qed.

Lemma took_allocs A0 req r s' :
  took A0 req r s' ->
  exists bs' sz, heap_ok s' bs' /\ In (r - 8, sz) (allocs (heap_base s') bs') /\
    r <> NULL /\ req <= sz /\
    forall b z, In (b, z) A0 -> In (b, z) (allocs (heap_base s') bs').
Proof.
  intros (P & R & sz & Hok & Hr & HA & Hn).
  exists (P ++ (sz, true) :: R), sz. split; [exact Hok|].
  rewrite allocs_app. simpl. split; [|split; [|split; [exact Hn|]]].
  - apply in_or_app. right. left. f_equal. lia.
  - destruct Hok as [Hla Hlo Hhi Hbh Hbrk Hch Hfirst].
    apply chain_app in Hch as [HP _]. pose proof (chain_total _ _ _ HP) as [? _].
    rewrite heap_base_eq in Hr. unfold NULL. lia.
  - intros b z Hin. rewrite HA in Hin.
    apply in_app_or in Hin as [Hi|Hi]; apply in_or_app; [left|right; right]; exact Hi.
Qed.

Lemma same_bounds_base s s' : same_bounds s s' -> heap_base s' = heap_base s.
Proof. intros [H1 H2]. rewrite !heap_base_eq. lia. Qed.

Lemma holds_gained (L : gset Z) A0 req r s' :
  (forall p, p ∈ L -> exists sz, In (p - 8, sz) A0) ->
  took A0 req r s' -> holds s' (gained L r) /\ r mod 16 = 0.
Proof.
  intros HL Ht. destruct (took_allocs _ _ _ _ Ht) as (bs' & sz & Hok & Hin & Hnn & _ & Hsub).
  split.
  - exists bs'. split; [exact Hok|]. intros p Hp. unfold gained in Hp.
    destruct (Z.eqb_spec r NULL); [contradiction|].
    apply elem_of_union in Hp as [Hp|Hp].
    + destruct (HL p Hp) as [z Hz]. exists z. now apply Hsub.
    + apply elem_of_singleton in Hp. subst p. eauto.
  - replace r with (r - 8 + 8) by lia. eapply aligned_of_alloc; eauto.
Qed.

Lemma step_holds fuel c s L :
  holds s L -> valid L c ->
  wpx True (run_call fuel c)
    (fun r s' => holds s' (live_after L c r) /\ (r <> NULL -> r mod 16 = 0)) s.
Proof.
  intros (bs & Hok & HL) Hv. destruct c as [size|ptr|ptr size|nmemb size]; simpl in *.
  - (* malloc *)
    destruct Hv as [Hv0 Hv1]. eapply wpx_mono.
    { apply mm_malloc_spec with (bs := bs); auto. }
    intros r s' (Hsb & Hfr & [(-> & Hbrk & Hg & _ & bs' & Hok' & HA)|[Ht _]]).
    + split; [|congruence]. exists bs'. split; [exact Hok'|].
      intros p Hp. rewrite HA. now apply HL.
    + destruct (holds_gained L _ _ _ _ HL Ht). auto.
  - (* free *)
    apply wpx_bind. destruct Hv as [->|Hp].
    { unfold mm_free. simpl. apply wpx_ret, wpx_ret. split; [|congruence].
      exists bs. split; [exact Hok|]. intros p Hp. apply HL.
      now apply elem_of_difference in Hp as [Hp _]. }
    destruct (HL _ Hp) as [sz Hin].
    destruct (allocs_split _ _ _ _ Hin) as (L1 & L2 & -> & Hptr).
    replace ptr with (heap_base s + total L1 + 8) at 1 by lia.
    eapply wpx_mono; [apply mm_free_spec; exact Hok|].
    intros [] s' (Hok' & Hg & Hhp). apply wpx_ret. split; [|congruence].
    exists (L1 ++ (sz, false) :: L2). split; [exact Hok'|].
    intros p Hp'. apply elem_of_difference in Hp' as [Hp1 Hp2].
    destruct (HL _ Hp1) as [z Hz]. exists z.
    replace (heap_base s') with (heap_base s) by (rewrite !heap_base_eq, Hhp; reflexivity).
    apply allocs_free; [exact Hz|]. intros Heq. apply Hp2. apply elem_of_singleton. lia.
  - (* realloc *)
    destruct Hv as [Hp [Hv0 Hv1]]. unfold mm_realloc.
    destruct (Z.eqb_spec ptr NULL) as [Hnull|Hnn].
    { eapply wpx_mono.
      { apply mm_malloc_spec with (bs := bs); auto. }
      intros r s' (Hsb & Hfr & [(-> & Hbrk & Hg & _ & bs' & Hok' & HA)|[Ht _]]).
      + split; [|congruence]. exists bs'. split; [exact Hok'|].
        intros p Hp'. rewrite HA. now apply HL.
      + destruct (holds_gained L _ _ _ _ HL Ht). auto. }
    destruct Hp as [Hp|Hp]; [contradiction|].
    destruct (HL _ Hp) as [sz Hin].
    destruct (allocs_split _ _ _ _ Hin) as (L1 & L2 & -> & Hptr).
    assert (Hpe : ptr = heap_base s + total L1 + 8) by lia.
    destruct (Z.eqb_spec size 0) as [Hz|Hnz].
    { apply wpx_bind. rewrite Hpe at 1.
      eapply wpx_mono; [apply mm_free_spec; exact Hok|].
      intros [] s' (Hok' & Hg & Hhp). apply wpx_ret. split; [|congruence].
      exists (L1 ++ (sz, false) :: L2). split; [exact Hok'|].
      intros p Hp'. apply elem_of_difference in Hp' as [Hp1 Hp2].
      destruct (HL _ Hp1) as [z Hz']. exists z.
      replace (heap_base s') with (heap_base s)
        by (rewrite !heap_base_eq, Hhp; reflexivity).
      apply allocs_free; [exact Hz'|]. intros Heq. apply Hp2. apply elem_of_singleton. lia. }
    pose proof (mm_realloc_spec True fuel size s L1 sz L2 ltac:(lia) Hv1 ltac:(now left) Hok)
      as Hspec.
    unfold mm_realloc in Hspec. rewrite <- Hpe in Hspec.
    destruct (Z.eqb_spec ptr NULL) as [|_]; [contradiction|].
    destruct (Z.eqb_spec size 0) as [|_]; [contradiction|].
    eapply wpx_mono; [exact Hspec|]. clear Hspec.
    intros r s' (Hsb & Hcase). rewrite <- Hpe in Hcase.
    destruct Hcase as [(Hsz & -> & ->)|[(Hsz & -> & Hbrk & Hg & _ & Hfr & bs' & Hok' & HA)|
                       (Hsz & Hrnn & Hrne & X & Y & nsz & Hok' & HoldX & Hrin & Hn & Hkeep & _)]].
    + destruct (Z.eqb_spec ptr NULL); [contradiction|]. split.
      * exists (L1 ++ (sz, true) :: L2). split; [exact Hok|]. intros p Hp'.
        unfold gained in Hp'. destruct (Z.eqb_spec ptr NULL); [contradiction|].
        apply elem_of_union in Hp' as [Hp'|Hp'].
        -- apply HL. now apply elem_of_difference in Hp' as [Hp' _].
        -- apply elem_of_singleton in Hp'. subst p. eauto.
      * intros _. replace ptr with (ptr - 8 + 8) by lia. eapply aligned_of_alloc; eauto.
    + simpl. split; [|congruence]. exists bs'. split; [exact Hok'|].
      intros p Hp'. rewrite HA. now apply HL.
    + destruct (Z.eqb_spec r NULL); [contradiction|]. split.
      * exists (X ++ (sz, false) :: Y). split; [exact Hok'|]. intros p Hp'.
        unfold gained in Hp'. destruct (Z.eqb_spec r NULL); [contradiction|].
        apply elem_of_union in Hp' as [Hp'|Hp'].
        -- apply elem_of_difference in Hp' as [Hp1 Hp2].
           destruct (HL _ Hp1) as [z Hz]. exists z. apply Hkeep; [exact Hz|].
           intros Heq. apply Hp2. apply elem_of_singleton. lia.
        -- apply elem_of_singleton in Hp'. subst p. eauto.
      * intros _. replace r with (r - 8 + 8) by lia. eapply aligned_of_alloc; eauto.
  - (* calloc *)
    destruct Hv as [Hv0 Hv1]. eapply wpx_mono.
    { apply mm_calloc_spec with (bs := bs); auto. }
    intros r s' (Hsb & Hfr & [(-> & Hbrk & Hg & _ & bs' & Hok' & HA)|[Ht Hz]]).
    + split; [|congruence]. exists bs'. split; [exact Hok'|].
      intros p Hp. rewrite HA. now apply HL.
    + destruct (holds_gained L _ _ _ _ HL Ht). auto.
Qed.

Lemma reach_holds s L : reach s L -> holds s L.
Proof.
  induction 1 as [lo hi s Hla Hlo Hhi Hinit|s L fuel c r s' Hr IH Hv Hrun].
  - destruct (mm_init_spec lo hi s Hla Hlo Hhi Hinit) as (Hok & _).
    exists []. split; [exact Hok|]. intros p Hp. set_solver.
  - pose proof (step_holds fuel c s L IH Hv) as Hw.
    apply (wpx_elim _ _ _ _ _ _ Hw Hrun).
Qed.

(** One turn of the loop at a free block with no free block before it, too
    small for the request: the block becomes [prev_free]. *)
Lemma scan_pass_free E fuel req s P sz R (Q : option Z -> st -> Prop) :
  heap_ok s (P ++ (sz, false) :: R) ->
  heap_base s + total P <= mm_heap_last (gl s) -> sz < req ->
  wpx E (scan fuel req (heap_base s + total P + sz) (heap_base s + total P)) Q s ->
  wpx E (scan (S fuel) req (heap_base s + total P) NULL) Q s.
Proof.
  intros Hok Hlast Hsmall HQ.
  pose proof Hok as [Hla Hlo Hhi Hbh Hbrk Hch Hfirst].
  apply chain_app in Hch as [HP HR]. simpl in HR. destruct HR as (Hhd & H16 & Hm & HR).
  pose proof (chain_total _ _ _ HP) as [HtP _].
  pose proof (chain_total _ _ _ HR) as [HtR _].
  rewrite total_app in Hbrk. simpl in Hbrk.
  pose proof (heap_base_eq s) as Hb.
  set (curr := heap_base s + total P) in *.
  assert (Hcurr : in_heap (hp s) curr 8 = true) by (apply in_heap_true; lia).
  simpl scan. apply wpx_bind, wpx_get_gl.
  destruct (Z.leb_spec curr (mm_heap_last (gl s))) as [_|Hx]; [|lia].
  apply wpx_bind. eapply wpx_get_size; [exact Hcurr|exact Hhd|exact Hm|].
  apply wpx_bind. eapply wpx_is_allocated; [exact Hcurr|exact Hhd|exact Hm|].
  simpl. apply wpx_bind, wpx_ret. simpl.
  apply wpx_bind. eapply wpx_is_allocated; [exact Hcurr|exact Hhd|exact Hm|].
  simpl. destruct (Z.leb_spec req sz) as [Hx|_]; [lia|].
  apply wpx_bind. eapply wpx_is_allocated; [exact Hcurr|exact Hhd|exact Hm|].
  simpl. rewrite (wrap_small (curr + sz)) by lia. exact HQ.
Qed.

(** One turn of the loop at a free block whose predecessor is [prev_free]:
    the block is merged into its predecessor; the merged block is placed if
    it fits and is [prev_free] for the next turn if it does not. *)
Lemma scan_merge E fuel req s P psz sz R (Q : option Z -> st -> Prop) :
  heap_ok s (P ++ (psz, false) :: (sz, false) :: R) ->
  let prev := heap_base s + total P in
  let s1 := mkState (set_bytes (hp s)
                       (store64 (bytes (hp s)) prev (encode (psz + sz) false))) (gl s) in
  prev + psz <= mm_heap_last (gl s) ->
  (heap_ok s1 (P ++ (psz + sz, false) :: R) ->
   if req <=? psz + sz
   then wpx E (do p <- place prev (psz + sz) req; ret (Some p)) Q s1
   else wpx E (scan fuel req (prev + (psz + sz)) prev) Q s1) ->
  wpx E (scan (S fuel) req (prev + psz) prev) Q s.
Proof.
  intros Hok prev s1 Hlast HQ.
  pose proof Hok as [Hla Hlo Hhi Hbh Hbrk Hch Hfirst].
  pose proof Hch as Hch0.
  apply chain_app in Hch as [HP HR]. simpl in HR.
  destruct HR as (Hphd & Hp16 & Hpm & Hhd & H16 & Hm & HR).
  pose proof (chain_total _ _ _ HP) as [HtP _].
  pose proof (chain_total _ _ _ HR) as [HtR _].
  rewrite total_app in Hbrk. simpl in Hbrk.
  pose proof (heap_base_eq s) as Hb.
  fold prev in Hphd, Hhd, HR.
  assert (Hne : P ++ (psz, false) :: (sz, false) :: R <> []) by now destruct P.
  destruct (heap_ok_nonempty _ _ Hok Hne) as [Hf Hl].
  assert (Hprev : in_heap (hp s) prev 8 = true) by (apply in_heap_true; unfold prev; lia).
  assert (Hcurr : in_heap (hp s) (prev + psz) 8 = true)
    by (apply in_heap_true; unfold prev; lia).
  assert (Hsum : (psz + sz) mod 16 = 0) by now apply mod16_add.
  assert (Hok1 : heap_ok s1 (P ++ (psz + sz, false) :: R)).
  { eapply heap_ok_rebuild with (bs := P ++ (psz, false) :: (sz, false) :: R).
    - exact Hok.
    - exact Hne.
    - now destruct P.
    - rewrite !total_app. simpl. lia.
    - apply chain_app. split.
      + apply chain_store_out; [unfold prev; lia|]. exact HP.
      + fold prev. simpl. split; [|split; [lia|split; [exact Hsum|]]].
        { apply load64_store64_eq. apply encode_range; [exact Hsum|unfold prev in *; lia]. }
        replace (prev + (psz + sz)) with (prev + psz + sz) by lia.
        apply chain_store_out; [lia|]. exact HR.
    - reflexivity.
    - exact Hl. }
  specialize (HQ Hok1).
  assert (Hhd1 : load64 (bytes (hp s1)) prev = encode (psz + sz) false).
  { simpl. apply load64_store64_eq. apply encode_range; [exact Hsum|unfold prev in *; lia]. }
  assert (Hprev1 : in_heap (hp s1) prev 8 = true) by exact Hprev.
  simpl scan. apply wpx_bind, wpx_get_gl.
  destruct (Z.leb_spec (prev + psz) (mm_heap_last (gl s))) as [_|Hx]; [|lia].
  apply wpx_bind. eapply wpx_get_size; [exact Hcurr|exact Hhd|exact Hm|].
  apply wpx_bind. eapply wpx_is_allocated; [exact Hcurr|exact Hhd|exact Hm|].
  simpl negb. simpl andb.
  destruct (Z.eqb_spec prev NULL) as [Hx|_]; [unfold NULL, prev in Hx; lia|].
  simpl negb. cbv iota.
  apply wpx_bind, wpx_bind. eapply wpx_get_size; [exact Hprev|exact Hphd|exact Hpm|].
  rewrite (wrap_small (sz + psz)) by (unfold prev in *; lia).
  replace (sz + psz) with (psz + sz) by lia.
  apply wpx_bind, wpx_set_header; [exact Hprev|]. fold s1. apply wpx_ret.
  cbn [fst snd].
  apply wpx_bind. eapply wpx_is_allocated; [exact Hprev1|exact Hhd1|exact Hsum|].
  simpl negb. simpl andb.
  destruct (Z.leb_spec req (psz + sz)) as [Hfit|Hno].
  - exact HQ.
  - apply wpx_bind. eapply wpx_is_allocated; [exact Hprev1|exact Hhd1|exact Hsum|].
    simpl negb. cbv iota.
    rewrite (wrap_small (prev + (psz + sz))) by (unfold prev in *; lia). exact HQ.
Qed.
(** Three free blocks in a row at the start of the heap, the first two
    together too small for the request and the three together large enough:
    one run of the loop makes one block of them and places the request in
    it. *)
Lemma malloc_merges_three fuel size s z1 z2 z3 R :
  heap_ok s ((z1, false) :: (z2, false) :: (z3, false) :: R) ->
  0 <= size -> size + 23 < 2 ^ 64 ->
  z1 + z2 < required size <= z1 + z2 + z3 ->
  heap_base s + z1 + z2 <= mm_heap_last (gl s) ->
  (3 <= fuel)%nat ->
  wpx False (mm_malloc fuel size)
    (fun r s' => r = heap_base s + 8 /\ placed [] (z1 + z2 + z3) R (required size) s') s.
Proof.
  intros Hok Hs0 Hs1 Hreq Hlast Hfuel.
  destruct (required_spec size Hs0 Hs1) as (Hrm & Hrb & Hr16).
  pose proof Hok as [Hla Hlo Hhi Hbh Hbrk Hch Hfirst].
  simpl in Hch. destruct Hch as (_ & A16 & _ & _ & B16 & _ & _ & C16 & _).
  destruct Hfirst as [Hf Hl].
  pose proof (heap_base_eq s) as Hb.
  unfold mm_malloc. fold (required size). set (req := required size) in *.
  apply wpx_bind, wpx_get_gl. rewrite Hf.
  destruct (Z.eqb_spec (heap_base s) NULL) as [Hx|_]; [unfold NULL in Hx; lia|].
  destruct fuel as [|[|[|fuel]]]; try lia.
  apply wpx_bind.
  replace (heap_base s) with (heap_base s + total []) at 1 by (simpl; lia).
  apply (scan_pass_free False _ req s [] z1 ((z2, false) :: (z3, false) :: R));
    [exact Hok|simpl; lia|lia|].
  apply (scan_merge False _ req s [] z1 z2 ((z3, false) :: R)); [exact Hok|simpl; lia|].
  intros Hok1.
  destruct (Z.leb_spec req (z1 + z2)) as [Hx|_]; [lia|].
  match goal with |- wpx _ _ _ ?s1 => set (t1 := s1) in * end.
  change (heap_base s) with (heap_base t1).
  apply (scan_merge False _ req t1 [] (z1 + z2) z3 R); [exact Hok1|change (heap_base t1) with (heap_base s); simpl; lia|].
  intros Hok2.
  match goal with |- context [wpx _ _ _ ?s2] => set (t2 := s2) in * end.
  destruct (Z.leb_spec req (z1 + z2 + z3)) as [_|Hx]; [|lia].
  apply wpx_bind. eapply wpx_mono.
  { change (heap_base t1) with (heap_base t2).
    exact (place_spec False t2 [] (z1 + z2 + z3) R req _ _ Hok2
             (conj Hr16 (proj2 Hreq)) Hrm eq_refl (frame_refl _ _)). }
  intros p s' (_ & _ & _ & Hp & ->). apply wpx_ret, wpx_ret.
  split; [change (heap_base t2) with (heap_base s); change (heap_base t1) with (heap_base s); simpl total; lia|exact Hp].
Qed.

(** A turn of the loop at an allocated block that lies across
    [mm_heap_last]: the next turn is past [mm_heap_last], and the loop ends
    without a fit and without a store, whatever blocks follow. *)
Lemma scan_ends_at_last E fuel req s P sz R prev :
  heap_ok s (P ++ (sz, true) :: R) ->
  heap_base s + total P <= mm_heap_last (gl s) < heap_base s + total P + sz ->
  wpx E (scan (S (S fuel)) req (heap_base s + total P) prev)
    (fun r s' => r = None /\ s' = s) s.
Proof.
  intros Hok Hlast.
  pose proof Hok as [Hla Hlo Hhi Hbh Hbrk Hch Hfirst].
  apply chain_app in Hch as [HP HR]. simpl in HR. destruct HR as (Hhd & H16 & Hm & HR).
  pose proof (chain_total _ _ _ HP) as [HtP _].
  pose proof (chain_total _ _ _ HR) as [HtR _].
  rewrite total_app in Hbrk. simpl in Hbrk.
  pose proof (heap_base_eq s) as Hb.
  set (curr := heap_base s + total P) in *.
  assert (Hcurr : in_heap (hp s) curr 8 = true) by (apply in_heap_true; lia).
  cbn [scan]. apply wpx_bind, wpx_get_gl.
  destruct (Z.leb_spec curr (mm_heap_last (gl s))) as [_|Hx]; [|lia].
  apply wpx_bind. eapply wpx_get_size; [exact Hcurr|exact Hhd|exact Hm|].
  apply wpx_bind. eapply wpx_is_allocated; [exact Hcurr|exact Hhd|exact Hm|].
  simpl negb. simpl andb. cbv iota. apply wpx_bind, wpx_ret. cbn [fst snd].
  apply wpx_bind. eapply wpx_is_allocated; [exact Hcurr|exact Hhd|exact Hm|].
  simpl negb. simpl andb. cbv iota.
  apply wpx_bind. eapply wpx_is_allocated; [exact Hcurr|exact Hhd|exact Hm|].
  simpl negb. cbv iota.
  rewrite (wrap_small (curr + sz)) by lia.
  apply wpx_bind, wpx_get_gl.
  destruct (Z.leb_spec (curr + sz) (mm_heap_last (gl s))) as [Hx|_]; [lia|].
  apply wpx_ret. split; reflexivity.
Qed.

(** One turn of the loop at a free block with no free block before it,
    large enough for the request: the block is placed as it is. *)
Lemma scan_take_free E fuel req s P sz R (Q : option Z -> st -> Prop) :
  heap_ok s (P ++ (sz, false) :: R) ->
  heap_base s + total P <= mm_heap_last (gl s) -> req <= sz ->
  wpx E (do p <- place (heap_base s + total P) sz req; ret (Some p)) Q s ->
  wpx E (scan (S fuel) req (heap_base s + total P) NULL) Q s.
Proof.
  intros Hok Hlast Hfit HQ.
  pose proof Hok as [Hla Hlo Hhi Hbh Hbrk Hch Hfirst].
  apply chain_app in Hch as [HP HR]. simpl in HR. destruct HR as (Hhd & H16 & Hm & HR).
  pose proof (chain_total _ _ _ HP) as [HtP _].
  pose proof (chain_total _ _ _ HR) as [HtR _].
  rewrite total_app in Hbrk. simpl in Hbrk.
  pose proof (heap_base_eq s) as Hb.
  set (curr := heap_base s + total P) in *.
  assert (Hcurr : in_heap (hp s) curr 8 = true) by (apply in_heap_true; lia).
  cbn [scan]. apply wpx_bind, wpx_get_gl.
  destruct (Z.leb_spec curr (mm_heap_last (gl s))) as [_|Hx]; [|lia].
  apply wpx_bind. eapply wpx_get_size; [exact Hcurr|exact Hhd|exact Hm|].
  apply wpx_bind. eapply wpx_is_allocated; [exact Hcurr|exact Hhd|exact Hm|].
  simpl. apply wpx_bind, wpx_ret. simpl.
  apply wpx_bind. eapply wpx_is_allocated; [exact Hcurr|exact Hhd|exact Hm|].
  simpl. destruct (Z.leb_spec req sz) as [_|Hx]; [|lia].
  exact HQ.
Qed.

(** A free block at the start of the heap that is large enough is taken
    alone: the blocks after it, free or not, stay as they are. *)
Lemma malloc_takes_first fuel size s z1 R :
  heap_ok s ((z1, false) :: R) ->
  0 <= size -> size + 23 < 2 ^ 64 ->
  required size <= z1 ->
  (1 <= fuel)%nat ->
  wpx False (mm_malloc fuel size)
    (fun r s' => r = heap_base s + 8 /\ placed [] z1 R (required size) s') s.
Proof.
  intros Hok Hs0 Hs1 Hreq Hfuel.
  destruct (required_spec size Hs0 Hs1) as (Hrm & Hrb & Hr16).
  pose proof Hok as [Hla Hlo Hhi Hbh Hbrk Hch Hfirst].
  destruct Hfirst as [Hf Hl].
  pose proof (heap_base_eq s) as Hb.
  unfold mm_malloc. fold (required size). set (req := required size) in *.
  apply wpx_bind, wpx_get_gl. rewrite Hf.
  destruct (Z.eqb_spec (heap_base s) NULL) as [Hx|_]; [unfold NULL in Hx; lia|].
  destruct fuel as [|fuel]; try lia.
  apply wpx_bind.
  replace (heap_base s) with (heap_base s + total []) at 1 by (simpl; lia).
  apply (scan_take_free False _ req s [] z1 R); [exact Hok|simpl; lia|lia|].
  apply wpx_bind. eapply wpx_mono.
  { exact (place_spec False s [] z1 R req _ _ Hok (conj Hr16 Hreq) Hrm eq_refl
             (frame_refl _ _)). }
  intros p s' (_ & _ & _ & Hp & ->). apply wpx_ret, wpx_ret.
  split; [simpl total; lia|exact Hp].
Qed.

End ImplicitFacts.

(** *** The list allocator *)

Module ExplicitFacts.
Import Mem Exec MemFacts ExecFacts Explicit.

#[local] Ltac Zify.zify_post_hook ::= Z.div_mod_to_equations.

Lemma span_app l1 l2 : span (l1 ++ l2) = span l1 + span l2.
Proof. induction l1 as [|[sz al] l1 IH]; simpl in *; lia. Qed.

Lemma tags_span m B bs : tags m B bs -> 0 <= span bs /\ span bs mod 16 = 0.
Proof.
  revert B. induction bs as [|[sz al] bs IH]; intros B H; simpl in *; [lia|].
  destruct H as (_ & _ & H1 & H2 & _ & H3). destruct (IH _ H3). lia.
Qed.

Lemma tags_app m B l1 l2 :
  tags m B (l1 ++ l2) <-> tags m B l1 /\ tags m (B + span l1) l2.
Proof.
  revert B. induction l1 as [|[sz al] l1 IH]; intros B; simpl.
  - rewrite Z.add_0_r. tauto.
  - rewrite IH. replace (B + sz + 16 + span l1) with (B + (sz + 16 + span l1)) by lia.
    tauto.
Qed.

(** The tags of a list of blocks lie in [[B + 8, B + span bs + 8)]. *)
Lemma tags_ext m m' B bs :
  (forall a, B + 8 <= a -> a + 8 <= B + span bs + 8 -> load64 m' a = load64 m a) ->
  tags m B bs -> tags m' B bs.
Proof.
  revert B. induction bs as [|[sz al] bs IH]; intros B Hext H; simpl in *; [exact I|].
  destruct H as (H0 & H1 & H2 & H3 & H4 & H5).
  pose proof (tags_span _ _ _ H5) as [Ht _].
  split; [rewrite Hext by lia; exact H0|].
  split; [rewrite Hext by lia; exact H1|].
  do 3 (split; [assumption|]).
  apply IH; [|exact H5]. intros a Ha1 Ha2. apply Hext; lia.
Qed.

Lemma tags_store_out m B bs a v :
  a <= B \/ B + span bs + 8 <= a -> tags m B bs -> tags (store64 m a v) B bs.
Proof.
  intros Ha. apply tags_ext. intros b H1 H2. apply load64_store64_ne. lia.
Qed.

Lemma tags_write_bytes_out m B bs a l :
  a + Z.of_nat (length l) <= B + 8 \/ B + span bs + 8 <= a ->
  tags m B bs -> tags (write_bytes m a l) B bs.
Proof.
  intros Ha. apply tags_ext. intros b H1 H2. apply load64_write_bytes_out. lia.
Qed.

Lemma frees_app B l1 l2 : frees B (l1 ++ l2) = frees B l1 ++ frees (B + span l1) l2.
Proof.
  revert B. induction l1 as [|[sz al] l1 IH]; intros B; simpl.
  - now rewrite Z.add_0_r.
  - replace (B + (sz + 16 + span l1)) with (B + sz + 16 + span l1) by lia.
    destruct al; simpl; now rewrite IH.
Qed.

Lemma ix_allocs_app B l1 l2 : allocs B (l1 ++ l2) = allocs B l1 ++ allocs (B + span l1) l2.
Proof.
  revert B. induction l1 as [|[sz al] l1 IH]; intros B; simpl.
  - now rewrite Z.add_0_r.
  - replace (B + (sz + 16 + span l1)) with (B + sz + 16 + span l1) by lia.
    destruct al; simpl; now rewrite IH.
Qed.

(** A free node and its two words lie in the payload of its block. *)
Lemma frees_inside m B bs n :
  tags m B bs -> In n (frees B bs) ->
  B + 16 <= n /\ n + 16 <= B + span bs /\ (n - B) mod 16 = 0.
Proof.
  revert B. induction bs as [|[sz al] bs IH]; intros B Ht Hin; simpl in *; [tauto|].
  destruct Ht as (_ & _ & H2 & H3 & H4 & H5).
  pose proof (tags_span _ _ _ H5) as [Hs _].
  assert (Hrec : In n (frees (B + sz + 16) bs) ->
            B + 16 <= n /\ n + 16 <= B + (sz + 16 + span bs) /\ (n - B) mod 16 = 0).
  { intros Hi. destruct (IH _ H5 Hi) as (I1 & I2 & I3). lia. }
  destruct al; [now apply Hrec|].
  destruct Hin as [<-|Hi]; [|now apply Hrec].
  specialize (H4 eq_refl). lia.
Qed.

Lemma ix_allocs_inside m B bs p sz :
  tags m B bs -> In (p, sz) (allocs B bs) ->
  B + 16 <= p /\ p + sz <= B + span bs /\ 0 <= sz /\ sz mod 16 = 0 /\ (p - B) mod 16 = 0.
Proof.
  revert B. induction bs as [|[sz' al] bs IH]; intros B Ht Hin; simpl in *; [tauto|].
  destruct Ht as (_ & _ & H2 & H3 & H4 & H5).
  pose proof (tags_span _ _ _ H5) as [Hs _].
  assert (Hrec : In (p, sz) (allocs (B + sz' + 16) bs) ->
            B + 16 <= p /\ p + sz <= B + (sz' + 16 + span bs) /\ 0 <= sz /\
            sz mod 16 = 0 /\ (p - B) mod 16 = 0).
  { intros Hi. destruct (IH _ H5 Hi) as (I1 & I2 & I3 & I4 & I5). lia. }
  destruct al; [|now apply Hrec].
  destruct Hin as [Heq|Hi]; [|now apply Hrec].
  injection Heq as <- <-. lia.
Qed.

Lemma frees_split B bs n :
  In n (frees B bs) ->
  exists P sz R, bs = P ++ (sz, false) :: R /\ n = B + span P + 16.
Proof.
  revert B. induction bs as [|[sz' al] bs IH]; intros B Hin; simpl in *; [tauto|].
  assert (Hrec : In n (frees (B + sz' + 16) bs) ->
            exists P sz R, (sz', al) :: bs = P ++ (sz, false) :: R /\ n = B + span P + 16).
  { intros Hi. destruct (IH _ Hi) as (P & sz & R & -> & ->).
    exists ((sz', al) :: P), sz, R. split; [reflexivity|simpl; lia]. }
  destruct al; [now apply Hrec|].
  destruct Hin as [<-|Hi]; [|now apply Hrec].
  exists [], sz', bs. split; [reflexivity|simpl; lia].
Qed.

Lemma ix_allocs_split B bs p sz :
  In (p, sz) (allocs B bs) ->
  exists P R, bs = P ++ (sz, true) :: R /\ p = B + span P + 16.
Proof.
  revert B. induction bs as [|[sz' al] bs IH]; intros B Hin; simpl in *; [tauto|].
  assert (Hrec : In (p, sz) (allocs (B + sz' + 16) bs) ->
            exists P R, (sz', al) :: bs = P ++ (sz, true) :: R /\ p = B + span P + 16).
  { intros Hi. destruct (IH _ Hi) as (P & R & -> & ->).
    exists ((sz', al) :: P), R. split; [reflexivity|simpl; lia]. }
  destruct al; [|now apply Hrec].
  destruct Hin as [Heq|Hi]; [|now apply Hrec].
  injection Heq as <- <-. exists [], bs. split; [reflexivity|simpl; lia].
Qed.

(** Free nodes are in address order, so no node occurs twice. *)
Lemma frees_NoDup m B bs : tags m B bs -> NoDup (frees B bs).
Proof.
  revert B. induction bs as [|[sz al] bs IH]; intros B Ht; simpl in *; [constructor|].
  destruct Ht as (_ & _ & H2 & H3 & H4 & H5).
  destruct al; [now apply IH|]. constructor; [|now apply IH].
  intros Hin%list_elem_of_In. eapply frees_inside in Hin; [|exact H5]. lia.
Qed.

Lemma in_payload_app B l1 l2 n :
  in_payload B (l1 ++ l2) n <-> in_payload B l1 n \/ in_payload (B + span l1) l2 n.
Proof.
  revert B. induction l1 as [|[sz al] l1 IH]; intros B; simpl.
  - rewrite Z.add_0_r. tauto.
  - rewrite IH. replace (B + sz + 16 + span l1) with (B + (sz + 16 + span l1)) by lia.
    tauto.
Qed.

Lemma is_tag_app B l1 l2 a :
  is_tag B (l1 ++ l2) a <-> is_tag B l1 a \/ is_tag (B + span l1) l2 a.
Proof.
  revert B. induction l1 as [|[sz al] l1 IH]; intros B; simpl.
  - rewrite Z.add_0_r. tauto.
  - rewrite IH. replace (B + sz + 16 + span l1) with (B + (sz + 16 + span l1)) by lia.
    tauto.
Qed.

Lemma in_payload_inside m B bs n :
  tags m B bs -> in_payload B bs n -> B + 16 <= n /\ n + 16 <= B + span bs.
Proof.
  revert B. induction bs as [|[sz al] bs IH]; intros B Ht Hin; simpl in *; [tauto|].
  destruct Ht as (_ & _ & H2 & H3 & H4 & H5).
  pose proof (tags_span _ _ _ H5) as [Hs _].
  destruct Hin as [Hin|Hin]; [lia|]. destruct (IH _ H5 Hin). lia.
Qed.

Lemma is_tag_inside m B bs a :
  tags m B bs -> is_tag B bs a -> B + 8 <= a /\ a <= B + span bs.
Proof.
  revert B. induction bs as [|[sz al] bs IH]; intros B Ht Hin; simpl in *; [tauto|].
  destruct Ht as (_ & _ & H2 & H3 & H4 & H5).
  pose proof (tags_span _ _ _ H5) as [Hs _].
  destruct Hin as [->|[->|Hin]]; [lia|lia|]. destruct (IH _ H5 Hin). lia.
Qed.

(** A tag word and a node inside a payload do not overlap. *)
Lemma tag_payload_apart m B bs a n :
  tags m B bs -> is_tag B bs a -> in_payload B bs n -> a + 8 <= n \/ n + 16 <= a.
Proof.
  revert B. induction bs as [|[sz al] bs IH]; intros B Ht Ha Hn; simpl in *; [tauto|].
  destruct Ht as (_ & _ & H2 & H3 & H4 & H5).
  pose proof (tags_span _ _ _ H5) as [Hs _].
  destruct Hn as [Hn|Hn].
  - destruct Ha as [->|[->|Ha]]; [lia|lia|].
    eapply is_tag_inside in Ha; [|exact H5]. lia.
  - pose proof (in_payload_inside _ _ _ _ H5 Hn).
    destruct Ha as [->|[->|Ha]]; [lia|lia|]. eapply IH; eauto.
Qed.

(** Writing inside a payload leaves the tags alone. *)
Lemma tags_store_payload m B bs n a v :
  tags m B bs -> in_payload B bs n -> n <= a -> a + 8 <= n + 16 ->
  tags (store64 m a v) B bs.
Proof.
  revert B. induction bs as [|[sz al] bs IH]; intros B Ht Hn H1 H2; simpl in *; [tauto|].
  destruct Ht as (T0 & T1 & T2 & T3 & T4 & T5).
  pose proof (tags_span _ _ _ T5) as [Hs _].
  destruct Hn as [Hn|Hn].
  - rewrite !load64_store64_ne by lia. repeat (split; [assumption|]).
    apply tags_store_out; [lia|exact T5].
  - pose proof (in_payload_inside _ _ _ _ T5 Hn).
    rewrite !load64_store64_ne by lia. repeat (split; [assumption|]).
    eapply IH; eauto.
Qed.

Lemma frees_in_payload m B bs n :
  tags m B bs -> In n (frees B bs) -> in_payload B bs n.
Proof.
  revert B. induction bs as [|[sz al] bs IH]; intros B Ht Hin; simpl in *; [tauto|].
  destruct Ht as (_ & _ & H2 & H3 & H4 & H5).
  destruct al; [right; now apply IH|].
  destruct Hin as [<-|Hin]; [left; specialize (H4 eq_refl); lia|right; now apply IH].
Qed.

Lemma dseg_app m p l1 n l2 q :
  dseg m p (l1 ++ n :: l2) q <-> dseg m p l1 n /\ dseg m n l2 q.
Proof.
  revert p. induction l1 as [|a l1 IH]; intros p; simpl.
  - tauto.
  - rewrite IH. tauto.
Qed.

Lemma dseg_snoc m p l n q :
  dseg m p (l ++ [n]) q <-> dseg m p l n /\ load64 m (n + 8) = q /\ load64 m q = n.
Proof. rewrite dseg_app. simpl. tauto. Qed.

Lemma last_default (a d d' : Z) l : List.last (a :: l) d = List.last (a :: l) d'.
Proof.
  revert a. induction l as [|b l IH]; intros a; [reflexivity|].
  change (List.last (b :: l) d = List.last (b :: l) d'). apply IH.
Qed.

Lemma last_cons (p a : Z) l : List.last (a :: l) p = List.last l a.
Proof.
  destruct l as [|b l]; [reflexivity|].
  change (List.last (b :: l) p = List.last (b :: l) a). apply last_default.
Qed.

Lemma dseg_last m p l q :
  dseg m p l q -> load64 m q = List.last l p /\ load64 m (List.last l p + 8) = q.
Proof.
  revert p. induction l as [|a l IH]; intros p H; simpl in H.
  - simpl. tauto.
  - destruct H as (_ & _ & H). rewrite last_cons. now apply IH.
Qed.

Lemma last_in (p : Z) l : In (List.last l p) (p :: l).
Proof.
  revert p. induction l as [|a l IH]; intros p; [now left|].
  rewrite last_cons. right. apply IH.
Qed.

Lemma dseg_ext m m' p l q :
  (forall x, In x (p :: l) -> load64 m' (x + 8) = load64 m (x + 8)) ->
  (forall x, In x (l ++ [q]) -> load64 m' x = load64 m x) ->
  dseg m p l q -> dseg m' p l q.
Proof.
  revert p. induction l as [|a l IH]; intros p Hn Hp H; simpl in *.
  - destruct H as [H1 H2]. rewrite Hn, Hp by auto. auto.
  - destruct H as (H1 & H2 & H3). rewrite Hn, Hp by auto.
    split; [exact H1|]. split; [exact H2|]. apply IH; auto.
Qed.

(** Point the end of a segment at another node. *)
Lemma dseg_retarget m m' p l q q' :
  dseg m p l q -> NoDup (p :: l) ->
  load64 m' (List.last l p + 8) = q' -> load64 m' q' = List.last l p ->
  (forall x, In x (p :: l) -> x <> List.last l p -> load64 m' (x + 8) = load64 m (x + 8)) ->
  (forall x, In x l -> load64 m' x = load64 m x) ->
  dseg m' p l q'.
Proof.
  revert p. induction l as [|a l IH]; intros p H Hnd Hl1 Hl2 Hn Hp; simpl in H.
  - simpl in *. auto.
  - destruct H as (H1 & H2 & H3). rewrite last_cons in *.
    apply NoDup_cons in Hnd as [Hnp Hnd].
    assert (Hpl : p <> List.last l a).
    { intros ->. apply Hnp. apply list_elem_of_In. apply last_in. }
    simpl. split; [|split].
    + rewrite Hn; [exact H1|now left|exact Hpl].
    + rewrite Hp; [exact H2|now left].
    + apply IH; auto.
      * intros x Hx Hne. apply Hn; [now right|exact Hne].
      * intros x Hx. apply Hp. now right.
Qed.

Lemma dseg_pred m p l1 n l2 q :
  dseg m p (l1 ++ n :: l2) q ->
  load64 m n = List.last l1 p /\ load64 m (n + 8) = hd q l2.
Proof.
  rewrite dseg_app. intros [H1 H2]. apply dseg_last in H1 as [H1 _].
  split; [exact H1|]. destruct l2; simpl in *; tauto.
Qed.

Lemma hd_in (q : Z) l : In (hd q l) (l ++ [q]).
Proof. destruct l; simpl; auto. Qed.


Lemma Forall_In_Z (P : Z -> Prop) l x : Forall P l -> In x l -> P x.
Proof. intros H Hx. rewrite Forall_forall in H. apply H. now apply list_elem_of_In. Qed.

Lemma dseg_unlinked m p q n l1 l2 :
  Forall node_ok (p :: l1 ++ n :: l2 ++ [q]) ->
  NoDup (p :: l1 ++ n :: l2 ++ [q]) ->
  dseg m p (l1 ++ n :: l2) q ->
  dseg (unlinked m (List.last l1 p) (hd q l2)) p (l1 ++ l2) q.
Proof.
  intros Hal Hnd Hd.
  set (pl := List.last l1 p). set (nx := hd q l2).
  pose proof (last_in p l1) as H1. pose proof (hd_in q l2) as H2.
  fold pl in H1. fold nx in H2.
  assert (Hsplit : NoDup ((p :: l1) ++ n :: (l2 ++ [q]))) by exact Hnd.
  apply NoDup_app in Hsplit as (N1 & N2 & N3).
  apply NoDup_cons in N3 as [N3 N4].
  assert (Hal1 : forall x, In x (p :: l1) -> node_ok x).
  { intros x Hx. apply (Forall_In_Z _ _ _ Hal).
    destruct Hx as [<-|Hx]; [now left|right; apply in_or_app; now left]. }
  assert (Hal2 : forall x, In x (l2 ++ [q]) -> node_ok x).
  { intros x Hx. apply (Forall_In_Z _ _ _ Hal).
    right. apply in_or_app. right. now right. }
  assert (Hcross : forall x y, In x (p :: l1) -> In y (l2 ++ [q]) -> x <> y).
  { intros x y Hx Hy ->. apply (N2 y); [now apply list_elem_of_In|].
    right. now apply list_elem_of_In. }
  destruct (Hal1 _ H1) as [Hr1 Ha1]. destruct (Hal2 _ H2) as [Hr2 Ha2].
  apply dseg_app in Hd as [Hd1 Hd2].
  assert (R1 : dseg (unlinked m pl nx) p l1 nx).
  { eapply dseg_retarget; [exact Hd1|exact N1|..].
    - fold pl. unfold unlinked. rewrite load64_store64_ne by lia.
      apply load64_store64_eq. lia.
    - fold pl. unfold unlinked. apply load64_store64_eq. lia.
    - fold pl. intros x Hx Hne. unfold unlinked.
      destruct (Hal1 x Hx). rewrite !load64_store64_ne by lia. reflexivity.
    - intros x Hx. unfold unlinked. destruct (Hal1 x (or_intror Hx)).
      pose proof (Hcross x nx (or_intror Hx) H2).
      rewrite !load64_store64_ne by lia. reflexivity. }
  destruct l2 as [|b l2'].
  - rewrite app_nil_r. exact R1.
  - apply dseg_app. split; [exact R1|]. simpl in Hd2. destruct Hd2 as (_ & _ & Hd2).
    subst nx. simpl in *.
    apply dseg_ext with (m := m); [| |exact Hd2].
    + intros x Hx.
      assert (Hx' : In x (b :: l2' ++ [q])).
      { destruct Hx as [<-|Hx]; [now left|right; apply in_or_app; now left]. }
      destruct (Hal2 x Hx'). pose proof (Hcross pl x H1 Hx').
      unfold unlinked. rewrite !load64_store64_ne by lia. reflexivity.
    + intros x Hx. destruct (Hal2 x (or_intror Hx)).
      assert (x <> b).
      { intros ->. apply NoDup_cons in N4 as [N4 _]. apply N4.
        now apply list_elem_of_In. }
      unfold unlinked. rewrite !load64_store64_ne by lia. reflexivity.
Qed.

Lemma dseg_linked m p q n l :
  Forall node_ok (n :: p :: l ++ [q]) ->
  NoDup (n :: p :: l ++ [q]) ->
  dseg m p l q ->
  dseg (linked m (List.last l p) n q) p (l ++ [n]) q.
Proof.
  intros Hal Hnd Hd.
  set (tp := List.last l p).
  pose proof (last_in p l) as H1. fold tp in H1.
  apply NoDup_cons in Hnd as [Nn Hnd].
  assert (Hsplit : NoDup ((p :: l) ++ [q])) by exact Hnd.
  apply NoDup_app in Hsplit as (N1 & N2 & _).
  apply Forall_cons in Hal as [[Hrn Han] Hal].
  assert (Hal1 : forall x, In x (p :: l) -> node_ok x /\ x <> n /\ x <> q).
  { intros x Hx. split; [|split].
    - apply (Forall_In_Z _ _ _ Hal).
      destruct Hx as [<-|Hx]; [now left|right; apply in_or_app; now left].
    - intros ->. apply Nn. apply list_elem_of_In.
      destruct Hx as [<-|Hx]; [now left|right; apply in_or_app; now left].
    - intros ->. apply (N2 q); [now apply list_elem_of_In|]. now left. }
  assert (Hq : node_ok q /\ q <> n).
  { split.
    - apply (Forall_In_Z _ _ _ Hal). right. apply in_or_app. right. now left.
    - intros ->. apply Nn. apply list_elem_of_In. right. apply in_or_app. right.
      now left. }
  destruct Hq as [[Hrq Haq] Hqn].
  destruct (Hal1 _ H1) as ([Hrt Hat] & Htn & Htq).
  apply dseg_snoc. split; [|split].
  - eapply dseg_retarget; [exact Hd|exact N1|..].
    + fold tp. unfold linked. rewrite load64_store64_ne by lia.
      apply load64_store64_eq. lia.
    + fold tp. unfold linked. rewrite !load64_store64_ne by lia.
      apply load64_store64_eq. lia.
    + fold tp. intros x Hx Hne. destruct (Hal1 x Hx) as ([? ?] & ? & ?).
      unfold linked. rewrite !load64_store64_ne by lia. reflexivity.
    + intros x Hx. destruct (Hal1 x (or_intror Hx)) as ([? ?] & ? & ?).
      unfold linked. rewrite !load64_store64_ne by lia. reflexivity.
  - unfold linked. rewrite !load64_store64_ne by lia. apply load64_store64_eq. lia.
  - unfold linked. apply load64_store64_eq. lia.
Qed.

Lemma ix_encode_even sz al : sz mod 16 = 0 -> encode sz al = sz + Z.b2z al.
Proof. intros H. unfold encode. apply lor_flag. lia. Qed.

Lemma ix_encode_range sz al :
  sz mod 16 = 0 -> 0 <= sz < 2 ^ 64 -> 0 <= encode sz al < 2 ^ 64.
Proof. intros H Hr. rewrite ix_encode_even by exact H. destruct al; simpl; lia. Qed.

Lemma ix_decode_size sz al : sz mod 16 = 0 -> Z.land (encode sz al) (Z.lnot 1) = sz.
Proof. intros H. rewrite ix_encode_even by exact H. apply land_size. lia. Qed.

Lemma ix_decode_flag sz al :
  sz mod 16 = 0 -> negb (Z.land (encode sz al) 1 =? 0) = al.
Proof.
  intros H. rewrite ix_encode_even by exact H. rewrite land_flag by lia. now destruct al.
Qed.

Lemma ix_round_up_16 x :
  0 <= x -> x + 15 < 2 ^ 64 ->
  round_up x ALIGNMENT mod 16 = 0 /\ x <= round_up x ALIGNMENT < x + 16.
Proof.
  intros H0 H1. unfold round_up, ALIGNMENT.
  replace (16 - 1) with 15 by lia.
  rewrite (wrap_small (x + 15)) by lia.
  rewrite wrap_small by lia. lia.
Qed.


Section Accessors.
Context (E : Prop) (s : st) (Hbd : bounded s).

Lemma in_heap_range a n :
  in_heap (hp s) a n = true -> 0 <= n -> 0 < a /\ a + n < 2 ^ 64.
Proof. intros [H1 H2]%in_heap_inv Hn. destruct Hbd. lia. Qed.

Lemma ix_wpx_get_size block sz al (Q : Z -> st -> Prop) :
  in_heap (hp s) (block + 8) 8 = true ->
  load64 (bytes (hp s)) (block + 8) = encode sz al -> sz mod 16 = 0 ->
  Q sz s -> wpx E (get_size block) Q s.
Proof.
  intros Hin Hl Hsz HQ. unfold get_size, off_header.
  pose proof (in_heap_range _ _ Hin ltac:(lia)).
  rewrite wrap_small by lia.
  apply wpx_bind, wpx_load; [exact Hin|].
  apply wpx_ret. rewrite Hl, ix_decode_size by exact Hsz. exact HQ.
Qed.

Lemma wpx_get_prev_size block v (Q : Z -> st -> Prop) :
  in_heap (hp s) block 8 = true ->
  load64 (bytes (hp s)) block = v ->
  Q v s -> wpx E (get_prev_size block) Q s.
Proof.
  intros Hin Hl HQ. unfold get_prev_size, off_footer.
  pose proof (in_heap_range _ _ Hin ltac:(lia)).
  rewrite Z.add_0_r, wrap_small by lia.
  apply wpx_bind, wpx_load; [exact Hin|].
  apply wpx_ret. rewrite Hl, Z.land_m1_r. exact HQ.
Qed.

Lemma wpx_is_prev_allocated block sz al (Q : bool -> st -> Prop) :
  in_heap (hp s) block 8 = true ->
  load64 (bytes (hp s)) block = encode sz al -> sz mod 16 = 0 ->
  Q al s -> wpx E (is_prev_allocated block) Q s.
Proof.
  intros Hin Hl Hsz HQ. unfold is_prev_allocated, off_footer.
  pose proof (in_heap_range _ _ Hin ltac:(lia)).
  rewrite Z.add_0_r, wrap_small by lia.
  apply wpx_bind, wpx_load; [exact Hin|].
  apply wpx_ret. rewrite Hl, ix_decode_flag by exact Hsz. exact HQ.
Qed.

Lemma wpx_is_next_allocated block sz al nsz nal (Q : bool -> st -> Prop) :
  in_heap (hp s) (block + 8) 8 = true ->
  load64 (bytes (hp s)) (block + 8) = encode sz al -> sz mod 16 = 0 -> 0 <= sz ->
  in_heap (hp s) (block + sz + 24) 8 = true ->
  load64 (bytes (hp s)) (block + sz + 24) = encode nsz nal -> nsz mod 16 = 0 ->
  Q (if nsz =? 0 then true else nal) s -> wpx E (is_next_allocated block) Q s.
Proof.
  intros Hin Hl Hsz Hsz0 Hin' Hl' Hnsz HQ. unfold is_next_allocated.
  apply wpx_bind. eapply ix_wpx_get_size; [exact Hin|exact Hl|exact Hsz|].
  pose proof (in_heap_range _ _ Hin ltac:(lia)).
  pose proof (in_heap_range _ _ Hin' ltac:(lia)).
  unfold ALIGNMENT, sizeof_size_t.
  rewrite (wrap_small (block + 16)) by lia.
  rewrite (wrap_small (block + 16 + sz)) by lia.
  rewrite (wrap_small (block + 16 + sz + 8)) by lia.
  replace (block + 16 + sz + 8) with (block + sz + 24) by lia.
  apply wpx_bind, wpx_load; [exact Hin'|].
  rewrite Hl', ix_decode_size, ix_decode_flag by exact Hnsz.
  destruct (Z.eqb_spec nsz 0); simpl; apply wpx_ret; exact HQ.
Qed.

Lemma wpx_set_boundaries block sz al (Q : unit -> st -> Prop) :
  in_heap (hp s) (block + 8) 8 = true -> 0 <= sz ->
  in_heap (hp s) (block + 16 + sz) 8 = true ->
  Q tt (with_bytes s (store64 (store64 (bytes (hp s)) (block + 8) (encode sz al))
                        (block + 16 + sz) (encode sz al))) ->
  wpx E (set_boundaries block sz al) Q s.
Proof.
  intros Hin Hsz Hin' HQ. unfold set_boundaries, off_header, ALIGNMENT.
  pose proof (in_heap_range _ _ Hin ltac:(lia)).
  pose proof (in_heap_range _ _ Hin' ltac:(lia)).
  rewrite (wrap_small (block + 8)) by lia.
  rewrite (wrap_small (block + 16)) by lia.
  rewrite (wrap_small (block + 16 + sz)) by lia.
  apply wpx_bind, wpx_store; [exact Hin|].
  apply wpx_store; [exact Hin'|]. exact HQ.
Qed.

Lemma wpx_add_linked_node block tp (Q : unit -> st -> Prop) :
  let n := block + 16 in
  let t := tail (gl s) in
  in_heap (hp s) n 16 = true -> in_heap (hp s) t 8 = true ->
  in_heap (hp s) (tp + 8) 8 = true ->
  load64 (bytes (hp s)) t = tp ->
  t + 8 <= n \/ n + 16 <= t ->
  Q tt (with_bytes s (linked (bytes (hp s)) tp n t)) ->
  wpx E (add_linked_node_to_block block) Q s.
Proof.
  intros n t Hn Ht Htp Hl Hsep HQ.
  unfold add_linked_node_to_block, off_prev, off_next, ALIGNMENT.
  pose proof (in_heap_range _ _ Hn ltac:(lia)).
  pose proof (in_heap_range _ _ Ht ltac:(lia)).
  pose proof (in_heap_range _ _ Htp ltac:(lia)).
  apply in_heap_inv in Hn as Hn'.
  fold n. rewrite (wrap_small n) by lia.
  apply wpx_bind, wpx_get_gl. fold t.
  rewrite !Z.add_0_r, (wrap_small t), (wrap_small n), (wrap_small (n + 8)) by lia.
  apply wpx_bind, wpx_load; [exact Ht|]. rewrite Hl.
  apply wpx_bind, wpx_store; [apply in_heap_true; lia|].
  apply wpx_bind, wpx_store; [apply in_heap_true; simpl; lia|].
  apply wpx_bind, wpx_load; [exact Ht|]. simpl.
  rewrite !load64_store64_ne by lia. rewrite Hl.
  rewrite (wrap_small (tp + 8)) by lia.
  apply wpx_bind, wpx_store; [exact Htp|].
  apply wpx_store; [exact Ht|]. exact HQ.
Qed.

Lemma wpx_remove_linked_node block pl nx (Q : unit -> st -> Prop) :
  let n := block + 16 in
  in_heap (hp s) n 16 = true ->
  in_heap (hp s) (pl + 8) 8 = true -> in_heap (hp s) nx 8 = true ->
  load64 (bytes (hp s)) n = pl -> load64 (bytes (hp s)) (n + 8) = nx ->
  pl + 16 <= n \/ n + 16 <= pl + 8 ->
  Q tt (with_bytes s (unlinked (bytes (hp s)) pl nx)) ->
  wpx E (remove_linked_node_from_block block) Q s.
Proof.
  intros n Hn Hpl Hnx Hl1 Hl2 Hsep HQ.
  unfold remove_linked_node_from_block, off_prev, off_next, ALIGNMENT.
  pose proof (in_heap_range _ _ Hn ltac:(lia)).
  pose proof (in_heap_range _ _ Hpl ltac:(lia)).
  pose proof (in_heap_range _ _ Hnx ltac:(lia)).
  apply in_heap_inv in Hn as Hn'.
  fold n. rewrite (wrap_small n) by lia.
  rewrite !Z.add_0_r, (wrap_small n), (wrap_small (n + 8)) by lia.
  apply wpx_bind, wpx_load; [apply in_heap_true; lia|]. rewrite Hl1.
  apply wpx_bind, wpx_load; [apply in_heap_true; lia|]. rewrite Hl2.
  rewrite (wrap_small (pl + 8)) by lia.
  apply wpx_bind, wpx_store; [exact Hpl|].
  apply wpx_bind, wpx_load; [apply in_heap_true; simpl; lia|]. simpl.
  rewrite load64_store64_ne by lia. rewrite Hl2.
  apply wpx_bind, wpx_load; [apply in_heap_true; simpl; lia|]. simpl.
  rewrite load64_store64_ne by lia. rewrite Hl1.
  rewrite ?Z.add_0_r, (wrap_small nx) by lia.
  apply wpx_store; [exact Hnx|]. exact HQ.
Qed.

End Accessors.

Lemma ix_frame_refl A m : frame A m m.
Proof. intros p sz a _ _. reflexivity. Qed.

Lemma ix_frame_store A m0 m x v :
  frame A m0 m -> (forall p sz, In (p, sz) A -> x + 8 <= p \/ p + sz <= x) ->
  frame A m0 (store64 m x v).
Proof.
  intros Hf Hd p sz a Hin Ha. destruct (Hd _ _ Hin).
  - rewrite load8_store64_ne by lia. eapply Hf; eauto.
  - rewrite load8_store64_ne by lia. eapply Hf; eauto.
Qed.

Lemma ix_frame_write_bytes A m0 m x l :
  frame A m0 m ->
  (forall p sz, In (p, sz) A -> x + Z.of_nat (length l) <= p \/ p + sz <= x) ->
  frame A m0 (write_bytes m x l).
Proof.
  intros Hf Hd p sz a Hin Ha. destruct (Hd _ _ Hin).
  - rewrite load8_write_bytes_out by lia. eapply Hf; eauto.
  - rewrite load8_write_bytes_out by lia. eapply Hf; eauto.
Qed.

Lemma frees_around m B P sz al R n :
  tags m B (P ++ (sz, al) :: R) -> In n (frees B (P ++ (sz, al) :: R)) ->
  n + 16 <= B + span P \/ (al = false /\ n = B + span P + 16) \/
  B + span P + sz + 32 <= n.
Proof.
  intros Ht Hin. apply tags_app in Ht as [HP HR]. simpl in HR.
  destruct HR as (_ & _ & _ & _ & _ & HR).
  rewrite frees_app in Hin. apply in_app_or in Hin as [Hin|Hin].
  - left. eapply frees_inside in Hin; [|exact HP]. lia.
  - simpl in Hin. destruct al.
    + right. right. eapply frees_inside in Hin; [|exact HR]. lia.
    + destruct Hin as [<-|Hin]; [right; left; auto|].
      right. right. eapply frees_inside in Hin; [|exact HR]. lia.
Qed.

Lemma ix_allocs_around m B P sz al R p z :
  tags m B (P ++ (sz, al) :: R) -> In (p, z) (allocs B (P ++ (sz, al) :: R)) ->
  p + z <= B + span P \/ (al = true /\ p = B + span P + 16 /\ z = sz) \/
  B + span P + sz + 32 <= p.
Proof.
  intros Ht Hin. apply tags_app in Ht as [HP HR]. simpl in HR.
  destruct HR as (_ & _ & _ & _ & _ & HR).
  rewrite ix_allocs_app in Hin. apply in_app_or in Hin as [Hin|Hin].
  - left. eapply ix_allocs_inside in Hin; [|exact HP]. lia.
  - simpl in Hin. destruct al.
    + destruct Hin as [Heq|Hin]; [injection Heq as <- <-; right; left; auto|].
      right. right. eapply ix_allocs_inside in Hin; [|exact HR]. lia.
    + right. right. eapply ix_allocs_inside in Hin; [|exact HR]. lia.
Qed.

(** A free node lies clear of every allocated payload. *)
Lemma free_alloc_apart m B bs n p z :
  tags m B bs -> In n (frees B bs) -> In (p, z) (allocs B bs) ->
  p + z + 16 <= n \/ n + 32 <= p.
Proof.
  intros Ht Hn Hp. destruct (frees_split _ _ _ Hn) as (P & sz & R & -> & ->).
  pose proof Ht as Ht'. apply tags_app in Ht' as [_ HR]. simpl in HR.
  destruct HR as (_ & _ & _ & _ & H16 & _). specialize (H16 eq_refl).
  destruct (ix_allocs_around _ _ _ _ _ _ _ _ Ht Hp) as [H|[[H _]|H]];
    [lia|discriminate|lia].
Qed.

Lemma dseg_store_out m p l q a v :
  (forall x, In x (p :: l ++ [q]) -> a + 8 <= x \/ x + 16 <= a) ->
  dseg m p l q -> dseg (store64 m a v) p l q.
Proof.
  intros Hd. apply dseg_ext.
  - intros x Hx. apply load64_store64_ne.
    assert (In x (p :: l ++ [q])) as Hx'.
    { destruct Hx as [<-|Hx]; [now left|right; apply in_or_app; now left]. }
    destruct (Hd x Hx'); lia.
  - intros x Hx. apply load64_store64_ne. destruct (Hd x (or_intror Hx)); lia.
Qed.

Lemma dseg_tagged m p l q block size al :
  0 <= size ->
  (forall x, In x (p :: l ++ [q]) ->
     x + 16 <= block + 8 \/ (block + 16 <= x /\ x + 16 <= block + 16 + size) \/
     block + size + 24 <= x) ->
  dseg m p l q -> dseg (tagged m block size al) p l q.
Proof.
  intros Hs Hd H. unfold tagged. apply dseg_store_out; [|apply dseg_store_out; [|exact H]].
  - intros x Hx. destruct (Hd x Hx) as [?|[?|?]]; lia.
  - intros x Hx. destruct (Hd x Hx) as [?|[?|?]]; lia.
Qed.

Lemma dseg_write_bytes_out m p l q a bytes :
  (forall x, In x (p :: l ++ [q]) ->
     a + Z.of_nat (length bytes) <= x \/ x + 16 <= a) ->
  dseg m p l q -> dseg (write_bytes m a bytes) p l q.
Proof.
  intros Hd. apply dseg_ext.
  - intros x Hx. apply load64_write_bytes_out.
    assert (In x (p :: l ++ [q])) as Hx'.
    { destruct Hx as [<-|Hx]; [now left|right; apply in_or_app; now left]. }
    destruct (Hd x Hx'); lia.
  - intros x Hx. apply load64_write_bytes_out. destruct (Hd x (or_intror Hx)); lia.
Qed.

(** Facts every well-formed layout gives. *)
Lemma ix_heap_base_eq s : heap_base s = mem_start_brk (hp s) + 32.
Proof. reflexivity. Qed.

Lemma shape_bounded s bs fl : shape s bs fl -> bounded s.
Proof. intros [Hla Hlo Hhi Hbh Hhead Htail Hpro Htags Hepi Hbrk Hlist Hnds Hnodup]. split; lia. Qed.

Lemma shape_span s bs fl :
  shape s bs fl ->
  0 <= span bs /\ span bs mod 16 = 0 /\
  mem_start_brk (hp s) + 48 + span bs <= mem_brk (hp s) /\ mem_brk (hp s) < 2 ^ 64 - 1 /\
  16 <= mem_start_brk (hp s) /\ mem_start_brk (hp s) mod 16 = 0.
Proof.
  intros [Hla Hlo Hhi Hbh Hhead Htail Hpro Htags Hepi Hbrk Hlist Hnds Hnodup]. pose proof (tags_span _ _ _ Htags) as [? ?].
  rewrite ix_heap_base_eq in *. lia.
Qed.

Lemma shape_node s bs fl n :
  shape s bs fl -> In n fl ->
  in_payload (heap_base s) bs n /\ mem_start_brk (hp s) + 48 <= n /\
  n + 16 <= heap_base s + span bs /\ n mod 16 = 0.
Proof.
  intros Hsh Hin. pose proof Hsh as [Hla Hlo Hhi Hbh Hhead Htail Hpro Htags Hepi Hbrk Hlist Hnds Hnodup].
  destruct (Forall_In_Z _ _ _ Hnds Hin) as [Hm Hp].
  split; [exact Hp|]. eapply in_payload_inside in Hp; [|exact Htags].
  rewrite ix_heap_base_eq in *. lia.
Qed.

Lemma shape_nodes s bs fl :
  shape s bs fl ->
  let lo := mem_start_brk (hp s) in
  Forall node_ok (lo :: fl ++ [lo + 16]) /\ NoDup (lo :: fl ++ [lo + 16]).
Proof.
  intros Hsh lo. destruct (shape_span _ _ _ Hsh) as (S1 & S2 & S3 & S4 & S5 & S6).
  fold lo in S3, S5, S6.
  assert (Hfl : forall n, In n fl -> lo + 48 <= n /\ n + 16 <= lo + 32 + span bs /\
                                     n mod 16 = 0).
  { intros n Hn. destruct (shape_node _ _ _ _ Hsh Hn) as (_ & ? & ? & ?).
    rewrite ix_heap_base_eq in *. fold lo in H, H0. lia. }
  split.
  - constructor; [split; lia|]. apply Forall_app. split.
    + apply Forall_forall. intros n Hn%list_elem_of_In. destruct (Hfl n Hn).
      split; lia.
    + constructor; [split; lia|constructor].
  - constructor.
    + intros Hin%list_elem_of_In. apply in_app_or in Hin as [Hin|[Hin|[]]].
      * destruct (Hfl _ Hin). lia.
      * lia.
    + apply NoDup_app. split; [apply Hsh|]. split; [|apply NoDup_singleton].
      intros x Hx%list_elem_of_In Hx'%list_elem_of_In. destruct Hx' as [<-|[]].
      destruct (Hfl _ Hx). lia.
Qed.

(** A node of the list or a sentinel: where it lies and that it is usable. *)
Lemma shape_any_node s bs fl x :
  shape s bs fl ->
  In x (mem_start_brk (hp s) :: fl ++ [mem_start_brk (hp s) + 16]) ->
  in_heap (hp s) x 16 = true /\ x mod 16 = 0 /\
  (x + 16 <= heap_base s \/ in_payload (heap_base s) bs x).
Proof.
  intros Hsh Hin. destruct (shape_span _ _ _ Hsh) as (S1 & S2 & S3 & S4 & S5 & S6).
  rewrite ix_heap_base_eq.
  destruct Hin as [<-|Hin]; [|apply in_app_or in Hin as [Hin|[<-|[]]]].
  - split; [apply in_heap_true; lia|]. split; [lia|left; lia].
  - destruct (shape_node _ _ _ _ Hsh Hin) as (Hp & ? & ? & ?).
    rewrite ix_heap_base_eq in *.
    split; [apply in_heap_true; lia|]. split; [lia|right; exact Hp].
  - split; [apply in_heap_true; lia|]. split; [lia|left; lia].
Qed.

Lemma heap_ok_free_node s bs fl n :
  heap_ok s bs fl -> In n fl -> In n (frees (heap_base s) bs).
Proof.
  intros [Hsh Hp] Hin. apply list_elem_of_In. rewrite <- Hp. now apply list_elem_of_In.
Qed.

(** The tags of a heap can be rewritten, block list and all, as long as the
    nodes of the list stay inside payloads. *)
Lemma shape_tagged s bs fl bs' blk sz al :
  shape s bs fl -> span bs' = span bs -> 0 <= sz ->
  is_tag (heap_base s) bs' (blk + 8) -> is_tag (heap_base s) bs' (blk + 16 + sz) ->
  tags (tagged (bytes (hp s)) blk sz al) (heap_base s) bs' ->
  Forall (fun n => in_payload (heap_base s) bs' n) fl ->
  shape (with_bytes s (tagged (bytes (hp s)) blk sz al)) bs' fl.
Proof.
  intros Hsh Hspan Hsz Ht1 Ht2 Htags' Hnodes.
  destruct (shape_span _ _ _ Hsh) as (S1 & S2 & S3 & S4 & S5 & S6).
  pose proof (is_tag_inside _ _ _ _ Htags' Ht1) as I1.
  pose proof (is_tag_inside _ _ _ _ Htags' Ht2) as I2.
  pose proof Hsh as [Hla Hlo Hhi Hbh Hhead Htail Hpro Htags Hepi Hbrk Hlist Hnds Hnodup].
  pose proof (ix_heap_base_eq s) as Hb.
  constructor; try assumption;
    change (heap_base (with_bytes s ?m)) with (heap_base s);
    change (bytes (hp (with_bytes s ?m))) with m;
    change (hp (with_bytes s ?m)) with (set_bytes (hp s) m);
    simpl mem_start_brk; simpl mem_brk; simpl mem_max_addr;
    rewrite ?Hspan; try assumption.
  - unfold tagged. rewrite !load64_store64_ne by lia. exact Hpro.
  - unfold tagged. rewrite !load64_store64_ne by lia. exact Hepi.
  - assert (Hp : forall x, In x (mem_start_brk (hp s) :: fl ++ [mem_start_brk (hp s) + 16]) ->
                x + 16 <= heap_base s \/ in_payload (heap_base s) bs' x).
    { intros x Hx. destruct Hx as [<-|Hx]; [left; lia|].
      apply in_app_or in Hx as [Hx|[<-|[]]]; [right|left; lia].
      exact (Forall_In_Z _ _ _ Hnodes Hx). }
    apply dseg_store_out; [|apply dseg_store_out; [|exact Hlist]].
    + intros x Hx. destruct (Hp x Hx) as [Hc|Hc]; [lia|].
      exact (tag_payload_apart _ _ _ _ _ Htags' Ht2 Hc).
    + intros x Hx. destruct (Hp x Hx) as [Hc|Hc]; [lia|].
      exact (tag_payload_apart _ _ _ _ _ Htags' Ht1 Hc).
  - apply Forall_forall. intros n Hn%list_elem_of_In.
    split; [exact (proj1 (Forall_In_Z _ _ _ Hnds Hn))|].
    exact (Forall_In_Z _ _ _ Hnodes Hn).
Qed.

(** Tags survive a store into a word of a node of the list or of a sentinel. *)
Lemma shape_tags_node_store s bs fl x a v :
  shape s bs fl ->
  In x (mem_start_brk (hp s) :: fl ++ [mem_start_brk (hp s) + 16]) ->
  a = x \/ a = x + 8 ->
  tags (store64 (bytes (hp s)) a v) (heap_base s) bs /\
  load64 (store64 (bytes (hp s)) a v) (heap_base s) = 1 /\
  load64 (store64 (bytes (hp s)) a v) (heap_base s + span bs + 8) = 1.
Proof.
  intros Hsh Hx Ha. destruct (shape_any_node _ _ _ _ Hsh Hx) as (_ & Hm & Hc).
  pose proof Hsh as [Hla Hlo Hhi Hbh Hhead Htail Hpro Htags Hepi Hbrk Hlist Hnds Hnodup].
  destruct (shape_span _ _ _ Hsh) as (S1 & S2 & S3 & S4 & S5 & S6).
  destruct Hc as [Hc|Hc].
  - split; [apply tags_store_out; [lia|exact Htags]|].
    rewrite ix_heap_base_eq in *. rewrite !load64_store64_ne by lia. auto.
  - pose proof (in_payload_inside _ _ _ _ Htags Hc).
    split; [eapply tags_store_payload; eauto; lia|].
    rewrite !load64_store64_ne by lia. auto.
Qed.

Lemma meta_store_node m B bs x a v :
  meta m B bs -> node_place B bs x -> a = x \/ a = x + 8 ->
  meta (store64 m a v) B bs.
Proof.
  intros (Ht & Hp & He) [Hc|Hc] Ha.
  - pose proof (tags_span _ _ _ Ht) as [? _].
    split; [apply tags_store_out; [lia|exact Ht]|].
    rewrite !load64_store64_ne by lia. auto.
  - pose proof (in_payload_inside _ _ _ _ Ht Hc).
    split; [eapply tags_store_payload; eauto; lia|].
    rewrite !load64_store64_ne by lia. auto.
Qed.

Lemma shape_meta s bs fl :
  shape s bs fl -> meta (bytes (hp s)) (heap_base s) bs.
Proof. intros []. split; [|split]; assumption. Qed.

Lemma shape_place s bs fl x :
  shape s bs fl ->
  In x (mem_start_brk (hp s) :: fl ++ [mem_start_brk (hp s) + 16]) ->
  node_place (heap_base s) bs x.
Proof. intros Hsh Hx. now destruct (shape_any_node _ _ _ _ Hsh Hx) as (_ & _ & ?). Qed.

Lemma in_cons_app_l {A} (x p : A) l l' : In x (p :: l) -> In x (p :: l ++ l').
Proof. intros [<-|H]; [now left|right; apply in_or_app; now left]. Qed.

Lemma in_cons_app_r {A} (x p : A) l l' : In x l' -> In x (p :: l ++ l').
Proof. intros H. right. apply in_or_app. now right. Qed.

(** Unlinking a node of the list. *)
Lemma wpx_unlink E s bs l1 n l2 (Q : unit -> st -> Prop) :
  shape s bs (l1 ++ n :: l2) ->
  (let lo := mem_start_brk (hp s) in
   let s' := with_bytes s (unlinked (bytes (hp s)) (List.last l1 lo) (hd (lo + 16) l2)) in
   shape s' bs (l1 ++ l2) -> Q tt s') ->
  wpx E (remove_linked_node_from_block (n - 16)) Q s.
Proof.
  intros Hsh HQ. set (lo := mem_start_brk (hp s)) in *.
  set (pl := List.last l1 lo) in *. set (nx := hd (lo + 16) l2) in *.
  pose proof (shape_bounded _ _ _ Hsh) as Hbd.
  destruct (shape_nodes _ _ _ Hsh) as [Hal Hnd]. fold lo in Hal, Hnd.
  rewrite <- app_assoc in Hal, Hnd. simpl in Hal, Hnd.
  pose proof Hsh as [Hla Hlo Hhi Hbh Hhead Htail Hpro Htags Hepi Hbrk Hlist Hnds Hnodup].
  fold lo in Hlist.
  destruct (dseg_pred _ _ _ _ _ _ Hlist) as [Hl1 Hl2]. fold pl in Hl1. fold nx in Hl2.
  assert (Hpl : In pl (lo :: l1 ++ n :: l2 ++ [lo + 16])).
  { apply in_cons_app_l. apply last_in. }
  assert (Hnx : In nx (lo :: l1 ++ n :: l2 ++ [lo + 16])).
  { apply in_cons_app_r. right. apply hd_in. }
  assert (Hn : In n (lo :: l1 ++ n :: l2 ++ [lo + 16])).
  { apply in_cons_app_r. now left. }
  assert (Hass : forall x, In x (lo :: l1 ++ n :: l2 ++ [lo + 16]) ->
                   In x (lo :: (l1 ++ n :: l2) ++ [lo + 16])).
  { intros x Hx. now rewrite <- app_assoc. }
  destruct (shape_any_node _ _ _ _ Hsh (Hass _ Hpl)) as (Ipl & Mpl & Ppl).
  destruct (shape_any_node _ _ _ _ Hsh (Hass _ Hnx)) as (Inx & Mnx & Pnx).
  destruct (shape_any_node _ _ _ _ Hsh (Hass _ Hn)) as (In_ & Mn & Pn).
  assert (Hpn : pl <> n).
  { assert (Hsplit : NoDup ((lo :: l1) ++ n :: (l2 ++ [lo + 16]))) by exact Hnd.
    apply NoDup_app in Hsplit as (_ & N2 & _). intros Heq.
    apply (N2 pl); [apply list_elem_of_In, last_in|]. rewrite Heq. now left. }
  apply in_heap_inv in Ipl as Ipl'. apply in_heap_inv in Inx as Inx'.
  replace (n - 16) with (n - 16 + 0) by lia.
  eapply wpx_remove_linked_node with (pl := pl) (nx := nx); try exact Hbd;
    replace (n - 16 + 0 + 16) with n by lia; auto.
  - apply in_heap_true; lia.
  - apply in_heap_true; lia.
  - lia.
  - assert (Hmeta : meta (unlinked (bytes (hp s)) pl nx) (heap_base s) bs).
    { unfold unlinked. eapply meta_store_node;
        [eapply meta_store_node; [exact (shape_meta _ _ _ Hsh)|exact Ppl|now right]
        |exact Pnx|now left]. }
    destruct Hmeta as (M1 & M2 & M3).
    apply HQ. constructor; try assumption.
    + simpl. apply dseg_unlinked with (n := n); assumption.
    + apply Forall_app in Hnds as [F1 F2]. apply Forall_cons in F2 as [_ F2].
      apply Forall_app. auto.
    + apply NoDup_app in Hnodup as (N1 & N2 & N3). apply NoDup_cons in N3 as [N3 N4].
      apply NoDup_app. split; [exact N1|]. split; [|exact N4].
      intros x Hx Hx'. apply (N2 x Hx). now right.
Qed.

(** Linking a node at the end of the list. *)
Lemma wpx_link E s bs fl n (Q : unit -> st -> Prop) :
  shape s bs fl -> n mod 16 = 0 -> in_payload (heap_base s) bs n -> ~ In n fl ->
  (let lo := mem_start_brk (hp s) in
   let s' := with_bytes s (linked (bytes (hp s)) (List.last fl lo) n (lo + 16)) in
   shape s' bs (fl ++ [n]) -> Q tt s') ->
  wpx E (add_linked_node_to_block (n - 16)) Q s.
Proof.
  intros Hsh Hnm Hnp Hnin HQ. set (lo := mem_start_brk (hp s)) in *.
  set (tp := List.last fl lo) in *.
  pose proof (shape_bounded _ _ _ Hsh) as Hbd.
  destruct (shape_nodes _ _ _ Hsh) as [Hal Hnd]. fold lo in Hal, Hnd.
  destruct (shape_span _ _ _ Hsh) as (S1 & S2 & S3 & S4 & S5 & S6).
  fold lo in S3, S5, S6.
  pose proof Hsh as [Hla Hlo Hhi Hbh Hhead Htail Hpro Htags Hepi Hbrk Hlist Hnds Hnodup].
  fold lo in Hlist, Htail.
  destruct (dseg_last _ _ _ _ Hlist) as [Hl1 Hl2]. fold tp in Hl1, Hl2.
  pose proof (in_payload_inside _ _ _ _ Htags Hnp) as Hni. rewrite ix_heap_base_eq in Hni.
  fold lo in Hni.
  assert (Htp : In tp (lo :: fl ++ [lo + 16])) by apply in_cons_app_l, last_in.
  assert (Ht : In (lo + 16) (lo :: fl ++ [lo + 16])) by (apply in_cons_app_r; now left).
  destruct (shape_any_node _ _ _ _ Hsh Htp) as (Itp & Mtp & Ptp).
  destruct (shape_any_node _ _ _ _ Hsh Ht) as (It & Mt & Pt).
  apply in_heap_inv in Itp as Itp'. apply in_heap_inv in It as It'.
  assert (Hnn : Forall node_ok (n :: lo :: fl ++ [lo + 16]) /\
                NoDup (n :: lo :: fl ++ [lo + 16])).
  { split.
    - constructor; [split; lia|exact Hal].
    - constructor; [|exact Hnd]. intros Hin%list_elem_of_In.
      destruct Hin as [Hin|Hin]; [lia|]. apply in_app_or in Hin as [Hin|[Hin|[]]];
        [contradiction|lia]. }
  destruct Hnn as [Hal' Hnd'].
  assert (Pn : node_place (heap_base s) bs n) by now right.
  replace (n - 16) with (n - 16 + 0) by lia.
  eapply wpx_add_linked_node with (tp := tp); try exact Hbd;
    replace (n - 16 + 0 + 16) with n by lia; rewrite ?Htail; auto.
  - apply in_heap_true; lia.
  - apply in_heap_true; lia.
  - apply in_heap_true; lia.
  - lia.
  - assert (Hmeta : meta (linked (bytes (hp s)) tp n (lo + 16)) (heap_base s) bs).
    { unfold linked.
      eapply meta_store_node; [|exact Pt|now left].
      eapply meta_store_node; [|exact Ptp|now right].
      eapply meta_store_node; [|exact Pn|now right].
      eapply meta_store_node; [|exact Pn|now left].
      exact (shape_meta _ _ _ Hsh). }
    destruct Hmeta as (M1 & M2 & M3).
    apply HQ. constructor; try assumption.
    + simpl. apply dseg_linked; assumption.
    + apply Forall_app. split; [exact Hnds|]. constructor; [auto|constructor].
    + apply NoDup_app. split; [exact Hnodup|]. split; [|apply NoDup_singleton].
      intros x Hx%list_elem_of_In Hx'%list_elem_of_In. destruct Hx' as [<-|[]].
      contradiction.
Qed.

Lemma kept_refl s : kept s s.
Proof. repeat split. Qed.

Lemma ix_kept_trans s1 s2 s3 : kept s1 s2 -> kept s2 s3 -> kept s1 s3.
Proof. unfold kept. intros (A & B & C & D) (A' & B' & C' & D'). repeat split; congruence. Qed.

Lemma kept_with_bytes s m : kept s (with_bytes s m).
Proof. repeat split. Qed.

Lemma frame_tagged A m0 m blk sz al :
  frame A m0 m -> clear_of A (blk + 8) -> clear_of A (blk + 16 + sz) ->
  frame A m0 (tagged m blk sz al).
Proof. intros Hf H1 H2. unfold tagged. apply ix_frame_store; [apply ix_frame_store|]; auto. Qed.

Lemma frame_unlinked A m0 m pl nx :
  frame A m0 m -> clear_of A (pl + 8) -> clear_of A nx ->
  frame A m0 (unlinked m pl nx).
Proof. intros Hf H1 H2. unfold unlinked. apply ix_frame_store; [apply ix_frame_store|]; auto. Qed.

Lemma frame_linked A m0 m tp n t :
  frame A m0 m -> clear_of A n -> clear_of A (n + 8) -> clear_of A (tp + 8) ->
  clear_of A t -> frame A m0 (linked m tp n t).
Proof. intros Hf H1 H2 H3 H4. unfold linked. repeat apply ix_frame_store; auto. Qed.

(** The words of list nodes and sentinels are clear of allocated payloads. *)
Lemma node_clear s bs fl x :
  heap_ok s bs fl ->
  In x (mem_start_brk (hp s) :: fl ++ [mem_start_brk (hp s) + 16]) ->
  clear_of (allocs (heap_base s) bs) x /\ clear_of (allocs (heap_base s) bs) (x + 8).
Proof.
  intros [Hsh Hperm] Hx.
  pose proof Hsh as [Hla Hlo Hhi Hbh Hhead Htail Hpro Htags Hepi Hbrk Hlist Hnds Hnodup].
  assert (Hc : x + 16 <= heap_base s \/ In x (frees (heap_base s) bs)).
  { rewrite ix_heap_base_eq. destruct Hx as [<-|Hx]; [left; lia|].
    apply in_app_or in Hx as [Hx|[<-|[]]]; [right|left; lia].
    apply list_elem_of_In. rewrite <- Hperm. now apply list_elem_of_In. }
  split; intros p z Hin.
  - destruct Hc as [Hc|Hc].
    + eapply ix_allocs_inside in Hin; [|exact Htags]. lia.
    + destruct (free_alloc_apart _ _ _ _ _ _ Htags Hc Hin); lia.
  - destruct Hc as [Hc|Hc].
    + eapply ix_allocs_inside in Hin; [|exact Htags]. lia.
    + destruct (free_alloc_apart _ _ _ _ _ _ Htags Hc Hin); lia.
Qed.

(** So is every word of a free block, tags included. *)
Lemma free_region_clear m B P bsz R a :
  tags m B (P ++ (bsz, false) :: R) ->
  B + span P + 8 <= a -> a + 8 <= B + span P + bsz + 24 ->
  clear_of (allocs B (P ++ (bsz, false) :: R)) a.
Proof.
  intros Ht H1 H2 p z Hin.
  destruct (ix_allocs_around _ _ _ _ _ _ _ _ Ht Hin) as [H|[[H _]|H]];
    [lia|discriminate|lia].
Qed.

(** Rewriting tags: the new memory differs from the old one only on tag
    words of the new block list. *)
Lemma shape_retag s bs fl bs' m' :
  shape s bs fl -> span bs' = span bs -> tags m' (heap_base s) bs' ->
  (forall a, (forall t, is_tag (heap_base s) bs' t -> a + 8 <= t \/ t + 8 <= a) ->
             load64 m' a = load64 (bytes (hp s)) a) ->
  Forall (fun n => in_payload (heap_base s) bs' n) fl ->
  shape (with_bytes s m') bs' fl.
Proof.
  intros Hsh Hspan Htags' Hagree Hnodes.
  destruct (shape_span _ _ _ Hsh) as (S1 & S2 & S3 & S4 & S5 & S6).
  pose proof Hsh as [Hla Hlo Hhi Hbh Hhead Htail Hpro Htags Hepi Hbrk Hlist Hnds Hnodup].
  pose proof (ix_heap_base_eq s) as Hb.
  assert (Hp : forall x, In x (mem_start_brk (hp s) :: fl ++ [mem_start_brk (hp s) + 16]) ->
              x + 16 <= heap_base s \/ in_payload (heap_base s) bs' x).
  { intros x Hx. destruct Hx as [<-|Hx]; [left; lia|].
    apply in_app_or in Hx as [Hx|[<-|[]]]; [right|left; lia].
    exact (Forall_In_Z _ _ _ Hnodes Hx). }
  assert (Hword : forall x, In x (mem_start_brk (hp s) :: fl ++ [mem_start_brk (hp s) + 16]) ->
              load64 m' x = load64 (bytes (hp s)) x /\
              load64 m' (x + 8) = load64 (bytes (hp s)) (x + 8)).
  { intros x Hx. split; apply Hagree; intros t Ht;
      pose proof (is_tag_inside _ _ _ _ Htags' Ht);
      (destruct (Hp x Hx) as [Hc|Hc]; [lia|]);
      destruct (tag_payload_apart _ _ _ _ _ Htags' Ht Hc); lia. }
  constructor; try assumption;
    change (heap_base (with_bytes s ?m)) with (heap_base s);
    change (bytes (hp (with_bytes s ?m))) with m;
    change (hp (with_bytes s ?m)) with (set_bytes (hp s) m);
    simpl mem_start_brk; simpl mem_brk; simpl mem_max_addr;
    rewrite ?Hspan; try assumption.
  - rewrite Hagree; [exact Hpro|]. intros t Ht.
    pose proof (is_tag_inside _ _ _ _ Htags' Ht). lia.
  - rewrite Hagree; [exact Hepi|]. intros t Ht.
    pose proof (is_tag_inside _ _ _ _ Htags' Ht). lia.
  - eapply dseg_ext; [| |exact Hlist].
    + intros x Hx. apply Hword. now apply in_cons_app_l.
    + intros x Hx. apply Hword. now right.
  - apply Forall_forall. intros n Hn%list_elem_of_In.
    split; [exact (proj1 (Forall_In_Z _ _ _ Hnds Hn))|].
    exact (Forall_In_Z _ _ _ Hnodes Hn).
Qed.

Lemma in_payload_flag B P sz al al' R n :
  in_payload B (P ++ (sz, al) :: R) n -> in_payload B (P ++ (sz, al') :: R) n.
Proof. rewrite !in_payload_app. simpl. tauto. Qed.

Lemma tags_retag m B P sz al al' R :
  tags m B (P ++ (sz, al) :: R) -> (al' = false -> 16 <= sz) -> sz < 2 ^ 64 ->
  tags (tagged m (B + span P) sz al') B (P ++ (sz, al') :: R).
Proof.
  intros Ht H16 Hlt. apply tags_app in Ht as [HP HR]. simpl in HR.
  destruct HR as (T0 & T1 & T2 & T3 & T4 & T5).
  pose proof (tags_span _ _ _ HP) as [? _]. pose proof (tags_span _ _ _ T5) as [? _].
  apply tags_app. split.
  - unfold tagged. apply tags_store_out; [lia|]. apply tags_store_out; [lia|]. exact HP.
  - simpl. unfold tagged. split; [|split; [|split; [|split; [|split]]]]; try assumption.
    + rewrite load64_store64_ne by lia. apply load64_store64_eq.
      apply ix_encode_range; lia.
    + apply load64_store64_eq. apply ix_encode_range; lia.
    + apply tags_store_out; [lia|]. apply tags_store_out; [lia|]. exact T5.
Qed.

Lemma with_bytes_bytes (s : st) m : bytes (hp (with_bytes s m)) = m.
Proof. reflexivity. Qed.

Lemma with_bytes_twice (s : st) m m' : with_bytes (with_bytes s m) m' = with_bytes s m'.
Proof. reflexivity. Qed.

Lemma heap_base_with_bytes (s : st) m : heap_base (with_bytes s m) = heap_base s.
Proof. reflexivity. Qed.

Lemma in_heap_with_bytes (s : st) m a n :
  in_heap (hp (with_bytes s m)) a n = in_heap (hp s) a n.
Proof. reflexivity. Qed.

Lemma bounded_with_bytes (s : st) m : bounded s -> bounded (with_bytes s m).
Proof. intros H. exact H. Qed.

Ltac norm :=
  rewrite ?with_bytes_bytes, ?with_bytes_twice, ?heap_base_with_bytes,
    ?in_heap_with_bytes.

Lemma lt_tolerance_spec x y : lt_tolerance x y = (x <=? y).
Proof.
  unfold lt_tolerance. destruct (Z.ltb_spec (100 * x) (100 * y + 1));
    destruct (Z.leb_spec x y); auto; lia.
Qed.

(** The node of a free block is on the list; without it the list holds the
    other free blocks. *)
Lemma heap_ok_free_block s P bsz R fl :
  heap_ok s (P ++ (bsz, false) :: R) fl ->
  exists l1 l2, fl = l1 ++ (heap_base s + span P + 16) :: l2 /\
    l1 ++ l2 ≡ₚ frees (heap_base s) P ++ frees (heap_base s + span P + bsz + 16) R.
Proof.
  intros [Hsh Hperm]. rewrite frees_app in Hperm. simpl in Hperm.
  assert (Hin : In (heap_base s + span P + 16) fl).
  { apply list_elem_of_In. rewrite Hperm. apply list_elem_of_In, in_or_app.
    right. now left. }
  apply in_split in Hin as (l1 & l2 & ->). exists l1, l2. split; [reflexivity|].
  eapply Permutation_app_inv. exact Hperm.
Qed.

Lemma is_tag_here B P sz al R :
  is_tag B (P ++ (sz, al) :: R) (B + span P + 8) /\
  is_tag B (P ++ (sz, al) :: R) (B + span P + 16 + sz).
Proof. split; apply is_tag_app; right; simpl; auto. Qed.


Lemma take_whole E s P bsz R fl size A0 :
  heap_ok s (P ++ (bsz, false) :: R) fl ->
  0 <= size <= bsz -> bsz <= size + 16 -> size mod 16 = 0 ->
  A0 = allocs (heap_base s) (P ++ (bsz, false) :: R) ->
  wpx E (take (heap_base s + span P) bsz size)
    (fun r s' => r = heap_base s + span P /\ kept s s' /\
                 frame A0 (bytes (hp s)) (bytes (hp s')) /\ took A0 size (r + 16) s' /\
                 carved s fl P bsz R size s') s.
Proof.
  intros Hok Hsz Hsmall Hsm HA.
  destruct (heap_ok_free_block _ _ _ _ _ Hok) as (l1 & l2 & Hfl & Hperm').
  pose proof Hok as [Hsh Hperm].
  pose proof (shape_bounded _ _ _ Hsh) as Hbd.
  destruct (shape_span _ _ _ Hsh) as (S1 & S2 & S3 & S4 & S5 & S6).
  pose proof Hsh as [Hla Hlo Hhi Hbh Hhead Htail Hpro Htags Hepi Hbrk Hlist Hnds Hnodup].
  pose proof Htags as Htags0.
  apply tags_app in Htags as [HP HR]. simpl in HR.
  destruct HR as (T0 & T1 & T2 & T3 & T4 & T5). specialize (T4 eq_refl).
  pose proof (tags_span _ _ _ HP) as [HsP _]. pose proof (tags_span _ _ _ T5) as [HsR _].
  rewrite span_app in S3. simpl in S3.
  pose proof (ix_heap_base_eq s) as Hb.
  set (block := heap_base s + span P) in *.
  set (m := bytes (hp s)) in *.
  unfold take.
  apply wpx_bind, wpx_set_boundaries; [exact Hbd|apply in_heap_true; lia|lia|
                                       apply in_heap_true; lia|].
  unfold ALIGNMENT. rewrite (wrap_small (size + 16)) by lia.
  rewrite lt_tolerance_spec. destruct (Z.leb_spec bsz (size + 16)) as [_|Hx]; [|lia].
  set (m1 := tagged m block bsz true).
  set (bs1 := P ++ (bsz, true) :: R).
  assert (Hsh1 : shape (with_bytes s m1) bs1 fl).
  { destruct (is_tag_here (heap_base s) P bsz true R) as [I1 I2].
    apply shape_tagged with (bs := P ++ (bsz, false) :: R).
    - exact Hsh.
    - unfold bs1. rewrite !span_app. reflexivity.
    - lia.
    - exact I1.
    - exact I2.
    - apply tags_retag with (al := false); [exact Htags0|discriminate|lia].
    - apply Forall_forall. intros x Hx%list_elem_of_In.
      apply in_payload_flag with (al := false).
      exact (proj2 (Forall_In_Z _ _ _ Hnds Hx)). }
  apply wpx_bind. replace block with (block + 16 - 16) at 1 by lia.
  rewrite Hfl in Hsh1. fold block in Hsh1.
  eapply wpx_unlink; [exact Hsh1|]. intros lo s2 Hsh2. apply wpx_ret.
  split; [reflexivity|]. split; [repeat split|]. split.
  - (* frame *)
    subst s2. simpl.
    assert (Hreg : forall a, block + 8 <= a -> a + 8 <= block + bsz + 24 -> clear_of A0 a).
    { intros a H1 H2. subst A0. eapply free_region_clear; eauto. }
    assert (Hnode : forall x, In x (lo :: fl ++ [lo + 16]) ->
              clear_of A0 x /\ clear_of A0 (x + 8)).
    { intros x Hx. subst A0. eapply node_clear; eauto. }
    apply frame_unlinked; [apply frame_tagged; [apply ix_frame_refl|..]|..].
    + apply Hreg; lia.
    + apply Hreg; lia.
    + apply Hnode. rewrite Hfl. apply in_cons_app_l. apply in_cons_app_l, last_in.
    + apply Hnode. rewrite Hfl, <- app_assoc. apply in_cons_app_r. right. apply hd_in.
  - assert (Hok2 : heap_ok s2 bs1 (l1 ++ l2)).
    { split; [exact Hsh2|]. unfold bs1. rewrite frees_app. simpl. exact Hperm'. }
    split.
    + exists P, R, bsz, (l1 ++ l2).
      change (heap_base s2) with (heap_base s). fold block.
      split; [exact Hok2|]. split; [lia|]. split; [|lia].
      subst A0. rewrite ix_allocs_app. reflexivity.
    + exists l1, l2. split; [exact Hfl|]. left. split; [lia|exact Hok2].
Qed.

Lemma take_split E s P bsz R fl size A0 :
  heap_ok s (P ++ (bsz, false) :: R) fl ->
  16 <= size -> size + 32 <= bsz -> size mod 16 = 0 ->
  A0 = allocs (heap_base s) (P ++ (bsz, false) :: R) ->
  wpx E (take (heap_base s + span P) bsz size)
    (fun r s' => r = heap_base s + span P /\ kept s s' /\
                 frame A0 (bytes (hp s)) (bytes (hp s')) /\ took A0 size (r + 16) s' /\
                 carved s fl P bsz R size s') s.
Proof.
  intros Hok Hsz Hbig Hsm HA.
  destruct (heap_ok_free_block _ _ _ _ _ Hok) as (l1 & l2 & Hfl & Hperm').
  pose proof Hok as [Hsh Hperm].
  pose proof (shape_bounded _ _ _ Hsh) as Hbd.
  destruct (shape_span _ _ _ Hsh) as (S1 & S2 & S3 & S4 & S5 & S6).
  pose proof Hsh as [Hla Hlo Hhi Hbh Hhead Htail Hpro Htags Hepi Hbrk Hlist Hnds Hnodup].
  pose proof Htags as Htags0.
  apply tags_app in Htags as [HP HR]. simpl in HR.
  destruct HR as (T0 & T1 & T2 & T3 & T4 & T5). specialize (T4 eq_refl).
  pose proof (tags_span _ _ _ HP) as [HsP HsPm]. pose proof (tags_span _ _ _ T5) as [HsR _].
  rewrite span_app in S3. simpl in S3.
  pose proof (ix_heap_base_eq s) as Hb.
  set (block := heap_base s + span P) in *.
  set (m := bytes (hp s)) in *.
  set (rem := bsz - size - 16).
  set (next := block + size + 16).
  set (n := block + 16) in *.
  set (n' := next + 16).
  unfold take.
  apply wpx_bind, wpx_set_boundaries; [exact Hbd|apply in_heap_true; lia|lia|
                                       apply in_heap_true; lia|].
  unfold ALIGNMENT. rewrite (wrap_small (size + 16)) by lia.
  rewrite lt_tolerance_spec. destruct (Z.leb_spec bsz (size + 16)) as [Hx|_]; [lia|].
  fold (tagged m block bsz true). set (m1 := tagged m block bsz true).
  apply wpx_bind. unfold split.
  apply wpx_bind, wpx_set_boundaries; [exact Hbd|apply in_heap_true; simpl; lia|lia|
                                       apply in_heap_true; simpl; lia|].
  norm. fold (tagged m1 block size true). set (m2 := tagged m1 block size true).
  apply wpx_bind. eapply ix_wpx_get_size with (sz := size) (al := true);
    [exact Hbd|apply in_heap_true; simpl; lia| |exact Hsm|].
  { norm. unfold m2, tagged. rewrite load64_store64_ne by lia.
    apply load64_store64_eq. apply ix_encode_range; lia. }
  unfold ALIGNMENT.
  rewrite (wrap_small (block + size)), (wrap_small (block + size + 16)) by lia.
  rewrite (wrap_small (bsz - size)), (wrap_small (bsz - size - 16)) by lia.
  fold next rem.
  apply wpx_bind, wpx_set_boundaries; [exact Hbd|apply in_heap_true; simpl; lia|lia|
                                       apply in_heap_true; simpl; lia|].
  norm. fold (tagged m2 next rem false). set (m3 := tagged m2 next rem false).
  set (bs2 := P ++ (size, true) :: (rem, false) :: R).
  assert (Htags3 : tags m3 (heap_base s) bs2).
  { unfold bs2. apply tags_app. fold block. split.
    - unfold m3, m2, m1, tagged. repeat (apply tags_store_out; [lia|]). exact HP.
    - simpl. fold next. unfold m3, m2, m1, tagged.
      split; [|split; [|split; [lia|split; [exact Hsm|split; [discriminate|]]]]].
      + rewrite !load64_store64_ne by lia. apply load64_store64_eq.
        apply ix_encode_range; lia.
      + rewrite !load64_store64_ne by lia. apply load64_store64_eq.
        apply ix_encode_range; lia.
      + split; [|split; [|split; [lia|split; [lia|split; [lia|]]]]].
        * rewrite !load64_store64_ne by lia. apply load64_store64_eq.
          apply ix_encode_range; lia.
        * apply load64_store64_eq. apply ix_encode_range; lia.
        * replace (next + rem + 16) with (block + bsz + 16) by lia.
          repeat (apply tags_store_out; [lia|]). exact T5. }
  assert (Hin2 : forall x, In x fl -> in_payload (heap_base s) bs2 x).
  { intros x Hx. assert (Hx' : In x (frees (heap_base s) (P ++ (bsz, false) :: R))).
    { apply list_elem_of_In. rewrite <- Hperm. now apply list_elem_of_In. }
    rewrite frees_app in Hx'. unfold bs2. apply in_payload_app.
    apply in_app_or in Hx' as [Hx'|Hx']; [left; eapply frees_in_payload; eauto|right].
    fold block. simpl. simpl in Hx'. destruct Hx' as [<-|Hx']; [left; lia|].
    right. right. fold next. replace (next + rem + 16) with (block + bsz + 16) by lia.
    eapply frees_in_payload; eauto. }
  assert (Hsh3 : shape (with_bytes s m3) bs2 fl).
  { apply shape_retag with (bs := P ++ (bsz, false) :: R).
    - exact Hsh.
    - unfold bs2. rewrite !span_app. simpl. lia.
    - exact Htags3.
    - intros a Ha.
      assert (I1 : is_tag (heap_base s) bs2 (block + 8)).
      { apply is_tag_app. right. simpl. auto. }
      assert (I2 : is_tag (heap_base s) bs2 (block + 16 + size)).
      { apply is_tag_app. right. simpl. auto. }
      assert (I3 : is_tag (heap_base s) bs2 (next + 8)).
      { apply is_tag_app. right. simpl. fold block next. auto. }
      assert (I4 : is_tag (heap_base s) bs2 (block + 16 + bsz)).
      { apply is_tag_app. right. simpl. fold block next. right. right. right. left. lia. }
      apply Ha in I1, I2, I3, I4.
      unfold m3, m2, m1, tagged. fold m. rewrite !load64_store64_ne by lia. reflexivity.
    - apply Forall_forall. intros x Hx%list_elem_of_In. now apply Hin2. }
  assert (Hn'fl : ~ In n' fl).
  { intros Hx. assert (Hx' : In n' (frees (heap_base s) (P ++ (bsz, false) :: R))).
    { apply list_elem_of_In. rewrite <- Hperm. now apply list_elem_of_In. }
    destruct (frees_around _ _ _ _ _ _ _ Htags0 Hx') as [H|[[_ H]|H]];
      unfold n', next, block in *; lia. }
  apply wpx_bind. replace next with (n' - 16) at 1 by (unfold n'; lia).
  eapply wpx_link; [exact Hsh3| | |exact Hn'fl|].
  { unfold n', next, block. lia. }
  { norm. unfold bs2. apply in_payload_app. right. fold block. simpl. right. left.
    unfold n', rem, next. lia. }
  intros lo s4 Hsh4.
  replace block with (n - 16) at 1 by (unfold n; lia).
  rewrite Hfl in Hsh4. fold block n in Hsh4. rewrite <- app_assoc in Hsh4.
  simpl in Hsh4.
  eapply wpx_unlink; [exact Hsh4|]. intros lo' s5 Hsh5. apply wpx_ret.
  split; [reflexivity|]. split; [repeat split|]. split.
  - (* frame *)
    subst s5 s4. simpl.
    assert (Hreg : forall a, block + 8 <= a -> a + 8 <= block + bsz + 24 -> clear_of A0 a).
    { intros a H1 H2. subst A0. eapply free_region_clear; eauto. }
    assert (Hnode : forall x, In x (lo :: fl ++ [lo + 16]) ->
              clear_of A0 x /\ clear_of A0 (x + 8)).
    { intros x Hx. subst A0. eapply node_clear; eauto. }
    assert (Hnode' : forall x, In x (lo :: (fl ++ [n']) ++ [lo + 16]) ->
              clear_of A0 x /\ clear_of A0 (x + 8)).
    { intros x Hx. destruct Hx as [<-|Hx]; [apply Hnode; now left|].
      rewrite <- app_assoc in Hx. apply in_app_or in Hx as [Hx|Hx].
      - apply Hnode. right. apply in_or_app. now left.
      - destruct Hx as [<-|Hx]; [|apply Hnode; right; apply in_or_app; now right].
        split; apply Hreg; unfold n', next; lia. }
    apply frame_unlinked; [apply frame_linked; [repeat apply frame_tagged;
                                                 [apply ix_frame_refl|..]|..]|..];
      try (apply Hreg; unfold n', next; lia).
    + apply Hnode. apply in_cons_app_l, last_in.
    + apply Hnode. apply in_cons_app_r. now left.
    + apply Hnode'. destruct (last_in lo l1) as [H|H]; [left; exact H|right].
      rewrite Hfl. apply in_or_app; left. apply in_or_app; left.
      apply in_or_app; left. exact H.
    + apply Hnode'. right. pose proof (hd_in (lo + 16) (l2 ++ [n'])) as H.
      apply in_app_or in H as [H|H]; [|apply in_or_app; right; exact H].
      apply in_or_app; left. apply in_app_or in H as [H|H];
        [|apply in_or_app; right; exact H].
      apply in_or_app; left. rewrite Hfl. apply in_or_app; right. right. exact H.
  - assert (Hok5 : heap_ok s5 bs2 (l1 ++ l2 ++ [n'])).
    { split; [exact Hsh5|]. change (heap_base s5) with (heap_base s).
      unfold bs2. rewrite frees_app. simpl. fold block next.
      replace (next + rem + 16) with (block + bsz + 16) by lia.
      rewrite app_assoc, Hperm'. fold n'.
      replace (heap_base s + span P + bsz + 16) with (block + bsz + 16) by (unfold block; lia).
      rewrite <- app_assoc. apply Permutation_app_head. symmetry.
      apply Permutation_cons_append. }
    split.
    + exists P, ((rem, false) :: R), size, (l1 ++ l2 ++ [n']).
      change (heap_base s5) with (heap_base s). fold block.
      split; [exact Hok5|]. split; [lia|]. split; [|lia].
      subst A0. rewrite ix_allocs_app. simpl. fold block next.
      replace (next + rem + 16) with (block + bsz + 16) by lia. reflexivity.
    + exists l1, l2. split; [exact Hfl|]. right. split; [lia|].
      replace (heap_base s + span P + size + 32) with n' by (unfold n', next, block; lia).
      exact Hok5.
Qed.

Ltac step HE :=
  lazymatch goal with
  | |- wpx _ (bind _ _) _ _ => apply wpx_bind; step HE
  | |- wpx _ (store _ _) _ _ =>
    apply wpx_store_partial; [exact HE|intros _]; cbn [hp gl bytes set_bytes]
  | |- wpx _ (load _) _ _ =>
    apply wpx_load_partial; [exact HE|intros _]; cbn [hp gl bytes set_bytes]
  | |- wpx _ (ret _) _ _ => apply wpx_ret
  | |- wpx _ get_gl _ _ => apply wpx_get_gl; cbn [hp gl bytes set_bytes]
  end.

(** A request of no bytes that finds a block it would split: the allocated
    part has no payload, its footer and the header of the remainder take the
    place of the node, and unlinking it follows the footer, [1], as a
    pointer. *)
Lemma take_zero_split (E : Prop) s P bsz R fl (Q : Z -> st -> Prop) :
  E -> heap_ok s (P ++ (bsz, false) :: R) fl -> 32 <= bsz ->
  wpx E (take (heap_base s + span P) bsz 0) Q s.
Proof.
  intros HE Hok Hbig. pose proof Hok as [Hsh Hperm].
  pose proof (shape_bounded _ _ _ Hsh) as Hbd.
  destruct (shape_span _ _ _ Hsh) as (S1 & S2 & S3 & S4 & S5 & S6).
  pose proof Hsh as [Hla Hlo Hhi Hbh Hhead Htail Hpro Htags Hepi Hbrk Hlist Hnds Hnodup].
  apply tags_app in Htags as [HP HR]. simpl in HR.
  destruct HR as (T0 & T1 & T2 & T3 & T4 & T5).
  pose proof (tags_span _ _ _ HP) as [HsP HmP]. pose proof (tags_span _ _ _ T5) as [HsR _].
  rewrite span_app in S3. simpl in S3.
  pose proof (ix_heap_base_eq s) as Hb.
  destruct (dseg_last _ _ _ _ Hlist) as [Hl1 _].
  destruct (shape_any_node _ _ _ (List.last fl (mem_start_brk (hp s))) Hsh
              ltac:(apply in_cons_app_l, last_in)) as (Itp & Mtp & _).
  apply in_heap_inv in Itp.
  set (block := heap_base s + span P) in *.
  set (lo := mem_start_brk (hp s)) in *.
  set (tp := List.last fl lo) in *.
  unfold take, split, set_boundaries, get_size, add_linked_node_to_block,
    remove_linked_node_from_block, ALIGNMENT, off_header, off_prev, off_next.
  rewrite lt_tolerance_spec, (wrap_small (0 + 16)) by lia.
  destruct (Z.leb_spec bsz (0 + 16)) as [Hx|_]; [lia|].
  rewrite Z.sub_0_r, (wrap_small bsz), (wrap_small (bsz - 16)) by lia.
  rewrite (wrap_small (block + 8)), (wrap_small (block + 16)),
    (wrap_small (block + 16 + bsz)), (wrap_small (block + 16 + 0)) by lia.
  change (encode 0 true) with 1. rewrite Z.add_0_r.
  do 4 step HE.
  step HE.
  rewrite load64_store64_ne, load64_store64_eq by lia.
  change (Z.land 1 (Z.lnot 1)) with 0. step HE.
  rewrite Z.add_0_r, (wrap_small block), (wrap_small (block + 16)),
    (wrap_small (block + 16 + 8)), (wrap_small (block + 16 + 16)),
    (wrap_small (block + 16 + 16 + (bsz - 16))) by lia.
  do 3 step HE. rewrite Htail, !Z.add_0_r.
  rewrite (wrap_small (lo + 16)), (wrap_small (block + 16 + 16 + 8)) by lia.
  step HE.
  rewrite !load64_store64_ne by lia. rewrite Hl1.
  rewrite ?(wrap_small (block + 16 + 16)) by lia.
  do 3 step HE.
  rewrite !load64_store64_ne by lia. rewrite Hl1.
  rewrite (wrap_small (tp + 8)) by lia.
  do 3 step HE.
  rewrite !load64_store64_ne by lia.
  rewrite load64_store64_eq by lia.
  step HE.
  apply wpx_bind, wpx_store_fault; [exact HE|].
  change (wrap (1 + 8)) with 9. unfold in_heap. cbn [hp mem_start_brk set_bytes].
  fold lo. destruct (Z.leb_spec lo 9); [lia|reflexivity].
Qed.

Lemma take_spec E s P bsz R fl size A0 :
  heap_ok s (P ++ (bsz, false) :: R) fl ->
  0 <= size <= bsz -> size mod 16 = 0 -> E \/ 16 <= size ->
  A0 = allocs (heap_base s) (P ++ (bsz, false) :: R) ->
  wpx E (take (heap_base s + span P) bsz size)
    (fun r s' => r = heap_base s + span P /\ kept s s' /\
                 frame A0 (bytes (hp s)) (bytes (hp s')) /\ took A0 size (r + 16) s' /\
                 carved s fl P bsz R size s') s.
Proof.
  intros Hok Hsz Hsm HE HA.
  assert (Hb : bsz mod 16 = 0).
  { pose proof Hok as [Hsh _].
    pose proof Hsh as [Hla Hlo Hhi Hbh Hhead Htail Hpro Htags Hepi Hbrk Hlist Hnds Hnodup].
    apply tags_app in Htags as [_ HR]. simpl in HR. tauto. }
  destruct (Z_le_gt_dec bsz (size + 16)).
  - eapply take_whole; eauto; lia.
  - destruct (Z_le_gt_dec 16 size).
    + eapply take_split; eauto; lia.
    + destruct HE as [HE|HE]; [|lia].
      replace size with 0 by lia. eapply take_zero_split; eauto. lia.
Qed.

Lemma find_fit_from_spec E size s bs fl A0 fuel :
  heap_ok s bs fl -> 0 <= size -> size mod 16 = 0 -> E \/ 16 <= size \/ fl = [] ->
  A0 = allocs (heap_base s) bs ->
  forall l1 l2, fl = l1 ++ l2 ->
  (forall x, In x l2 -> block_size (bytes (hp s)) x < size) ->
  (E \/ (length l1 < fuel)%nat) ->
  wpx E (find_fit_from fuel size (List.last l1 (mem_start_brk (hp s))))
    (fit_post s fl A0 size) s.
Proof.
  intros Hok Hsz Hsm HE0 HA. pose proof Hok as [Hsh Hperm].
  pose proof (shape_bounded _ _ _ Hsh) as Hbd.
  destruct (shape_span _ _ _ Hsh) as (S1 & S2 & S3 & S4 & S5 & S6).
  pose proof Hsh as [Hla Hlo Hhi Hbh Hhead Htail Hpro Htags Hepi Hbrk Hlist Hnds Hnodup].
  pose proof (ix_heap_base_eq s) as Hb.
  set (lo := mem_start_brk (hp s)) in *.
  induction fuel as [|fuel IH]; intros l1 l2 Hfl Hsmall HE.
  { apply wpx_out_of_fuel. destruct HE; [assumption|lia]. }
  simpl find_fit_from. apply wpx_bind, wpx_get_gl. rewrite Hhead.
  destruct l1 as [|x l1' _] using rev_ind.
  - simpl. rewrite Z.eqb_refl. simpl. apply wpx_ret. left.
    split; [reflexivity|]. split; [reflexivity|]. simpl in Hfl. now subst l2.
  - rewrite last_last.
    assert (Hx : In x fl). { rewrite Hfl. apply in_or_app. left. apply in_or_app. right. now left. }
    destruct (shape_node _ _ _ _ Hsh Hx) as (_ & Hx1 & Hx2 & Hx3). fold lo in Hx1.
    destruct (Z.eqb_spec x lo) as [Heq|_]; [lia|]. simpl negb.
    pose proof (heap_ok_free_node _ _ _ _ Hok Hx) as Hfx.
    destruct (frees_split _ _ _ Hfx) as (P & sz & R & Hbs & Hxe).
    pose proof Htags as Htags0. rewrite Hbs in Htags0.
    apply tags_app in Htags0 as [HP HR]. simpl in HR.
    destruct HR as (T0 & T1 & T2 & T3 & T4 & T5). specialize (T4 eq_refl).
    unfold ALIGNMENT. rewrite (wrap_small (x - 16)) by lia.
    replace (x - 16) with (heap_base s + span P) by lia.
    assert (Hbsz : block_size (bytes (hp s)) x = sz).
    { unfold block_size. replace (x - 8) with (heap_base s + span P + 8) by lia.
      rewrite T0. apply ix_decode_size. exact T3. }
    apply wpx_bind. eapply ix_wpx_get_size; [exact Hbd|apply in_heap_true; lia|exact T0|exact T3|].
    destruct (Z.leb_spec size sz) as [Hfit|Hno].
    + eapply wpx_mono.
      { apply take_spec with (fl := fl) (A0 := A0) (R := R);
          [now rewrite <- Hbs|lia|exact Hsm| |].
        { destruct HE0 as [H|[H|H]]; [now left|now right|].
          rewrite H in Hx. destruct Hx. }
        now rewrite <- Hbs. }
      intros r s' (-> & Hk & Hfr & Ht & _). right.
      split; [unfold NULL; lia|]. split; [exact Hk|]. split; [exact Hfr|].
      split; [exact Ht|]. exists l1', l2.
      replace (heap_base s + span P + 16) with x by lia.
      split; [now rewrite Hfl, <- app_assoc|]. split; [lia|exact Hsmall].
    + unfold off_prev. rewrite Z.add_0_r, (wrap_small x) by lia.
      apply wpx_bind, wpx_load; [apply in_heap_true; lia|].
      rewrite Hfl, <- app_assoc in Hlist. simpl in Hlist.
      destruct (dseg_pred _ _ _ _ _ _ Hlist) as [Hpred _]. rewrite Hpred.
      apply IH with (l2 := x :: l2).
      * now rewrite Hfl, <- app_assoc.
      * intros y [<-|Hy]; [lia|now apply Hsmall].
      * destruct HE as [HE|HE]; [now left|right]. rewrite length_app in HE. simpl in HE. lia.
Qed.

Lemma find_fit_spec E size s bs fl A0 fuel :
  heap_ok s bs fl -> 0 <= size -> size mod 16 = 0 -> E \/ 16 <= size \/ fl = [] ->
  A0 = allocs (heap_base s) bs ->
  (E \/ (length fl < fuel)%nat) ->
  wpx E (find_fit fuel size) (fit_post s fl A0 size) s.
Proof.
  intros Hok Hsz Hsm HE0 HA HE. pose proof Hok as [Hsh Hperm].
  destruct (shape_span _ _ _ Hsh) as (S1 & S2 & S3 & S4 & S5 & S6).
  pose proof Hsh as [Hla Hlo Hhi Hbh Hhead Htail Hpro Htags Hepi Hbrk Hlist Hnds Hnodup].
  unfold find_fit. apply wpx_bind, wpx_get_gl. rewrite Htail.
  unfold off_prev. rewrite Z.add_0_r, wrap_small by lia.
  apply wpx_bind, wpx_load; [apply in_heap_true; lia|].
  destruct (dseg_last _ _ _ _ Hlist) as [Hl _]. rewrite Hl.
  apply find_fit_from_spec with (bs := bs) (l2 := []); auto.
  - now rewrite app_nil_r.
  - intros x [].
Qed.

Lemma ix_required_spec size :
  0 <= size -> size + 15 < 2 ^ 64 ->
  required size mod 16 = 0 /\ size <= required size < size + 16 /\
  (0 < size -> 16 <= required size).
Proof.
  intros H0 H1. unfold required.
  destruct (ix_round_up_16 size) as [A B]; [lia..|]. lia.
Qed.

(** The break moved, nothing else did. *)
Lemma shape_grow s bs fl brk' :
  shape s bs fl ->
  mem_brk (hp s) <= brk' <= mem_max_addr (hp s) ->
  (brk' = heap_base s + span bs + 16 \/ mem_max_addr (hp s) < brk' + 8) ->
  shape (mkState {| bytes := bytes (hp s); mem_start_brk := mem_start_brk (hp s);
                    mem_brk := brk'; mem_max_addr := mem_max_addr (hp s) |} (gl s))
        bs fl.
Proof.
  intros [Hla Hlo Hhi Hbh Hhead Htail Hpro Htags Hepi Hbrk Hlist Hnds Hnodup] H1 H2.
  constructor; try assumption; simpl; try lia.
  unfold heap_base in *. simpl. split; [lia|exact H2].
Qed.

Lemma ix_mm_malloc_spec (E : Prop) fuel size s bs fl :
  heap_ok s bs fl -> 0 <= size -> size + 15 < 2 ^ 64 ->
  E \/ 0 < size \/ fl = [] ->
  E \/ (length fl < fuel)%nat ->
  E \/ mem_brk (hp s) + required size + 16 <= mem_max_addr (hp s) ->
  wpx E (mm_malloc fuel size) (malloc_post s bs fl size) s.
Proof.
  intros Hok Hs0 Hs1 HE1 HE2 HE3.
  destruct (ix_required_spec size Hs0 Hs1) as (Hrm & Hrb & Hr16).
  pose proof Hok as [Hsh Hperm].
  pose proof (shape_bounded _ _ _ Hsh) as Hbd.
  destruct (shape_span _ _ _ Hsh) as (S1 & S2 & S3 & S4 & S5 & S6).
  pose proof Hsh as [Hla Hlo Hhi Hbh Hhead Htail Hpro Htags Hepi Hbrk Hlist Hnds Hnodup].
  pose proof (ix_heap_base_eq s) as Hb.
  unfold mm_malloc. fold (required size). set (req := required size) in *.
  set (A0 := allocs (heap_base s) bs).
  apply wpx_bind. eapply wpx_mono.
  { apply find_fit_spec with (bs := bs) (fl := fl) (A0 := A0); auto; [lia|].
    destruct HE1 as [H|[H|H]]; auto. }
  intros r s1 [(-> & -> & Hnone)|(Hrnn & Hk & Hfr & Ht & Hpos)].
  2:{ destruct (Z.eqb_spec r NULL) as [|_]; [contradiction|]. simpl negb.
      apply wpx_ret. destruct Hk as (K1 & K2 & K3 & K4).
      assert (Hpay : payload r = r + 16).
      { unfold payload, off_payload. apply wrap_small.
        destruct Ht as (P & R & sz & fl' & [Hsh' _] & Hr & _).
        destruct (shape_span _ _ _ Hsh') as (Q1 & Q2 & Q3 & Q4 & Q5 & Q6).
        pose proof Hsh' as [_ _ _ _ _ _ _ Htags' _ _ _ _ _].
        apply tags_app in Htags' as [HP' HR']. pose proof (tags_span _ _ _ HP') as [? _].
        pose proof (tags_span _ _ _ HR') as [? _].
        rewrite span_app in Q3. rewrite ix_heap_base_eq in Hr. lia. }
      rewrite Hpay.
      repeat (split; [assumption || lia|]). right. split; [exact Ht|left].
      split; [lia|exact Hpos]. }
  simpl negb. cbv iota.
  apply wpx_bind, wpx_sbrk.
  - (* the payload fits below the limit *)
    intros Hroom1. unfold ALIGNMENT, sizeof_size_t.
    apply wpx_bind, wpx_sbrk; simpl mem_brk; simpl mem_max_addr.
    + intros Hroom2.
      destruct (Z.eqb_spec (mem_brk (hp s) + req) SBRK_FAILED) as [Hx|_];
        [unfold SBRK_FAILED in Hx; lia|].
      assert (Hbrk' : mem_brk (hp s) = heap_base s + span bs + 16) by lia.
      rewrite (wrap_small (mem_brk (hp s) - 16)) by lia.
      set (block := mem_brk (hp s) - 16).
      apply wpx_bind, wpx_set_boundaries;
        [split; simpl; lia|apply in_heap_true; simpl; unfold block; lia|lia|
         apply in_heap_true; simpl; unfold block; lia|].
      apply wpx_bind, wpx_sbrk; simpl mem_brk; simpl mem_max_addr.
      * intros Hroom3. apply wpx_bind, wpx_store; [apply in_heap_true; simpl; lia|].
        apply wpx_ret. unfold malloc_post, with_bytes.
        cbn [hp gl bytes mem_brk mem_start_brk mem_max_addr set_bytes].
        change (Z.lor 0 1) with 1.
        set (m := bytes (hp s)).
        set (m' := store64 (store64 (store64 m (block + 8) (encode req true))
                      (block + 16 + req) (encode req true))
                     (mem_brk (hp s) + req + 8) 1).
        assert (Hhdr : load64 m' (block + 8) = encode req true).
        { unfold m'. rewrite !load64_store64_ne by (unfold block; lia).
          apply load64_store64_eq. apply ix_encode_range; lia. }
        assert (Hpay : payload block = mem_brk (hp s)).
        { unfold payload, off_payload, block. rewrite wrap_small by lia. lia. }
        rewrite Hpay.
        split; [reflexivity|]. split; [reflexivity|]. split; [reflexivity|].
        split; [lia|]. split.
        { unfold m'. repeat apply ix_frame_store; try apply ix_frame_refl;
            intros p z Hin; eapply ix_allocs_inside in Hin; try exact Htags;
            unfold block; lia. }
        right. split.
        { exists bs, [], req, fl. split; [|split; [|split]].
          - split.
            + constructor; simpl; try assumption; try lia;
                unfold heap_base in *; simpl; rewrite ?span_app; simpl.
              * unfold m'. rewrite !load64_store64_ne by (unfold block; lia). exact Hpro.
              * apply tags_app. split.
                -- unfold m'. repeat (apply tags_store_out; [unfold block; lia|]).
                   exact Htags.
                -- simpl. replace (mem_start_brk (hp s) + 32 + span bs) with block
                     by (unfold block; lia).
                   split; [exact Hhdr|]. split; [|repeat split; auto; lia].
                   unfold m'. rewrite load64_store64_ne by (unfold block; lia).
                   apply load64_store64_eq. apply ix_encode_range; lia.
              * unfold m'.
                replace (mem_start_brk (hp s) + 32 + (span bs + (req + 16 + 0)) + 8)
                  with (mem_brk (hp s) + req + 8) by lia.
                apply load64_store64_eq. lia.
              * split; [lia|left; lia].
              * assert (Hout : forall x a, In x (mem_start_brk (hp s) :: fl ++
                                                   [mem_start_brk (hp s) + 16]) ->
                          block + 8 <= a -> a + 8 <= x \/ x + 16 <= a).
                { intros x a Hx Ha.
                  destruct (shape_any_node _ _ _ _ Hsh Hx) as (_ & _ & [Hc|Hc]).
                  - unfold heap_base in Hc. unfold block. lia.
                  - eapply in_payload_inside in Hc; [|exact Htags].
                    unfold heap_base in Hc. unfold block. lia. }
                unfold m'. repeat (apply dseg_store_out;
                  [intros x Hx; apply (Hout x _ Hx); unfold block; lia|]).
                exact Hlist.
              * apply Forall_forall. intros x Hx%list_elem_of_In.
                destruct (Forall_In_Z _ _ _ Hnds Hx) as [? ?]. split; [assumption|].
                apply in_payload_app. now left.
            + unfold heap_base. simpl. fold (heap_base s). rewrite frees_app. simpl.
              now rewrite app_nil_r.
          - unfold heap_base. simpl. lia.
          - unfold heap_base. simpl. fold (heap_base s). simpl. now rewrite app_nil_r.
          - lia. }
        right. split; [lia|]. split; [reflexivity|]. split; [|exact Hnone].
        replace (mem_brk (hp s) - 8) with (block + 8) by (unfold block; lia). exact Hhdr.
      * intros Hfull. destruct HE3 as [HE|HE]; [|fold req in HE; lia].
        apply wpx_bind, wpx_store_fault; [exact HE|].
        apply andb_false_intro2. apply Z.leb_gt. simpl. unfold SBRK_FAILED. lia.
    + intros Hfull. rewrite Z.eqb_refl. apply wpx_ret. unfold malloc_post.
      cbn [hp gl bytes mem_brk mem_start_brk mem_max_addr set_bytes].
      split; [reflexivity|]. split; [reflexivity|]. split; [reflexivity|].
      split; [lia|]. split; [apply ix_frame_refl|]. left.
      split; [reflexivity|]. split; [|split; [reflexivity|split; [lia|exact Hnone]]]. split.
      * apply shape_grow; [exact Hsh|lia|right; lia].
      * exact Hperm.
  - (* the payload does not fit *)
    intros Hfull1. unfold ALIGNMENT, sizeof_size_t.
    apply wpx_bind, wpx_sbrk; simpl mem_brk; simpl mem_max_addr.
    + intros Hroom2.
      destruct (Z.eqb_spec (mem_brk (hp s)) SBRK_FAILED) as [Hx|_];
        [unfold SBRK_FAILED in Hx; lia|].
      destruct HE3 as [HE|HE]; [|fold req in HE; lia].
      apply wpx_bind. unfold set_boundaries. apply wpx_bind, wpx_store_fault; [exact HE|].
      unfold SBRK_FAILED, off_header.
      replace (2 ^ 64 - 1 - 16) with (2 ^ 64 - 17) by lia.
      rewrite (wrap_small (2 ^ 64 - 17)) by lia.
      rewrite (wrap_small (2 ^ 64 - 17 + 8)) by lia.
      apply andb_false_intro2. apply Z.leb_gt. simpl. lia.
    + intros Hfull2. rewrite Z.eqb_refl. apply wpx_ret. rewrite !state_eta.
      split; [reflexivity|]. split; [reflexivity|]. split; [reflexivity|].
      split; [lia|]. split; [apply ix_frame_refl|]. left.
      split; [reflexivity|]. split; [exact Hok|]. split; [reflexivity|].
      split; [lia|exact Hnone].
Qed.

Lemma tags_merge m B P s1 a1 s2 a2 R :
  tags m B (P ++ (s1, a1) :: (s2, a2) :: R) -> s1 + s2 + 16 < 2 ^ 64 ->
  tags (tagged m (B + span P) (s1 + s2 + 16) false) B (P ++ (s1 + s2 + 16, false) :: R).
Proof.
  intros Ht Hlt. apply tags_app in Ht as [HP HR]. simpl in HR.
  destruct HR as (T0 & T1 & T2 & T3 & T4 & U0 & U1 & U2 & U3 & U4 & U5).
  pose proof (tags_span _ _ _ HP) as [? _]. pose proof (tags_span _ _ _ U5) as [? _].
  apply tags_app. split.
  - unfold tagged. apply tags_store_out; [lia|]. apply tags_store_out; [lia|]. exact HP.
  - simpl. unfold tagged. split; [|split; [|split; [lia|split; [lia|split; [lia|]]]]].
    + rewrite load64_store64_ne by lia. apply load64_store64_eq.
      apply ix_encode_range; lia.
    + apply load64_store64_eq. apply ix_encode_range; lia.
    + replace (B + span P + (s1 + s2 + 16) + 16) with (B + span P + s1 + 16 + s2 + 16) by lia.
      apply tags_store_out; [lia|]. apply tags_store_out; [lia|]. exact U5.
Qed.

Lemma in_payload_merge m B P s1 a1 s2 a2 R al x :
  tags m B (P ++ (s1, a1) :: (s2, a2) :: R) ->
  in_payload B (P ++ (s1, a1) :: (s2, a2) :: R) x ->
  in_payload B (P ++ (s1 + s2 + 16, al) :: R) x.
Proof.
  intros Ht. apply tags_app in Ht as [HP HR]. simpl in HR.
  destruct HR as (T0 & T1 & T2 & T3 & T4 & U0 & U1 & U2 & U3 & U4 & U5).
  rewrite !in_payload_app. simpl. intros [H|[H|[H|H]]]; auto.
  - right. left. lia.
  - right. left. lia.
  - right. right. replace (B + span P + (s1 + s2 + 16) + 16)
      with (B + span P + s1 + 16 + s2 + 16) by lia. exact H.
Qed.

Lemma span_merge P s1 a1 s2 a2 R al :
  span (P ++ (s1 + s2 + 16, al) :: R) = span (P ++ (s1, a1) :: (s2, a2) :: R).
Proof. rewrite !span_app. simpl. lia. Qed.

(** The footer a block finds before it. *)
Lemma prev_footer m B P (b : Z * bool) R :
  tags m B (P ++ b :: R) -> load64 m B = 1 ->
  exists psz pal, load64 m (B + span P) = encode psz pal /\ psz mod 16 = 0 /\
    (pal = false -> exists P', P = P' ++ [(psz, false)]) /\
    (pal = true -> ~ ends_free P).
Proof.
  intros Ht Hpro. destruct P as [|p0 P0] using rev_ind.
  - exists 0, true. simpl. rewrite Z.add_0_r. split; [exact Hpro|]. split; [reflexivity|].
    split; [discriminate|]. intros _ (P' & z & H). now destruct P'.
  - clear IHP0. destruct p0 as [psz pal]. exists psz, pal.
    apply tags_app in Ht as [HP _]. apply tags_app in HP as [_ HP]. simpl in HP.
    destruct HP as (_ & T1 & T2 & T3 & _). rewrite span_app. simpl.
    replace (B + (span P0 + (psz + 16 + 0))) with (B + span P0 + 16 + psz) by lia.
    split; [exact T1|]. split; [exact T3|]. split.
    + intros ->. now exists P0.
    + intros -> (P' & z & H). apply app_inj_tail in H as [_ H]. discriminate.
Qed.

(** The header a block of size [sz] finds after it. *)
Lemma next_header m B P sz al R :
  tags m B (P ++ (sz, al) :: R) -> load64 m (B + span (P ++ (sz, al) :: R) + 8) = 1 ->
  exists nsz nal, load64 m (B + span P + sz + 24) = encode nsz nal /\ nsz mod 16 = 0 /\
    ((if nsz =? 0 then true else nal) = false -> exists R', R = (nsz, false) :: R') /\
    ((if nsz =? 0 then true else nal) = true -> ~ starts_free R).
Proof.
  intros Ht Hepi. apply tags_app in Ht as [_ HR]. simpl in HR.
  destruct HR as (_ & _ & _ & _ & _ & HR). rewrite span_app in Hepi. simpl in Hepi.
  destruct R as [|[nsz nal] R'].
  - exists 0, true. simpl in *.
    replace (B + span P + sz + 24) with (B + (span P + (sz + 16 + 0)) + 8) by lia.
    split; [exact Hepi|]. split; [reflexivity|]. split; [discriminate|].
    intros _ (z & R' & H). discriminate.
  - exists nsz, nal. simpl in HR. destruct HR as (U0 & _ & U2 & U3 & U4 & _).
    replace (B + span P + sz + 24) with (B + span P + sz + 16 + 8) by lia.
    split; [exact U0|]. split; [exact U3|]. split.
    + destruct (Z.eqb_spec nsz 0); [discriminate|]. intros ->. now exists R'.
    + intros H (z & R'' & Heq). injection Heq as -> -> ->. specialize (U4 eq_refl).
      destruct (Z.eqb_spec z 0); [lia|discriminate].
Qed.

Lemma allocs_merge B P s1 s2 R :
  allocs B (P ++ (s1 + s2 + 16, false) :: R) =
  allocs B (P ++ (s1, false) :: (s2, false) :: R).
Proof. rewrite !ix_allocs_app. simpl. do 2 f_equal. lia. Qed.

Lemma frees_merge B P s1 s2 R :
  frees B (P ++ (s1 + s2 + 16, false) :: R) =
  frees B P ++ (B + span P + 16) :: frees (B + span P + s1 + 16 + s2 + 16) R.
Proof. rewrite !frees_app. simpl. do 3 f_equal. lia. Qed.

Lemma merge_shape s P s1 a1 s2 a2 R fl :
  shape s (P ++ (s1, a1) :: (s2, a2) :: R) fl ->
  shape (with_bytes s (tagged (bytes (hp s)) (heap_base s + span P) (s1 + s2 + 16) false))
        (P ++ (s1 + s2 + 16, false) :: R) fl.
Proof.
  intros Hsh.
  destruct (shape_span _ _ _ Hsh) as (S1 & S2 & S3 & S4 & S5 & S6).
  pose proof Hsh as [Hla Hlo Hhi Hbh Hhead Htail Hpro Htags Hepi Hbrk Hlist Hnds Hnodup].
  pose proof Htags as Htags0.
  apply tags_app in Htags as [HP HR]. simpl in HR.
  destruct HR as (T0 & T1 & T2 & T3 & T4 & U0 & U1 & U2 & U3 & U4 & U5).
  pose proof (tags_span _ _ _ HP) as [HsP _]. pose proof (tags_span _ _ _ U5) as [HsR _].
  rewrite span_app in S3. simpl in S3.
  destruct (is_tag_here (heap_base s) P (s1 + s2 + 16) false R) as [I1 I2].
  eapply shape_tagged.
  - exact Hsh.
  - apply span_merge.
  - lia.
  - exact I1.
  - exact I2.
  - apply tags_merge with (a1 := a1) (a2 := a2); [exact Htags0|lia].
  - apply Forall_forall. intros x Hx%list_elem_of_In.
    eapply in_payload_merge; [exact Htags0|].
    exact (proj2 (Forall_In_Z _ _ _ Hnds Hx)).
Qed.

Lemma perm_drop (l1 l2 l3 l4 : list Z) a :
  l1 ++ a :: l2 ≡ₚ l3 ++ a :: l4 -> l1 ++ l2 ≡ₚ l3 ++ l4.
Proof. apply Permutation_app_inv. Qed.

Lemma coalesce_spec E s P sz R fl0 :
  heap_ok s (P ++ (sz, false) :: R) (fl0 ++ [heap_base s + span P + 16]) ->
  wpx E (coalesce (heap_base s + span P))
    (fun _ s' =>
       kept s s' /\
       frame (allocs (heap_base s) (P ++ (sz, false) :: R)) (bytes (hp s)) (bytes (hp s')) /\
       exists bs' fl', heap_ok s' bs' fl' /\
         allocs (heap_base s) bs' = allocs (heap_base s) (P ++ (sz, false) :: R) /\
         merged_into (heap_base s) P sz R fl0 bs' fl') s.
Proof.
  intros Hok.
  pose proof Hok as [Hsh Hperm].
  pose proof (shape_bounded _ _ _ Hsh) as Hbd.
  destruct (shape_span _ _ _ Hsh) as (S1 & S2 & S3 & S4 & S5 & S6).
  pose proof Hsh as [Hla Hlo Hhi Hbh Hhead Htail Hpro Htags Hepi Hbrk Hlist Hnds Hnodup].
  pose proof Htags as Htags0.
  apply tags_app in Htags as [HP HR]. simpl in HR.
  destruct HR as (T0 & T1 & T2 & T3 & T4 & T5). specialize (T4 eq_refl).
  pose proof (tags_span _ _ _ HP) as [HsP HmP]. pose proof (tags_span _ _ _ T5) as [HsR HmR].
  rewrite span_app in S3. simpl in S3.
  pose proof (ix_heap_base_eq s) as Hb.
  destruct (prev_footer _ _ _ _ _ Htags0 Hpro) as (psz & pal & F1 & F2 & F3 & F4).
  destruct (next_header _ _ _ _ _ _ Htags0 Hepi) as (nsz & nal & N1 & N2 & N3 & N4).
  set (B := heap_base s) in *.
  set (block := B + span P) in *.
  set (m := bytes (hp s)) in *.
  set (lo := mem_start_brk (hp s)) in *.
  set (n := block + 16) in *.
  set (A := allocs B (P ++ (sz, false) :: R)).
  assert (Hnode : forall x, In x (lo :: (fl0 ++ [n]) ++ [lo + 16]) ->
            clear_of A x /\ clear_of A (x + 8)).
  { intros x Hx. eapply node_clear; eauto. }
  assert (Hfl0 : fl0 ≡ₚ frees B P ++ frees (block + sz + 16) R).
  { rewrite frees_app in Hperm. simpl in Hperm. fold block in Hperm. fold n in Hperm.
    rewrite <- (app_nil_r fl0). eapply perm_drop. exact Hperm. }
  unfold coalesce.
  apply wpx_bind. eapply ix_wpx_get_size; [exact Hbd|apply in_heap_true; lia|exact T0|exact T3|].
  apply wpx_bind.
  eapply wpx_is_prev_allocated; [exact Hbd|apply in_heap_true; lia|exact F1|exact F2|].
  destruct pal; simpl negb; cbv iota.
  - (* the block before is allocated, or there is none *)
    apply wpx_bind.
    eapply wpx_is_next_allocated; [exact Hbd|apply in_heap_true; lia|exact T0|exact T3|lia|
      apply in_heap_true; lia|exact N1|exact N2|].
    destruct (if nsz =? 0 then true else nal) eqn:Hna; simpl negb; cbv iota.
    + apply wpx_ret. split; [apply kept_refl|]. split; [apply ix_frame_refl|].
      exists (P ++ (sz, false) :: R), (fl0 ++ [n]). split; [exact Hok|]. split; [reflexivity|].
      exists P, R, sz, fl0. split; [reflexivity|]. split; [lia|]. split.
      * left. auto.
      * left. auto.
    + destruct (N3 eq_refl) as (R' & ->). clear N3 N4.
      simpl in T5. destruct T5 as (U0 & U1 & U2 & U3 & U4 & U5). specialize (U4 eq_refl).
      pose proof (tags_span _ _ _ U5) as [HsR' HmR'].
      simpl in S3, HsR, HmR.
      apply wpx_bind.
      eapply ix_wpx_get_size; [exact Hbd|apply in_heap_true; lia|exact T0|exact T3|].
      unfold ALIGNMENT. rewrite (wrap_small (block + sz)), (wrap_small (block + sz + 16)) by lia.
      apply wpx_bind.
      eapply ix_wpx_get_size; [exact Hbd|apply in_heap_true; lia|exact U0|exact U3|].
      rewrite (wrap_small (sz + nsz)), (wrap_small (sz + nsz + 16)) by lia.
      apply wpx_bind, wpx_set_boundaries; [exact Hbd|apply in_heap_true; lia|lia|
                                           apply in_heap_true; lia|].
      pose proof (merge_shape _ _ _ _ _ _ _ _ Hsh) as Hsh3. fold B block m in Hsh3.
      fold (tagged m block (sz + nsz + 16) false).
      set (nn := block + sz + 32).
      assert (Hnn : In nn fl0).
      { apply list_elem_of_In. rewrite Hfl0. apply list_elem_of_In, in_or_app. right.
        simpl. left. unfold nn. lia. }
      apply in_split in Hnn as (l1 & l2 & Hsplit).
      assert (Hl : fl0 ++ [n] = l1 ++ nn :: (l2 ++ [n])).
      { rewrite Hsplit, <- app_assoc. reflexivity. }
      rewrite Hl in Hsh3.
      replace (block + sz + 16) with (nn - 16) by (unfold nn; lia).
      eapply wpx_unlink; [exact Hsh3|]. intros lo' s4 Hsh4.
      split; [repeat split|]. split.
      * subst s4 lo'. simpl. fold m lo.
        apply frame_unlinked; [apply frame_tagged; [apply ix_frame_refl|..]|..].
        -- eapply free_region_clear; [exact Htags0|fold B block; lia..].
        -- unfold A. replace (P ++ (sz, false) :: (nsz, false) :: R')
             with ((P ++ [(sz, false)]) ++ (nsz, false) :: R')
             by (rewrite <- app_assoc; reflexivity).
           eapply free_region_clear with (m := m).
           ++ rewrite <- app_assoc. exact Htags0.
           ++ rewrite span_app. simpl. fold B block. lia.
           ++ rewrite span_app. simpl. fold B block. lia.
        -- apply Hnode. rewrite Hl. apply in_cons_app_l. apply in_cons_app_l, last_in.
        -- apply Hnode. rewrite Hl, <- app_assoc. apply in_cons_app_r. right. apply hd_in.
      * exists (P ++ (sz + nsz + 16, false) :: R'), (l1 ++ l2 ++ [n]).
        split; [|split].
        -- split; [exact Hsh4|]. change (heap_base s4) with B.
           rewrite frees_merge. fold block n.
           rewrite Hsplit in Hfl0. simpl in Hfl0.
           replace (block + sz + 16 + 16) with nn in Hfl0 by (unfold nn; lia).
           apply perm_drop in Hfl0.
           rewrite app_assoc, <- Permutation_cons_append, <- Permutation_middle.
           constructor. exact Hfl0.
        -- apply allocs_merge.
        -- exists P, R', (sz + nsz + 16), (l1 ++ l2).
           split; [reflexivity|]. split; [simpl; lia|]. split.
           ++ right. exists nsz, l1, l2. split; [reflexivity|]. split; [|reflexivity].
              rewrite Hsplit. unfold nn, block. do 2 f_equal.
           ++ left. split; [reflexivity|]. split; [now apply F4|].
              now rewrite app_assoc.
  - (* the block before is free *)
    destruct (F3 eq_refl) as (P' & HPeq). clear F3 F4.
    assert (Hlist3 : P ++ (sz, false) :: R = P' ++ (psz, false) :: (sz, false) :: R).
    { rewrite HPeq, <- app_assoc. reflexivity. }
    assert (HspP : span P = span P' + psz + 16).
    { rewrite HPeq, span_app. simpl. lia. }
    pose proof HP as HP0. rewrite HPeq in HP0. apply tags_app in HP0 as [HP' HV].
    simpl in HV. destruct HV as (V0 & V1 & V2 & V3 & V4 & _). specialize (V4 eq_refl).
    pose proof (tags_span _ _ _ HP') as [HsP' HmP'].
    rewrite ix_encode_even in F1 by exact F2. simpl in F1. rewrite Z.add_0_r in F1.
    apply wpx_bind. eapply wpx_get_prev_size; [exact Hbd|apply in_heap_true; lia|exact F1|].
    apply wpx_bind. eapply wpx_get_prev_size; [exact Hbd|apply in_heap_true; lia|exact F1|].
    unfold ALIGNMENT.
    rewrite (wrap_small (sz + psz)), (wrap_small (sz + psz + 16)) by lia.
    rewrite (wrap_small (block - psz)), (wrap_small (block - psz - 16)) by lia.
    replace (block - psz - 16) with (B + span P') by (unfold block; lia).
    replace (sz + psz + 16) with (psz + sz + 16) by lia.
    apply wpx_bind, wpx_set_boundaries; [exact Hbd|apply in_heap_true; lia|lia|
                                         apply in_heap_true; lia|].
    pose proof Hsh as Hsh3. rewrite Hlist3 in Hsh3. apply merge_shape in Hsh3.
    fold B m in Hsh3.
    apply wpx_bind. replace block with (n - 16) at 1 by (unfold n; lia).
    eapply wpx_unlink with (l2 := []); [exact Hsh3|]. intros lo' s4 Hsh4.
    set (pl := List.last fl0 lo).
    set (pblk := B + span P') in *.
    set (m4 := unlinked (tagged m pblk (psz + sz + 16) false) pl (lo + 16)).
    assert (Hs4 : s4 = with_bytes s m4) by reflexivity.
    clearbody s4. subst s4. clear lo'. rewrite app_nil_r in Hsh4.
    assert (Hpl : In pl (lo :: (fl0 ++ [n]) ++ [lo + 16])).
    { apply in_cons_app_l. apply in_cons_app_l, last_in. }
    assert (Hplp : pl = lo \/ pl + 16 <= block \/ pl = n \/ block + sz + 32 <= pl).
    { destruct (last_in lo fl0) as [Hx|Hx]; [left; symmetry; exact Hx|right].
      fold pl in Hx.
      assert (Hin : In pl (frees B (P ++ (sz, false) :: R))).
      { apply list_elem_of_In. rewrite <- Hperm. apply list_elem_of_In, in_or_app. now left. }
      destruct (frees_around _ _ _ _ _ _ _ Htags0 Hin) as [H|[[_ H]|H]];
        fold block in H; fold n in H; lia. }
    assert (Hld : forall a, a = block \/ a = block + 8 \/ a = block + sz + 24 ->
              load64 m4 a = load64 m a).
    { intros a Ha. unfold m4, unlinked, tagged.
      rewrite !load64_store64_ne; [reflexivity|unfold n in Hplp; lia..]. }
    assert (Hbd4 : bounded (with_bytes s m4)) by now apply bounded_with_bytes.
    assert (Hfr4 : frame A m m4).
    { unfold m4. apply frame_unlinked; [apply frame_tagged; [apply ix_frame_refl|..]|..].
      - unfold A. rewrite Hlist3. eapply free_region_clear with (m := m).
        + rewrite <- Hlist3. exact Htags0.
        + fold B pblk. lia.
        + fold B pblk. lia.
      - eapply free_region_clear; [exact Htags0|fold B block; lia..].
      - apply Hnode, Hpl.
      - apply Hnode. apply in_cons_app_r. now left. }
    apply wpx_bind.
    eapply wpx_is_next_allocated with (sz := sz) (al := false) (nsz := nsz) (nal := nal);
      [exact Hbd4|apply in_heap_true; simpl; lia|
       norm; rewrite Hld by auto; exact T0|exact T3|lia|
       apply in_heap_true; simpl; lia|
       norm; rewrite Hld by auto; exact N1|exact N2|].
    destruct (if nsz =? 0 then true else nal) eqn:Hna; simpl negb; cbv iota.
    + apply wpx_ret. split; [repeat split|]. split; [exact Hfr4|].
      exists (P' ++ (psz + sz + 16, false) :: R), fl0. split; [|split].
      * split; [exact Hsh4|]. change (heap_base (with_bytes s m4)) with B.
        rewrite frees_merge. fold pblk.
        rewrite HPeq, frees_app in Hfl0. simpl in Hfl0. fold pblk in Hfl0.
        rewrite <- app_assoc in Hfl0. simpl in Hfl0.
        replace (pblk + psz + 16 + sz + 16) with (block + sz + 16) by (unfold block; lia).
        exact Hfl0.
      * unfold A. rewrite Hlist3. apply allocs_merge.
      * exists P', R, (psz + sz + 16), fl0.
        split; [reflexivity|]. split; [lia|]. split.
        -- left. split; [reflexivity|]. split; [now apply N4|reflexivity].
        -- right. exists psz. auto.
    + destruct (N3 eq_refl) as (R' & ->). clear N3 N4.
      simpl in T5. destruct T5 as (U0 & U1 & U2 & U3 & U4 & U5). specialize (U4 eq_refl).
      pose proof (tags_span _ _ _ U5) as [HsR' HmR'].
      simpl in S3, HsR, HmR.
      apply wpx_bind.
      eapply ix_wpx_get_size with (sz := sz) (al := false);
        [exact Hbd4|apply in_heap_true; simpl; lia|norm; rewrite Hld by auto; exact T0|
         exact T3|].
      rewrite (wrap_small (block + sz)), (wrap_small (block + sz + 16)) by lia.
      apply wpx_bind.
      eapply ix_wpx_get_size with (sz := nsz) (al := false);
        [exact Hbd4|apply in_heap_true; simpl; lia|
         norm; rewrite Hld by (right; right; lia); exact U0|exact U3|].
      apply wpx_bind.
      eapply wpx_get_prev_size with (v := psz);
        [exact Hbd4|apply in_heap_true; simpl; lia|norm; rewrite Hld by auto; exact F1|].
      rewrite (wrap_small (block - psz)), (wrap_small (block - psz - 16)) by lia.
      rewrite (wrap_small (psz + sz + 16 + nsz)), (wrap_small (psz + sz + 16 + nsz + 16))
        by lia.
      replace (block - psz - 16) with pblk by (unfold block, pblk; lia).
      apply wpx_bind, wpx_set_boundaries; [exact Hbd4|apply in_heap_true; simpl; lia|lia|
                                           apply in_heap_true; simpl; lia|].
      pose proof Hsh4 as Hsh5. apply merge_shape in Hsh5.
      set (nn := block + sz + 32).
      assert (Hnn : In nn fl0).
      { apply list_elem_of_In. rewrite Hfl0. apply list_elem_of_In, in_or_app. right.
        simpl. left. unfold nn. lia. }
      apply in_split in Hnn as (l1 & l2 & Hsplit).
      rewrite Hsplit in Hsh5.
      replace (block + sz + 16) with (nn - 16) by (unfold nn; lia).
      eapply wpx_unlink; [exact Hsh5|]. intros lo' s6 Hsh6.
      split; [repeat split|]. split.
      * subst s6 lo'. simpl. fold m lo. fold m4.
        apply frame_unlinked; [apply frame_tagged; [exact Hfr4|..]|..].
        -- unfold A. rewrite Hlist3. eapply free_region_clear with (m := m).
           ++ rewrite <- Hlist3. exact Htags0.
           ++ fold B pblk. lia.
           ++ fold B pblk. lia.
        -- unfold A. replace (P ++ (sz, false) :: (nsz, false) :: R')
             with ((P ++ [(sz, false)]) ++ (nsz, false) :: R')
             by (rewrite <- app_assoc; reflexivity).
           eapply free_region_clear with (m := m).
           ++ rewrite <- app_assoc. exact Htags0.
           ++ rewrite span_app. simpl. fold B block. unfold pblk. lia.
           ++ rewrite span_app. simpl. fold B block. unfold pblk. lia.
        -- apply Hnode. rewrite Hsplit. apply in_cons_app_l. apply in_cons_app_l.
           apply in_cons_app_l, last_in.
        -- apply Hnode. rewrite Hsplit.
           pose proof (hd_in (lo + 16) l2) as Hx. revert Hx.
           generalize (hd (lo + 16) l2). intros x Hx.
           right. rewrite !in_app_iff in *. simpl in *. tauto.
      * exists (P' ++ (psz + sz + 16 + nsz + 16, false) :: R'), (l1 ++ l2).
        split; [|split].
        -- split; [exact Hsh6|]. change (heap_base s6) with B.
           rewrite frees_merge. fold pblk.
           rewrite Hsplit, HPeq, frees_app in Hfl0. simpl in Hfl0. fold pblk in Hfl0.
           replace (block + sz + 16 + 16) with nn in Hfl0 by (unfold nn; lia).
           apply perm_drop in Hfl0. rewrite <- app_assoc in Hfl0. simpl in Hfl0.
           replace (pblk + (psz + sz + 16) + 16 + nsz + 16)
             with (block + sz + 16 + nsz + 16) by (unfold block; lia).
           exact Hfl0.
        -- unfold A. rewrite Hlist3, allocs_merge, !ix_allocs_app. simpl.
           do 2 f_equal. lia.
        -- exists P', R', (psz + sz + 16 + nsz + 16), (l1 ++ l2).
           split; [reflexivity|]. split; [simpl; lia|]. split.
           ++ right. exists nsz, l1, l2. split; [reflexivity|]. split; [|reflexivity].
              rewrite Hsplit. unfold nn, block. do 2 f_equal.
           ++ right. exists psz. auto.
Qed.

Lemma frame_trans A m1 m2 m3 : frame A m1 m2 -> frame A m2 m3 -> frame A m1 m3.
Proof. intros H1 H2 p sz a Hin Ha. rewrite (H2 p sz a Hin Ha). exact (H1 p sz a Hin Ha). Qed.

Lemma clear_of_incl A A' a :
  clear_of A a -> (forall x, In x A' -> In x A) -> clear_of A' a.
Proof. intros H Hi p z Hin. apply H, Hi, Hin. Qed.

Lemma mm_free_null E (s : st) : wpx E (mm_free NULL) (fun _ s' => s' = s) s.
Proof. unfold mm_free. simpl. apply wpx_ret. reflexivity. Qed.

Lemma ix_mm_free_spec E s P sz R fl :
  heap_ok s (P ++ (sz, true) :: R) fl -> 16 <= sz ->
  wpx E (mm_free (heap_base s + span P + 16)) (fun _ s' => free_post s P sz R fl s') s.
Proof.
  intros Hok Hsz.
  pose proof Hok as [Hsh Hperm].
  pose proof (shape_bounded _ _ _ Hsh) as Hbd.
  destruct (shape_span _ _ _ Hsh) as (S1 & S2 & S3 & S4 & S5 & S6).
  pose proof Hsh as [Hla Hlo Hhi Hbh Hhead Htail Hpro Htags Hepi Hbrk Hlist Hnds Hnodup].
  pose proof Htags as Htags0.
  apply tags_app in Htags as [HP HR]. simpl in HR.
  destruct HR as (T0 & T1 & T2 & T3 & _ & T5).
  pose proof (tags_span _ _ _ HP) as [HsP HmP]. pose proof (tags_span _ _ _ T5) as [HsR HmR].
  rewrite span_app in S3. simpl in S3.
  pose proof (ix_heap_base_eq s) as Hb.
  set (B := heap_base s) in *.
  set (block := B + span P) in *.
  set (m := bytes (hp s)) in *.
  set (lo := mem_start_brk (hp s)) in *.
  set (n := block + 16) in *.
  set (A := allocs B P ++ allocs (B + span P + sz + 16) R).
  set (bs1 := P ++ (sz, false) :: R).
  assert (HA : allocs B bs1 = A).
  { unfold bs1, A. rewrite ix_allocs_app. reflexivity. }
  assert (HA0 : forall x, In x A -> In x (allocs B (P ++ (sz, true) :: R))).
  { intros x Hx. rewrite ix_allocs_app. simpl. unfold A in Hx. rewrite !in_app_iff in *.
    simpl. tauto. }
  assert (Hnode : forall x, In x (lo :: fl ++ [lo + 16]) ->
            clear_of A x /\ clear_of A (x + 8)).
  { intros x Hx. destruct (node_clear _ _ _ _ Hok Hx) as [H1 H2].
    split; eapply clear_of_incl; eauto. }
  unfold free_post. fold B m A.
  unfold mm_free. replace (B + span P + 16) with n by (unfold n, block; lia).
  destruct (Z.eqb_spec n NULL) as [Hn|_]; [unfold NULL, n in Hn; lia|].
  unfold block_from_payload, off_payload. rewrite (wrap_small (n - 16)) by (unfold n; lia).
  replace (n - 16) with block by (unfold n; lia).
  apply wpx_bind. eapply ix_wpx_get_size; [exact Hbd|apply in_heap_true; lia|exact T0|exact T3|].
  apply wpx_bind, wpx_set_boundaries; [exact Hbd|apply in_heap_true; lia|lia|
                                       apply in_heap_true; lia|].
  fold m. fold (tagged m block sz false). set (m1 := tagged m block sz false).
  assert (Htags1 : tags m1 B bs1).
  { apply tags_retag with (al := true); [exact Htags0|intros _; lia|lia]. }
  assert (Hsh1 : shape (with_bytes s m1) bs1 fl).
  { destruct (is_tag_here B P sz false R) as [I1 I2].
    apply shape_tagged with (bs := P ++ (sz, true) :: R).
    - exact Hsh.
    - unfold bs1. rewrite !span_app. reflexivity.
    - lia.
    - exact I1.
    - exact I2.
    - exact Htags1.
    - apply Forall_forall. intros x Hx%list_elem_of_In.
      apply in_payload_flag with (al := true).
      exact (proj2 (Forall_In_Z _ _ _ Hnds Hx)). }
  assert (Hnin : ~ In n fl).
  { intros Hin. apply list_elem_of_In in Hin. rewrite Hperm in Hin.
    apply list_elem_of_In in Hin.
    destruct (frees_around _ _ _ _ _ _ _ Htags0 Hin) as [H|[[H _]|H]];
      [fold B block in H; unfold n in H; lia|discriminate|
       fold B block in H; unfold n in H; lia]. }
  apply wpx_bind. replace block with (n - 16) at 1 by (unfold n; lia).
  assert (Hnm : n mod 16 = 0) by (unfold n, block; lia).
  eapply wpx_link; [exact Hsh1|exact Hnm| |exact Hnin|].
  { change (heap_base (with_bytes s m1)) with B.
    unfold bs1. apply in_payload_app. right. simpl. left. fold block. unfold n. lia. }
  intros lo' s2 Hsh2.
  set (tp := List.last fl lo).
  set (m2 := linked m1 tp n (lo + 16)).
  assert (Hs2 : s2 = with_bytes s m2) by reflexivity.
  clearbody s2. subst s2. clear lo'.
  assert (Hok2 : heap_ok (with_bytes s m2) bs1 (fl ++ [n])).
  { split; [exact Hsh2|]. change (heap_base (with_bytes s m2)) with B.
    unfold bs1. rewrite frees_app. simpl. fold block n.
    rewrite frees_app in Hperm. simpl in Hperm. fold block in Hperm.
    rewrite <- Permutation_cons_append, <- Permutation_middle. constructor. exact Hperm. }
  assert (Hfr2 : frame A m m2).
  { assert (Hreg : forall a, block + 8 <= a -> a + 8 <= block + sz + 24 -> clear_of A a).
    { intros a H1 H2. rewrite <- HA. eapply free_region_clear; [exact Htags1|exact H1|exact H2]. }
    unfold m2, m1. apply frame_linked; [apply frame_tagged; [apply ix_frame_refl|..]|..].
    - apply Hreg; lia.
    - apply Hreg; lia.
    - apply Hreg; unfold n; lia.
    - apply Hreg; unfold n; lia.
    - apply Hnode. apply in_cons_app_l, last_in.
    - apply Hnode. apply in_cons_app_r. now left. }
  assert (Hbd2 : bounded (with_bytes s m2)) by now apply bounded_with_bytes.
  assert (Hco : wpx E (coalesce block)
    (fun (_ : unit) s' => kept s s' /\ frame A m (bytes (hp s')) /\
       exists bs' fl', heap_ok s' bs' fl' /\ allocs B bs' = A /\
                       merged_into B P sz R fl bs' fl') (with_bytes s m2)).
  { eapply wpx_mono; [exact (coalesce_spec E _ _ _ _ _ Hok2)|].
    intros _ s' (K & F & bs' & fl' & H1 & H2 & H3).
    split; [|split].
    - eapply ix_kept_trans; [apply kept_with_bytes|exact K].
    - eapply frame_trans; [exact Hfr2|]. fold bs1 in F. rewrite <- HA. exact F.
    - exists bs', fl'. split; [exact H1|]. split; [|exact H3].
      etransitivity; [exact H2|exact HA]. }
  pose proof Hsh2 as [_ _ _ _ _ _ Hpro2 Htags2 Hepi2 _ _ _ _].
  change (heap_base (with_bytes s m2)) with B in Hpro2, Htags2, Hepi2.
  change (bytes (hp (with_bytes s m2))) with m2 in Hpro2, Htags2, Hepi2.
  destruct (prev_footer _ _ _ _ _ Htags2 Hpro2) as (psz & pal & F1 & F2 & F3 & F4).
  destruct (next_header _ _ _ _ _ _ Htags2 Hepi2) as (nsz & nal & N1 & N2 & N3 & N4).
  fold block in F1, N1.
  pose proof Htags2 as Htags2'. apply tags_app in Htags2' as [_ HR2]. simpl in HR2.
  destruct HR2 as (W0 & _). fold block in W0.
  apply wpx_bind.
  eapply wpx_is_prev_allocated; [exact Hbd2|apply in_heap_true; simpl; lia|exact F1|exact F2|].
  destruct pal; simpl negb; cbv iota.
  - apply wpx_bind, wpx_bind.
    eapply wpx_is_next_allocated; [exact Hbd2|apply in_heap_true; simpl; lia|exact W0|
      exact T3|lia|apply in_heap_true; simpl; lia|exact N1|exact N2|].
    apply wpx_ret.
    destruct (if nsz =? 0 then true else nal) eqn:Hna; simpl negb; cbv iota.
    + apply wpx_ret. split; [repeat split|]. split; [exact Hfr2|].
      exists bs1, (fl ++ [n]). split; [exact Hok2|]. split; [exact HA|].
      exists P, R, sz, fl. split; [reflexivity|]. split; [lia|]. split.
      * left. auto.
      * left. auto.
    + exact Hco.
  - apply wpx_bind, wpx_ret. exact Hco.
Qed.

(** Bytes written inside the payload of an allocated block leave the heap
    what it was. *)
Lemma ix_heap_ok_write_payload s P sz R fl a l :
  heap_ok s (P ++ (sz, true) :: R) fl ->
  heap_base s + span P + 16 <= a ->
  a + Z.of_nat (length l) <= heap_base s + span P + 16 + sz ->
  heap_ok (with_bytes s (write_bytes (bytes (hp s)) a l)) (P ++ (sz, true) :: R) fl.
Proof.
  intros Hok Ha Hl. pose proof Hok as [Hsh Hperm].
  destruct (shape_span _ _ _ Hsh) as (S1 & S2 & S3 & S4 & S5 & S6).
  pose proof Hsh as [Hla Hlo Hhi Hbh Hhead Htail Hpro Htags Hepi Hbrk Hlist Hnds Hnodup].
  pose proof Htags as Htags0.
  apply tags_app in Htags as [HP HR]. simpl in HR.
  destruct HR as (T0 & T1 & T2 & T3 & T4 & T5).
  pose proof (tags_span _ _ _ HP) as [HsP HmP]. pose proof (tags_span _ _ _ T5) as [HsR HmR].
  rewrite span_app in S3, Hepi. simpl in S3, Hepi.
  pose proof (ix_heap_base_eq s) as Hb.
  split; [|exact Hperm].
  constructor; try assumption.
  - norm. rewrite load64_write_bytes_out by lia. exact Hpro.
  - norm.
    apply tags_app. split.
    + apply tags_write_bytes_out; [lia|exact HP].
    + simpl. rewrite !load64_write_bytes_out by lia.
      split; [exact T0|]. split; [exact T1|]. split; [exact T2|]. split; [exact T3|].
      split; [exact T4|]. apply tags_write_bytes_out; [lia|exact T5].
  - norm. rewrite span_app. simpl span.
    rewrite load64_write_bytes_out by lia. exact Hepi.
  - norm. apply dseg_write_bytes_out; [|exact Hlist].
    intros x Hx.
    change (In x (mem_start_brk (hp s) :: fl ++ [mem_start_brk (hp s) + 16])) in Hx.
    destruct (shape_any_node _ _ _ _ Hsh Hx) as (_ & _ & [Hc|Hc]); [lia|].
    destruct Hx as [Hx|Hx]; [lia|]. apply in_app_or in Hx as [Hx|[Hx|[]]]; [|lia].
    pose proof (heap_ok_free_node _ _ _ _ Hok Hx) as Hf.
    destruct (frees_around _ _ _ _ _ _ _ Htags0 Hf) as [H|[[H _]|H]];
      [lia|discriminate|lia].
Qed.

(** An allocated block does not appear twice. *)
Lemma allocs_unique m B bs p z z' :
  tags m B bs -> In (p, z) (allocs B bs) -> In (p, z') (allocs B bs) -> z = z'.
Proof.
  intros Ht H1 H2.
  pose proof (ix_allocs_inside _ _ _ _ _ Ht H1) as I1.
  pose proof (ix_allocs_inside _ _ _ _ _ Ht H2) as I2.
  destruct (ix_allocs_split _ _ _ _ H1) as (P & R & -> & Hp).
  destruct (ix_allocs_around _ _ _ _ _ _ _ _ Ht H2) as [H|[(_ & _ & H)|H]];
    [lia|congruence|lia].
Qed.


Lemma ix_mm_realloc_spec (E : Prop) fuel size s P osz R fl :
  heap_ok s (P ++ (osz, true) :: R) fl -> 16 <= osz ->
  0 < size -> size + 15 < 2 ^ 64 ->
  E \/ (length fl < fuel)%nat ->
  E \/ mem_brk (hp s) + required size + 16 <= mem_max_addr (hp s) ->
  wpx E (mm_realloc fuel (heap_base s + span P + 16) size)
    (realloc_post s P osz R size) s.
Proof.
  intros Hok Hosz Hs0 Hs1 HE2 HE3.
  destruct (ix_required_spec size ltac:(lia) Hs1) as (Hrm & Hrb & Hr16).
  pose proof Hok as [Hsh Hperm].
  pose proof (shape_bounded _ _ _ Hsh) as Hbd.
  destruct (shape_span _ _ _ Hsh) as (S1 & S2 & S3 & S4 & S5 & S6).
  pose proof Hsh as [Hla Hlo Hhi Hbh Hhead Htail Hpro Htags Hepi Hbrk Hlist Hnds Hnodup].
  pose proof Htags as Htags0.
  apply tags_app in Htags as [HP HR]. simpl in HR.
  destruct HR as (T0 & T1 & T2 & T3 & T4 & T5).
  pose proof (tags_span _ _ _ HP) as [HsP HmP]. pose proof (tags_span _ _ _ T5) as [HsR HmR].
  rewrite span_app in S3. simpl in S3.
  pose proof (ix_heap_base_eq s) as Hb.
  set (B := heap_base s) in *.
  set (old := B + span P + 16) in *.
  set (bs := P ++ (osz, true) :: R) in *.
  set (m := bytes (hp s)) in *.
  assert (Hold : In (old, osz) (allocs B bs)).
  { unfold bs. rewrite ix_allocs_app. apply in_or_app. right. simpl. now left. }
  unfold mm_realloc.
  destruct (Z.eqb_spec old NULL) as [Hx|_]; [unfold NULL, old in Hx; lia|].
  destruct (Z.eqb_spec size 0) as [Hx|_]; [lia|].
  apply wpx_bind. eapply wpx_mono.
  { apply ix_mm_malloc_spec with (bs := bs) (fl := fl); auto. lia. }
  intros r s1 (K1 & K2 & K3 & K4 & Hfr & Hcase).
  assert (Hbase : heap_base s1 = B) by (unfold B; rewrite !ix_heap_base_eq; lia).
  unfold block_from_payload, off_payload. rewrite (wrap_small (old - 16)) by (unfold old; lia).
  destruct Hcase as [(-> & Hok1 & Hm1 & Hfull & _)|[Ht _]].
  - (* no new block: the copy is to the null pointer *)
    destruct HE3 as [HE|HE]; [|lia].
    pose proof Hok1 as [Hsh1 _].
    apply wpx_bind.
    eapply ix_wpx_get_size with (sz := osz) (al := true);
      [exact (shape_bounded _ _ _ Hsh1)|apply in_heap_true; unfold old; lia|
       rewrite Hm1; fold m; replace (old - 16 + 8) with (B + span P + 8) by (unfold old; lia);
       exact T0|exact T3|].
    apply wpx_bind, wpx_memcpy_fault; [exact HE|destruct (osz <? size); lia|].
    unfold in_heap, NULL. apply andb_false_intro1. apply Z.leb_gt. lia.
  - destruct Ht as (P1 & R1 & nsz & fl1 & Hok1 & Hr & HA & Hreq).
    rewrite Hbase in Hr, HA. fold B m in Hfr. fold B in HA.
    set (bs1 := P1 ++ (nsz, true) :: R1) in *.
    pose proof Hok1 as [Hsh1 Hperm1].
    pose proof (shape_bounded _ _ _ Hsh1) as Hbd1.
    destruct (shape_span _ _ _ Hsh1) as (Q1 & Q2 & Q3 & Q4 & Q5 & Q6).
    pose proof Hsh1 as [_ _ _ _ _ _ _ Htags1 _ _ _ _ _]. rewrite Hbase in Htags1.
    set (m1 := bytes (hp s1)) in *.
    pose proof Htags1 as Htags1'. apply tags_app in Htags1' as [HP1 HR1]. simpl in HR1.
    destruct HR1 as (U0 & U1 & U2 & U3 & U4 & U5).
    pose proof (tags_span _ _ _ HP1) as [HsP1 HmP1].
    pose proof (tags_span _ _ _ U5) as [HsR1 HmR1].
    unfold bs1 in Q3. rewrite span_app in Q3. simpl in Q3.
    assert (Hin1 : forall b z, In (b, z) (allocs B bs) -> In (b, z) (allocs B bs1) /\ b <> r).
    { intros b z Hin. rewrite HA in Hin. unfold bs1. rewrite ix_allocs_app. simpl.
      apply in_app_or in Hin as [Hin|Hin].
      - split; [apply in_or_app; now left|].
        eapply ix_allocs_inside in Hin; [|exact HP1]. lia.
      - split; [apply in_or_app; right; now right|].
        eapply ix_allocs_inside in Hin; [|exact U5]. lia. }
    destruct (Hin1 _ _ Hold) as [Hold1 Hne].
    destruct (ix_allocs_split _ _ _ _ Hold1) as (Po & Ro & Hbs1 & Hpo).
    pose proof Htags1 as Htags1o. rewrite Hbs1 in Htags1o.
    apply tags_app in Htags1o as [HPo HRo]. simpl in HRo.
    destruct HRo as (V0 & V1 & V2 & V3 & V4 & V5).
    pose proof (tags_span _ _ _ HPo) as [HsPo HmPo].
    pose proof (tags_span _ _ _ V5) as [HsRo HmRo].
    assert (Hspan1 : span bs1 = span Po + (osz + 16 + span Ro)).
    { rewrite Hbs1, span_app. reflexivity. }
    assert (Hspan1' : span bs1 = span P1 + (nsz + 16 + span R1)).
    { unfold bs1. rewrite span_app. reflexivity. }
    apply wpx_bind.
    eapply ix_wpx_get_size with (sz := osz) (al := true);
      [exact Hbd1|apply in_heap_true; lia|
       fold m1; replace (old - 16 + 8) with (B + span Po + 8) by lia; exact V0|exact T3|].
    set (c := if osz <? size then osz else size).
    assert (Hc : 0 < c /\ c <= osz /\ c <= size /\ c = Z.min osz size).
    { unfold c. destruct (Z.ltb_spec osz size); lia. }
    clearbody c.
    apply wpx_bind, wpx_memcpy; [lia|apply in_heap_true; lia|apply in_heap_true; lia|].
    fold m1. set (m2 := write_bytes m1 r (read_bytes (Z.to_nat c) m1 old)).
    change (mkState (set_bytes (hp s1) m2) (gl s1)) with (with_bytes s1 m2).
    assert (Hok2 : heap_ok (with_bytes s1 m2) (Po ++ (osz, true) :: Ro) fl1).
    { rewrite <- Hbs1.
      apply ix_heap_ok_write_payload; [exact Hok1|lia|rewrite length_read_bytes; lia]. }
    apply wpx_bind. eapply wpx_mono.
    { replace old with (heap_base (with_bytes s1 m2) + span Po + 16)
        by (rewrite heap_base_with_bytes; lia).
      exact (ix_mm_free_spec E _ _ _ _ _ Hok2 Hosz). }
    intros [] s3 ((G1 & G2 & G3 & G4) & Hfr3 & bs' & fl' & Hok3 & HA3 & _).
    rewrite heap_base_with_bytes, Hbase in Hfr3, HA3. rewrite with_bytes_bytes in Hfr3.
    simpl in G1, G2, G3, G4.
    apply wpx_ret. unfold realloc_post. fold B old bs m.
    assert (Hkeep : forall b z, In (b, z) (allocs B bs1) -> b <> old ->
              In (b, z) (allocs B bs')).
    { intros b z Hin Hb'. rewrite HA3. rewrite Hbs1, ix_allocs_app in Hin. simpl in Hin.
      apply in_app_or in Hin as [Hin|[Hin|Hin]].
      - apply in_or_app. now left.
      - injection Hin as Hx _. lia.
      - apply in_or_app. now right. }
    assert (Hrin : In (r, nsz) (allocs B bs')).
    { apply Hkeep; [|congruence]. unfold bs1. rewrite ix_allocs_app. apply in_or_app. right.
      simpl. left. f_equal. lia. }
    split; [lia|]. split; [lia|]. split; [congruence|].
    split; [unfold NULL; lia|]. split; [congruence|].
    exists bs', fl', nsz. split; [exact Hok3|]. split; [exact Hrin|]. split; [lia|].
    split; [|split].
    + intros z Hin. rewrite HA3 in Hin. apply in_app_or in Hin as [Hin|Hin].
      * eapply ix_allocs_inside in Hin; [|exact HPo]. lia.
      * eapply ix_allocs_inside in Hin; [|exact V5]. lia.
    + intros b z Hin Hb'. apply Hkeep; [|exact Hb']. now apply Hin1.
    + intros i Hi.
      rewrite (Hfr3 r nsz (r + i)); [|rewrite <- HA3; exact Hrin|lia].
      unfold m2. replace i with (Z.of_nat (Z.to_nat i)) at 1 by lia.
      rewrite load8_write_bytes_in
        with (x := load8 m1 (old + Z.of_nat (Z.to_nat i))).
      * rewrite Z.mod_small by apply load8_range.
        replace (Z.of_nat (Z.to_nat i)) with i by lia.
        apply (Hfr old osz); [exact Hold|lia].
      * apply read_bytes_lookup. lia.
Qed.

Lemma ix_mm_calloc_spec (E : Prop) fuel nmemb size s bs fl :
  heap_ok s bs fl -> wrap (nmemb * size) + 15 < 2 ^ 64 ->
  E \/ 0 < wrap (nmemb * size) \/ fl = [] ->
  E \/ (length fl < fuel)%nat ->
  E \/ mem_brk (hp s) + required (wrap (nmemb * size)) + 16 <= mem_max_addr (hp s) ->
  wpx E (mm_calloc fuel nmemb size) (calloc_post s bs fl (wrap (nmemb * size))) s.
Proof.
  intros Hok Hs1 HE1 HE2 HE3. unfold mm_calloc.
  pose proof (wrap_range (nmemb * size)) as Hw.
  set (n := wrap (nmemb * size)) in *.
  destruct (ix_required_spec n ltac:(lia) Hs1) as (Hrm & Hrb & Hr16).
  apply wpx_bind. eapply wpx_mono.
  { apply ix_mm_malloc_spec with (bs := bs) (fl := fl); auto. lia. }
  intros r s1 (K1 & K2 & K3 & K4 & Hfr & Hcase).
  destruct Hcase as [(-> & Hok1 & Hm1 & _)|[Htook _]].
  { simpl. apply wpx_bind, wpx_ret, wpx_ret. unfold calloc_post. auto 10. }
  pose proof Htook as (P & R & nsz & fl1 & Hok1 & Hr & HA & Hnsz).
  pose proof Hok1 as [Hsh1 _].
  destruct (shape_span _ _ _ Hsh1) as (Q1 & Q2 & Q3 & Q4 & Q5 & Q6).
  pose proof Hsh1 as [_ _ _ _ _ _ _ Htags1 _ _ _ _ _].
  apply tags_app in Htags1 as [HP1 HR1]. simpl in HR1.
  destruct HR1 as (_ & _ & _ & _ & _ & U5).
  pose proof (tags_span _ _ _ HP1) as [HsP1 _].
  pose proof (tags_span _ _ _ U5) as [HsR1 _].
  rewrite span_app in Q3. simpl in Q3.
  pose proof (ix_heap_base_eq s1) as Hb1.
  destruct (Z.eqb_spec r NULL) as [Hx|Hrnn]; [unfold NULL in Hx; lia|].
  simpl negb. apply wpx_bind.
  destruct (Z.eq_dec n 0) as [Hn0|Hn0].
  { rewrite Hn0. apply wpx_memset_0, wpx_ret. unfold calloc_post.
    split; [exact K1|]. split; [exact K2|]. split; [exact K3|]. right.
    split; [now rewrite Hn0 in Htook|]. intros i Hi. lia. }
  apply wpx_memset; [exact Hn0|apply in_heap_true; lia|]. apply wpx_ret.
  set (zs := replicate (Z.to_nat n) 0).
  assert (Hlen : Z.of_nat (length zs) = n).
  { unfold zs. rewrite length_replicate. lia. }
  unfold calloc_post. cbn [hp gl bytes mem_brk mem_start_brk mem_max_addr set_bytes].
  split; [exact K1|]. split; [exact K2|]. split; [exact K3|]. right. split.
  - exists P, R, nsz, fl1. split; [|split; [exact Hr|split; [exact HA|exact Hnsz]]].
    apply (ix_heap_ok_write_payload s1); [exact Hok1|lia|lia].
  - intros i Hi.
    replace i with (Z.of_nat (Z.to_nat i)) by lia.
    erewrite load8_write_bytes_in.
    2:{ unfold zs. apply lookup_replicate_2. lia. }
    reflexivity.
Qed.

Lemma mm_init_wp lo hi :
  lo mod 16 = 0 -> 16 <= lo -> hi < 2 ^ 64 - 1 ->
  wpx False mm_init
    (fun r s => r = true ->
       heap_ok s [] [] /\ mem_start_brk (hp s) = lo /\ mem_max_addr (hp s) = hi /\
       mem_brk (hp s) = lo + 48)
    (fresh lo hi).
Proof.
  intros Hla Hlo Hhi. unfold mm_init, ALIGNMENT, sizeof_size_t, off_prev, off_next.
  apply wpx_bind, wpx_sbrk; cbn [fresh hp gl mem_init mem_brk mem_max_addr mem_start_brk bytes].
  2:{ intros Hfull. apply wpx_bind, wpx_get_gl, wpx_bind, wpx_put_gl.
      apply wpx_bind, wpx_sbrk; intros _; apply wpx_bind, wpx_get_gl, wpx_bind, wpx_put_gl;
        rewrite Z.eqb_refl; simpl; apply wpx_ret; discriminate. }
  intros Hroom1. apply wpx_bind, wpx_get_gl, wpx_bind, wpx_put_gl.
  cbn [fresh hp gl mem_init mem_brk mem_max_addr mem_start_brk bytes head tail].
  apply wpx_bind, wpx_sbrk;
    cbn [fresh hp gl mem_init mem_brk mem_max_addr mem_start_brk bytes head tail].
  2:{ intros Hfull. apply wpx_bind, wpx_get_gl, wpx_bind, wpx_put_gl.
      rewrite Z.eqb_refl, orb_true_r. apply wpx_ret. discriminate. }
  intros Hroom2. apply wpx_bind, wpx_get_gl, wpx_bind, wpx_put_gl.
  cbn [fresh hp gl mem_init mem_brk mem_max_addr mem_start_brk bytes head tail].
  destruct (Z.eqb_spec lo SBRK_FAILED) as [Hx|_]; [unfold SBRK_FAILED in Hx; lia|].
  destruct (Z.eqb_spec (lo + 16) SBRK_FAILED) as [Hx|_]; [unfold SBRK_FAILED in Hx; lia|].
  cbn [orb]. rewrite !Z.add_0_r.
  rewrite (wrap_small lo), (wrap_small (lo + 8)), (wrap_small (lo + 16)),
    (wrap_small (lo + 16 + 8)) by lia.
  do 4 (apply wpx_bind, wpx_store; [apply in_heap_true; simpl; lia|];
        cbn [hp gl mem_brk mem_max_addr mem_start_brk bytes set_bytes]).
  apply wpx_bind, wpx_sbrk;
    cbn [hp gl mem_brk mem_max_addr mem_start_brk bytes set_bytes].
  2:{ intros Hfull. apply wpx_bind, wpx_sbrk; intros _; rewrite Z.eqb_refl; simpl;
        apply wpx_ret; discriminate. }
  intros Hroom3. apply wpx_bind, wpx_sbrk;
    cbn [hp gl mem_brk mem_max_addr mem_start_brk bytes set_bytes].
  2:{ intros Hfull. rewrite Z.eqb_refl, orb_true_r. apply wpx_ret. discriminate. }
  intros Hroom4.
  destruct (Z.eqb_spec (lo + 16 + 16) SBRK_FAILED) as [Hx|_]; [unfold SBRK_FAILED in Hx; lia|].
  destruct (Z.eqb_spec (lo + 16 + 16 + 8) SBRK_FAILED) as [Hx|_];
    [unfold SBRK_FAILED in Hx; lia|].
  cbn [orb]. change (Z.lor 0 1) with 1.
  do 2 (apply wpx_bind, wpx_store; [apply in_heap_true; simpl; lia|];
        cbn [hp gl mem_brk mem_max_addr mem_start_brk bytes set_bytes]).
  apply wpx_ret. intros _.
  cbn [hp gl mem_brk mem_max_addr mem_start_brk bytes set_bytes].
  split; [|split; [reflexivity|split; [reflexivity|lia]]].
  split; [|reflexivity].
  constructor; unfold heap_base;
    cbn [hp gl mem_brk mem_max_addr mem_start_brk bytes set_bytes head tail span fold_right];
    try assumption; try lia; try reflexivity.
  - replace (lo + 32) with (lo + 16 + 16) by lia.
    rewrite load64_store64_ne by lia. apply load64_store64_eq. lia.
  - replace (lo + 32 + 0 + 8) with (lo + 16 + 16 + 8) by lia. apply load64_store64_eq. lia.
  - simpl. unfold NULL. split.
    + rewrite !load64_store64_ne by lia. apply load64_store64_eq. lia.
    + rewrite !load64_store64_ne by lia. apply load64_store64_eq. lia.
  - constructor.
  - constructor.
Qed.

Lemma ix_mm_init_spec lo hi s :
  lo mod 16 = 0 -> 16 <= lo -> hi < 2 ^ 64 - 1 ->
  mm_init (fresh lo hi) = Ok true s ->
  heap_ok s [] [] /\ mem_start_brk (hp s) = lo /\ mem_max_addr (hp s) = hi /\
  mem_brk (hp s) = lo + 48.
Proof.
  intros Hla Hlo Hhi Hrun.
  exact (wpx_elim _ _ _ _ _ _ (mm_init_wp lo hi Hla Hlo Hhi) Hrun eq_refl).
Qed.

Lemma ix_aligned_of_alloc s bs fl p z :
  heap_ok s bs fl -> In (p, z) (allocs (heap_base s) bs) -> p mod 16 = 0 /\ p <> NULL.
Proof.
  intros [Hsh _] Hin.
  pose proof Hsh as [Hla Hlo Hhi Hbh Hhead Htail Hpro Htags Hepi Hbrk Hlist Hnds Hnodup].
  eapply ix_allocs_inside in Hin; [|exact Htags]. rewrite ix_heap_base_eq in Hin.
  unfold NULL. lia.
Qed.

Lemma ix_took_allocs A0 req r s' :
  took A0 req r s' ->
  exists bs' fl' sz, heap_ok s' bs' fl' /\ In (r, sz) (allocs (heap_base s') bs') /\
    req <= sz /\
    forall x, In x A0 -> In x (allocs (heap_base s') bs').
Proof.
  intros (P & R & sz & fl' & Hok & Hr & HA & Hn).
  exists (P ++ (sz, true) :: R), fl', sz. split; [exact Hok|].
  rewrite ix_allocs_app. simpl. split; [|split; [exact Hn|]].
  - apply in_or_app. right. left. f_equal. lia.
  - intros x Hin. rewrite HA in Hin.
    apply in_app_or in Hin as [Hi|Hi]; apply in_or_app; [left|right; right]; exact Hi.
Qed.

Lemma ix_holds_gained (L : gset Z) s s' bs size r :
  heap_base s' = heap_base s ->
  (forall p, p ∈ L -> exists sz, In (p, sz) (allocs (heap_base s) bs) /\ 16 <= sz) ->
  0 <= size -> size + 15 < 2 ^ 64 ->
  took (allocs (heap_base s) bs) (required size) r s' ->
  holds s' (gained L size r) /\ r mod 16 = 0.
Proof.
  intros Hb HL Hs0 Hs1 Ht.
  destruct (ix_required_spec size Hs0 Hs1) as (_ & _ & Hr16).
  destruct (ix_took_allocs _ _ _ _ Ht) as (bs' & fl' & sz & Hok & Hin & Hreq & Hsub).
  split; [|eapply ix_aligned_of_alloc; eauto].
  exists bs', fl'. split; [exact Hok|]. intros p Hp. unfold gained in Hp.
  assert (Hold : p ∈ L -> exists z, In (p, z) (allocs (heap_base s') bs') /\ 16 <= z).
  { intros Hp'. destruct (HL p Hp') as (z & Hz & Hz16). exists z. split; [|exact Hz16].
    now apply Hsub. }
  destruct (Z.eqb_spec r NULL); simpl in Hp; [auto|].
  destruct (Z.eqb_spec size 0); simpl in Hp; [auto|].
  apply elem_of_union in Hp as [Hp|Hp]; [auto|].
  apply elem_of_singleton in Hp. subst p. exists sz. split; [exact Hin|lia].
Qed.

Lemma holds_freed (L : gset Z) s s' P sz R fl ptr :
  ptr = heap_base s + span P + 16 ->
  (forall p, p ∈ L -> exists z, In (p, z) (allocs (heap_base s) (P ++ (sz, true) :: R)) /\
                                16 <= z) ->
  free_post s P sz R fl s' -> holds s' (L ∖ {[ptr]}).
Proof.
  intros Hptr HL ((K1 & K2 & K3 & K4) & _ & bs' & fl' & Hok' & HA & _).
  assert (Hb : heap_base s' = heap_base s) by (rewrite !ix_heap_base_eq; lia).
  exists bs', fl'. split; [exact Hok'|]. intros p Hp.
  apply elem_of_difference in Hp as [Hp1 Hp2].
  destruct (HL _ Hp1) as (z & Hz & Hz16). exists z. split; [|exact Hz16].
  rewrite Hb, HA. rewrite ix_allocs_app in Hz. simpl in Hz.
  apply in_app_or in Hz as [Hz|[Hz|Hz]].
  - apply in_or_app. now left.
  - exfalso. apply Hp2. apply elem_of_singleton. injection Hz as Hx _. lia.
  - apply in_or_app. now right.
Qed.

Lemma ix_step_holds fuel c s L :
  holds s L -> valid L c ->
  wpx True (run_call fuel c)
    (fun r s' => holds s' (live_after L c r) /\ (r <> NULL -> r mod 16 = 0)) s.
Proof.
  intros (bs & fl & Hok & HL) Hv.
  assert (Hmalloc : forall size, fits size ->
            wpx True (mm_malloc fuel size)
              (fun r s' => holds s' (gained L size r) /\ (r <> NULL -> r mod 16 = 0)) s).
  { intros size [Hv0 Hv1]. eapply wpx_mono.
    { apply ix_mm_malloc_spec with (bs := bs) (fl := fl); auto. }
    intros r s' (K1 & K2 & K3 & K4 & Hfr & [(-> & Hok' & _)|[Ht _]]).
    - split; [|congruence]. unfold gained. simpl. exists bs, fl. split; [exact Hok'|].
      replace (heap_base s') with (heap_base s) by (rewrite !ix_heap_base_eq; lia).
      exact HL.
    - assert (Hb : heap_base s' = heap_base s) by (rewrite !ix_heap_base_eq; lia).
      destruct (ix_holds_gained L _ _ _ _ _ Hb HL Hv0 Hv1 Ht). auto. }
  assert (Hfree : forall ptr, ptr ∈ L ->
            wpx True (mm_free ptr) (fun _ s' => holds s' (L ∖ {[ptr]})) s).
  { intros ptr Hp. destruct (HL _ Hp) as (sz & Hin & Hsz).
    destruct (ix_allocs_split _ _ _ _ Hin) as (P & R & -> & Hptr).
    rewrite Hptr at 1. eapply wpx_mono; [exact (ix_mm_free_spec True _ _ _ _ _ Hok Hsz)|].
    intros u s' Hpost. exact (holds_freed L s s' P sz R fl ptr Hptr HL Hpost). }
  destruct c as [size|ptr|ptr size|nmemb size]; simpl in *.
  - apply Hmalloc, Hv.
  - apply wpx_bind. destruct Hv as [->|Hp].
    + eapply wpx_mono; [apply mm_free_null|]. intros u s' ->. apply wpx_ret.
      split; [|congruence]. exists bs, fl. split; [exact Hok|]. intros p Hp. apply HL.
      now apply elem_of_difference in Hp as [Hp _].
    + eapply wpx_mono; [exact (Hfree _ Hp)|]. intros u s' H. apply wpx_ret. split; [exact H|].
      congruence.
  - destruct Hv as [Hp Hfit]. unfold mm_realloc.
    destruct (Z.eqb_spec ptr NULL) as [Hnull|Hnn]; [apply Hmalloc, Hfit|].
    destruct Hp as [Hp|Hp]; [contradiction|].
    destruct (Z.eqb_spec size 0) as [Hz|Hnz].
    { apply wpx_bind. eapply wpx_mono; [exact (Hfree _ Hp)|]. intros u s' H. apply wpx_ret.
      split; [exact H|congruence]. }
    destruct (HL _ Hp) as (sz & Hin & Hsz).
    destruct (ix_allocs_split _ _ _ _ Hin) as (P & R & -> & Hptr).
    destruct Hfit as [Hv0 Hv1].
    pose proof (ix_mm_realloc_spec True fuel size s P sz R fl Hok Hsz ltac:(lia) Hv1
                  ltac:(now left) ltac:(now left)) as Hspec.
    unfold mm_realloc in Hspec. rewrite <- Hptr in Hspec.
    destruct (Z.eqb_spec ptr NULL) as [|_]; [contradiction|].
    destruct (Z.eqb_spec size 0) as [|_]; [contradiction|].
    eapply wpx_mono; [exact Hspec|]. clear Hspec.
    intros r s' (K1 & K2 & K3 & Hrnn & Hrne & bs' & fl' & nsz & Hok' & Hrin & Hn & Hgone &
                 Hkeep & _).
    rewrite <- Hptr in Hrne, Hgone, Hkeep.
    assert (Hb : heap_base s' = heap_base s) by (rewrite !ix_heap_base_eq; lia).
    destruct (ix_required_spec size Hv0 Hv1) as (_ & _ & Hr16).
    split.
    + exists bs', fl'. split; [exact Hok'|]. rewrite Hb. intros p Hp'. unfold gained in Hp'.
      destruct (Z.eqb_spec r NULL); [contradiction|].
      destruct (Z.eqb_spec size 0); [contradiction|]. simpl in Hp'.
      apply elem_of_union in Hp' as [Hp'|Hp'].
      * apply elem_of_difference in Hp' as [Hp1 Hp2].
        destruct (HL _ Hp1) as (z & Hz & Hz16). exists z. split; [|exact Hz16].
        apply Hkeep; [exact Hz|]. intros ->. apply Hp2. now apply elem_of_singleton.
      * apply elem_of_singleton in Hp'. subst p. exists nsz. split; [exact Hrin|].
        rewrite <- Hb in Hrin. pose proof Hok' as [[_ _ _ _ _ _ _ Htags' _ _ _ _ _] _].
        eapply ix_allocs_inside in Hrin; [|exact Htags']. lia.
    + intros _. rewrite <- Hb in Hrin. eapply ix_aligned_of_alloc; eauto.
  - destruct Hv as [Hv0 Hv1]. eapply wpx_mono.
    { apply ix_mm_calloc_spec with (bs := bs) (fl := fl); auto. }
    intros r s' (K1 & K2 & K3 & [(-> & Hok' & _)|[Ht _]]).
    + split; [|congruence]. unfold gained. simpl. exists bs, fl. split; [exact Hok'|].
      replace (heap_base s') with (heap_base s) by (rewrite !ix_heap_base_eq; lia).
      exact HL.
    + assert (Hb : heap_base s' = heap_base s) by (rewrite !ix_heap_base_eq; lia).
      destruct (ix_holds_gained L _ _ _ _ _ Hb HL Hv0 Hv1 Ht). auto.
Qed.

Lemma ix_reach_holds s L : reach s L -> holds s L.
Proof.
  induction 1 as [lo hi s Hla Hlo Hhi Hinit|s L fuel c r s' Hr IH Hv Hrun].
  - destruct (ix_mm_init_spec lo hi s Hla Hlo Hhi Hinit) as (Hok & _).
    exists [], []. split; [exact Hok|]. intros p Hp. set_solver.
  - pose proof (ix_step_holds fuel c s L IH Hv) as Hw.
    apply (wpx_elim _ _ _ _ _ _ Hw Hrun).
Qed.




End ExplicitFacts.

(** *** The sample runs *)

Module RunFacts.
Import Mem Exec MemFacts ExecFacts.

Ltac not_in :=
  repeat (apply not_elem_of_cons; split; [discriminate|]); apply not_elem_of_nil.

Ltac heap_facts :=
  constructor; cbv beta iota; cbn [Implicit.chain]; run_facts.

Ltac list_heap_facts :=
  split; [constructor|]; cbv beta iota;
  cbn [Explicit.tags Explicit.dseg]; run_facts;
  cbn [Explicit.in_payload]; run_facts; try not_in.

Lemma scan_init_run :
  Implicit.mm_init (Implicit.fresh 1024 4096) = Ok true Implicit.after_init.
Proof. run_eq. Qed.

Lemma scan_init_ok : Implicit.heap_ok Implicit.after_init [].
Proof. heap_facts. Qed.


Lemma scan_one_block_ok : Implicit.heap_ok Implicit.after_one_block [(16, true)].
Proof. heap_facts. Qed.

Lemma scan_two_freed_run :
  Implicit.two_freed (Implicit.fresh 1024 1100) = Ok (1040, 1056) Implicit.after_two_freed.
Proof. run_eq. Qed.

Lemma scan_two_freed_ok :
  Implicit.heap_ok Implicit.after_two_freed [(16, false); (16, false)].
Proof. heap_facts. Qed.

Lemma scan_three_freed_run :
  Implicit.three_freed (Implicit.fresh 1024 4096) =
  Ok (1040, 1056, 1072) Implicit.after_three_freed.
Proof. run_eq. Qed.

Lemma scan_three_freed_ok :
  Implicit.heap_ok Implicit.after_three_freed [(16, false); (16, false); (16, false)].
Proof. heap_facts. Qed.

Lemma scan_lost_block_run :
  Implicit.lost_block (Implicit.fresh 1024 4096) =
  Ok (1040, 1056, 1040) Implicit.after_lost_block.
Proof. run_eq. Qed.

Lemma scan_lost_block_ok :
  Implicit.heap_ok Implicit.after_lost_block [(32, true); (32, false)].
Proof. heap_facts. Qed.

Lemma list_init_run :
  Explicit.mm_init (Explicit.fresh 1024 4096) = Ok true Explicit.after_init.
Proof. run_eq. Qed.

Lemma list_init_ok : Explicit.heap_ok Explicit.after_init [] [].
Proof. list_heap_facts. Qed.

Lemma list_one_block_run :
  Explicit.one_block (Explicit.fresh 1024 1104) = Ok 1072 Explicit.after_one_block.
Proof. run_eq. Qed.

Lemma list_one_block_ok : Explicit.heap_ok Explicit.after_one_block [(16, true)] [].
Proof. list_heap_facts. Qed.

Lemma list_one_block_roomy_run :
  Explicit.one_block (Explicit.fresh 1024 4096) = Ok 1072 Explicit.after_one_block_roomy.
Proof. run_eq. Qed.

Lemma list_one_block_roomy_ok :
  Explicit.heap_ok Explicit.after_one_block_roomy [(16, true)] [].
Proof. list_heap_facts. Qed.


Lemma list_two_frees_ok :
  Explicit.heap_ok Explicit.after_two_frees [(16 + 32 + 16, false)] [1072].
Proof. list_heap_facts. Qed.

Lemma list_sandwich_run :
  Explicit.sandwich (Explicit.fresh 1024 4096) =
  Ok (1072, 1104, 1136) Explicit.after_sandwich.
Proof. run_eq. Qed.

Lemma list_sandwich_ok :
  Explicit.heap_ok Explicit.after_sandwich [(16, false); (16, true); (16, false)]
    [1072; 1136].
Proof. list_heap_facts. Qed.

End RunFacts.

(** *** Further facts of the scanning allocator *)

Module ImplicitMore.
Import Mem Exec MemFacts ExecFacts Implicit ImplicitFacts.

(** The block [took] speaks of lies in the heap, apart from every block of
    [A0]. *)
Lemma took_block A0 req r s' :
  took A0 req r s' ->
  exists nsz, req <= nsz /\ 16 <= nsz /\
    heap_base s' + 8 <= r /\ r - 8 + nsz <= mem_brk (hp s') /\
    (exists bs', heap_ok s' bs' /\ In (r - 8, nsz) (allocs (heap_base s') bs') /\
       forall b z, In (b, z) A0 -> In (b, z) (allocs (heap_base s') bs')) /\
    forall b z, In (b, z) A0 -> b + z <= r - 8 \/ r - 8 + nsz <= b.
Proof.
  intros (P & R & sz & Hok & -> & -> & Hreq).
  pose proof Hok as [_ _ _ _ Hbrk Hch _].
  apply chain_app in Hch as [HP HR]. simpl in HR. destruct HR as (_ & H16 & _ & HR).
  pose proof (chain_total _ _ _ HP) as [HtP _].
  pose proof (chain_total _ _ _ HR) as [HtR _].
  rewrite total_app in Hbrk. simpl in Hbrk.
  exists sz. split; [exact Hreq|]. split; [exact H16|]. split; [lia|]. split; [lia|]. split.
  - exists (P ++ (sz, true) :: R). split; [exact Hok|]. rewrite allocs_app. simpl. split.
    + apply in_or_app. right. left. f_equal. lia.
    + intros b z Hin. apply in_app_or in Hin as [Hin|Hin]; apply in_or_app; [left|right; right];
        exact Hin.
  - intros b z Hin. apply in_app_or in Hin as [Hin|Hin].
    + destruct (allocs_inside _ _ _ _ _ HP Hin) as (_ & H & _). left. lia.
    + destruct (allocs_inside _ _ _ _ _ HR Hin) as (H & _). right. lia.
Qed.

(** [mm_free] does not look at the flag: given a block of the heap, in use
    or free, it stores the header with the flag cleared. *)
Lemma mm_free_any E s L1 sz al L2 :
  heap_ok s (L1 ++ (sz, al) :: L2) ->
  wpx E (mm_free (heap_base s + total L1 + 8))
    (fun _ s' => free_post s L1 sz L2 s') s.
Proof.
  intros Hok. pose proof Hok as Hok0.
  destruct Hok as [Hla Hlo Hhi Hbh Hbrk Hch Hfirst].
  assert (Hne : L1 ++ (sz, al) :: L2 <> []) by now destruct L1.
  destruct (heap_ok_nonempty _ _ Hok0 Hne) as [Hf Hl]. clear Hfirst.
  apply chain_app in Hch as [H1 H2]. simpl in H2. destruct H2 as (Hhd & H16 & Hm & H2).
  pose proof (chain_total _ _ _ H1) as [Ht1 _].
  pose proof (chain_total _ _ _ H2) as [Ht2 _].
  rewrite total_app in Hbrk. simpl in Hbrk.
  pose proof (heap_base_eq s) as Hb.
  unfold mm_free.
  destruct (Z.eqb_spec (heap_base s + total L1 + 8) NULL) as [Hx|_];
    [unfold NULL in Hx; lia|].
  unfold block_from_payload, sizeof_block_t.
  replace (heap_base s + total L1 + 8 - 8) with (heap_base s + total L1) by lia.
  rewrite wrap_small by lia.
  assert (Hin : in_heap (hp s) (heap_base s + total L1) 8 = true)
    by (apply in_heap_true; lia).
  apply wpx_bind. eapply wpx_get_size; [exact Hin|exact Hhd|exact Hm|].
  apply wpx_set_header; [exact Hin|].
  split; [|split; reflexivity].
  replace (gl s) with {| mm_heap_first := mm_heap_first (gl s);
                         mm_heap_last := mm_heap_last (gl s) |} by now destruct (gl s).
  eapply heap_ok_rebuild with (bs := L1 ++ (sz, al) :: L2); auto.
  - now destruct L1.
  - rewrite !total_app. reflexivity.
  - apply chain_app. split.
    + apply chain_store_out; [lia|]. exact H1.
    + simpl. split; [|split; [lia|split; [exact Hm|]]].
      * apply load64_store64_eq. apply encode_range; [exact Hm|lia].
      * apply chain_store_out; [lia|]. exact H2.
Qed.

(** One turn of the loop at a block in use: the loop goes on at the next
    block, with no block to merge into. *)
Lemma scan_pass_alloc E fuel req s P sz R prev (Q : option Z -> st -> Prop) :
  heap_ok s (P ++ (sz, true) :: R) ->
  heap_base s + total P <= mm_heap_last (gl s) ->
  wpx E (scan fuel req (heap_base s + total P + sz) NULL) Q s ->
  wpx E (scan (S fuel) req (heap_base s + total P) prev) Q s.
Proof.
  intros Hok Hlast HQ.
  pose proof Hok as [Hla Hlo Hhi Hbh Hbrk Hch Hfirst].
  apply chain_app in Hch as [HP HR]. simpl in HR. destruct HR as (Hhd & H16 & Hm & HR).
  pose proof (chain_total _ _ _ HP) as [HtP _].
  pose proof (chain_total _ _ _ HR) as [HtR _].
  rewrite total_app in Hbrk. simpl in Hbrk.
  pose proof (heap_base_eq s) as Hb.
  set (curr := heap_base s + total P) in *.
  assert (Hcurr : in_heap (hp s) curr 8 = true) by (apply in_heap_true; lia).
  cbn [scan]. apply wpx_bind, wpx_get_gl.
  destruct (Z.leb_spec curr (mm_heap_last (gl s))) as [_|Hx]; [|lia].
  apply wpx_bind. eapply wpx_get_size; [exact Hcurr|exact Hhd|exact Hm|].
  apply wpx_bind. eapply wpx_is_allocated; [exact Hcurr|exact Hhd|exact Hm|].
  simpl negb. simpl andb. cbv iota. apply wpx_bind, wpx_ret. cbn [fst snd].
  apply wpx_bind. eapply wpx_is_allocated; [exact Hcurr|exact Hhd|exact Hm|].
  simpl negb. simpl andb. cbv iota.
  apply wpx_bind. eapply wpx_is_allocated; [exact Hcurr|exact Hhd|exact Hm|].
  simpl negb. cbv iota.
  rewrite (wrap_small (curr + sz)) by lia. exact HQ.
Qed.

(** Past blocks in use the loop comes to the first free block; if it is
    large enough it is placed. *)
Lemma scan_first_fit req s z R (Q : option Z -> st -> Prop) :
  forall P2 P1 fuel,
  heap_ok s (P1 ++ P2 ++ (z, false) :: R) ->
  Forall (fun b => snd b = true) P2 ->
  heap_base s + total (P1 ++ P2) <= mm_heap_last (gl s) -> req <= z ->
  (length P2 < fuel)%nat ->
  wpx False (do p <- place (heap_base s + total (P1 ++ P2)) z req; ret (Some p)) Q s ->
  wpx False (scan fuel req (heap_base s + total P1) NULL) Q s.
Proof.
  induction P2 as [|[sz al] P2 IH]; intros P1 fuel Hok Hall Hlast Hfit Hfuel HQ.
  - destruct fuel as [|fuel]; [simpl in Hfuel; lia|].
    rewrite app_nil_r in *. simpl in Hok.
    apply (scan_take_free False fuel req s P1 z R Q Hok Hlast Hfit HQ).
  - destruct fuel as [|fuel]; [simpl in Hfuel; lia|].
    inversion Hall as [|? ? Hal Hall']; subst. simpl in Hal. subst al.
    pose proof Hok as [_ _ _ _ _ Hch _].
    apply chain_app in Hch as [_ Hch]. simpl in Hch. destruct Hch as (_ & H16 & _ & Hch).
    apply chain_app in Hch as [Hch _]. pose proof (chain_total _ _ _ Hch) as [Ht2 _].
    assert (Hl : P1 ++ (sz, true) :: P2 = (P1 ++ [(sz, true)]) ++ P2)
      by (rewrite <- app_assoc; reflexivity).
    apply (scan_pass_alloc False fuel req s P1 sz (P2 ++ (z, false) :: R) NULL Q Hok).
    { rewrite !total_app in Hlast. simpl in Hlast. lia. }
    replace (heap_base s + total P1 + sz) with (heap_base s + total (P1 ++ [(sz, true)]))
      by (rewrite total_app; simpl; lia).
    apply IH.
    + rewrite <- app_assoc. exact Hok.
    + exact Hall'.
    + rewrite <- Hl. exact Hlast.
    + exact Hfit.
    + simpl in Hfuel. lia.
    + rewrite <- Hl. exact HQ.
Qed.

(** [mm_malloc] takes the first free block when the blocks before it are in
    use and it is large enough. *)
Lemma malloc_first_fit fuel size s P z R :
  heap_ok s (P ++ (z, false) :: R) ->
  Forall (fun b => snd b = true) P ->
  heap_base s + total P <= mm_heap_last (gl s) ->
  0 <= size -> size + 23 < 2 ^ 64 ->
  required size <= z ->
  (length P < fuel)%nat ->
  wpx False (mm_malloc fuel size)
    (fun r s' => r = heap_base s + total P + 8 /\ placed P z R (required size) s') s.
Proof.
  intros Hok Hall Hlast Hs0 Hs1 Hreq Hfuel.
  destruct (required_spec size Hs0 Hs1) as (Hrm & Hrb & Hr16).
  assert (Hne : P ++ (z, false) :: R <> []) by now destruct P.
  destruct (heap_ok_nonempty _ _ Hok Hne) as [Hf Hl].
  pose proof Hok as [_ Hlo _ _ _ _ _].
  pose proof (heap_base_eq s) as Hb.
  unfold mm_malloc. fold (required size). set (req := required size) in *.
  apply wpx_bind, wpx_get_gl. rewrite Hf.
  destruct (Z.eqb_spec (heap_base s) NULL) as [Hx|_]; [unfold NULL in Hx; lia|].
  apply wpx_bind.
  replace (heap_base s) with (heap_base s + total []) at 1 by (simpl; lia).
  apply (scan_first_fit req s z R _ P [] fuel); [exact Hok|exact Hall|exact Hlast|exact Hreq|
                                                  exact Hfuel|].
  simpl app.
  apply wpx_bind. eapply wpx_mono.
  { exact (place_spec False s P z R req _ _ Hok (conj Hr16 Hreq) Hrm eq_refl
             (frame_refl _ _)). }
  intros p s' (_ & _ & _ & Hp & ->). apply wpx_ret, wpx_ret.
  split; [reflexivity|exact Hp].
Qed.

End ImplicitMore.

(** *** Runs that fault *)

Module FaultFacts.
Import Mem Exec MemFacts ExecFacts.

Lemma bind_fault {G A B} (c : M G A) (k : A -> M G B) s :
  wpx False c (fun a s' => k a s' = Fault) s -> bind c k s = Fault.
Proof. unfold wpx, bind. destruct (c s); tauto. Qed.

Lemma bind_ok {G A B} (c : M G A) (k : A -> M G B) s a s' :
  c s = Ok a s' -> bind c k s = k a s'.
Proof. unfold bind. now intros ->. Qed.

Lemma store_fault {G} a v (s : state G) :
  in_heap (hp s) a 8 = false -> store a v s = Fault.
Proof. intros H. unfold store, write64. now rewrite H. Qed.

Lemma memcpy_fault {G} dst src n (s : state G) :
  n <> 0 -> in_heap (hp s) dst n = false -> memcpy dst src n s = Fault.
Proof.
  intros Hn H. unfold memcpy, Mem.memcpy.
  destruct (Z.eqb_spec n 0); [contradiction|]. now rewrite H.
Qed.

(** Code without a loop does not run out of budget. *)
Lemma bind_in_budget {G A B} (c : M G A) (k : A -> M G B) s :
  c s <> OutOfFuel -> (forall a s', k a s' <> OutOfFuel) -> bind c k s <> OutOfFuel.
Proof. unfold bind. intros Hc Hk. destruct (c s); [apply Hk|discriminate|contradiction]. Qed.

Lemma load_in_budget {G} a (s : state G) : load a s <> OutOfFuel.
Proof. unfold load. destruct (read64 (hp s) a); discriminate. Qed.

Lemma store_in_budget {G} a v (s : state G) : store a v s <> OutOfFuel.
Proof. unfold store. destruct (write64 (hp s) a v); discriminate. Qed.

Lemma ret_in_budget {G A} (a : A) (s : state G) : ret a s <> OutOfFuel.
Proof. discriminate. Qed.

Lemma get_gl_in_budget {G} (s : state G) : get_gl s <> OutOfFuel.
Proof. discriminate. Qed.

Ltac in_budget :=
  repeat first
    [ apply ret_in_budget | apply get_gl_in_budget
    | apply load_in_budget | apply store_in_budget
    | apply bind_in_budget; [|intros ? ?]
    | match goal with |- (if ?b then _ else _) _ <> _ => destruct b end ].

Lemma bind_fault_l {G A B} (c : M G A) (k : A -> M G B) s :
  c s = Fault -> bind c k s = Fault.
Proof. unfold bind. now intros ->. Qed.

Lemma not_ok_fault {G A} (c : M G A) s :
  wpx True c (fun _ _ => False) s -> c s <> OutOfFuel -> c s = Fault.
Proof. unfold wpx. destruct (c s); [tauto|reflexivity|congruence]. Qed.

End FaultFacts.

(** *** Further facts of the list allocator *)

Module ExplicitMore.
Import Mem Exec MemFacts ExecFacts Explicit ExplicitFacts FaultFacts.
#[local] Ltac Zify.zify_post_hook ::= Z.div_mod_to_equations.

Lemma take_in_budget fb bsz size s : take fb bsz size s <> OutOfFuel.
Proof.
  unfold take, split, set_boundaries, get_size, add_linked_node_to_block,
    remove_linked_node_from_block.
  in_budget.
Qed.

(** [find_fit] with no block on the list large enough: [NULL], and the
    state as it was. *)
Lemma find_fit_none fuel size s bs fl :
  heap_ok s bs fl -> 0 <= size -> size mod 16 = 0 -> 16 <= size \/ fl = [] ->
  (forall x, In x fl -> block_size (bytes (hp s)) x < size) ->
  (length fl < fuel)%nat ->
  find_fit fuel size s = Ok NULL s.
Proof.
  intros Hok H0 Hm H16 Hsmall Hfuel. apply wpx_ok. eapply wpx_mono.
  { exact (find_fit_spec False size s bs fl _ fuel Hok H0 Hm (or_intror H16) eq_refl
             (or_intror Hfuel)). }
  intros r s' [(-> & -> & _)|(_ & _ & _ & _ & l1 & l2 & Hfl & Hfit & _)]; [auto|].
  exfalso. specialize (Hsmall (r + 16)). rewrite Hfl in Hsmall.
  specialize (Hsmall ltac:(apply in_or_app; right; now left)). lia.
Qed.

(** The block [took] speaks of lies in the heap, with its tags apart from
    the payload of every block of [A0]. *)
Lemma ix_took_block A0 req r s' :
  took A0 req r s' ->
  exists nsz bs' fl',
    req <= nsz /\ heap_ok s' bs' fl' /\ In (r, nsz) (allocs (heap_base s') bs') /\
    heap_base s' + 16 <= r /\ r + nsz + 16 <= mem_brk (hp s') /\
    forall p z, In (p, z) A0 ->
      In (p, z) (allocs (heap_base s') bs') /\ (p + z + 16 <= r \/ r + nsz + 16 <= p).
Proof.
  intros (P & R & sz & fl' & Hok & -> & -> & Hreq).
  pose proof Hok as [Hsh _].
  destruct (shape_span _ _ _ Hsh) as (S1 & S2 & S3 & S4 & S5 & S6).
  pose proof Hsh as [_ _ _ _ _ _ _ Htags _ _ _ _ _].
  apply tags_app in Htags as [HP HR]. simpl in HR.
  destruct HR as (T0 & T1 & T2 & T3 & T4 & T5).
  pose proof (tags_span _ _ _ HP) as [HsP _].
  pose proof (tags_span _ _ _ T5) as [HsR _].
  rewrite span_app in S3. simpl in S3.
  pose proof (ix_heap_base_eq s') as Hb.
  exists sz, (P ++ (sz, true) :: R), fl'.
  split; [exact Hreq|]. split; [exact Hok|]. split.
  { rewrite ix_allocs_app. apply in_or_app. right. simpl. left. reflexivity. }
  split; [lia|]. split; [lia|].
  intros p z Hin. rewrite ix_allocs_app. simpl.
  apply in_app_or in Hin as [Hin|Hin].
  - split; [apply in_or_app; now left|].
    destruct (ix_allocs_inside _ _ _ _ _ HP Hin) as (_ & H & _). left. lia.
  - split.
    + apply in_or_app. right. right. exact Hin.
    + destruct (ix_allocs_inside _ _ _ _ _ T5 Hin) as (H & _). right. lia.
Qed.

Lemma last_of_snoc {A} (l1 l2 fl1 : list A) x p :
  fl1 ++ [p] = l1 ++ x :: l2 -> x = p /\ l2 = [] \/ In p l2.
Proof.
  intros H. destruct l2 as [|y l2' _] using rev_ind.
  - left. apply app_inj_tail in H as [_ ->]. auto.
  - right. rewrite app_comm_cons, app_assoc in H.
    apply app_inj_tail in H as [_ ->]. apply in_or_app. right. now left.
Qed.

(** [mm_init] from a region that has not been used: the answer tells
    whether the provider had 48 bytes. *)
Lemma mm_init_exact_wp lo hi :
  lo mod 16 = 0 -> 16 <= lo -> hi < 2 ^ 64 - 1 ->
  wpx False mm_init
    (fun r s =>
       r = (lo + 48 <=? hi) /\
       (r = true -> heap_ok s [] [] /\ mem_brk (hp s) = lo + 48) /\
       (lo + 32 <= hi -> lo + 32 <= mem_brk (hp s) /\
          load64 (bytes (hp s)) (lo + 8) = lo + 16 /\
          load64 (bytes (hp s)) (lo + 16) = lo))
    (fresh lo hi).
Proof.
  intros Hla Hlo Hhi.
  assert (Hf : forall x, x < lo + 48 -> false = (lo + 48 <=? x)).
  { intros x Hx. symmetry. apply Z.leb_gt. lia. }
  unfold mm_init, ALIGNMENT, sizeof_size_t, off_prev, off_next.
  apply wpx_bind, wpx_sbrk; cbn [fresh hp gl mem_init mem_brk mem_max_addr mem_start_brk bytes].
  2:{ intros Hfull. apply wpx_bind, wpx_get_gl, wpx_bind, wpx_put_gl.
      apply wpx_bind, wpx_sbrk; intros _; apply wpx_bind, wpx_get_gl, wpx_bind, wpx_put_gl;
        rewrite Z.eqb_refl; simpl; apply wpx_ret;
        (split; [apply Hf; lia|split; [discriminate|intros; exfalso; lia]]). }
  intros Hroom1. apply wpx_bind, wpx_get_gl, wpx_bind, wpx_put_gl.
  cbn [fresh hp gl mem_init mem_brk mem_max_addr mem_start_brk bytes head tail].
  apply wpx_bind, wpx_sbrk;
    cbn [fresh hp gl mem_init mem_brk mem_max_addr mem_start_brk bytes head tail].
  2:{ intros Hfull. apply wpx_bind, wpx_get_gl, wpx_bind, wpx_put_gl.
      rewrite Z.eqb_refl, orb_true_r. apply wpx_ret.
      split; [apply Hf; lia|split; [discriminate|intros; exfalso; lia]]. }
  intros Hroom2. apply wpx_bind, wpx_get_gl, wpx_bind, wpx_put_gl.
  cbn [fresh hp gl mem_init mem_brk mem_max_addr mem_start_brk bytes head tail].
  destruct (Z.eqb_spec lo SBRK_FAILED) as [Hx|_]; [unfold SBRK_FAILED in Hx; lia|].
  destruct (Z.eqb_spec (lo + 16) SBRK_FAILED) as [Hx|_]; [unfold SBRK_FAILED in Hx; lia|].
  cbn [orb]. rewrite !Z.add_0_r.
  rewrite (wrap_small lo), (wrap_small (lo + 8)), (wrap_small (lo + 16)),
    (wrap_small (lo + 16 + 8)) by lia.
  do 4 (apply wpx_bind, wpx_store; [apply in_heap_true; simpl; lia|];
        cbn [hp gl mem_brk mem_max_addr mem_start_brk bytes set_bytes]).
  set (m4 := store64 _ (lo + 16 + 8) NULL).
  assert (Hlinks : load64 m4 (lo + 8) = lo + 16 /\ load64 m4 (lo + 16) = lo).
  { unfold m4. split.
    - rewrite !load64_store64_ne by lia. apply load64_store64_eq. lia.
    - rewrite !load64_store64_ne by lia. apply load64_store64_eq. lia. }
  apply wpx_bind, wpx_sbrk;
    cbn [hp gl mem_brk mem_max_addr mem_start_brk bytes set_bytes].
  2:{ intros Hfull. apply wpx_bind, wpx_sbrk; intros _; rewrite Z.eqb_refl; simpl;
        apply wpx_ret;
        (split; [apply Hf; lia|split; [discriminate|intros _; cbn [hp gl mem_brk bytes set_bytes]; split; [lia|exact Hlinks]]]). }
  intros Hroom3. apply wpx_bind, wpx_sbrk;
    cbn [hp gl mem_brk mem_max_addr mem_start_brk bytes set_bytes].
  2:{ intros Hfull. rewrite Z.eqb_refl, orb_true_r. apply wpx_ret.
      split; [apply Hf; lia|split; [discriminate|intros _; cbn [hp gl mem_brk bytes set_bytes]; split; [lia|exact Hlinks]]]. }
  intros Hroom4.
  destruct (Z.eqb_spec (lo + 16 + 16) SBRK_FAILED) as [Hx|_]; [unfold SBRK_FAILED in Hx; lia|].
  destruct (Z.eqb_spec (lo + 16 + 16 + 8) SBRK_FAILED) as [Hx|_];
    [unfold SBRK_FAILED in Hx; lia|].
  cbn [orb]. change (Z.lor 0 1) with 1.
  do 2 (apply wpx_bind, wpx_store; [apply in_heap_true; simpl; lia|];
        cbn [hp gl mem_brk mem_max_addr mem_start_brk bytes set_bytes]).
  apply wpx_ret.
  cbn [hp gl mem_brk mem_max_addr mem_start_brk bytes set_bytes].
  split; [symmetry; apply Z.leb_le; lia|]. split.
  2:{ intros _. split; [lia|]. destruct Hlinks as [L1 L2]. split.
      - rewrite !load64_store64_ne by lia. exact L1.
      - rewrite !load64_store64_ne by lia. exact L2. }
  intros _. split; [|lia].
  split; [|reflexivity].
  constructor; unfold heap_base;
    cbn [hp gl mem_brk mem_max_addr mem_start_brk bytes set_bytes head tail span fold_right];
    try assumption; try lia; try reflexivity.
  - replace (lo + 32) with (lo + 16 + 16) by lia.
    rewrite load64_store64_ne by lia. apply load64_store64_eq. lia.
  - replace (lo + 32 + 0 + 8) with (lo + 16 + 16 + 8) by lia. apply load64_store64_eq. lia.
  - simpl. unfold NULL. destruct Hlinks as [L1 L2]. split.
    + rewrite !load64_store64_ne by lia. exact L1.
    + rewrite !load64_store64_ne by lia. exact L2.
  - constructor.
  - constructor.
Qed.

(** With room for a new block [mm_malloc] does not return [NULL]. *)
Lemma malloc_with_room s bs fl fuel size :
  heap_ok s bs fl -> 0 <= size -> size + 15 < 2 ^ 64 -> 0 < size ->
  (length fl < fuel)%nat ->
  mem_brk (hp s) + required size + 16 <= mem_max_addr (hp s) ->
  exists r s', mm_malloc fuel size s = Ok r s' /\ r <> NULL.
Proof.
  intros Hok H0 H1 Hpos Hfuel Hroom.
  destruct (wpx_total _ _ _
              (ix_mm_malloc_spec False fuel size s bs fl Hok H0 H1
                 (or_intror (or_introl Hpos)) (or_intror Hfuel) (or_intror Hroom)))
    as (r & s' & Hrun & _ & _ & _ & _ & _ & Hcase).
  exists r, s'. split; [exact Hrun|].
  destruct Hcase as [(_ & _ & _ & Hfull & _)|[Ht _]]; [lia|].
  destruct (ix_took_allocs _ _ _ _ Ht) as (bs' & fl' & sz & Hok' & Hin & _).
  now destruct (ix_aligned_of_alloc _ _ _ _ _ Hok' Hin).
Qed.

End ExplicitMore.

(** *** Requests the provider refuses *)

Module ImplicitRefused.
Import Mem Exec MemFacts ExecFacts Implicit ImplicitFacts FaultFacts.


(** The header of an allocated block of the chain. *)
Lemma allocs_header m a bs b z :
  chain m a bs -> In (b, z) (allocs a bs) -> load64 m b = encode z true.
Proof.
  revert a. induction bs as [|[sz al] bs IH]; intros a Hch Hin; [destruct Hin|].
  simpl in Hch. destruct Hch as (H1 & H2 & H3 & H4).
  destruct al; simpl in Hin.
  - destruct Hin as [[= <- <-]|Hin]; [exact H1|]. now apply IH with (a := a + sz).
  - now apply IH with (a := a + sz).
Qed.




End ImplicitRefused.

Module ExplicitRefused.
Import Mem Exec MemFacts ExecFacts Explicit ExplicitFacts FaultFacts ExplicitMore.



(** With room for the payload but not for the footer after it, the break
    has moved when [mm_malloc] returns [NULL]. *)
Lemma malloc_half_grown fuel size s bs fl :
  heap_ok s bs fl -> 0 <= size -> size + 15 < 2 ^ 64 -> 0 < size \/ fl = [] ->
  (forall x, In x fl -> block_size (bytes (hp s)) x < required size) ->
  (length fl < fuel)%nat ->
  mem_brk (hp s) + required size <= mem_max_addr (hp s) ->
  mem_max_addr (hp s) < mem_brk (hp s) + required size + 8 ->
  exists s',
    mm_malloc fuel size s = Ok NULL s' /\
    mem_brk (hp s') = mem_brk (hp s) + required size /\
    bytes (hp s') = bytes (hp s) /\ gl s' = gl s /\
    heap_ok s' bs fl.
Proof.
  intros Hok H0 H1 Hnz Hsmall Hfuel Hroom Hfull.
  destruct (ix_required_spec size H0 H1) as (Hrm & Hrb & Hr16).
  set (req := required size) in *.
  assert (H16 : 16 <= req \/ fl = []) by (destruct Hnz; [left; auto|now right]).
  pose proof (find_fit_none fuel req s bs fl Hok ltac:(lia) Hrm H16 Hsmall
                Hfuel) as Hfit.
  pose proof Hok as [Hsh Hperm].
  eexists. split.
  - unfold mm_malloc. fold (required size). fold req.
    rewrite (bind_ok _ _ _ _ _ Hfit). cbv beta. change (NULL =? NULL) with true.
    cbn [negb]. cbv iota.
    unfold bind, sbrk, mem_sbrk. cbn [hp gl mem_brk mem_max_addr].
    destruct (Z.leb_spec (mem_brk (hp s) + req) (mem_max_addr (hp s))) as [_|Hx]; [|lia].
    cbn [hp gl mem_brk mem_max_addr]. unfold sizeof_size_t.
    destruct (Z.leb_spec (mem_brk (hp s) + req + 8) (mem_max_addr (hp s))) as [Hx|_]; [lia|].
    rewrite Z.eqb_refl. reflexivity.
  - cbn [hp gl mem_brk bytes]. split; [reflexivity|]. split; [reflexivity|].
    split; [reflexivity|]. split; [|exact Hperm].
    apply shape_grow; [exact Hsh|lia|right; lia].
Qed.

(** With room for a footer but not for the payload, the failure marker of
    the first request is used as an address. *)
Lemma malloc_wild_store fuel size s bs fl :
  heap_ok s bs fl -> 0 <= size -> size + 15 < 2 ^ 64 -> 0 < size \/ fl = [] ->
  (forall x, In x fl -> block_size (bytes (hp s)) x < required size) ->
  (length fl < fuel)%nat ->
  mem_max_addr (hp s) < mem_brk (hp s) + required size ->
  mem_brk (hp s) + 8 <= mem_max_addr (hp s) ->
  mm_malloc fuel size s = Fault.
Proof.
  intros Hok H0 H1 Hnz Hsmall Hfuel Hfull Hroom.
  destruct (ix_required_spec size H0 H1) as (Hrm & Hrb & Hr16).
  set (req := required size) in *.
  assert (H16 : 16 <= req \/ fl = []) by (destruct Hnz; [left; auto|now right]).
  pose proof (find_fit_none fuel req s bs fl Hok ltac:(lia) Hrm H16 Hsmall
                Hfuel) as Hfit.
  pose proof Hok as [Hsh Hperm].
  destruct (shape_span _ _ _ Hsh) as (S1 & S2 & S3 & S4 & S5 & S6).
  pose proof Hsh as [_ _ Hhi _ _ _ _ _ _ _ _ _ _].
  unfold mm_malloc. fold (required size). fold req.
  rewrite (bind_ok _ _ _ _ _ Hfit). cbv beta. change (NULL =? NULL) with true.
    cbn [negb]. cbv iota.
  unfold bind at 1. unfold sbrk at 1. unfold mem_sbrk.
  destruct (Z.leb_spec (mem_brk (hp s) + req) (mem_max_addr (hp s))) as [Hx|_]; [lia|].
  unfold bind at 1. unfold sbrk at 1. unfold mem_sbrk. cbn [hp gl mem_brk mem_max_addr].
  unfold sizeof_size_t.
  destruct (Z.leb_spec (mem_brk (hp s) + 8) (mem_max_addr (hp s))) as [_|Hx]; [|lia].
  destruct (Z.eqb_spec (mem_brk (hp s)) SBRK_FAILED) as [Hx|_];
    [unfold SBRK_FAILED in Hx; lia|].
  unfold set_boundaries. unfold bind at 1. unfold bind at 1.
  rewrite store_fault; [reflexivity|].
  unfold in_heap. cbn [hp mem_start_brk mem_brk].
  replace (wrap (wrap (SBRK_FAILED - ALIGNMENT) + off_header))
    with (2 ^ 64 - 9) by (vm_compute; reflexivity).
  apply andb_false_intro2. apply Z.leb_gt. lia.
Qed.

(** [mm_realloc] does not look at what [mm_malloc] returns. *)
Lemma realloc_of_null fuel size s P osz R fl s' :
  heap_ok s (P ++ (osz, true) :: R) fl -> 16 <= osz ->
  0 < size -> size + 15 < 2 ^ 64 ->
  mm_malloc fuel size s = Ok NULL s' ->
  mm_realloc fuel (heap_base s + span P + 16) size s = Fault.
Proof.
  intros Hok Hosz H0 H1 Hrun.
  pose proof (wpx_elim _ _ _ _ _ _
                (ix_mm_malloc_spec True fuel size s _ fl Hok ltac:(lia) H1
                   (or_introl I) (or_introl I) (or_introl I)) Hrun)
    as (K1 & K2 & K3 & K4 & _ & Hcase).
  assert (Hok' : heap_ok s' (P ++ (osz, true) :: R) fl).
  { destruct Hcase as [(_ & Hok' & _)|[Ht _]]; [exact Hok'|].
    destruct (ix_took_allocs _ _ _ _ Ht) as (bs' & fl' & sz & Hok' & Hin & _).
    destruct (ix_aligned_of_alloc _ _ _ _ _ Hok' Hin) as [_ Hnn].
    congruence. }
  assert (Hb : heap_base s' = heap_base s) by (rewrite !ix_heap_base_eq; lia).
  pose proof Hok' as [Hsh _].
  pose proof (shape_bounded _ _ _ Hsh) as Hbd.
  destruct (shape_span _ _ _ Hsh) as (S1 & S2 & S3 & S4 & S5 & S6).
  pose proof Hsh as [_ _ _ _ _ _ _ Htags _ _ _ _ _].
  apply tags_app in Htags as [HP HR]. simpl in HR.
  destruct HR as (T0 & T1 & T2 & T3 & T4 & T5).
  pose proof (tags_span _ _ _ HP) as [HsP _].
  pose proof (tags_span _ _ _ T5) as [HsR _].
  rewrite span_app in S3. simpl in S3.
  pose proof (ix_heap_base_eq s') as Hb'.
  rewrite <- Hb. set (old := heap_base s' + span P + 16).
  unfold mm_realloc.
  destruct (Z.eqb_spec old NULL) as [Hx|_]; [unfold NULL, old in Hx; lia|].
  destruct (Z.eqb_spec size 0) as [Hx|_]; [lia|].
  rewrite (bind_ok _ _ _ _ _ Hrun).
  apply bind_fault.
  unfold block_from_payload, off_payload.
  replace (old - 16) with (heap_base s' + span P) by (unfold old; lia).
  rewrite wrap_small by lia.
  eapply ix_wpx_get_size; [exact Hbd|apply in_heap_true; lia|exact T0|exact T3|].
  cbv beta. unfold bind at 1. rewrite memcpy_fault; [reflexivity| |].
  - destruct (osz <? size); lia.
  - unfold in_heap. apply andb_false_intro1. apply Z.leb_gt. unfold NULL. lia.
Qed.

End ExplicitRefused.

(** *** The block a request is answered with *)

Module FitFacts.
Import Mem Exec MemFacts ExecFacts Explicit ExplicitFacts FaultFacts ExplicitMore.

(** The walk of [find_fit] passes the nodes whose blocks are too small and
    takes the first block that fits. *)
Lemma find_fit_from_carves size s P bsz R fl l1 :
  heap_ok s (P ++ (bsz, false) :: R) fl -> 16 <= size <= bsz -> size mod 16 = 0 ->
  forall fuel l2a l2b,
  fl = l1 ++ (heap_base s + span P + 16) :: l2a ++ l2b ->
  (forall x, In x l2a -> block_size (bytes (hp s)) x < size) ->
  (length l2a < fuel)%nat ->
  wpx False
    (find_fit_from fuel size
       (List.last (l1 ++ (heap_base s + span P + 16) :: l2a) (mem_start_brk (hp s))))
    (fun r s' => r = heap_base s + span P /\ carved s fl P bsz R size s') s.
Proof.
  intros Hok Hsz Hsm. pose proof Hok as [Hsh Hperm].
  pose proof (shape_bounded _ _ _ Hsh) as Hbd.
  destruct (shape_span _ _ _ Hsh) as (S1 & S2 & S3 & S4 & S5 & S6).
  pose proof Hsh as [Hla Hlo Hhi Hbh Hhead Htail Hpro Htags Hepi Hbrk Hlist Hnds Hnodup].
  pose proof (ix_heap_base_eq s) as Hb.
  set (lo := mem_start_brk (hp s)) in *.
  set (n := heap_base s + span P + 16) in *.
  induction fuel as [|fuel IH]; intros l2a l2b Hfl Hsmall Hfuel; [lia|].
  cbn [find_fit_from]. apply wpx_bind, wpx_get_gl. rewrite Hhead.
  destruct l2a as [|x l2a' _] using rev_ind.
  - rewrite last_last.
    assert (Hx : In n fl). { rewrite Hfl. apply in_or_app. right. now left. }
    destruct (shape_node _ _ _ _ Hsh Hx) as (_ & Hx1 & Hx2 & Hx3). fold lo in Hx1.
    destruct (Z.eqb_spec n lo) as [Heq|_]; [lia|]. cbn [negb]. cbv iota.
    apply tags_app in Htags as [HP HR]. simpl in HR.
    destruct HR as (T0 & T1 & T2 & T3 & T4 & T5).
    unfold ALIGNMENT. rewrite (wrap_small (n - 16)) by lia.
    replace (n - 16) with (heap_base s + span P) by (unfold n; lia).
    apply wpx_bind. eapply ix_wpx_get_size; [exact Hbd|apply in_heap_true; lia|exact T0|exact T3|].
    destruct (Z.leb_spec size bsz) as [_|Hno]; [|lia].
    eapply wpx_mono.
    { apply take_spec with (fl := fl) (R := R) (A0 := allocs (heap_base s) (P ++ (bsz, false) :: R));
        [exact Hok|lia|exact Hsm|right; lia|reflexivity]. }
    intros r s' (-> & _ & _ & _ & Hc). auto.
  - replace (l1 ++ n :: l2a' ++ [x]) with ((l1 ++ n :: l2a') ++ [x])
      by (rewrite <- app_assoc; reflexivity).
    rewrite last_last.
    assert (Hx : In x fl).
    { rewrite Hfl. apply in_or_app. right. right. apply in_or_app. left.
      apply in_or_app. right. now left. }
    destruct (shape_node _ _ _ _ Hsh Hx) as (_ & Hx1 & Hx2 & Hx3). fold lo in Hx1.
    destruct (Z.eqb_spec x lo) as [Heq|_]; [lia|]. cbn [negb]. cbv iota.
    pose proof (heap_ok_free_node _ _ _ _ Hok Hx) as Hfx.
    destruct (frees_split _ _ _ Hfx) as (P' & sz' & R' & Hbs & Hxe).
    pose proof Htags as Htags0. rewrite Hbs in Htags0.
    apply tags_app in Htags0 as [HP' HR']. simpl in HR'.
    destruct HR' as (T0 & T1 & T2 & T3 & T4 & T5).
    unfold ALIGNMENT. rewrite (wrap_small (x - 16)) by lia.
    replace (x - 16) with (heap_base s + span P') by lia.
    assert (Hbsz : block_size (bytes (hp s)) x = sz').
    { unfold block_size. replace (x - 8) with (heap_base s + span P' + 8) by lia.
      rewrite T0. apply ix_decode_size. exact T3. }
    apply wpx_bind. eapply ix_wpx_get_size; [exact Hbd|apply in_heap_true; lia|exact T0|exact T3|].
    assert (Hlt : sz' < size).
    { rewrite <- Hbsz. apply Hsmall. apply in_or_app. right. now left. }
    destruct (Z.leb_spec size sz') as [Hfit|_]; [lia|].
    unfold off_prev. rewrite Z.add_0_r, (wrap_small x) by lia.
    apply wpx_bind, wpx_load; [apply in_heap_true; lia|].
    assert (Hfl' : fl = (l1 ++ n :: l2a') ++ x :: l2b).
    { rewrite Hfl, <- !app_assoc. reflexivity. }
    rewrite Hfl' in Hlist.
    destruct (dseg_pred _ _ _ _ _ _ Hlist) as [Hpred _]. rewrite Hpred.
    apply IH with (l2b := x :: l2b).
    + rewrite Hfl'. rewrite <- app_assoc. reflexivity.
    + intros y Hy. apply Hsmall. apply in_or_app. now left.
    + rewrite length_app in Hfuel. simpl in Hfuel. lia.
Qed.

Lemma find_fit_carves fuel size s P bsz R fl l1 l2 :
  heap_ok s (P ++ (bsz, false) :: R) fl -> 16 <= size <= bsz -> size mod 16 = 0 ->
  fl = l1 ++ (heap_base s + span P + 16) :: l2 ->
  (forall x, In x l2 -> block_size (bytes (hp s)) x < size) ->
  (length l2 < fuel)%nat ->
  wpx False (find_fit fuel size)
    (fun r s' => r = heap_base s + span P /\ carved s fl P bsz R size s') s.
Proof.
  intros Hok Hsz Hsm Hfl Hsmall Hfuel. pose proof Hok as [Hsh Hperm].
  destruct (shape_span _ _ _ Hsh) as (S1 & S2 & S3 & S4 & S5 & S6).
  pose proof Hsh as [Hla Hlo Hhi Hbh Hhead Htail Hpro Htags Hepi Hbrk Hlist Hnds Hnodup].
  unfold find_fit. apply wpx_bind, wpx_get_gl. rewrite Htail.
  unfold off_prev. rewrite Z.add_0_r, wrap_small by lia.
  apply wpx_bind, wpx_load; [apply in_heap_true; lia|].
  destruct (dseg_last _ _ _ _ Hlist) as [Hl _]. rewrite Hl. rewrite Hfl at 1.
  apply find_fit_from_carves with (l2b := []); auto.
  now rewrite app_nil_r.
Qed.

(** [mm_malloc] answers the payload of the block nearest to the tail that
    fits, split or whole. *)
Lemma malloc_carves fuel size s P bsz R fl l1 l2 :
  heap_ok s (P ++ (bsz, false) :: R) fl ->
  0 < size -> size + 15 < 2 ^ 64 -> required size <= bsz ->
  fl = l1 ++ (heap_base s + span P + 16) :: l2 ->
  (forall x, In x l2 -> block_size (bytes (hp s)) x < required size) ->
  (length l2 < fuel)%nat ->
  wpx False (mm_malloc fuel size)
    (fun r s' => r = heap_base s + span P + 16 /\
                 carved s fl P bsz R (required size) s') s.
Proof.
  intros Hok H0 H1 Hreq Hfl Hsmall Hfuel. pose proof Hok as [Hsh _].
  destruct (shape_span _ _ _ Hsh) as (S1 & S2 & S3 & S4 & S5 & S6).
  pose proof Hsh as [_ _ _ _ _ _ _ Htags _ _ _ _ _].
  apply tags_app in Htags as [HP HR]. simpl in HR.
  destruct HR as (T0 & T1 & T2 & T3 & T4 & T5).
  pose proof (tags_span _ _ _ HP) as [HsP _].
  pose proof (tags_span _ _ _ T5) as [HsR _].
  rewrite span_app in S3. simpl in S3.
  pose proof (ix_heap_base_eq s) as Hb.
  destruct (ix_required_spec size ltac:(lia) H1) as (Hrm & Hrb & Hr16).
  specialize (Hr16 H0).
  unfold mm_malloc. fold (required size).
  apply wpx_bind. eapply wpx_mono.
  { apply (find_fit_carves fuel (required size) s P bsz R fl l1 l2 Hok
             ltac:(lia) Hrm Hfl Hsmall Hfuel). }
  intros r s' (-> & Hc). cbv beta.
  destruct (Z.eqb_spec (heap_base s + span P) NULL) as [Hx|_]; [unfold NULL in Hx; lia|].
  cbn [negb]. cbv iota. apply wpx_ret.
  unfold payload, off_payload. rewrite wrap_small by lia. auto.
Qed.

(** A request of no bytes takes the block of the node before the tail
    whole when that block has 16 bytes. *)
Lemma malloc_zero_whole fuel s P bsz R l :
  heap_ok s (P ++ (bsz, false) :: R) (l ++ [heap_base s + span P + 16]) ->
  bsz <= 16 -> (1 <= fuel)%nat ->
  wpx False (mm_malloc fuel 0)
    (fun r s' => r = heap_base s + span P + 16 /\
                 heap_ok s' (P ++ (bsz, true) :: R) l) s.
Proof.
  intros Hok Hbig Hfuel. pose proof Hok as [Hsh Hperm].
  pose proof (shape_bounded _ _ _ Hsh) as Hbd.
  destruct (shape_span _ _ _ Hsh) as (S1 & S2 & S3 & S4 & S5 & S6).
  pose proof Hsh as [Hla Hlo Hhi Hbh Hhead Htail Hpro Htags Hepi Hbrk Hlist Hnds Hnodup].
  apply tags_app in Htags as [HP HR]. simpl in HR.
  destruct HR as (T0 & T1 & T2 & T3 & T4 & T5).
  pose proof (tags_span _ _ _ HP) as [HsP _].
  pose proof (tags_span _ _ _ T5) as [HsR _].
  rewrite span_app in S3. simpl in S3.
  pose proof (ix_heap_base_eq s) as Hb.
  destruct (dseg_last _ _ _ _ Hlist) as [Hl _]. rewrite last_last in Hl.
  set (n := heap_base s + span P + 16) in *.
  destruct fuel as [|fuel]; [lia|].
  unfold mm_malloc. change (round_up 0 ALIGNMENT) with 0.
  apply wpx_bind. unfold find_fit.
  apply wpx_bind, wpx_get_gl. rewrite Htail.
  unfold off_prev. rewrite Z.add_0_r, wrap_small by lia.
  apply wpx_bind, wpx_load; [apply in_heap_true; lia|]. rewrite Hl.
  cbn [find_fit_from]. apply wpx_bind, wpx_get_gl. rewrite Hhead.
  destruct (Z.eqb_spec n (mem_start_brk (hp s))) as [Hx|_]; [unfold n in Hx; lia|].
  cbn [negb]. cbv iota. unfold ALIGNMENT.
  replace (n - 16) with (heap_base s + span P) by (unfold n; lia).
  rewrite wrap_small by lia.
  apply wpx_bind.
  eapply ix_wpx_get_size; [exact Hbd|apply in_heap_true; lia|exact T0|exact T3|].
  destruct (Z.leb_spec 0 bsz) as [_|Hx]; [|lia].
  eapply wpx_mono.
  { apply take_whole with (fl := l ++ [n]) (R := R)
      (A0 := allocs (heap_base s) (P ++ (bsz, false) :: R));
      [exact Hok|lia|lia|reflexivity|reflexivity]. }
  intros r s' (-> & _ & _ & _ & l1 & l2 & Hfl & Hc). cbv beta.
  destruct (Z.eqb_spec (heap_base s + span P) NULL) as [Hx|_]; [unfold NULL in Hx; lia|].
  cbn [negb]. cbv iota. apply wpx_ret.
  split; [unfold payload, off_payload; rewrite wrap_small by lia; reflexivity|].
  destruct Hc as [[_ Hok']|[Hx _]]; [|lia].
  fold n in Hfl.
  assert (Hl1 : l1 = l /\ l2 = []).
  { destruct (last_of_snoc _ _ _ _ _ Hfl) as [[_ ->]|Hin].
    - apply app_inj_tail in Hfl as [-> _]. auto.
    - exfalso. rewrite Hfl in Hnodup. apply NoDup_app in Hnodup as (_ & _ & Hnd).
      apply NoDup_cons in Hnd as [Hnin _]. apply Hnin. now apply list_elem_of_In. }
  destruct Hl1 as [-> ->]. now rewrite app_nil_r in Hok'.
Qed.

(** A request of no bytes splits a block of 32 bytes or more, and the
    unlinking that follows stores outside the region. *)
Lemma malloc_zero_split_faults fuel s P bsz R l :
  heap_ok s (P ++ (bsz, false) :: R) (l ++ [heap_base s + span P + 16]) ->
  32 <= bsz -> (1 <= fuel)%nat ->
  mm_malloc fuel 0 s = Fault.
Proof.
  intros Hok Hbig Hfuel. pose proof Hok as [Hsh Hperm].
  pose proof (shape_bounded _ _ _ Hsh) as Hbd.
  destruct (shape_span _ _ _ Hsh) as (S1 & S2 & S3 & S4 & S5 & S6).
  pose proof Hsh as [Hla Hlo Hhi Hbh Hhead Htail Hpro Htags Hepi Hbrk Hlist Hnds Hnodup].
  apply tags_app in Htags as [HP HR]. simpl in HR.
  destruct HR as (T0 & T1 & T2 & T3 & T4 & T5).
  pose proof (tags_span _ _ _ HP) as [HsP _].
  pose proof (tags_span _ _ _ T5) as [HsR _].
  rewrite span_app in S3. simpl in S3.
  pose proof (ix_heap_base_eq s) as Hb.
  destruct (dseg_last _ _ _ _ Hlist) as [Hl _]. rewrite last_last in Hl.
  set (n := heap_base s + span P + 16) in *.
  destruct fuel as [|fuel]; [lia|].
  unfold mm_malloc. change (round_up 0 ALIGNMENT) with 0.
  apply bind_fault_l. unfold find_fit.
  apply bind_fault, wpx_get_gl. rewrite Htail.
  unfold off_prev. rewrite Z.add_0_r, wrap_small by lia.
  apply bind_fault, wpx_load; [apply in_heap_true; lia|]. rewrite Hl.
  cbn [find_fit_from]. apply bind_fault, wpx_get_gl. rewrite Hhead.
  destruct (Z.eqb_spec n (mem_start_brk (hp s))) as [Hx|_]; [unfold n in Hx; lia|].
  cbn [negb]. cbv iota. unfold ALIGNMENT.
  replace (n - 16) with (heap_base s + span P) by (unfold n; lia).
  rewrite wrap_small by lia.
  apply bind_fault.
  eapply ix_wpx_get_size; [exact Hbd|apply in_heap_true; lia|exact T0|exact T3|].
  destruct (Z.leb_spec 0 bsz) as [_|Hx]; [|lia].
  apply not_ok_fault; [|apply take_in_budget].
  exact (take_zero_split True s P bsz R _ (fun _ _ => False) I Hok Hbig).
Qed.


End FitFacts.

Module ZeroFacts.
Import Mem Exec MemFacts ExecFacts.

(** The header of an allocated block of the list allocator. *)
Lemma ix_allocs_header m B bs p z :
  Explicit.tags m B bs -> In (p, z) (Explicit.allocs B bs) ->
  load64 m (p - 8) = Explicit.encode z true.
Proof.
  revert B. induction bs as [|[sz al] bs IH]; intros B Ht Hin; [destruct Hin|].
  simpl in Ht. destruct Ht as (H1 & H2 & H3 & H4 & H5 & H6).
  destruct al; simpl in Hin.
  - destruct Hin as [[= <- <-]|Hin].
    + replace (B + 16 - 8) with (B + 8) by lia. exact H1.
    + now apply IH with (B := B + sz + 16).
  - now apply IH with (B := B + sz + 16).
Qed.

(** What [mm_malloc(0)] of the scanning allocator answers. *)
Lemma scan_malloc_zero s bs fuel :
  Implicit.heap_ok s bs -> (length bs < fuel)%nat ->
  mem_brk (hp s) + 16 <= mem_max_addr (hp s) ->
  exists r s' nsz bs',
    Implicit.mm_malloc fuel 0 s = Ok r s' /\ r <> NULL /\ r mod 16 = 0 /\
    Implicit.heap_ok s' bs' /\
    In (r - 8, nsz) (Implicit.allocs (Implicit.heap_base s') bs') /\ 16 <= nsz /\
    (forall b z, In (b, z) (Implicit.allocs (Implicit.heap_base s) bs) ->
       In (b, z) (Implicit.allocs (Implicit.heap_base s') bs') /\
       (b + z <= r - 8 \/ r - 8 + nsz <= b)) /\
    (mem_brk (hp s') = mem_brk (hp s) \/
     (mem_brk (hp s') = mem_brk (hp s) + 16 /\ r = mem_brk (hp s) + 8 /\ nsz = 16 /\
      load64 (bytes (hp s')) (r - 8) = Implicit.encode 16 true)).
Proof.
  intros Hok Hfuel Hroom.
  assert (Hreq : Implicit.required 0 = 16) by reflexivity.
  destruct (wpx_total _ _ _
              (ImplicitFacts.mm_malloc_spec False fuel 0 s bs ltac:(lia) ltac:(lia)
                 (or_intror Hfuel) Hok)) as (r & s' & Hrun & Hsb & Hfr & Hcase).
  destruct Hcase as [(_ & _ & _ & Hfull & _)|[Ht Hbrk]]; [rewrite Hreq in Hfull; lia|].
  destruct (ImplicitFacts.took_allocs _ _ _ _ Ht) as (_ & _ & _ & _ & Hnn & _ & _).
  destruct (ImplicitMore.took_block _ _ _ _ Ht)
    as (nsz & _ & Hn16 & _ & _ & (bs' & Hok' & Hin & Hold) & Hapart).
  exists r, s', nsz, bs'. split; [exact Hrun|]. split; [exact Hnn|]. split.
  { replace r with (r - 8 + 8) by lia. eapply ImplicitFacts.aligned_of_alloc; eauto. }
  split; [exact Hok'|]. split; [exact Hin|]. split; [exact Hn16|]. split.
  { intros b z Hb. split; [now apply Hold|now apply Hapart]. }
  rewrite Hreq in Hbrk. destruct Hbrk as [Hb|(Hb & Hr & Hl)]; [now left|right].
  assert (Hl' : load64 (bytes (hp s')) (r - 8) = Implicit.encode 16 true).
  { rewrite Hr. replace (mem_brk (hp s) + 8 - 8) with (mem_brk (hp s)) by lia. exact Hl. }
  split; [exact Hb|]. split; [exact Hr|]. split; [|exact Hl'].
  pose proof Hok' as [_ _ _ _ _ Hch _].
  pose proof (ImplicitRefused.allocs_header _ _ _ _ _ Hch Hin) as Hh.
  destruct (ImplicitFacts.allocs_inside _ _ _ _ _ Hch Hin) as (_ & _ & _ & Hm & _).
  rewrite Hl' in Hh.
  rewrite <- (ImplicitFacts.decode_size nsz true Hm), <- Hh.
  now rewrite ImplicitFacts.decode_size.
Qed.

(** What [mm_malloc(0)] of the list allocator answers when the list is
    empty. *)
Lemma list_malloc_zero_empty s bs fuel :
  Explicit.heap_ok s bs [] -> (0 < fuel)%nat ->
  mem_brk (hp s) + 16 <= mem_max_addr (hp s) ->
  exists r s' bs' fl',
    Explicit.mm_malloc fuel 0 s = Ok r s' /\ r <> NULL /\ r mod 16 = 0 /\
    r = mem_brk (hp s) /\ mem_brk (hp s') = mem_brk (hp s) + 16 /\
    load64 (bytes (hp s')) (r - 8) = Explicit.encode 0 true /\
    Explicit.heap_ok s' bs' fl' /\
    In (r, 0) (Explicit.allocs (Explicit.heap_base s') bs').
Proof.
  intros Hok Hfuel Hroom.
  assert (Hreq : Explicit.required 0 = 0) by reflexivity.
  destruct (wpx_total _ _ _
              (ExplicitFacts.ix_mm_malloc_spec False fuel 0 s bs [] Hok ltac:(lia) ltac:(lia)
                 ltac:(right; right; reflexivity) (or_intror Hfuel)
                 ltac:(right; rewrite Hreq; lia)))
    as (r & s' & Hrun & K1 & K2 & K3 & K4 & Hfr & Hcase).
  rewrite Hreq in Hcase.
  destruct Hcase as [(_ & _ & _ & Hfull & _)|[Ht Hbrk]]; [lia|].
  destruct Hbrk as [(_ & l1 & l2 & Hfl & _)|(Hb & Hr & Hl & _)]; [now destruct l1|].
  destruct (ExplicitFacts.ix_took_allocs _ _ _ _ Ht) as (bs' & fl' & sz & Hok' & Hin & _ & _).
  destruct (ExplicitFacts.ix_aligned_of_alloc _ _ _ _ _ Hok' Hin) as [Ha Hnn].
  exists r, s', bs', fl'. split; [exact Hrun|].
  split; [exact Hnn|]. split; [exact Ha|]. split; [exact Hr|]. split; [lia|].
  split; [exact Hl|]. split; [exact Hok'|].
  pose proof Hok' as [[_ _ _ _ _ _ _ Htags _ _ _ _ _] _].
  pose proof (ix_allocs_header _ _ _ _ _ Htags Hin) as Hh.
  destruct (ExplicitFacts.ix_allocs_inside _ _ _ _ _ Htags Hin) as (_ & _ & _ & Hm & _).
  rewrite Hl in Hh.
  assert (Hz : sz = 0).
  { rewrite <- (ExplicitFacts.ix_decode_size sz true Hm), <- Hh.
    now rewrite ExplicitFacts.ix_decode_size. }
  now rewrite Hz in Hin.
Qed.

End ZeroFacts.

(** *** More sample runs *)

Module MoreRunFacts.
Import Mem Exec MemFacts ExecFacts RunFacts.

Lemma scan_two_blocks_ok :
  Implicit.heap_ok Implicit.after_two_blocks [(16, true); (16, true)].
Proof. heap_facts. Qed.

Lemma scan_free_second_ok :
  Implicit.heap_ok Implicit.after_free_second [(16, true); (16, false)].
Proof. heap_facts. Qed.

Lemma list_init_16_ok : Explicit.heap_ok Explicit.after_init_16 [] [].
Proof. list_heap_facts. Qed.

Lemma list_init_8_ok : Explicit.heap_ok Explicit.after_init_8 [] [].
Proof. list_heap_facts. Qed.

Lemma list_free_first_ok :
  Explicit.heap_ok Explicit.after_free_first [(16, false); (16, true)] [1072].
Proof. list_heap_facts. Qed.




Lemma list_free_first_of_three_ok :
  Explicit.heap_ok Explicit.after_free_first_of_three
    [(16, false); (16, true); (16, true)] [1072].
Proof. list_heap_facts. Qed.





End MoreRunFacts.

(** ** Part III: the claims *)

Module Claims.
Import Mem Exec MemFacts ExecFacts RunFacts MoreRunFacts.



(** C2, as written, fails: the merged block is [prev_free] for the next
    turn of the loop, so merging goes on along a run of free blocks.  Three
    blocks of 16 bytes, all freed, are one block of 48 bytes after one
    [mm_malloc(40)]. *)
Lemma three_free_blocks_collapse :
  Implicit.three_freed (Implicit.fresh 1024 4096) =
    Ok (1040, 1056, 1072) Implicit.after_three_freed /\
  Implicit.heap_ok Implicit.after_three_freed [(16, false); (16, false); (16, false)] /\
  exists s',
    Implicit.mm_malloc 10 40 Implicit.after_three_freed = Ok 1040 s' /\
    Implicit.heap_ok s' [(48, true)].
Proof.
  split; [exact scan_three_freed_run|]. split; [exact scan_three_freed_ok|].
  exists (state_of Implicit.after_three_freed
            (Implicit.mm_malloc 10 40 Implicit.after_three_freed)).
  split; [run_eq|heap_facts].
Qed.

(** C2, amended.  In the scanning allocator [mm_free] of a block in use
    stores one word, the header with the flag cleared, and leaves every
    other byte, the break and the statics as they were.  Merging is done by
    the loop of [mm_malloc]: a free block that is large enough is taken
    without a look at the block after it; a free block is merged into a free
    block directly before it, and the merged block is merged again with the
    next free block, so that three free blocks in a row, the first two
    together too small and the three together large enough, become one
    block in one run of the loop. *)
Theorem free_marks_scan_merges :
  (forall (s : Implicit.st) L1 sz L2,
     Implicit.heap_ok s (L1 ++ (sz, true) :: L2) ->
     exists s',
       Implicit.mm_free (Implicit.heap_base s + Implicit.total L1 + 8) s = Ok tt s' /\
       Implicit.free_post s L1 sz L2 s') /\
  (forall (s : Implicit.st) z1 R fuel size,
     Implicit.heap_ok s ((z1, false) :: R) ->
     Implicit.fits size -> Implicit.required size <= z1 -> (1 <= fuel)%nat ->
     exists s',
       Implicit.mm_malloc fuel size s = Ok (Implicit.heap_base s + 8) s' /\
       Implicit.placed [] z1 R (Implicit.required size) s') /\
  (forall (s : Implicit.st) z1 z2 z3 R fuel size,
     Implicit.heap_ok s ((z1, false) :: (z2, false) :: (z3, false) :: R) ->
     Implicit.fits size ->
     z1 + z2 < Implicit.required size <= z1 + z2 + z3 ->
     Implicit.heap_base s + z1 + z2 <= Implicit.mm_heap_last (gl s) ->
     (3 <= fuel)%nat ->
     exists s',
       Implicit.mm_malloc fuel size s = Ok (Implicit.heap_base s + 8) s' /\
       Implicit.placed [] (z1 + z2 + z3) R (Implicit.required size) s').
Proof.
  split; [|split].
  - intros s L1 sz L2 Hok.
    destruct (wpx_total _ _ _ (ImplicitFacts.mm_free_spec False s L1 sz L2 Hok))
      as ([] & s' & Hrun & Hpost).
    exists s'. split; [exact Hrun|exact Hpost].
  - intros s z1 R fuel size Hok [Hs0 Hs1] Hreq Hfuel.
    destruct (wpx_total _ _ _
                (ImplicitFacts.malloc_takes_first fuel size s z1 R Hok Hs0 Hs1 Hreq Hfuel))
      as (r & s' & Hrun & -> & Hp).
    exists s'. split; [exact Hrun|exact Hp].
  - intros s z1 z2 z3 R fuel size Hok [Hs0 Hs1] Hreq Hlast Hfuel.
    destruct (wpx_total _ _ _
                (ImplicitFacts.malloc_merges_three fuel size s z1 z2 z3 R Hok Hs0 Hs1
                   Hreq Hlast Hfuel))
      as (r & s' & Hrun & -> & Hp).
    exists s'. split; [exact Hrun|exact Hp].
Qed.



(** C6.  The list allocator keeps the free list and the flags in step:
    after any run of calls the nodes linked between the head and the tail
    sentinel are the payloads of the blocks whose tags say free.  The
    scanning allocator does not keep its walk and the flags in step.  After
    [a = mm_malloc(8); b = mm_malloc(40); mm_free(a); mm_free(b);
    c = mm_malloc(24)] the heap is a block in use at 1032 and a free block
    of 32 bytes at 1064, while [mm_heap_last] is still 1048, the header of
    the block that was merged away.  The loop stops at [mm_heap_last]: from
    the first block it ends without a fit for any size, and [mm_malloc(8)]
    moves the break although the free block would do. *)
Theorem free_blocks_and_index :
  (Implicit.lost_block (Implicit.fresh 1024 4096) =
     Ok (1040, 1056, 1040) Implicit.after_lost_block /\
   Implicit.heap_ok Implicit.after_lost_block [(32, true); (32, false)] /\
   Implicit.mm_heap_first (gl Implicit.after_lost_block) = 1032 /\
   Implicit.mm_heap_last (gl Implicit.after_lost_block) = 1048 /\
   (forall fuel req prev,
      Implicit.scan (S (S fuel)) req 1032 prev Implicit.after_lost_block =
        Ok None Implicit.after_lost_block) /\
   exists s',
     Implicit.mm_malloc 10 8 Implicit.after_lost_block = Ok 1104 s' /\
     mem_brk (hp s') = mem_brk (hp Implicit.after_lost_block) + 16) /\
  (forall (s : Explicit.st) L,
     Explicit.reach s L ->
     exists bs fl,
       Explicit.heap_ok s bs fl /\
       Explicit.dseg (bytes (hp s)) (Explicit.head (gl s)) fl (Explicit.tail (gl s)) /\
       fl ≡ₚ Explicit.frees (Explicit.heap_base s) bs).
Proof.
  split.
  - split; [exact scan_lost_block_run|]. split; [exact scan_lost_block_ok|].
    split; [run_eq|]. split; [run_eq|]. split.
    + intros fuel req prev. apply wpx_ok.
      eapply wpx_mono.
      * apply (ImplicitFacts.scan_ends_at_last False fuel req Implicit.after_lost_block
                 [] 32 [(32, false)] prev scan_lost_block_ok).
        split; run_fact.
      * intros a s' H. exact H.
    + exists (state_of Implicit.after_lost_block
                (Implicit.mm_malloc 10 8 Implicit.after_lost_block)).
      split; run_eq.
  - intros s L Hr. apply ExplicitFacts.ix_reach_holds in Hr as (bs & fl & Hok & _).
    exists bs, fl. split; [exact Hok|].
    pose proof Hok as [[_ _ _ _ Hh Ht _ _ _ _ Hl _ _] Hp].
    rewrite Hh, Ht. split; [exact Hl|exact Hp].
Qed.




(** C10.  A request of no bytes.  In the scanning allocator, with room for
    16 bytes, [mm_malloc 0] returns a pointer that is not null and is a
    multiple of 16, the payload of a block now allocated, of 16 bytes or
    more, apart from every block allocated before; if the region grew the
    block is one of 16 bytes, header included.  In the list allocator, with
    an empty free list and room for the two tags, it returns the old break,
    a multiple of 16, as the payload of an allocated block of size 0.  With
    a node on the list it takes the block of the node before the tail: whole
    when that block has 16 bytes, while for a block of 32 bytes or more
    [split] makes a block with no payload and the call faults, with or
    without room in the region. *)
Theorem malloc_zero :
  (forall (s : Implicit.st) bs fuel,
     Implicit.heap_ok s bs -> (length bs < fuel)%nat ->
     mem_brk (hp s) + 16 <= mem_max_addr (hp s) ->
     exists r s' nsz bs',
       Implicit.mm_malloc fuel 0 s = Ok r s' /\ r <> NULL /\ r mod 16 = 0 /\
       Implicit.heap_ok s' bs' /\
       In (r - 8, nsz) (Implicit.allocs (Implicit.heap_base s') bs') /\ 16 <= nsz /\
       (forall b z, In (b, z) (Implicit.allocs (Implicit.heap_base s) bs) ->
          In (b, z) (Implicit.allocs (Implicit.heap_base s') bs') /\
          (b + z <= r - 8 \/ r - 8 + nsz <= b)) /\
       (mem_brk (hp s') = mem_brk (hp s) \/
        (mem_brk (hp s') = mem_brk (hp s) + 16 /\ r = mem_brk (hp s) + 8 /\ nsz = 16 /\
         load64 (bytes (hp s')) (r - 8) = Implicit.encode 16 true))) /\
  (forall (s : Explicit.st) bs fuel,
     Explicit.heap_ok s bs [] -> (0 < fuel)%nat ->
     mem_brk (hp s) + 16 <= mem_max_addr (hp s) ->
     exists r s' bs' fl',
       Explicit.mm_malloc fuel 0 s = Ok r s' /\ r <> NULL /\ r mod 16 = 0 /\
       r = mem_brk (hp s) /\ mem_brk (hp s') = mem_brk (hp s) + 16 /\
       load64 (bytes (hp s')) (r - 8) = Explicit.encode 0 true /\
       Explicit.heap_ok s' bs' fl' /\
       In (r, 0) (Explicit.allocs (Explicit.heap_base s') bs')) /\
  (forall (s : Explicit.st) P bsz R l fuel,
     Explicit.heap_ok s (P ++ (bsz, false) :: R)
       (l ++ [Explicit.heap_base s + Explicit.span P + 16]) ->
     (1 <= fuel)%nat ->
     (bsz <= 16 ->
      exists s',
        Explicit.mm_malloc fuel 0 s =
          Ok (Explicit.heap_base s + Explicit.span P + 16) s' /\
        Explicit.heap_ok s' (P ++ (bsz, true) :: R) l) /\
     (32 <= bsz -> Explicit.mm_malloc fuel 0 s = Fault)).
Proof.
  split; [|split].
  - exact ZeroFacts.scan_malloc_zero.
  - exact ZeroFacts.list_malloc_zero_empty.
  - intros s P bsz R l fuel Hok Hfuel. split.
    + intros Hsmall.
      destruct (wpx_total _ _ _ (FitFacts.malloc_zero_whole fuel s P bsz R l Hok Hsmall Hfuel))
        as (r & s' & Hrun & -> & Hok').
      exists s'. auto.
    + intros Hbig. exact (FitFacts.malloc_zero_split_faults fuel s P bsz R l Hok Hbig Hfuel).
Qed.


(** C5.  When the search has found a free block that fits, the block is
    split only if what remains can stand as a block of its own.  In the
    scanning allocator [mm_malloc] answers the first free block that is
    large enough, and a merged run of free blocks likewise; [place] splits
    it when the remainder is at least 24 bytes, a header and the alignment
    unit, and the remainder is the new free block; otherwise the whole block
    is allocated.  In the list allocator [find_fit], and [mm_malloc] for a
    request of at least one byte, answer the block nearest to the tail that
    is large enough; [take] splits it when the block has at least 32 bytes
    more than asked for, the two tags and a payload of 16 bytes for the
    node, and the remainder is linked before the tail; otherwise the whole
    block is allocated.  Either way the heap is left well formed.  A request
    of no bytes is outside this rule in the list allocator: it takes the
    block of the node before the tail whatever its size, whole when the
    block has 16 bytes, while a block of 32 bytes or more is split into a
    block with no payload and the call faults. *)
Theorem split_threshold :
  (forall (s : Implicit.st) P csz R req,
     Implicit.heap_ok s (P ++ (csz, false) :: R) ->
     16 <= req <= csz -> req mod 16 = 0 ->
     exists p s',
       Implicit.place (Implicit.heap_base s + Implicit.total P) csz req s = Ok p s' /\
       Implicit.placed P csz R req s') /\
  (forall (s : Implicit.st) P z R fuel size,
     Implicit.heap_ok s (P ++ (z, false) :: R) ->
     Forall (fun b => snd b = true) P ->
     Implicit.heap_base s + Implicit.total P <= Implicit.mm_heap_last (gl s) ->
     Implicit.fits size -> Implicit.required size <= z -> (length P < fuel)%nat ->
     exists s',
       Implicit.mm_malloc fuel size s = Ok (Implicit.heap_base s + Implicit.total P + 8) s' /\
       Implicit.placed P z R (Implicit.required size) s') /\
  (forall (s : Implicit.st) z1 z2 z3 R fuel size,
     Implicit.heap_ok s ((z1, false) :: (z2, false) :: (z3, false) :: R) ->
     Implicit.fits size ->
     z1 + z2 < Implicit.required size <= z1 + z2 + z3 ->
     Implicit.heap_base s + z1 + z2 <= Implicit.mm_heap_last (gl s) ->
     (3 <= fuel)%nat ->
     exists s',
       Implicit.mm_malloc fuel size s = Ok (Implicit.heap_base s + 8) s' /\
       Implicit.placed [] (z1 + z2 + z3) R (Implicit.required size) s') /\
  (forall (s : Explicit.st) P bsz R fl size,
     Explicit.heap_ok s (P ++ (bsz, false) :: R) fl ->
     16 <= size <= bsz -> size mod 16 = 0 ->
     exists r s',
       Explicit.take (Explicit.heap_base s + Explicit.span P) bsz size s = Ok r s' /\
       Explicit.carved s fl P bsz R size s') /\
  (forall (s : Explicit.st) P bsz R fl l1 l2 fuel size,
     Explicit.heap_ok s (P ++ (bsz, false) :: R) fl ->
     16 <= size <= bsz -> size mod 16 = 0 ->
     fl = l1 ++ (Explicit.heap_base s + Explicit.span P + 16) :: l2 ->
     (forall x, In x l2 -> Explicit.block_size (bytes (hp s)) x < size) ->
     (length l2 < fuel)%nat ->
     exists s',
       Explicit.find_fit fuel size s = Ok (Explicit.heap_base s + Explicit.span P) s' /\
       Explicit.carved s fl P bsz R size s') /\
  (forall (s : Explicit.st) P bsz R fl l1 l2 fuel size,
     Explicit.heap_ok s (P ++ (bsz, false) :: R) fl ->
     0 < size -> size + 15 < 2 ^ 64 -> Explicit.required size <= bsz ->
     fl = l1 ++ (Explicit.heap_base s + Explicit.span P + 16) :: l2 ->
     (forall x, In x l2 ->
        Explicit.block_size (bytes (hp s)) x < Explicit.required size) ->
     (length l2 < fuel)%nat ->
     exists s',
       Explicit.mm_malloc fuel size s =
         Ok (Explicit.heap_base s + Explicit.span P + 16) s' /\
       Explicit.carved s fl P bsz R (Explicit.required size) s') /\
  (forall (s : Explicit.st) P bsz R l fuel,
     Explicit.heap_ok s (P ++ (bsz, false) :: R)
       (l ++ [Explicit.heap_base s + Explicit.span P + 16]) ->
     (1 <= fuel)%nat ->
     (bsz <= 16 ->
      exists s',
        Explicit.mm_malloc fuel 0 s =
          Ok (Explicit.heap_base s + Explicit.span P + 16) s' /\
        Explicit.heap_ok s' (P ++ (bsz, true) :: R) l) /\
     (32 <= bsz -> Explicit.mm_malloc fuel 0 s = Fault)).
Proof.
  split; [|split; [|split; [|split; [|split; [|split]]]]].
  - intros s P csz R req Hok Hreq Hm.
    destruct (wpx_total _ _ _
                (ImplicitFacts.place_spec False s P csz R req (bytes (hp s)) _ Hok Hreq Hm
                   eq_refl (ImplicitFacts.frame_refl _ _)))
      as (p & s' & Hrun & _ & _ & _ & Hp & _).
    exists p, s'. auto.
  - intros s P z R fuel size Hok HP Hlast [Hs0 Hs1] Hreq Hfuel.
    destruct (wpx_total _ _ _
                (ImplicitMore.malloc_first_fit fuel size s P z R Hok HP Hlast Hs0 Hs1 Hreq
                   Hfuel))
      as (r & s' & Hrun & -> & Hp).
    exists s'. split; [exact Hrun|exact Hp].
  - intros s z1 z2 z3 R fuel size Hok [Hs0 Hs1] Hreq Hlast Hfuel.
    destruct (wpx_total _ _ _
                (ImplicitFacts.malloc_merges_three fuel size s z1 z2 z3 R Hok Hs0 Hs1
                   Hreq Hlast Hfuel))
      as (r & s' & Hrun & -> & Hp).
    exists s'. split; [exact Hrun|exact Hp].
  - intros s P bsz R fl size Hok Hsz Hm.
    destruct (wpx_total _ _ _
                (ExplicitFacts.take_spec False s P bsz R fl size _ Hok ltac:(lia) Hm
                   ltac:(right; lia) eq_refl))
      as (r & s' & Hrun & _ & _ & _ & _ & Hc).
    exists r, s'. auto.
  - intros s P bsz R fl l1 l2 fuel size Hok Hsz Hm Hfl Hsmall Hfuel.
    destruct (wpx_total _ _ _
                (FitFacts.find_fit_carves fuel size s P bsz R fl l1 l2 Hok Hsz Hm Hfl
                   Hsmall Hfuel))
      as (r & s' & Hrun & -> & Hc).
    exists s'. auto.
  - intros s P bsz R fl l1 l2 fuel size Hok H0 H1 Hreq Hfl Hsmall Hfuel.
    destruct (wpx_total _ _ _
                (FitFacts.malloc_carves fuel size s P bsz R fl l1 l2 Hok H0 H1 Hreq Hfl
                   Hsmall Hfuel))
      as (r & s' & Hrun & -> & Hc).
    exists s'. auto.
  - intros s P bsz R l fuel Hok Hfuel. split.
    + intros Hsmall.
      destruct (wpx_total _ _ _ (FitFacts.malloc_zero_whole fuel s P bsz R l Hok Hsmall Hfuel))
        as (r & s' & Hrun & -> & Hok').
      exists s'. auto.
    + intros Hbig. exact (FitFacts.malloc_zero_split_faults fuel s P bsz R l Hok Hbig Hfuel).
Qed.

(** *** The theorems at sample states *)


Lemma free_marks_scan_merges_witness :
  (Implicit.heap_ok Implicit.after_one_block ([] ++ [(16, true)]) /\
   exists s',
     Implicit.mm_free (Implicit.heap_base Implicit.after_one_block + 0 + 8)
       Implicit.after_one_block = Ok tt s' /\
     Implicit.free_post Implicit.after_one_block [] 16 [] s') /\
  (Implicit.heap_ok Implicit.after_two_freed [(16, false); (16, false)] /\
   Implicit.fits 8 /\ Implicit.required 8 <= 16 /\
   exists s',
     Implicit.mm_malloc 1 8 Implicit.after_two_freed =
       Ok (Implicit.heap_base Implicit.after_two_freed + 8) s' /\
     Implicit.placed [] 16 [(16, false)] (Implicit.required 8) s') /\
  (Implicit.heap_ok Implicit.after_three_freed [(16, false); (16, false); (16, false)] /\
   Implicit.fits 40 /\ 16 + 16 < Implicit.required 40 <= 16 + 16 + 16 /\
   Implicit.heap_base Implicit.after_three_freed + 16 + 16 <=
     Implicit.mm_heap_last (gl Implicit.after_three_freed) /\
   exists s',
     Implicit.mm_malloc 3 40 Implicit.after_three_freed =
       Ok (Implicit.heap_base Implicit.after_three_freed + 8) s' /\
     Implicit.placed [] (16 + 16 + 16) [] (Implicit.required 40) s').
Proof.
  assert (F1 : Implicit.fits 8) by (split; run_fact).
  assert (F2 : Implicit.fits 40) by (split; run_fact).
  assert (Q1 : Implicit.required 8 <= 16) by run_fact.
  assert (Q2 : 16 + 16 < Implicit.required 40 <= 16 + 16 + 16) by (split; run_fact).
  assert (Q3 : Implicit.heap_base Implicit.after_three_freed + 16 + 16 <=
               Implicit.mm_heap_last (gl Implicit.after_three_freed)) by run_fact.
  destruct free_marks_scan_merges as (T1 & T2 & T3).
  split; [|split].
  - split; [exact scan_one_block_ok|].
    exact (T1 Implicit.after_one_block [] 16 [] scan_one_block_ok).
  - split; [exact scan_two_freed_ok|]. split; [exact F1|]. split; [exact Q1|].
    exact (T2 _ _ _ 1%nat 8 scan_two_freed_ok F1 Q1 ltac:(lia)).
  - split; [exact scan_three_freed_ok|]. split; [exact F2|]. split; [exact Q2|].
    split; [exact Q3|].
    exact (T3 _ _ _ _ _ 3%nat 40 scan_three_freed_ok F2 Q2 Q3 ltac:(lia)).
Defined.



Lemma split_threshold_witness :
  (Implicit.heap_ok Implicit.after_two_freed ([] ++ [(16, false); (16, false)]) /\
   exists p s',
     Implicit.place (Implicit.heap_base Implicit.after_two_freed + Implicit.total [])
       16 16 Implicit.after_two_freed = Ok p s' /\
     Implicit.placed [] 16 [(16, false)] 16 s') /\
  (Implicit.heap_ok Implicit.after_free_second ([(16, true)] ++ [(16, false)]) /\
   Forall (fun b : Z * bool => snd b = true) [(16, true)] /\
   Implicit.heap_base Implicit.after_free_second + Implicit.total [(16, true)] <=
     Implicit.mm_heap_last (gl Implicit.after_free_second) /\
   Implicit.fits 8 /\ Implicit.required 8 <= 16 /\
   exists s',
     Implicit.mm_malloc 10 8 Implicit.after_free_second =
       Ok (Implicit.heap_base Implicit.after_free_second + Implicit.total [(16, true)] + 8)
          s' /\
     Implicit.placed [(16, true)] 16 [] (Implicit.required 8) s') /\
  (Implicit.heap_ok Implicit.after_three_freed [(16, false); (16, false); (16, false)] /\
   exists s',
     Implicit.mm_malloc 3 40 Implicit.after_three_freed =
       Ok (Implicit.heap_base Implicit.after_three_freed + 8) s' /\
     Implicit.placed [] (16 + 16 + 16) [] (Implicit.required 40) s') /\
  (Explicit.heap_ok Explicit.after_two_frees ([] ++ [(64, false)]) [1072] /\
   exists r s',
     Explicit.take (Explicit.heap_base Explicit.after_two_frees + Explicit.span [])
       64 16 Explicit.after_two_frees = Ok r s' /\
     Explicit.carved Explicit.after_two_frees [1072] [] 64 [] 16 s') /\
  (Explicit.heap_ok Explicit.after_sandwich
     ([(16, false); (16, true)] ++ [(16, false)]) [1072; 1136] /\
   exists s',
     Explicit.find_fit 3 16 Explicit.after_sandwich =
       Ok (Explicit.heap_base Explicit.after_sandwich +
           Explicit.span [(16, false); (16, true)]) s' /\
     Explicit.carved Explicit.after_sandwich [1072; 1136] [(16, false); (16, true)] 16 []
       16 s') /\
  (Explicit.heap_ok Explicit.after_two_frees ([] ++ [(64, false)]) [1072] /\
   exists s',
     Explicit.mm_malloc 3 10 Explicit.after_two_frees =
       Ok (Explicit.heap_base Explicit.after_two_frees + Explicit.span [] + 16) s' /\
     Explicit.carved Explicit.after_two_frees [1072] [] 64 [] (Explicit.required 10) s') /\
  (Explicit.heap_ok Explicit.after_free_first ([] ++ (16, false) :: [(16, true)])
     ([] ++ [Explicit.heap_base Explicit.after_free_first + Explicit.span [] + 16]) /\
   exists s',
     Explicit.mm_malloc 1 0 Explicit.after_free_first =
       Ok (Explicit.heap_base Explicit.after_free_first + Explicit.span [] + 16) s' /\
     Explicit.heap_ok s' ([] ++ (16, true) :: [(16, true)]) []) /\
  (Explicit.heap_ok Explicit.after_two_frees ([] ++ [(64, false)])
     ([] ++ [Explicit.heap_base Explicit.after_two_frees + Explicit.span [] + 16]) /\
   Explicit.mm_malloc 1 0 Explicit.after_two_frees = Fault).
Proof.
  assert (F1 : Implicit.fits 8) by (split; run_fact).
  assert (F2 : Implicit.fits 40) by (split; run_fact).
  assert (Q1 : Implicit.required 8 <= 16) by run_fact.
  assert (Q2 : 16 + 16 < Implicit.required 40 <= 16 + 16 + 16) by (split; run_fact).
  assert (Q3 : Implicit.heap_base Implicit.after_three_freed + 16 + 16 <=
               Implicit.mm_heap_last (gl Implicit.after_three_freed)) by run_fact.
  assert (Q4 : Forall (fun b : Z * bool => snd b = true) [(16, true)])
    by (constructor; [reflexivity|constructor]).
  assert (Q5 : Implicit.heap_base Implicit.after_free_second + Implicit.total [(16, true)] <=
               Implicit.mm_heap_last (gl Implicit.after_free_second)) by run_fact.
  assert (K1 : forall x, In x [] ->
            Explicit.block_size (bytes (hp Explicit.after_sandwich)) x < 16)
    by (intros x []).
  assert (K2 : forall x, In x [] ->
            Explicit.block_size (bytes (hp Explicit.after_two_frees)) x <
            Explicit.required 10) by (intros x []).
  destruct split_threshold as (T1 & T2 & T3 & T4 & T5 & T6 & T7).
  split; [|split; [|split; [|split; [|split; [|split; [|split]]]]]].
  - split; [exact scan_two_freed_ok|].
    exact (T1 Implicit.after_two_freed [] 16 [(16, false)] 16 scan_two_freed_ok
             ltac:(lia) eq_refl).
  - split; [exact scan_free_second_ok|]. split; [exact Q4|]. split; [exact Q5|].
    split; [exact F1|]. split; [exact Q1|].
    exact (T2 Implicit.after_free_second [(16, true)] 16 [] 10%nat 8 scan_free_second_ok
             Q4 Q5 F1 Q1 ltac:(simpl; lia)).
  - split; [exact scan_three_freed_ok|].
    exact (T3 _ _ _ _ _ 3%nat 40 scan_three_freed_ok F2 Q2 Q3 ltac:(lia)).
  - split; [exact list_two_frees_ok|].
    exact (T4 Explicit.after_two_frees [] 64 [] [1072] 16 list_two_frees_ok
             ltac:(lia) eq_refl).
  - split; [exact list_sandwich_ok|].
    exact (T5 Explicit.after_sandwich [(16, false); (16, true)] 16 [] [1072; 1136]
             [1072] [] 3%nat 16 list_sandwich_ok ltac:(lia) eq_refl eq_refl K1
             ltac:(simpl; lia)).
  - split; [exact list_two_frees_ok|].
    exact (T6 Explicit.after_two_frees [] 64 [] [1072] [] [] 3%nat 10 list_two_frees_ok
             ltac:(lia) ltac:(lia) ltac:(run_fact) eq_refl K2 ltac:(simpl; lia)).
  - split; [exact list_free_first_ok|].
    exact (proj1 (T7 Explicit.after_free_first [] 16 [(16, true)] [] 1%nat
                    list_free_first_ok ltac:(lia)) ltac:(lia)).
  - split; [exact list_two_frees_ok|].
    exact (proj2 (T7 Explicit.after_two_frees [] 64 [] [] 1%nat
                    list_two_frees_ok ltac:(lia)) ltac:(lia)).
Defined.

Lemma free_blocks_and_index_witness :
  Explicit.reach Explicit.after_init ∅ /\
  exists bs fl,
    Explicit.heap_ok Explicit.after_init bs fl /\
    Explicit.dseg (bytes (hp Explicit.after_init)) (Explicit.head (gl Explicit.after_init))
      fl (Explicit.tail (gl Explicit.after_init)) /\
    fl ≡ₚ Explicit.frees (Explicit.heap_base Explicit.after_init) bs.
Proof.
  assert (R0 : Explicit.reach Explicit.after_init ∅).
  { apply (Explicit.reach_init 1024 4096); [reflexivity|lia|run_fact|exact list_init_run]. }
  split; [exact R0|].
  exact (proj2 free_blocks_and_index Explicit.after_init ∅ R0).
Defined.




Lemma malloc_zero_witness :
  (Implicit.heap_ok Implicit.after_one_block [(16, true)] /\
   mem_brk (hp Implicit.after_one_block) + 16 <= mem_max_addr (hp Implicit.after_one_block) /\
   exists r s' nsz bs',
     Implicit.mm_malloc 2 0 Implicit.after_one_block = Ok r s' /\ r <> NULL /\
     r mod 16 = 0 /\
     Implicit.heap_ok s' bs' /\
     In (r - 8, nsz) (Implicit.allocs (Implicit.heap_base s') bs') /\ 16 <= nsz /\
     (forall b z,
        In (b, z) (Implicit.allocs (Implicit.heap_base Implicit.after_one_block)
                     [(16, true)]) ->
        In (b, z) (Implicit.allocs (Implicit.heap_base s') bs') /\
        (b + z <= r - 8 \/ r - 8 + nsz <= b)) /\
     (mem_brk (hp s') = mem_brk (hp Implicit.after_one_block) \/
      (mem_brk (hp s') = mem_brk (hp Implicit.after_one_block) + 16 /\
       r = mem_brk (hp Implicit.after_one_block) + 8 /\ nsz = 16 /\
       load64 (bytes (hp s')) (r - 8) = Implicit.encode 16 true))) /\
  (Explicit.heap_ok Explicit.after_one_block_roomy [(16, true)] [] /\
   mem_brk (hp Explicit.after_one_block_roomy) + 16 <=
     mem_max_addr (hp Explicit.after_one_block_roomy) /\
   exists r s' bs' fl',
     Explicit.mm_malloc 1 0 Explicit.after_one_block_roomy = Ok r s' /\ r <> NULL /\
     r mod 16 = 0 /\
     r = mem_brk (hp Explicit.after_one_block_roomy) /\
     mem_brk (hp s') = mem_brk (hp Explicit.after_one_block_roomy) + 16 /\
     load64 (bytes (hp s')) (r - 8) = Explicit.encode 0 true /\
     Explicit.heap_ok s' bs' fl' /\
     In (r, 0) (Explicit.allocs (Explicit.heap_base s') bs')) /\
  (Explicit.heap_ok Explicit.after_free_first ([] ++ (16, false) :: [(16, true)])
     ([] ++ [Explicit.heap_base Explicit.after_free_first + Explicit.span [] + 16]) /\
   exists s',
     Explicit.mm_malloc 1 0 Explicit.after_free_first =
       Ok (Explicit.heap_base Explicit.after_free_first + Explicit.span [] + 16) s' /\
     Explicit.heap_ok s' ([] ++ (16, true) :: [(16, true)]) []) /\
  (Explicit.heap_ok Explicit.after_two_frees ([] ++ [(64, false)])
     ([] ++ [Explicit.heap_base Explicit.after_two_frees + Explicit.span [] + 16]) /\
   Explicit.mm_malloc 1 0 Explicit.after_two_frees = Fault).
Proof.
  assert (Q1 : mem_brk (hp Implicit.after_one_block) + 16 <=
               mem_max_addr (hp Implicit.after_one_block)) by run_fact.
  assert (Q2 : mem_brk (hp Explicit.after_one_block_roomy) + 16 <=
               mem_max_addr (hp Explicit.after_one_block_roomy)) by run_fact.
  destruct malloc_zero as (T1 & T2 & T3).
  split; [|split; [|split]].
  - split; [exact scan_one_block_ok|]. split; [exact Q1|].
    exact (T1 Implicit.after_one_block [(16, true)] 2%nat scan_one_block_ok
             ltac:(simpl; lia) Q1).
  - split; [exact list_one_block_roomy_ok|]. split; [exact Q2|].
    exact (T2 Explicit.after_one_block_roomy [(16, true)] 1%nat list_one_block_roomy_ok
             ltac:(lia) Q2).
  - split; [exact list_free_first_ok|].
    exact (proj1 (T3 Explicit.after_free_first [] 16 [(16, true)] [] 1%nat
                    list_free_first_ok ltac:(lia)) ltac:(lia)).
  - split; [exact list_two_frees_ok|].
    exact (proj2 (T3 Explicit.after_two_frees [] 64 [] [] 1%nat
                    list_two_frees_ok ltac:(lia)) ltac:(lia)).
Defined.

End Claims.

(** ** Part IV: further properties of the code *)

(** *** The properties *)

Module Extras.
Import Mem Exec MemFacts ExecFacts RunFacts MoreRunFacts FaultFacts.
#[local] Ltac Zify.zify_post_hook ::= Z.div_mod_to_equations.

(** X1.  No call of a run of the scanning allocator faults or runs on: from
    a state a run has reached, with blocks [bs], a call the caller may make
    returns for every loop budget above the number of blocks. *)
Theorem scan_calls_return (s : Implicit.st) L c :
  Implicit.reach s L -> Implicit.valid L c ->
  exists bs, Implicit.heap_ok s bs /\
    forall fuel, (length bs < fuel)%nat ->
      exists r s', Implicit.run_call fuel c s = Ok r s'.
Proof.
  intros Hr Hv. apply ImplicitFacts.reach_holds in Hr as (bs & Hok & HL).
  exists bs. split; [exact Hok|]. intros fuel Hfuel.
  assert (Hm : forall size, Implicit.fits size ->
                 exists r s', Implicit.mm_malloc fuel size s = Ok r s').
  { intros size [H0 H1].
    destruct (wpx_total _ _ _
                (ImplicitFacts.mm_malloc_spec False fuel size s bs H0 H1
                   (or_intror Hfuel) Hok)) as (r & s' & Hrun & _).
    eauto. }
  assert (Hf : forall ptr, ptr = NULL \/ ptr ∈ L ->
                 exists s', Implicit.mm_free ptr s = Ok tt s').
  { intros ptr [->|Hp]; [exists s; reflexivity|].
    destruct (HL _ Hp) as [sz Hin].
    destruct (ImplicitFacts.allocs_split _ _ _ _ Hin) as (L1 & L2 & -> & Hptr).
    destruct (wpx_total _ _ _ (ImplicitFacts.mm_free_spec False s L1 sz L2 Hok))
      as ([] & s' & Hrun & _).
    exists s'. rewrite <- Hrun. f_equal. lia. }
  destruct c as [size|ptr|ptr size|nmemb size]; simpl in *.
  - apply Hm, Hv.
  - destruct (Hf _ Hv) as [s' Hrun]. exists NULL, s'. unfold bind. now rewrite Hrun.
  - destruct Hv as [Hp Hfit]. unfold Implicit.mm_realloc.
    destruct (Z.eqb_spec ptr NULL) as [Hnull|Hnn]; [apply Hm, Hfit|].
    destruct (Z.eqb_spec size 0) as [Hz|Hnz].
    { destruct (Hf _ Hp) as [s' Hrun]. exists NULL, s'. unfold bind. now rewrite Hrun. }
    destruct Hp as [Hp|Hp]; [contradiction|].
    destruct (HL _ Hp) as [sz Hin].
    destruct (ImplicitFacts.allocs_split _ _ _ _ Hin) as (L1 & L2 & -> & Hptr).
    destruct Hfit as [H0 H1].
    destruct (wpx_total _ _ _
                (ImplicitFacts.mm_realloc_spec False fuel size s L1 sz L2 ltac:(lia) H1
                   (or_intror Hfuel) Hok)) as (r & s' & Hrun & _).
    exists r, s'. rewrite <- Hrun. unfold Implicit.mm_realloc.
    replace (Implicit.heap_base s + Implicit.total L1 + 8) with ptr by lia.
    destruct (Z.eqb_spec ptr NULL); [contradiction|].
    destruct (Z.eqb_spec size 0); [contradiction|]. reflexivity.
  - destruct Hv as [H0 H1].
    destruct (wpx_total _ _ _
                (ImplicitFacts.mm_calloc_spec False fuel nmemb size s bs H1
                   (or_intror Hfuel) Hok)) as (r & s' & Hrun & _).
    eauto.
Qed.

(** X2.  A block the scanning allocator hands out is the caller's alone:
    when [mm_malloc] returns a pointer other than [NULL] it is the payload
    of a block inside the region, large enough for the request, that shares
    no byte with any block allocated before; those blocks are still
    allocated and none of their bytes has changed. *)
Theorem scan_malloc_block_apart (s : Implicit.st) bs fuel size :
  Implicit.heap_ok s bs -> Implicit.fits size -> (length bs < fuel)%nat ->
  exists r s',
    Implicit.mm_malloc fuel size s = Ok r s' /\
    (r <> NULL ->
     exists nsz bs',
       size + 8 <= nsz /\
       mem_start_brk (hp s') + 16 <= r /\ r - 8 + nsz <= mem_brk (hp s') /\
       Implicit.heap_ok s' bs' /\
       In (r - 8, nsz) (Implicit.allocs (Implicit.heap_base s') bs') /\
       forall b z, In (b, z) (Implicit.allocs (Implicit.heap_base s) bs) ->
         (b + z <= r - 8 \/ r - 8 + nsz <= b) /\
         In (b, z) (Implicit.allocs (Implicit.heap_base s') bs') /\
         forall a, b <= a < b + z -> load8 (bytes (hp s')) a = load8 (bytes (hp s)) a).
Proof.
  intros Hok [H0 H1] Hfuel.
  destruct (wpx_total _ _ _
              (ImplicitFacts.mm_malloc_spec False fuel size s bs H0 H1
                 (or_intror Hfuel) Hok)) as (r & s' & Hrun & Hsb & Hfr & Hcase).
  exists r, s'. split; [exact Hrun|]. intros Hnn.
  destruct Hcase as [(Hr & _)|[Ht _]]; [congruence|].
  destruct (ImplicitMore.took_block _ _ _ _ Ht)
    as (nsz & Hreq & _ & Hlo & Hhi & (bs' & Hok' & Hin & Hkeep) & Hapart).
  pose proof (ImplicitFacts.heap_base_eq s') as Hb.
  exists nsz, bs'. split; [exact Hreq|]. split; [lia|]. split; [exact Hhi|].
  split; [exact Hok'|]. split; [exact Hin|].
  intros b z Hbz. split; [exact (Hapart _ _ Hbz)|]. split; [exact (Hkeep _ _ Hbz)|].
  intros a Ha. exact (Hfr _ _ _ Hbz Ha).
Qed.

(** X3.  [mm_calloc] of the scanning allocator takes the product of its
    arguments as [size_t] arithmetic gives it, wrapped to 64 bits.  When it
    returns a pointer other than [NULL], that many bytes from the pointer on
    read 0, they lie in a block allocated for them, and the blocks
    allocated before keep their bytes. *)
Theorem scan_calloc_zeroed (s : Implicit.st) bs fuel nmemb size :
  Implicit.heap_ok s bs -> Implicit.fits (wrap (nmemb * size)) ->
  (length bs < fuel)%nat ->
  exists r s',
    Implicit.mm_calloc fuel nmemb size s = Ok r s' /\
    (r <> NULL ->
     (forall i, 0 <= i < wrap (nmemb * size) -> load8 (bytes (hp s')) (r + i) = 0) /\
     (exists nsz bs',
        wrap (nmemb * size) + 8 <= nsz /\ Implicit.heap_ok s' bs' /\
        In (r - 8, nsz) (Implicit.allocs (Implicit.heap_base s') bs')) /\
     forall b z a, In (b, z) (Implicit.allocs (Implicit.heap_base s) bs) ->
       b <= a < b + z -> load8 (bytes (hp s')) a = load8 (bytes (hp s)) a).
Proof.
  intros Hok [H0 H1] Hfuel.
  destruct (wpx_total _ _ _
              (ImplicitFacts.mm_calloc_spec False fuel nmemb size s bs H1
                 (or_intror Hfuel) Hok)) as (r & s' & Hrun & Hsb & Hfr & Hcase).
  exists r, s'. split; [exact Hrun|]. intros Hnn.
  destruct Hcase as [(Hr & _)|[Ht Hz]]; [congruence|].
  destruct (ImplicitMore.took_block _ _ _ _ Ht)
    as (nsz & Hreq & _ & _ & _ & (bs' & Hok' & Hin & _) & _).
  split; [exact Hz|]. split; [exists nsz, bs'; auto|exact Hfr].
Qed.

(** X4.  In the scanning allocator a second [mm_free] of the same pointer
    does no harm: [mm_free] does not look at the flag, it stores the header
    with the flag cleared again, and the heap has the same blocks, the same
    break and the same statics as after the first. *)
Theorem scan_double_free (s : Implicit.st) L1 sz L2 :
  Implicit.heap_ok s (L1 ++ (sz, true) :: L2) ->
  let p := Implicit.heap_base s + Implicit.total L1 + 8 in
  exists s1 s2,
    Implicit.mm_free p s = Ok tt s1 /\ Implicit.mm_free p s1 = Ok tt s2 /\
    Implicit.heap_ok s1 (L1 ++ (sz, false) :: L2) /\
    Implicit.heap_ok s2 (L1 ++ (sz, false) :: L2) /\
    gl s2 = gl s /\ mem_brk (hp s2) = mem_brk (hp s).
Proof.
  intros Hok p.
  destruct (wpx_total _ _ _ (ImplicitMore.mm_free_any False s L1 sz true L2 Hok))
    as ([] & s1 & Hrun1 & Hok1 & Hg1 & Hhp1).
  destruct (wpx_total _ _ _ (ImplicitMore.mm_free_any False s1 L1 sz false L2 Hok1))
    as ([] & s2 & Hrun2 & Hok2 & Hg2 & Hhp2).
  assert (Hb : Implicit.heap_base s1 = Implicit.heap_base s)
    by (rewrite !ImplicitFacts.heap_base_eq, Hhp1; reflexivity).
  rewrite Hb in Hrun2.
  exists s1, s2. split; [exact Hrun1|]. split; [exact Hrun2|]. split; [exact Hok1|].
  split; [exact Hok2|]. split; [congruence|]. rewrite Hhp2, Hhp1. reflexivity.
Qed.

(** X5.  The scanning allocator is first fit in address order: when the
    blocks before a free block are all in use, the free block is large
    enough and it is not beyond [mm_heap_last], [mm_malloc] returns its
    payload, and splits it or takes it whole as [place] does. *)
Theorem scan_first_fit_in_address_order (s : Implicit.st) P z R fuel size :
  Implicit.heap_ok s (P ++ (z, false) :: R) ->
  Forall (fun b => snd b = true) P ->
  Implicit.heap_base s + Implicit.total P <= Implicit.mm_heap_last (gl s) ->
  Implicit.fits size -> Implicit.required size <= z ->
  (length P < fuel)%nat ->
  exists s',
    Implicit.mm_malloc fuel size s =
      Ok (Implicit.heap_base s + Implicit.total P + 8) s' /\
    Implicit.placed P z R (Implicit.required size) s'.
Proof.
  intros Hok Hall Hlast [H0 H1] Hreq Hfuel.
  destruct (wpx_total _ _ _
              (ImplicitMore.malloc_first_fit fuel size s P z R Hok Hall Hlast H0 H1 Hreq
                 Hfuel)) as (r & s' & Hrun & -> & Hp).
  exists s'. split; [exact Hrun|exact Hp].
Qed.

(** X6.  In the scanning allocator a block given back is the next one handed
    out when nothing before it is free: after [mm_free(p)], with the blocks
    before [p] all in use, [mm_malloc] of a size that fits in the block
    returns [p] again. *)
Theorem scan_free_then_malloc (s : Implicit.st) P sz R fuel size :
  Implicit.heap_ok s (P ++ (sz, true) :: R) ->
  Forall (fun b => snd b = true) P ->
  Implicit.heap_base s + Implicit.total P <= Implicit.mm_heap_last (gl s) ->
  Implicit.fits size -> Implicit.required size <= sz ->
  (length P < fuel)%nat ->
  let p := Implicit.heap_base s + Implicit.total P + 8 in
  exists s1 s2,
    Implicit.mm_free p s = Ok tt s1 /\
    Implicit.mm_malloc fuel size s1 = Ok p s2 /\
    Implicit.placed P sz R (Implicit.required size) s2.
Proof.
  intros Hok Hall Hlast [H0 H1] Hreq Hfuel p.
  destruct (wpx_total _ _ _ (ImplicitFacts.mm_free_spec False s P sz R Hok))
    as ([] & s1 & Hrun1 & Hok1 & Hg1 & Hhp1).
  assert (Hb : Implicit.heap_base s1 = Implicit.heap_base s)
    by (rewrite !ImplicitFacts.heap_base_eq, Hhp1; reflexivity).
  assert (Hlast1 : Implicit.heap_base s1 + Implicit.total P <=
                   Implicit.mm_heap_last (gl s1)) by (rewrite Hb, Hg1; exact Hlast).
  destruct (wpx_total _ _ _
              (ImplicitMore.malloc_first_fit fuel size s1 P sz R Hok1 Hall Hlast1 H0 H1
                 Hreq Hfuel)) as (r & s2 & Hrun2 & -> & Hp).
  exists s1, s2. split; [exact Hrun1|]. split; [rewrite Hrun2, Hb; reflexivity|exact Hp].
Qed.

(** X7.  Neither allocator checks that rounding a size up stays within
    [size_t].  In the scanning allocator a request of more than [2^64 - 8]
    bytes is served like a request of no bytes, with a block of 16 bytes; in
    the list allocator a request of more than [2^64 - 16] bytes is served
    like a request of no bytes. *)
Theorem huge_request_wraps (fuel : nat) (size : Z) :
  (2 ^ 64 - 8 < size < 2 ^ 64 ->
   Implicit.required size = 16 /\
   Implicit.mm_malloc fuel size = Implicit.mm_malloc fuel 0) /\
  (2 ^ 64 - 16 < size < 2 ^ 64 ->
   Explicit.required size = 0 /\
   Explicit.mm_malloc fuel size = Explicit.mm_malloc fuel 0).
Proof.
  split; intros Hs.
  - assert (Hr : Implicit.required size = 16).
    { unfold Implicit.required, Implicit.round_up, Implicit.sizeof_block_t,
        Implicit.ALIGNMENT, wrap.
      change (2 ^ 64) with 18446744073709551616 in *.
      replace ((8 + size) mod 18446744073709551616) with (8 + size - 18446744073709551616)
        by (apply (Z.mod_unique _ _ 1); lia).
      rewrite (Z.mod_small (8 + size - 18446744073709551616 + (16 - 1))) by lia.
      replace ((8 + size - 18446744073709551616 + (16 - 1)) / 16) with 1
        by (apply (Z.div_unique _ _ _ (size - 18446744073709551616 + 7)); lia).
      reflexivity. }
    split; [exact Hr|].
    unfold Implicit.mm_malloc. fold (Implicit.required size). fold (Implicit.required 0).
    rewrite Hr. reflexivity.
  - assert (Hr : Explicit.required size = 0).
    { unfold Explicit.required, Explicit.round_up, Explicit.ALIGNMENT, wrap.
      change (2 ^ 64) with 18446744073709551616 in *.
      replace ((size + (16 - 1)) mod 18446744073709551616)
        with (size + 15 - 18446744073709551616)
        by (apply (Z.mod_unique _ _ 1); lia).
      replace ((size + 15 - 18446744073709551616) / 16) with 0
        by (apply (Z.div_unique _ _ _ (size + 15 - 18446744073709551616)); lia).
      reflexivity. }
    split; [exact Hr|].
    unfold Explicit.mm_malloc. fold (Explicit.required size). fold (Explicit.required 0).
    rewrite Hr. reflexivity.
Qed.

(** X8.  [mm_malloc] of the list allocator asks the provider twice before
    it looks at an answer.  When no block of the list is large enough and
    the provider has room for the payload but not for the footer after it,
    the call returns [NULL] with the break moved by the payload; blocks,
    list and bytes are as before. *)
Theorem list_malloc_half_grown (s : Explicit.st) bs fl fuel size :
  Explicit.heap_ok s bs fl -> Explicit.fits size -> 0 < size \/ fl = [] ->
  (forall x, In x fl -> Explicit.block_size (bytes (hp s)) x < Explicit.required size) ->
  (length fl < fuel)%nat ->
  mem_brk (hp s) + Explicit.required size <= mem_max_addr (hp s) ->
  mem_max_addr (hp s) < mem_brk (hp s) + Explicit.required size + 8 ->
  exists s',
    Explicit.mm_malloc fuel size s = Ok NULL s' /\
    mem_brk (hp s') = mem_brk (hp s) + Explicit.required size /\
    bytes (hp s') = bytes (hp s) /\ gl s' = gl s /\
    Explicit.heap_ok s' bs fl.
Proof.
  intros Hok [H0 H1] Hnz Hsmall Hfuel Hroom Hfull.
  exact (ExplicitRefused.malloc_half_grown fuel size s bs fl Hok H0 H1 Hnz Hsmall Hfuel
           Hroom Hfull).
Qed.

(** X9.  When the provider has room for a footer but not for the payload,
    [mm_malloc] of the list allocator does not return [NULL]: the failure
    marker of the first request is used as an address, the second request
    succeeds, and the header is stored 9 bytes below the top of the address
    space, outside the region. *)
Theorem list_malloc_wild_store (s : Explicit.st) bs fl fuel size :
  Explicit.heap_ok s bs fl -> Explicit.fits size -> 0 < size \/ fl = [] ->
  (forall x, In x fl -> Explicit.block_size (bytes (hp s)) x < Explicit.required size) ->
  (length fl < fuel)%nat ->
  mem_max_addr (hp s) < mem_brk (hp s) + Explicit.required size ->
  mem_brk (hp s) + 8 <= mem_max_addr (hp s) ->
  Explicit.mm_malloc fuel size s = Fault.
Proof.
  intros Hok [H0 H1] Hnz Hsmall Hfuel Hfull Hroom.
  exact (ExplicitRefused.malloc_wild_store fuel size s bs fl Hok H0 H1 Hnz Hsmall Hfuel
           Hfull Hroom).
Qed.

(** X10.  [mm_realloc] of the list allocator does not look at what
    [mm_malloc] returns.  Whenever [mm_malloc] would return [NULL] for the
    new size, [mm_realloc] of a block in use copies to address 0 and
    faults; it never returns [NULL] for a size other than 0. *)
Theorem list_realloc_copies_to_null (s : Explicit.st) P osz R fl fuel size s' :
  Explicit.heap_ok s (P ++ (osz, true) :: R) fl -> 16 <= osz ->
  0 < size -> size + 15 < 2 ^ 64 ->
  Explicit.mm_malloc fuel size s = Ok NULL s' ->
  Explicit.mm_realloc fuel (Explicit.heap_base s + Explicit.span P + 16) size s = Fault.
Proof.
  intros Hok Hosz H0 H1 Hrun.
  exact (ExplicitRefused.realloc_of_null fuel size s P osz R fl s' Hok Hosz H0 H1 Hrun).
Qed.

(** X11.  A request of no bytes is not safe in the list allocator once the
    list has a node.  [find_fit(0)] takes the node before the tail; when
    its block has 32 bytes or more, [split] makes a block with no payload,
    whose footer lies where the node's [prev] was, and unlinking the node
    follows that footer as a pointer: a store to address 9. *)
Theorem list_malloc_zero_faults (s : Explicit.st) P bsz R l fuel :
  Explicit.heap_ok s (P ++ (bsz, false) :: R)
    (l ++ [Explicit.heap_base s + Explicit.span P + 16]) ->
  32 <= bsz -> (1 <= fuel)%nat ->
  Explicit.mm_malloc fuel 0 s = Fault.
Proof.
  intros Hok Hbig Hfuel.
  exact (FitFacts.malloc_zero_split_faults fuel s P bsz R l Hok Hbig Hfuel).
Qed.

(** X12.  [get_prev_size] of the list allocator masks the footer with
    [-1], which keeps every bit: it returns the size of the block before
    only when that block is free, and the size plus one when it is in use.
    [is_prev_allocated] reads the flag from the same word. *)
Theorem list_prev_size_keeps_flag (s : Explicit.st) P sz al R fl :
  Explicit.heap_ok s (P ++ (sz, al) :: R) fl ->
  let next := Explicit.heap_base s + Explicit.span P + sz + 16 in
  Explicit.get_prev_size next s = Ok (sz + Z.b2z al) s /\
  Explicit.is_prev_allocated next s = Ok al s.
Proof.
  intros Hok next. pose proof Hok as [Hsh _].
  pose proof (ExplicitFacts.shape_bounded _ _ _ Hsh) as Hbd.
  destruct (ExplicitFacts.shape_span _ _ _ Hsh) as (S1 & S2 & S3 & S4 & S5 & S6).
  pose proof Hsh as [_ _ _ _ _ _ _ Htags _ _ _ _ _].
  apply ExplicitFacts.tags_app in Htags as [HP HR]. simpl in HR.
  destruct HR as (T0 & T1 & T2 & T3 & T4 & T5).
  pose proof (ExplicitFacts.tags_span _ _ _ HP) as [HsP _].
  pose proof (ExplicitFacts.tags_span _ _ _ T5) as [HsR _].
  rewrite ExplicitFacts.span_app in S3. simpl in S3.
  pose proof (ExplicitFacts.ix_heap_base_eq s) as Hb.
  assert (Hin : in_heap (hp s) next 8 = true) by (apply in_heap_true; unfold next; lia).
  assert (Hl : load64 (bytes (hp s)) next = Explicit.encode sz al).
  { unfold next. rewrite <- T1. f_equal. lia. }
  split; apply wpx_ok.
  - unfold Explicit.get_prev_size, Explicit.off_footer.
    rewrite Z.add_0_r, wrap_small by (unfold next; lia).
    apply wpx_bind, wpx_load; [exact Hin|]. apply wpx_ret. split; [|reflexivity].
    rewrite Hl, Z.land_m1_r. apply lor_flag. lia.
  - eapply ExplicitFacts.wpx_is_prev_allocated; [exact Hbd|exact Hin|exact Hl|exact T3|].
    split; reflexivity.
Qed.

(** X13.  In the list allocator taking a node off the list undoes putting
    it on: after [add_linked_node_to_block] and
    [remove_linked_node_from_block] of the same block the list is the one
    before, and the tail sentinel points back at its old last node. *)
Theorem list_insert_then_remove (s : Explicit.st) bs fl n :
  Explicit.shape s bs fl -> n mod 16 = 0 ->
  Explicit.in_payload (Explicit.heap_base s) bs n -> ~ In n fl ->
  exists s1 s2,
    Explicit.add_linked_node_to_block (n - 16) s = Ok tt s1 /\
    Explicit.remove_linked_node_from_block (n - 16) s1 = Ok tt s2 /\
    Explicit.shape s1 bs (fl ++ [n]) /\ Explicit.shape s2 bs fl /\
    load64 (bytes (hp s2)) (Explicit.tail (gl s2)) =
      List.last fl (Explicit.head (gl s2)).
Proof.
  intros Hsh Hn Hp Hnin.
  assert (Hw1 : wpx False (Explicit.add_linked_node_to_block (n - 16))
              (fun _ s' => Explicit.shape s' bs (fl ++ [n])) s).
  { eapply ExplicitFacts.wpx_link; eauto. }
  apply wpx_total in Hw1 as ([] & s1 & Hrun1 & Hsh1).
  assert (Hw2 : wpx False (Explicit.remove_linked_node_from_block (n - 16))
              (fun _ s' => Explicit.shape s' bs (fl ++ [])) s1).
  { eapply ExplicitFacts.wpx_unlink; [exact Hsh1|]. intros lo s' H. exact H. }
  apply wpx_total in Hw2 as ([] & s2 & Hrun2 & Hsh2).
  rewrite app_nil_r in Hsh2.
  exists s1, s2. split; [exact Hrun1|]. split; [exact Hrun2|]. split; [exact Hsh1|].
  split; [exact Hsh2|].
  pose proof Hsh2 as [_ _ _ _ Hh Ht _ _ _ _ Hlist _ _].
  destruct (ExplicitFacts.dseg_last _ _ _ _ Hlist) as [H1 _].
  rewrite Hh, Ht. exact H1.
Qed.


(** X15.  The list allocator hands out the block freed last: after
    [mm_free(p)], when the block before [p] is not free, [mm_malloc] of a
    size of at least one byte that fits in the block returns [p] again,
    whatever else the list holds. *)
Theorem list_free_then_malloc (s : Explicit.st) P sz R fl fuel size :
  Explicit.heap_ok s (P ++ (sz, true) :: R) fl -> 16 <= sz ->
  ~ Explicit.ends_free P ->
  0 < size -> size + 15 < 2 ^ 64 -> Explicit.required size <= sz ->
  (length fl + 1 < fuel)%nat ->
  let p := Explicit.heap_base s + Explicit.span P + 16 in
  exists s1 s2,
    Explicit.mm_free p s = Ok tt s1 /\ Explicit.mm_malloc fuel size s1 = Ok p s2.
Proof.
  intros Hok Hsz HnP H0 Hs1 Hreq Hfuel p.
  destruct (wpx_total _ _ _ (ExplicitFacts.ix_mm_free_spec False s P sz R fl Hok Hsz))
    as ([] & s1 & Hrun1 & (K1 & K2 & K3 & K4) & _ & bs' & fl' & Hok1 & _ & Hm).
  destruct Hm as (P1 & R1 & msz & fl1 & -> & Hspan & Hnext & Hprev).
  destruct Hprev as [(-> & _ & ->)|(psz & HP & _)];
    [|exfalso; apply HnP; now exists P1, psz].
  assert (Hb : Explicit.heap_base s1 = Explicit.heap_base s)
    by (rewrite !ExplicitFacts.ix_heap_base_eq; lia).
  pose proof Hok as [Hsh0 _].
  pose proof Hsh0 as [_ _ _ _ _ _ _ Htags0 _ _ _ _ _].
  apply ExplicitFacts.tags_app in Htags0 as [_ HR0]. simpl in HR0.
  destruct HR0 as (_ & _ & _ & _ & _ & HR0).
  assert (Hmsz : sz <= msz /\ (length fl1 <= length fl)%nat).
  { destruct Hnext as [(-> & _ & ->)|(nsz & l1 & l2 & -> & -> & ->)].
    - split; [lia|lia].
    - simpl in HR0. simpl in Hspan. rewrite !length_app. simpl. split; lia. }
  destruct Hmsz as [Hmsz Hlen].
  pose proof Hok1 as [Hsh1 _].
  pose proof Hsh1 as [_ _ _ _ _ _ _ Htags1 _ _ _ _ _].
  apply ExplicitFacts.tags_app in Htags1 as [HP1 HR1]. simpl in HR1.
  destruct HR1 as (T0 & _ & _ & T3 & _).
  assert (Hbs : Explicit.block_size (bytes (hp s1)) p = msz).
  { unfold Explicit.block_size, p. rewrite <- Hb.
    replace (Explicit.heap_base s1 + Explicit.span P + 16 - 8)
      with (Explicit.heap_base s1 + Explicit.span P + 8) by lia.
    rewrite T0. apply ExplicitFacts.ix_decode_size. exact T3. }
  pose proof Hok as [Hsh _].
  destruct (ExplicitFacts.shape_span _ _ _ Hsh) as (S1 & S2 & S3 & S4 & S5 & S6).
  pose proof Hsh as [_ _ _ _ _ _ _ Htags _ _ _ _ _].
  apply ExplicitFacts.tags_app in Htags as [HP _].
  pose proof (ExplicitFacts.tags_span _ _ _ HP) as [HsP _].
  pose proof (ExplicitFacts.ix_heap_base_eq s) as Hbe.
  pose proof (ExplicitFacts.tags_span _ _ _ HR0) as [HsR _].
  rewrite ExplicitFacts.span_app in S3. simpl in S3.
  destruct (ExplicitFacts.ix_required_spec size ltac:(lia) Hs1) as (Hrm & Hrb & Hr16).
  specialize (Hr16 H0).
  set (req := Explicit.required size) in *.
  assert (Hfit : wpx False (Explicit.find_fit fuel req)
            (fun r s' => r = p - 16 /\ exists s2, s' = s2) s1).
  { eapply wpx_mono.
    { apply (ExplicitFacts.find_fit_spec False req s1 _ (fl1 ++ [Explicit.heap_base s +
               Explicit.span P + 16]) _ fuel Hok1 ltac:(lia) Hrm
               (or_intror (or_introl Hr16)) eq_refl).
      right. rewrite length_app. simpl. lia. }
    intros r s2 [(_ & _ & Hsmall)|(_ & _ & _ & _ & l1 & l2 & Hfl & _ & Hsmall)].
    - exfalso. specialize (Hsmall p ltac:(apply in_or_app; right; now left)). lia.
    - apply ExplicitMore.last_of_snoc in Hfl as [[Hx _]|Hin].
      + split; [fold p in Hx; lia|eauto].
      + exfalso. specialize (Hsmall _ Hin). fold p in Hsmall. lia. }
  apply wpx_total in Hfit as (r & s2 & Hrun2 & -> & _).
  exists s1, s2. split; [exact Hrun1|].
  unfold Explicit.mm_malloc. fold (Explicit.required size). fold req.
  rewrite (bind_ok _ _ _ _ _ Hrun2). cbv beta.
  destruct (Z.eqb_spec (p - 16) NULL) as [Hx|_]; [unfold NULL, p in Hx; lia|].
  cbn [negb]. cbv iota. unfold ret, Explicit.payload, Explicit.off_payload.
  rewrite wrap_small by (unfold p; lia).
  f_equal. lia.
Qed.

(** X16.  [mm_init] of the list allocator returns [true] exactly when the
    provider has 48 bytes, for the two sentinels, the prologue and the
    epilogue; the heap is then well formed and empty.  It checks the
    provider's answers late: with 32 bytes or more the break has moved and
    the sentinels are linked to each other even when the answer is
    [false]. *)
Theorem list_init_exact (lo hi : Z) :
  lo mod 16 = 0 -> 16 <= lo -> hi < 2 ^ 64 - 1 ->
  exists s,
    Explicit.mm_init (Explicit.fresh lo hi) = Ok (lo + 48 <=? hi) s /\
    (lo + 48 <= hi -> Explicit.heap_ok s [] [] /\ mem_brk (hp s) = lo + 48) /\
    (lo + 32 <= hi ->
     lo + 32 <= mem_brk (hp s) /\
     load64 (bytes (hp s)) (lo + 8) = lo + 16 /\ load64 (bytes (hp s)) (lo + 16) = lo).
Proof.
  intros Hla Hlo Hhi.
  destruct (wpx_total _ _ _ (ExplicitMore.mm_init_exact_wp lo hi Hla Hlo Hhi))
    as (r & s & Hrun & -> & Hyes & Hmid).
  exists s. split; [exact Hrun|]. split; [|exact Hmid].
  intros Hroom. apply Hyes. apply Z.leb_le. exact Hroom.
Qed.

(** X17.  A block the list allocator hands out is the caller's alone.  With
    room in the region for a new block, [mm_malloc] of at least one byte
    returns a pointer other than [NULL]: the payload of a block inside the
    region, large enough for the request, whose payload and tags share no
    byte with the payload of any block allocated before; those blocks are
    still allocated and their payloads have not changed. *)
Theorem list_malloc_block_apart (s : Explicit.st) bs fl fuel size :
  Explicit.heap_ok s bs fl -> Explicit.fits size -> 0 < size \/ fl = [] ->
  (length fl < fuel)%nat ->
  mem_brk (hp s) + Explicit.required size + 16 <= mem_max_addr (hp s) ->
  exists r s',
    Explicit.mm_malloc fuel size s = Ok r s' /\ r <> NULL /\
    exists nsz bs' fl',
      size <= nsz /\ Explicit.heap_ok s' bs' fl' /\
      In (r, nsz) (Explicit.allocs (Explicit.heap_base s') bs') /\
      mem_start_brk (hp s') + 48 <= r /\ r + nsz + 16 <= mem_brk (hp s') /\
      forall p z, In (p, z) (Explicit.allocs (Explicit.heap_base s) bs) ->
        (p + z + 16 <= r \/ r + nsz + 16 <= p) /\
        In (p, z) (Explicit.allocs (Explicit.heap_base s') bs') /\
        forall a, p <= a < p + z -> load8 (bytes (hp s')) a = load8 (bytes (hp s)) a.
Proof.
  intros Hok [H0 H1] Hnz Hfuel Hroom.
  destruct (ExplicitFacts.ix_required_spec size H0 H1) as (_ & Hrb & _).
  destruct (wpx_total _ _ _
              (ExplicitFacts.ix_mm_malloc_spec False fuel size s bs fl Hok H0 H1
                 (or_intror Hnz) (or_intror Hfuel) (or_intror Hroom)))
    as (r & s' & Hrun & K1 & K2 & K3 & K4 & Hfr & Hcase).
  exists r, s'. split; [exact Hrun|].
  destruct Hcase as [(_ & _ & _ & Hfull & _)|[Ht _]]; [lia|].
  destruct (ExplicitMore.ix_took_block _ _ _ _ Ht)
    as (nsz & bs' & fl' & Hreq & Hok' & Hin & Hlo & Hhi & Hold).
  destruct (ExplicitFacts.ix_aligned_of_alloc _ _ _ _ _ Hok' Hin) as [_ Hnn].
  pose proof (ExplicitFacts.ix_heap_base_eq s') as Hb.
  split; [exact Hnn|]. exists nsz, bs', fl'.
  split; [lia|]. split; [exact Hok'|]. split; [exact Hin|]. split; [lia|].
  split; [exact Hhi|].
  intros p z Hpz. destruct (Hold _ _ Hpz) as [Hkeep Hapart].
  split; [exact Hapart|]. split; [exact Hkeep|].
  intros a Ha. exact (Hfr _ _ _ Hpz Ha).
Qed.


(** X19.  From a state a run of the list allocator has reached, [L] being
    the pointers answered to requests of at least one byte and not given
    back since.  Such a run passes no other pointer to [mm_free] or
    [mm_realloc]; the pointer answered to a request of no bytes is not in
    [L], and [mm_free] of it can fault, as the run [Explicit.zero_free]
    does.  Every pointer of [L] is the payload of an allocated block of at
    least 16 bytes; [mm_free] of [NULL] or of a pointer of [L] returns; and
    with room in the region for a new block, [mm_malloc] and [mm_realloc]
    (of a pointer of [L]) for at least one byte return a pointer other than
    [NULL], for every loop budget above the length of the list. *)
Theorem list_calls_return (s : Explicit.st) L :
  Explicit.reach s L ->
  exists bs fl,
    Explicit.heap_ok s bs fl /\
    (forall p, p ∈ L ->
       exists sz, In (p, sz) (Explicit.allocs (Explicit.heap_base s) bs) /\ 16 <= sz) /\
    (forall ptr, ptr = NULL \/ ptr ∈ L -> exists s', Explicit.mm_free ptr s = Ok tt s') /\
    (forall fuel size,
       Explicit.fits size -> 0 < size -> (length fl < fuel)%nat ->
       mem_brk (hp s) + Explicit.required size + 16 <= mem_max_addr (hp s) ->
       exists r s', Explicit.mm_malloc fuel size s = Ok r s' /\ r <> NULL) /\
    (forall fuel ptr size,
       ptr ∈ L -> Explicit.fits size -> 0 < size -> (length fl < fuel)%nat ->
       mem_brk (hp s) + Explicit.required size + 16 <= mem_max_addr (hp s) ->
       exists r s', Explicit.mm_realloc fuel ptr size s = Ok r s' /\ r <> NULL).
Proof.
  intros Hr. apply ExplicitFacts.ix_reach_holds in Hr as (bs & fl & Hok & HL).
  exists bs, fl. split; [exact Hok|]. split; [exact HL|]. split; [|split].
  - intros ptr [->|Hp]; [exists s; reflexivity|].
    destruct (HL _ Hp) as (sz & Hin & Hsz).
    destruct (ExplicitFacts.ix_allocs_split _ _ _ _ Hin) as (P & R & -> & Hptr).
    destruct (wpx_total _ _ _ (ExplicitFacts.ix_mm_free_spec False s P sz R fl Hok Hsz))
      as ([] & s' & Hrun & _).
    exists s'. rewrite Hptr. exact Hrun.
  - intros fuel size [H0 H1] Hpos Hfuel Hroom.
    destruct (ExplicitMore.malloc_with_room s bs fl fuel size Hok H0 H1 Hpos Hfuel Hroom)
      as (r & s' & Hrun & Hnn).
    eauto.
  - intros fuel ptr size Hp [H0 H1] Hpos Hfuel Hroom.
    destruct (HL _ Hp) as (sz & Hin & Hsz).
    destruct (ExplicitFacts.ix_allocs_split _ _ _ _ Hin) as (P & R & -> & Hptr).
    destruct (wpx_total _ _ _
                (ExplicitFacts.ix_mm_realloc_spec False fuel size s P sz R fl Hok Hsz Hpos
                   H1 (or_intror Hfuel) (or_intror Hroom)))
      as (r & s' & Hrun & _ & _ & _ & Hnn & _).
    exists r, s'. rewrite Hptr. split; [exact Hrun|exact Hnn].
Qed.

(** X20.  [mm_init] of the scanning allocator returns [true] exactly when
    the provider has the 8 bytes of padding that bring the first payload to
    a multiple of 16, and changes nothing when it has not.  The first
    [mm_malloc] after it, given room, puts its block at the break and
    returns the address 16 bytes above the start of the region. *)
Theorem scan_init_then_malloc (lo hi : Z) :
  lo mod 16 = 0 -> 0 <= lo -> hi < 2 ^ 64 - 1 ->
  exists s0,
    Implicit.mm_init (Implicit.fresh lo hi) = Ok (lo + 8 <=? hi) s0 /\
    (hi < lo + 8 -> s0 = Implicit.fresh lo hi) /\
    (lo + 8 <= hi ->
     Implicit.heap_ok s0 [] /\ mem_brk (hp s0) = lo + 8 /\
     forall fuel size,
       Implicit.fits size -> lo + 8 + Implicit.required size <= hi ->
       exists s1,
         Implicit.mm_malloc fuel size s0 = Ok (lo + 16) s1 /\
         Implicit.heap_ok s1 [(Implicit.required size, true)] /\
         Implicit.mm_heap_first (gl s1) = lo + 8 /\
         Implicit.mm_heap_last (gl s1) = lo + 8).
Proof.
  intros Hla Hlo Hhi.
  unfold Implicit.mm_init, bind, sbrk, mem_sbrk, Implicit.ALIGNMENT, Implicit.sizeof_block_t.
  cbn [Implicit.fresh hp gl mem_init mem_brk mem_max_addr].
  replace (lo + (16 - 8)) with (lo + 8) by lia.
  destruct (Z.leb_spec (lo + 8) hi) as [Hroom|Hfull].
  - destruct (Z.eqb_spec lo SBRK_FAILED) as [Hx|_]; [unfold SBRK_FAILED in Hx; lia|].
    eexists. split; [reflexivity|]. split; [intros; lia|]. intros _.
    set (s0 := mkState _ _).
    assert (Hok0 : Implicit.heap_ok s0 []).
    { constructor; unfold Implicit.heap_base, Implicit.sizeof_block_t; simpl; try lia;
        try assumption; auto. }
    split; [exact Hok0|]. split; [reflexivity|].
    intros fuel size [H0 H1] Hr.
    destruct (ImplicitFacts.required_spec size H0 H1) as (Hrm & Hrb & Hr16).
    set (req := Implicit.required size) in *.
    unfold Implicit.mm_malloc. fold (Implicit.required size). fold req.
    unfold bind at 1. cbn [get_gl s0 gl Implicit.mm_heap_first].
    change (NULL =? NULL) with true. cbv iota.
    unfold bind at 1. unfold sbrk, mem_sbrk. cbn [s0 hp gl mem_brk mem_max_addr].
    destruct (Z.leb_spec (lo + 8 + req) hi) as [_|Hx]; [|lia].
    destruct (Z.eqb_spec (lo + 8) SBRK_FAILED) as [Hx|_]; [unfold SBRK_FAILED in Hx; lia|].
    unfold Implicit.set_header, bind, store, write64, in_heap, put_gl, ret.
    cbn [hp gl mem_init mem_start_brk mem_brk bytes set_bytes].
    destruct (Z.leb_spec lo (lo + 8)) as [_|Hx]; [|lia].
    destruct (Z.leb_spec (lo + 8 + 8) (lo + 8 + req)) as [_|Hx]; [|lia].
    cbn [andb]. unfold Implicit.payload, Implicit.sizeof_block_t.
    rewrite wrap_small by lia.
    eexists. split; [f_equal; lia|]. cbn [gl Implicit.mm_heap_first Implicit.mm_heap_last].
    split; [|split; reflexivity].
    constructor; unfold Implicit.heap_base, Implicit.sizeof_block_t;
      cbn [hp gl mem_init mem_start_brk mem_brk mem_max_addr bytes set_bytes Implicit.total fold_right
           fst Implicit.chain Implicit.mm_heap_first Implicit.mm_heap_last];
      try lia; try assumption.
    split; [|split; [lia|split; [exact Hrm|exact I]]].
    apply load64_store64_eq. apply ImplicitFacts.encode_range; [exact Hrm|lia].
  - eexists. split; [reflexivity|]. split; [reflexivity|]. intros; lia.
Qed.

(** *** The properties at sample states *)

Lemma scan_calls_return_witness :
  Implicit.reach Implicit.after_one_block (Implicit.live_after ∅ (Implicit.Malloc 8) 1040) /\
  Implicit.valid (Implicit.live_after ∅ (Implicit.Malloc 8) 1040) (Implicit.Free 1040) /\
  exists bs, Implicit.heap_ok Implicit.after_one_block bs /\
    forall fuel, (length bs < fuel)%nat ->
      exists r s',
        Implicit.run_call fuel (Implicit.Free 1040) Implicit.after_one_block = Ok r s'.
Proof.
  assert (R1 : Implicit.reach Implicit.after_init ∅).
  { apply (Implicit.reach_init 1024 4096); [reflexivity|lia|run_fact|exact scan_init_run]. }
  assert (V1 : Implicit.valid ∅ (Implicit.Malloc 8)) by (split; run_fact).
  assert (C1 : Implicit.run_call 10 (Implicit.Malloc 8) Implicit.after_init =
               Ok 1040 Implicit.after_one_block) by run_eq.
  pose proof (Implicit.reach_step _ _ _ _ _ _ R1 V1 C1) as R1'.
  assert (V1' : Implicit.valid (Implicit.live_after ∅ (Implicit.Malloc 8) 1040)
                  (Implicit.Free 1040)).
  { right. change (1040 ∈ (∅ ∪ {[1040]} : gset Z)). set_solver. }
  split; [exact R1'|]. split; [exact V1'|].
  exact (scan_calls_return Implicit.after_one_block _ (Implicit.Free 1040) R1' V1').
Defined.

Lemma scan_malloc_block_apart_witness :
  Implicit.heap_ok Implicit.after_one_block [(16, true)] /\ Implicit.fits 8 /\
  exists r s',
    Implicit.mm_malloc 10 8 Implicit.after_one_block = Ok r s' /\
    (r <> NULL ->
     exists nsz bs',
       8 + 8 <= nsz /\
       mem_start_brk (hp s') + 16 <= r /\ r - 8 + nsz <= mem_brk (hp s') /\
       Implicit.heap_ok s' bs' /\
       In (r - 8, nsz) (Implicit.allocs (Implicit.heap_base s') bs') /\
       forall b z,
         In (b, z) (Implicit.allocs (Implicit.heap_base Implicit.after_one_block)
                      [(16, true)]) ->
         (b + z <= r - 8 \/ r - 8 + nsz <= b) /\
         In (b, z) (Implicit.allocs (Implicit.heap_base s') bs') /\
         forall a, b <= a < b + z ->
           load8 (bytes (hp s')) a = load8 (bytes (hp Implicit.after_one_block)) a).
Proof.
  assert (F1 : Implicit.fits 8) by (split; run_fact).
  split; [exact scan_one_block_ok|]. split; [exact F1|].
  exact (scan_malloc_block_apart Implicit.after_one_block [(16, true)] 10%nat 8
           scan_one_block_ok F1 ltac:(simpl; lia)).
Defined.

Lemma scan_calloc_zeroed_witness :
  Implicit.heap_ok Implicit.after_one_block [(16, true)] /\
  Implicit.fits (wrap (2 * 4)) /\
  exists r s',
    Implicit.mm_calloc 10 2 4 Implicit.after_one_block = Ok r s' /\
    (r <> NULL ->
     (forall i, 0 <= i < wrap (2 * 4) -> load8 (bytes (hp s')) (r + i) = 0) /\
     (exists nsz bs',
        wrap (2 * 4) + 8 <= nsz /\ Implicit.heap_ok s' bs' /\
        In (r - 8, nsz) (Implicit.allocs (Implicit.heap_base s') bs')) /\
     forall b z a,
       In (b, z) (Implicit.allocs (Implicit.heap_base Implicit.after_one_block)
                    [(16, true)]) ->
       b <= a < b + z ->
       load8 (bytes (hp s')) a = load8 (bytes (hp Implicit.after_one_block)) a).
Proof.
  assert (F1 : Implicit.fits (wrap (2 * 4))) by (split; run_fact).
  split; [exact scan_one_block_ok|]. split; [exact F1|].
  exact (scan_calloc_zeroed Implicit.after_one_block [(16, true)] 10%nat 2 4
           scan_one_block_ok F1 ltac:(simpl; lia)).
Defined.

Lemma scan_double_free_witness :
  Implicit.heap_ok Implicit.after_two_blocks ([(16, true)] ++ [(16, true)]) /\
  let p := Implicit.heap_base Implicit.after_two_blocks + Implicit.total [(16, true)] + 8 in
  exists s1 s2,
    Implicit.mm_free p Implicit.after_two_blocks = Ok tt s1 /\
    Implicit.mm_free p s1 = Ok tt s2 /\
    Implicit.heap_ok s1 ([(16, true)] ++ [(16, false)]) /\
    Implicit.heap_ok s2 ([(16, true)] ++ [(16, false)]) /\
    gl s2 = gl Implicit.after_two_blocks /\
    mem_brk (hp s2) = mem_brk (hp Implicit.after_two_blocks).
Proof.
  split; [exact scan_two_blocks_ok|].
  exact (scan_double_free Implicit.after_two_blocks [(16, true)] 16 [] scan_two_blocks_ok).
Defined.

Lemma scan_first_fit_in_address_order_witness :
  Implicit.heap_ok Implicit.after_free_second ([(16, true)] ++ [(16, false)]) /\
  Forall (fun b : Z * bool => snd b = true) [(16, true)] /\
  Implicit.heap_base Implicit.after_free_second + Implicit.total [(16, true)] <=
    Implicit.mm_heap_last (gl Implicit.after_free_second) /\
  Implicit.fits 8 /\ Implicit.required 8 <= 16 /\
  exists s',
    Implicit.mm_malloc 2 8 Implicit.after_free_second =
      Ok (Implicit.heap_base Implicit.after_free_second + Implicit.total [(16, true)] + 8)
         s' /\
    Implicit.placed [(16, true)] 16 [] (Implicit.required 8) s'.
Proof.
  assert (A1 : Forall (fun b : Z * bool => snd b = true) [(16, true)])
    by (constructor; [reflexivity|constructor]).
  assert (Q1 : Implicit.heap_base Implicit.after_free_second + Implicit.total [(16, true)] <=
               Implicit.mm_heap_last (gl Implicit.after_free_second)) by run_fact.
  assert (F1 : Implicit.fits 8) by (split; run_fact).
  assert (Q2 : Implicit.required 8 <= 16) by run_fact.
  split; [exact scan_free_second_ok|]. split; [exact A1|]. split; [exact Q1|].
  split; [exact F1|]. split; [exact Q2|].
  exact (scan_first_fit_in_address_order Implicit.after_free_second [(16, true)] 16 []
           2%nat 8 scan_free_second_ok A1 Q1 F1 Q2 ltac:(simpl; lia)).
Defined.

Lemma scan_free_then_malloc_witness :
  Implicit.heap_ok Implicit.after_two_blocks ([(16, true)] ++ [(16, true)]) /\
  Forall (fun b : Z * bool => snd b = true) [(16, true)] /\
  Implicit.heap_base Implicit.after_two_blocks + Implicit.total [(16, true)] <=
    Implicit.mm_heap_last (gl Implicit.after_two_blocks) /\
  Implicit.fits 8 /\ Implicit.required 8 <= 16 /\
  let p := Implicit.heap_base Implicit.after_two_blocks + Implicit.total [(16, true)] + 8 in
  exists s1 s2,
    Implicit.mm_free p Implicit.after_two_blocks = Ok tt s1 /\
    Implicit.mm_malloc 2 8 s1 = Ok p s2 /\
    Implicit.placed [(16, true)] 16 [] (Implicit.required 8) s2.
Proof.
  assert (A1 : Forall (fun b : Z * bool => snd b = true) [(16, true)])
    by (constructor; [reflexivity|constructor]).
  assert (Q1 : Implicit.heap_base Implicit.after_two_blocks + Implicit.total [(16, true)] <=
               Implicit.mm_heap_last (gl Implicit.after_two_blocks)) by run_fact.
  assert (F1 : Implicit.fits 8) by (split; run_fact).
  assert (Q2 : Implicit.required 8 <= 16) by run_fact.
  split; [exact scan_two_blocks_ok|]. split; [exact A1|]. split; [exact Q1|].
  split; [exact F1|]. split; [exact Q2|].
  exact (scan_free_then_malloc Implicit.after_two_blocks [(16, true)] 16 [] 2%nat 8
           scan_two_blocks_ok A1 Q1 F1 Q2 ltac:(simpl; lia)).
Defined.

Lemma huge_request_wraps_witness :
  (2 ^ 64 - 8 < 2 ^ 64 - 1 < 2 ^ 64 /\
   Implicit.required (2 ^ 64 - 1) = 16 /\
   Implicit.mm_malloc 1 (2 ^ 64 - 1) = Implicit.mm_malloc 1 0) /\
  (2 ^ 64 - 16 < 2 ^ 64 - 1 < 2 ^ 64 /\
   Explicit.required (2 ^ 64 - 1) = 0 /\
   Explicit.mm_malloc 1 (2 ^ 64 - 1) = Explicit.mm_malloc 1 0).
Proof.
  assert (Q1 : 2 ^ 64 - 8 < 2 ^ 64 - 1 < 2 ^ 64) by lia.
  assert (Q2 : 2 ^ 64 - 16 < 2 ^ 64 - 1 < 2 ^ 64) by lia.
  split.
  - split; [exact Q1|]. exact (proj1 (huge_request_wraps 1%nat (2 ^ 64 - 1)) Q1).
  - split; [exact Q2|]. exact (proj2 (huge_request_wraps 1%nat (2 ^ 64 - 1)) Q2).
Defined.

Lemma list_malloc_half_grown_witness :
  Explicit.heap_ok Explicit.after_init_16 [] [] /\ Explicit.fits 16 /\
  mem_brk (hp Explicit.after_init_16) + Explicit.required 16 <=
    mem_max_addr (hp Explicit.after_init_16) /\
  mem_max_addr (hp Explicit.after_init_16) <
    mem_brk (hp Explicit.after_init_16) + Explicit.required 16 + 8 /\
  exists s',
    Explicit.mm_malloc 1 16 Explicit.after_init_16 = Ok NULL s' /\
    mem_brk (hp s') = mem_brk (hp Explicit.after_init_16) + Explicit.required 16 /\
    bytes (hp s') = bytes (hp Explicit.after_init_16) /\
    gl s' = gl Explicit.after_init_16 /\
    Explicit.heap_ok s' [] [].
Proof.
  assert (F1 : Explicit.fits 16) by (split; run_fact).
  assert (Q1 : mem_brk (hp Explicit.after_init_16) + Explicit.required 16 <=
               mem_max_addr (hp Explicit.after_init_16)) by run_fact.
  assert (Q2 : mem_max_addr (hp Explicit.after_init_16) <
               mem_brk (hp Explicit.after_init_16) + Explicit.required 16 + 8) by run_fact.
  split; [exact list_init_16_ok|]. split; [exact F1|]. split; [exact Q1|].
  split; [exact Q2|].
  exact (list_malloc_half_grown Explicit.after_init_16 [] [] 1%nat 16 list_init_16_ok F1
           ltac:(left; lia) ltac:(intros x []) ltac:(simpl; lia) Q1 Q2).
Defined.

Lemma list_malloc_wild_store_witness :
  Explicit.heap_ok Explicit.after_init_8 [] [] /\ Explicit.fits 16 /\
  mem_max_addr (hp Explicit.after_init_8) <
    mem_brk (hp Explicit.after_init_8) + Explicit.required 16 /\
  mem_brk (hp Explicit.after_init_8) + 8 <= mem_max_addr (hp Explicit.after_init_8) /\
  Explicit.mm_malloc 1 16 Explicit.after_init_8 = Fault.
Proof.
  assert (F1 : Explicit.fits 16) by (split; run_fact).
  assert (Q1 : mem_max_addr (hp Explicit.after_init_8) <
               mem_brk (hp Explicit.after_init_8) + Explicit.required 16) by run_fact.
  assert (Q2 : mem_brk (hp Explicit.after_init_8) + 8 <=
               mem_max_addr (hp Explicit.after_init_8)) by run_fact.
  split; [exact list_init_8_ok|]. split; [exact F1|]. split; [exact Q1|].
  split; [exact Q2|].
  exact (list_malloc_wild_store Explicit.after_init_8 [] [] 1%nat 16 list_init_8_ok F1
           ltac:(left; lia) ltac:(intros x []) ltac:(simpl; lia) Q1 Q2).
Defined.

Lemma list_realloc_copies_to_null_witness :
  Explicit.heap_ok Explicit.after_one_block ([] ++ [(16, true)]) [] /\
  Explicit.mm_malloc 10 4096 Explicit.after_one_block = Ok NULL Explicit.after_one_block /\
  Explicit.mm_realloc 10
    (Explicit.heap_base Explicit.after_one_block + Explicit.span [] + 16) 4096
    Explicit.after_one_block = Fault.
Proof.
  assert (R1 : Explicit.mm_malloc 10 4096 Explicit.after_one_block =
               Ok NULL Explicit.after_one_block) by run_eq.
  split; [exact list_one_block_ok|]. split; [exact R1|].
  exact (list_realloc_copies_to_null Explicit.after_one_block [] 16 [] [] 10%nat 4096 _
           list_one_block_ok ltac:(lia) ltac:(lia) ltac:(run_fact) R1).
Defined.

Lemma list_malloc_zero_faults_witness :
  Explicit.heap_ok Explicit.after_two_frees ([] ++ [(64, false)])
    ([] ++ [Explicit.heap_base Explicit.after_two_frees + Explicit.span [] + 16]) /\
  Explicit.mm_malloc 1 0 Explicit.after_two_frees = Fault.
Proof.
  assert (H1 : Explicit.heap_ok Explicit.after_two_frees ([] ++ [(64, false)])
                 ([] ++ [Explicit.heap_base Explicit.after_two_frees +
                         Explicit.span [] + 16])) by exact list_two_frees_ok.
  split; [exact H1|].
  exact (list_malloc_zero_faults Explicit.after_two_frees [] 64 [] [] 1%nat H1
           ltac:(lia) ltac:(lia)).
Defined.

Lemma list_prev_size_keeps_flag_witness :
  Explicit.heap_ok Explicit.after_one_block_roomy ([] ++ [(16, true)]) [] /\
  let next := Explicit.heap_base Explicit.after_one_block_roomy + Explicit.span [] + 16 + 16
  in
  Explicit.get_prev_size next Explicit.after_one_block_roomy =
    Ok (16 + Z.b2z true) Explicit.after_one_block_roomy /\
  Explicit.is_prev_allocated next Explicit.after_one_block_roomy =
    Ok true Explicit.after_one_block_roomy.
Proof.
  split; [exact list_one_block_roomy_ok|].
  exact (list_prev_size_keeps_flag Explicit.after_one_block_roomy [] 16 true [] []
           list_one_block_roomy_ok).
Defined.

Lemma list_insert_then_remove_witness :
  Explicit.shape Explicit.after_free_first [(16, false); (16, true)] [1072] /\
  1104 mod 16 = 0 /\
  Explicit.in_payload (Explicit.heap_base Explicit.after_free_first)
    [(16, false); (16, true)] 1104 /\
  ~ In 1104 [1072] /\
  exists s1 s2,
    Explicit.add_linked_node_to_block (1104 - 16) Explicit.after_free_first =
      Ok tt s1 /\
    Explicit.remove_linked_node_from_block (1104 - 16) s1 = Ok tt s2 /\
    Explicit.shape s1 [(16, false); (16, true)] ([1072] ++ [1104]) /\
    Explicit.shape s2 [(16, false); (16, true)] [1072] /\
    load64 (bytes (hp s2)) (Explicit.tail (gl s2)) =
      List.last [1072] (Explicit.head (gl s2)).
Proof.
  assert (S1 : Explicit.shape Explicit.after_free_first [(16, false); (16, true)] [1072])
    by exact (Explicit.ok_shape _ _ _ list_free_first_ok).
  assert (P1 : Explicit.in_payload (Explicit.heap_base Explicit.after_free_first)
                 [(16, false); (16, true)] 1104) by (right; left; split; run_fact).
  assert (N1 : ~ In 1104 [1072]) by (intros [H|[]]; discriminate H).
  split; [exact S1|]. split; [reflexivity|]. split; [exact P1|]. split; [exact N1|].
  exact (list_insert_then_remove Explicit.after_free_first [(16, false); (16, true)]
           [1072] 1104 S1 eq_refl P1 N1).
Defined.


Lemma list_free_then_malloc_witness :
  Explicit.heap_ok Explicit.after_free_first_of_three
    ([(16, false); (16, true)] ++ [(16, true)]) [1072] /\
  ~ Explicit.ends_free [(16, false); (16, true)] /\ Explicit.required 16 <= 16 /\
  let p := Explicit.heap_base Explicit.after_free_first_of_three +
           Explicit.span [(16, false); (16, true)] + 16 in
  exists s1 s2,
    Explicit.mm_free p Explicit.after_free_first_of_three = Ok tt s1 /\
    Explicit.mm_malloc 3 16 s1 = Ok p s2.
Proof.
  assert (Q1 : Explicit.required 16 <= 16) by run_fact.
  assert (E1 : ~ Explicit.ends_free [(16, false); (16, true)]).
  { intros (P' & z & H).
    change [(16, false); (16, true)] with ([(16, false)] ++ [(16, true)]) in H.
    apply app_inj_tail in H as [_ H]. discriminate H. }
  split; [exact list_free_first_of_three_ok|]. split; [exact E1|].
  split; [exact Q1|].
  exact (list_free_then_malloc Explicit.after_free_first_of_three
           [(16, false); (16, true)] 16 [] [1072] 3%nat 16
           list_free_first_of_three_ok ltac:(lia) E1 ltac:(lia)
           ltac:(run_fact) Q1 ltac:(simpl; lia)).
Defined.

Lemma list_init_exact_witness :
  (1024 mod 16 = 0 /\ 16 <= 1024 /\ 4096 < 2 ^ 64 - 1) /\
  exists s,
    Explicit.mm_init (Explicit.fresh 1024 4096) = Ok (1024 + 48 <=? 4096) s /\
    (1024 + 48 <= 4096 -> Explicit.heap_ok s [] [] /\ mem_brk (hp s) = 1024 + 48) /\
    (1024 + 32 <= 4096 ->
     1024 + 32 <= mem_brk (hp s) /\
     load64 (bytes (hp s)) (1024 + 8) = 1024 + 16 /\
     load64 (bytes (hp s)) (1024 + 16) = 1024).
Proof.
  assert (Q1 : 1024 mod 16 = 0) by reflexivity.
  assert (Q2 : 16 <= 1024) by lia.
  assert (Q3 : 4096 < 2 ^ 64 - 1) by lia.
  split; [auto|]. exact (list_init_exact 1024 4096 Q1 Q2 Q3).
Defined.

Lemma list_malloc_block_apart_witness :
  Explicit.heap_ok Explicit.after_one_block_roomy [(16, true)] [] /\ Explicit.fits 16 /\
  mem_brk (hp Explicit.after_one_block_roomy) + Explicit.required 16 + 16 <=
    mem_max_addr (hp Explicit.after_one_block_roomy) /\
  exists r s',
    Explicit.mm_malloc 1 16 Explicit.after_one_block_roomy = Ok r s' /\ r <> NULL /\
    exists nsz bs' fl',
      16 <= nsz /\ Explicit.heap_ok s' bs' fl' /\
      In (r, nsz) (Explicit.allocs (Explicit.heap_base s') bs') /\
      mem_start_brk (hp s') + 48 <= r /\ r + nsz + 16 <= mem_brk (hp s') /\
      forall p z,
        In (p, z) (Explicit.allocs (Explicit.heap_base Explicit.after_one_block_roomy)
                     [(16, true)]) ->
        (p + z + 16 <= r \/ r + nsz + 16 <= p) /\
        In (p, z) (Explicit.allocs (Explicit.heap_base s') bs') /\
        forall a, p <= a < p + z ->
          load8 (bytes (hp s')) a = load8 (bytes (hp Explicit.after_one_block_roomy)) a.
Proof.
  assert (F1 : Explicit.fits 16) by (split; run_fact).
  assert (Q1 : mem_brk (hp Explicit.after_one_block_roomy) + Explicit.required 16 + 16 <=
               mem_max_addr (hp Explicit.after_one_block_roomy)) by run_fact.
  split; [exact list_one_block_roomy_ok|]. split; [exact F1|]. split; [exact Q1|].
  exact (list_malloc_block_apart Explicit.after_one_block_roomy [(16, true)] [] 1%nat 16
           list_one_block_roomy_ok F1 ltac:(left; lia) ltac:(simpl; lia) Q1).
Defined.


Lemma list_calls_return_witness :
  Explicit.reach Explicit.after_one_block_roomy
    (Explicit.live_after ∅ (Explicit.Malloc 16) 1072) /\
  1072 ∈ Explicit.live_after ∅ (Explicit.Malloc 16) 1072 /\
  exists bs fl,
    Explicit.heap_ok Explicit.after_one_block_roomy bs fl /\
    (exists sz,
       In (1072, sz)
          (Explicit.allocs (Explicit.heap_base Explicit.after_one_block_roomy) bs) /\
       16 <= sz) /\
    (exists s', Explicit.mm_free 1072 Explicit.after_one_block_roomy = Ok tt s') /\
    (forall fuel size,
       Explicit.fits size -> 0 < size -> (length fl < fuel)%nat ->
       mem_brk (hp Explicit.after_one_block_roomy) + Explicit.required size + 16 <=
         mem_max_addr (hp Explicit.after_one_block_roomy) ->
       exists r s',
         Explicit.mm_realloc fuel 1072 size Explicit.after_one_block_roomy = Ok r s' /\
         r <> NULL).
Proof.
  assert (R0 : Explicit.reach Explicit.after_init ∅).
  { apply (Explicit.reach_init 1024 4096); [reflexivity|lia|run_fact|exact list_init_run]. }
  assert (V0 : Explicit.valid ∅ (Explicit.Malloc 16)) by (split; run_fact).
  assert (C0 : Explicit.run_call 10 (Explicit.Malloc 16) Explicit.after_init =
               Ok 1072 Explicit.after_one_block_roomy) by run_eq.
  pose proof (Explicit.reach_step _ _ _ _ _ _ R0 V0 C0) as R1.
  assert (M1 : 1072 ∈ Explicit.live_after ∅ (Explicit.Malloc 16) 1072).
  { change (1072 ∈ (∅ ∪ {[1072]} : gset Z)). set_solver. }
  split; [exact R1|]. split; [exact M1|].
  destruct (list_calls_return Explicit.after_one_block_roomy _ R1)
    as (bs & fl & Hok & HL & Hfree & _ & Hre).
  exists bs, fl. split; [exact Hok|]. split; [exact (HL 1072 M1)|].
  split; [exact (Hfree 1072 (or_intror M1))|].
  intros fuel size. exact (Hre fuel 1072 size M1).
Defined.

Lemma scan_init_then_malloc_witness :
  (1024 mod 16 = 0 /\ 0 <= 1024 /\ 4096 < 2 ^ 64 - 1) /\
  exists s0,
    Implicit.mm_init (Implicit.fresh 1024 4096) = Ok (1024 + 8 <=? 4096) s0 /\
    (4096 < 1024 + 8 -> s0 = Implicit.fresh 1024 4096) /\
    (1024 + 8 <= 4096 ->
     Implicit.heap_ok s0 [] /\ mem_brk (hp s0) = 1024 + 8 /\
     forall fuel size,
       Implicit.fits size -> 1024 + 8 + Implicit.required size <= 4096 ->
       exists s1,
         Implicit.mm_malloc fuel size s0 = Ok (1024 + 16) s1 /\
         Implicit.heap_ok s1 [(Implicit.required size, true)] /\
         Implicit.mm_heap_first (gl s1) = 1024 + 8 /\
         Implicit.mm_heap_last (gl s1) = 1024 + 8).
Proof.
  assert (Q1 : 1024 mod 16 = 0) by reflexivity.
  assert (Q2 : 0 <= 1024) by lia.
  assert (Q3 : 4096 < 2 ^ 64 - 1) by lia.
  split; [auto|]. exact (scan_init_then_malloc 1024 4096 Q1 Q2 Q3).
Defined.

End Extras.
